(** * GewitterGefahr: linking hazardous events to storm cells

    A shallow embedding of [gewittergefahr/gg_utils/linkage.py] and the
    properties of its nearest-storm matcher, temporal interpolator,
    predecessor classification, linkage reversal, cross-period
    reconciliation and persistence.

    Conventions of the embedding.
    - A pandas table is a list of row records, one field per column that
      the modelled code reads or writes; row positions are list positions
      (the tables carry pandas' default unique index).
    - Unix times are [Z]; coordinates in metres are exact rationals [Q], so
      comparisons are those of real arithmetic (no rounding, no NaN among
      coordinates).
    - A linkage distance is a [linkage_distance]: NaN, the literal [0.], or
      the square root of a rational.
    - Where a statement is about the distances themselves, the matcher is
      taken in the arithmetic of the program instead: module [Binary64]
      has [_find_nearest_storms_one_time] on IEEE 754 binary64 numbers.
    - A Python set of row indices is a [gset nat]; a dict with string keys
      is a [gmap string _].
    - Code that raises returns [None] (or a [ValueError] value where the
      claim is about the exception). *)

From Stdlib Require Import ZArith QArith Qabs Lqa Lia List String Ascii Bool.
From Stdlib Require Import Permutation Sorted OrderedTypeEx.
From Stdlib Require Floats.SpecFloat.
From stdpp Require Import base gmap sets list strings.

Set Warnings "-clear-no-such-hyp".

(** ** numpy and list idioms used by the module *)

(** Total orders that [numpy.unique] sorts by. *)
Class NumpyOrd (A : Type) := {
  np_compare : A -> A -> comparison;
  np_compare_eq : forall a b, np_compare a b = Eq <-> a = b;
  np_compare_antisym : forall a b, np_compare b a = CompOpp (np_compare a b);
  np_compare_trans : forall a b c,
    np_compare a b = Lt -> np_compare b c = Lt -> np_compare a c = Lt
}.

Lemma string_compare_trans (a b c : string) :
  String.compare a b = Lt -> String.compare b c = Lt -> String.compare a c = Lt.
Proof.
  intros Hab Hbc.
  apply String_as_OT.cmp_lt. apply String_as_OT.cmp_lt in Hab, Hbc.
  exact (String_as_OT.lt_trans _ _ _ Hab Hbc).
Qed.

#[export] Instance string_numpy_ord : NumpyOrd string := {|
  np_compare := String.compare;
  np_compare_eq := String_as_OT.cmp_eq;
  np_compare_antisym := fun a b => String.compare_antisym b a;
  np_compare_trans := string_compare_trans
|}.

Lemma Z_compare_trans (a b c : Z) :
  Z.compare a b = Lt -> Z.compare b c = Lt -> Z.compare a c = Lt.
Proof. rewrite !Z.compare_lt_iff. lia. Qed.

#[export] Instance Z_numpy_ord : NumpyOrd Z := {|
  np_compare := Z.compare;
  np_compare_eq := Z.compare_eq_iff;
  np_compare_antisym := fun a b => Z.compare_antisym a b;
  np_compare_trans := Z_compare_trans
|}.

Definition np_lt `{NumpyOrd A} (a b : A) : Prop := np_compare a b = Lt.
Definition np_le `{NumpyOrd A} (a b : A) : Prop := np_compare a b <> Gt.

(** Insertion of one value into an ascending list without duplicates. *)
Fixpoint insert_unique `{NumpyOrd A} (x : A) (l : list A) : list A :=
  match l with
  | [] => [x]
  | y :: l' =>
      match np_compare x y with
      | Lt => x :: y :: l'
      | Eq => y :: l'
      | Gt => y :: insert_unique x l'
      end
  end.

(** [numpy.unique(a)]: the distinct values of [a] in ascending order. *)
Definition np_unique `{NumpyOrd A} (a : list A) : list A :=
  foldr insert_unique [] a.

(** [l.index(x)]: position of the first [x] in [l].  Every call in the
    module looks up a value taken from [l] itself, so the ValueError of an
    absent value is never reached; the model returns [length l] there. *)
Fixpoint index `{EqDecision A} (x : A) (l : list A) : nat :=
  match l with
  | [] => 0
  | y :: l' => if decide (x = y) then 0 else S (index x l')
  end.

(** Second result of [numpy.unique(a, return_inverse=True)]. *)
Definition np_unique_inverse `{NumpyOrd A} `{EqDecision A} (a : list A)
  : list nat :=
  map (fun x => index x (np_unique a)) a.

Fixpoint np_where_from (i : nat) (flags : list bool) : list nat :=
  match flags with
  | [] => []
  | b :: r => if b then i :: np_where_from (S i) r else np_where_from (S i) r
  end.

(** [numpy.where(flags)[0]]: ascending positions of the true flags. *)
Definition np_where (flags : list bool) : list nat := np_where_from 0 flags.

(** [values[indices]] for an index array drawn from [range(len(values))]. *)
Definition np_take {A} (values : list A) (indices : list nat) : list A :=
  omap (fun i => values !! i) indices.

Fixpoint argmin_from {A} (lt : A -> A -> bool) (best : A) (best_i i : nat)
  (l : list A) : nat :=
  match l with
  | [] => best_i
  | x :: r =>
      if lt x best then argmin_from lt x i (S i) r
      else argmin_from lt best best_i (S i) r
  end.

(** [numpy.argmin(a)]: position of the first minimum; ValueError ([None])
    on an empty array. *)
Definition np_argmin {A} (lt : A -> A -> bool) (a : list A) : option nat :=
  match a with
  | [] => None
  | x :: r => Some (argmin_from lt x 0 1 r)
  end.

Definition Qlt_bool (a b : Q) : bool := negb (Qle_bool b a).

(** [numpy.min(a)] on a non-empty array of rationals. *)
Fixpoint np_min (first : Q) (rest : list Q) : Q :=
  match rest with
  | [] => first
  | x :: r => np_min (if Qlt_bool x first then x else first) r
  end.

(** *** Facts about the idioms *)

Section NumpyFacts.
Context `{NumpyOrd A}.

Lemma np_compare_refl (a : A) : np_compare a a = Eq.
Proof. by apply np_compare_eq. Qed.

Lemma np_compare_gt_lt (a b : A) : np_compare a b = Gt -> np_compare b a = Lt.
Proof. intros Hgt. by rewrite np_compare_antisym, Hgt. Qed.

Lemma np_le_refl (a : A) : np_le a a.
Proof. unfold np_le. by rewrite np_compare_refl. Qed.

Lemma np_lt_le (a b : A) : np_lt a b -> np_le a b.
Proof. unfold np_lt, np_le. by intros ->. Qed.

Lemma np_le_antisym (a b : A) : np_le a b -> np_le b a -> a = b.
Proof.
  unfold np_le. intros Hab Hba. apply np_compare_eq.
  rewrite (np_compare_antisym a b) in Hba.
  destruct (np_compare a b); simpl in *; congruence.
Qed.

Lemma elem_of_insert_unique (x y : A) (l : list A) :
  y ∈ insert_unique x l <-> y = x \/ y ∈ l.
Proof.
  induction l as [|z l IH]; simpl.
  - rewrite list_elem_of_singleton. set_solver.
  - destruct (np_compare x z) eqn:Hc.
    + apply np_compare_eq in Hc as ->. set_solver.
    + set_solver.
    + rewrite !elem_of_cons, IH. tauto.
Qed.

Lemma elem_of_np_unique (y : A) (l : list A) : y ∈ np_unique l <-> y ∈ l.
Proof.
  induction l as [|x l IH]; simpl; [done|].
  rewrite elem_of_insert_unique, IH. set_solver.
Qed.

Lemma insert_unique_sorted (x : A) (l : list A) :
  StronglySorted np_lt l -> StronglySorted np_lt (insert_unique x l).
Proof.
  induction 1 as [|z l Hs IH Hall]; simpl.
  - repeat constructor.
  - destruct (np_compare x z) eqn:Hc.
    + by constructor.
    + constructor; [by constructor|].
      constructor; [done|].
      eapply Forall_impl; [exact Hall|].
      intros w Hw. exact (np_compare_trans _ _ _ Hc Hw).
    + constructor; [done|].
      apply Forall_forall. intros w Hw.
      apply elem_of_insert_unique in Hw as [->|Hw].
      * by apply np_compare_gt_lt.
      * by eapply Forall_forall in Hall.
Qed.

Lemma np_unique_sorted (l : list A) : StronglySorted np_lt (np_unique l).
Proof.
  induction l; simpl; [constructor|]. by apply insert_unique_sorted.
Qed.

(** Two strictly ascending lists with the same members are equal. *)
Lemma sorted_same_members (l1 l2 : list A) :
  StronglySorted np_lt l1 -> StronglySorted np_lt l2 ->
  (forall x, x ∈ l1 <-> x ∈ l2) -> l1 = l2.
Proof.
  intros H1. revert l2.
  induction H1 as [|a l1 Hs1 IH Ha]; intros l2 H2 Hmem.
  - destruct l2 as [|b l2]; [done|].
    specialize (Hmem b). set_solver.
  - destruct H2 as [|b l2 Hs2 Hb].
    + specialize (Hmem a). set_solver.
    + assert (a = b) as ->.
      { apply np_le_antisym.
        - assert (b ∈ a :: l1) as Hin by (apply Hmem; set_solver).
          apply elem_of_cons in Hin as [->|Hin]; [apply np_le_refl|].
          apply np_lt_le. by eapply Forall_forall in Ha.
        - assert (a ∈ b :: l2) as Hin by (apply Hmem; set_solver).
          apply elem_of_cons in Hin as [->|Hin]; [apply np_le_refl|].
          apply np_lt_le. by eapply Forall_forall in Hb. }
      f_equal. apply IH; [done|].
      intros x. split; intros Hx.
      * assert (x ∈ b :: l2) as Hin by (apply Hmem; set_solver).
        apply elem_of_cons in Hin as [->|Hin]; [|done].
        eapply Forall_forall in Ha; [|exact Hx].
        unfold np_lt in Ha. rewrite np_compare_refl in Ha. done.
      * assert (x ∈ b :: l1) as Hin by (apply Hmem; set_solver).
        apply elem_of_cons in Hin as [->|Hin]; [|done].
        eapply Forall_forall in Hb; [|exact Hx].
        unfold np_lt in Hb. rewrite np_compare_refl in Hb. done.
Qed.

Lemma np_unique_same_members (l1 l2 : list A) :
  (forall x, x ∈ l1 <-> x ∈ l2) -> np_unique l1 = np_unique l2.
Proof.
  intros Hmem. apply sorted_same_members; try apply np_unique_sorted.
  intros x. by rewrite !elem_of_np_unique.
Qed.

(** The first hit of a scan over an ascending list is the least hit. *)
Lemma find_sorted_least (p : A -> bool) (l : list A) (x : A) :
  StronglySorted np_lt l -> List.find p l = Some x ->
  x ∈ l /\ p x = true /\ forall y, y ∈ l -> p y = true -> np_le x y.
Proof.
  induction 1 as [|a l Hs IH Ha]; simpl; [done|].
  destruct (p a) eqn:Hpa.
  - intros [= <-]. split; [set_solver|]. split; [done|].
    intros y Hy _. apply elem_of_cons in Hy as [->|Hy]; [apply np_le_refl|].
    apply np_lt_le. by eapply Forall_forall in Ha.
  - intros Hfind. destruct (IH Hfind) as (Hin & Hpx & Hleast).
    split; [set_solver|]. split; [done|].
    intros y Hy Hpy. apply elem_of_cons in Hy as [->|Hy]; [congruence|].
    by apply Hleast.
Qed.

Lemma find_none_all_false (p : A -> bool) (l : list A) :
  List.find p l = None <-> forall y, y ∈ l -> p y = false.
Proof.
  induction l as [|a l IH]; simpl.
  - split; [|done]. intros _ y Hy. by apply elem_of_nil in Hy.
  - destruct (p a) eqn:Hpa.
    + split; [done|]. intros Hall. rewrite Hall in Hpa by set_solver. done.
    + rewrite IH. split.
      * intros Hall y Hy. apply elem_of_cons in Hy as [->|Hy]; auto.
      * intros Hall y Hy. apply Hall. set_solver.
Qed.

End NumpyFacts.

Lemma np_take_where_from {A B} (f : A -> B) (p : A -> bool) (t : list A)
  (pre : list B) :
  np_take (pre ++ map f t) (np_where_from (length pre) (map p t))
  = map f (List.filter p t).
Proof.
  revert pre. induction t as [|x t IH]; intros pre; simpl; [done|].
  pose proof (IH (pre ++ [f x])) as IH'.
  rewrite <- app_assoc, length_app in IH'. simpl in IH'.
  replace (length pre + 1)%nat with (S (length pre)) in IH' by lia.
  destruct (p x); simpl.
  - unfold np_take in *. simpl.
    rewrite lookup_app_r by lia. rewrite Nat.sub_diag. simpl.
    by rewrite IH'.
  - exact IH'.
Qed.

(** [values[numpy.where(flags)[0]]] keeps the flagged rows, in order. *)
Lemma np_take_where {A B} (f : A -> B) (p : A -> bool) (t : list A) :
  np_take (map f t) (np_where (map p t)) = map f (List.filter p t).
Proof. exact (np_take_where_from f p t []). Qed.

Lemma zip_with_map_same {A B C D} (g : B -> C -> D) (a : A -> B) (b : A -> C)
  (t : list A) :
  zip_with g (map a t) (map b t) = map (fun v => g (a v) (b v)) t.
Proof. induction t; simpl; congruence. Qed.

Lemma index_lookup `{EqDecision A} (x : A) (l : list A) :
  x ∈ l -> l !! index x l = Some x.
Proof.
  induction l as [|y l IH]; simpl; [by intros ?%elem_of_nil|].
  intros Hin. destruct (decide (x = y)) as [->|Hne]; [done|].
  simpl. apply IH. set_solver.
Qed.

Lemma index_inj `{EqDecision A} (x y : A) (l : list A) :
  x ∈ l -> y ∈ l -> index x l = index y l -> x = y.
Proof.
  intros Hx Hy Heq. apply index_lookup in Hx, Hy.
  rewrite Heq in Hx. congruence.
Qed.

(** ** Nearest-storm matcher *)

(** One row of the interpolated-vertex table made by
    [_interp_storms_in_time]: one vertex of one storm outline. *)
Record Vertex := {
  vertex_secondary_id_string : string;
  vertex_x_metres : Q;
  vertex_y_metres : Q
}.

(** A value of the [linkage_distance_metres] column in exact arithmetic:
    [numpy.nan], the literal [0.] written for an event in or on a polygon,
    or [numpy.sqrt sq] of a rational sum of squares, written by the
    distance pass.  The constructor records which assignment wrote the
    value; as float64 values (module [Binary64]) a root can equal the
    literal [0.]. *)
Inductive linkage_distance :=
| NaN
| Zero
| Root (sq : Q).

(** [numpy.sqrt(sq) <= limit] in exact arithmetic, decided without taking
    the root; the rounded comparison is [Binary64.leb] on
    [Binary64.sqrt]. *)
Definition sqrt_le (sq limit : Q) : bool :=
  Qle_bool 0 limit && Qle_bool sq (limit * limit).

(** Python's [max([a, b])]: the first of the largest values. *)
Definition py_max (a b : Q) : Q := if Qlt_bool a b then b else a.

Definition DEFAULT_MAX_POLYGON_ATTEMPT_DISTANCE_METRES : Q := 30000.

Section NearestStorms.

(** [polygons.point_in_or_on_polygon] applied to the polygon built by
    [polygons.vertex_arrays_to_polygon_object] from exterior vertices: a
    collaborator outside this module, taken as a parameter. *)
Variable point_in_or_on_polygon : list (Q * Q) -> Q -> Q -> bool.

(** Exterior vertices of the storm [this_secondary_id_string], selected
    through [orig_to_unique_indices]. *)
Definition storm_polygon (interp_vertex_table : list Vertex)
  (unique_secondary_id_strings : list string)
  (orig_to_unique_indices : list nat) (this_secondary_id_string : string)
  : list (Q * Q) :=
  let this_storm_indices :=
    np_where
      (map (fun u =>
              Nat.eqb u (index this_secondary_id_string
                           unique_secondary_id_strings))
         orig_to_unique_indices) in
  zip (np_take (map vertex_x_metres interp_vertex_table) this_storm_indices)
      (np_take (map vertex_y_metres interp_vertex_table) this_storm_indices).

(** Body of the loop over events [k] in [_find_nearest_storms_one_time]:
    the pair ([nearest_secondary_id_strings[k]],
    [linkage_distances_metres[k]]) left behind by one iteration, with the
    differences, squares and comparisons taken in exact arithmetic (the
    order of the roots is the order of the squares).  The same body on
    float64 numbers is [Binary64.nearest_storm_one_event]. *)
Definition nearest_storm_one_event (interp_vertex_table : list Vertex)
  (unique_secondary_id_strings : list string)
  (orig_to_unique_indices : list nat)
  (max_link_distance_metres max_polygon_attempt_distance_metres : Q)
  (event_x event_y : Q) : option string * linkage_distance :=
  let these_x_diffs_metres :=
    map (fun x => Qabs (event_x - x))
      (map vertex_x_metres interp_vertex_table) in
  let these_y_diffs_metres :=
    map (fun y => Qabs (event_y - y))
      (map vertex_y_metres interp_vertex_table) in
  let these_vertex_indices :=
    np_where
      (zip_with
         (fun dx dy =>
            Qle_bool dx max_polygon_attempt_distance_metres
            && Qle_bool dy max_polygon_attempt_distance_metres)
         these_x_diffs_metres these_y_diffs_metres) in
  if decide (length these_vertex_indices = 0%nat) then (None, NaN) else
  (* Try placing event inside storm. *)
  let these_secondary_id_strings :=
    np_unique
      (np_take (map vertex_secondary_id_string interp_vertex_table)
         these_vertex_indices) in
  match
    List.find
      (fun this_secondary_id_string =>
         point_in_or_on_polygon
           (storm_polygon interp_vertex_table unique_secondary_id_strings
              orig_to_unique_indices this_secondary_id_string)
           event_x event_y)
      these_secondary_id_strings
  with
  | Some this_secondary_id_string => (Some this_secondary_id_string, Zero)
  | None =>
      (* Try placing event near storm. *)
      let these_vertex_indices :=
        np_where
          (zip_with
             (fun dx dy =>
                Qle_bool dx max_link_distance_metres
                && Qle_bool dy max_link_distance_metres)
             these_x_diffs_metres these_y_diffs_metres) in
      if decide (length these_vertex_indices = 0%nat) then (None, NaN) else
      let these_squared_distances :=
        zip_with (fun dx dy => dx * dx + dy * dy)%Q
          (np_take these_x_diffs_metres these_vertex_indices)
          (np_take these_y_diffs_metres these_vertex_indices) in
      if negb (existsb (fun sq => sqrt_le sq max_link_distance_metres)
                 these_squared_distances)
      then (None, NaN)
      else
        match these_squared_distances,
              np_argmin Qlt_bool these_squared_distances with
        | first :: rest, Some this_subindex =>
            match
              np_take (map vertex_secondary_id_string interp_vertex_table)
                (np_take these_vertex_indices [this_subindex])
            with
            | nearest :: _ =>
                if point_in_or_on_polygon
                     (storm_polygon interp_vertex_table
                        unique_secondary_id_strings orig_to_unique_indices
                        nearest)
                     event_x event_y
                then (Some nearest, Zero)
                else (Some nearest, Root (np_min first rest))
            | [] => (None, NaN)
            end
        | _, _ => (None, NaN)
        end
  end.

(** [_find_nearest_storms_one_time]: the two returned arrays, or [None]
    for the IndexError raised when there are fewer y- than
    x-coordinates. *)
Definition _find_nearest_storms_one_time (interp_vertex_table : list Vertex)
  (event_x_coords_metres event_y_coords_metres : list Q)
  (max_link_distance_metres max_polygon_attempt_distance_metres : Q)
  : option (list (option string) * list linkage_distance) :=
  let max_polygon_attempt_distance_metres :=
    py_max max_polygon_attempt_distance_metres
      (2 * max_link_distance_metres) in
  let secondary_id_strings :=
    map vertex_secondary_id_string interp_vertex_table in
  let unique_secondary_id_strings := np_unique secondary_id_strings in
  let orig_to_unique_indices := np_unique_inverse secondary_id_strings in
  if decide (length event_y_coords_metres < length event_x_coords_metres)%nat
  then None
  else
    let results :=
      zip_with
        (nearest_storm_one_event interp_vertex_table
           unique_secondary_id_strings orig_to_unique_indices
           max_link_distance_metres max_polygon_attempt_distance_metres)
        event_x_coords_metres event_y_coords_metres in
    Some (map fst results, map snd results).

End NearestStorms.

(** Modelled from the spec: [polygons.point_in_or_on_polygon] of
    [gg_utils/polygons.py], which is not among the sources.  The spec asks
    for a point-in-polygon test that treats the boundary as inside ("in or
    on"); this is the even-odd crossing test on the closed exterior ring,
    with an explicit test for points on an edge. *)
Definition polygon_edges (ring : list (Q * Q)) : list ((Q * Q) * (Q * Q)) :=
  match ring with
  | [] => []
  | first :: rest => zip ring (rest ++ [first])
  end.

Definition between (a b x : Q) : bool :=
  (Qle_bool a x && Qle_bool x b) || (Qle_bool b x && Qle_bool x a).

Definition on_edge (x y : Q) (e : (Q * Q) * (Q * Q)) : bool :=
  let '((x1, y1), (x2, y2)) := e in
  Qeq_bool ((x2 - x1) * (y - y1)) ((y2 - y1) * (x - x1))
  && between x1 x2 x && between y1 y2 y.

Definition crosses_ray (x y : Q) (e : (Q * Q) * (Q * Q)) : bool :=
  let '((x1, y1), (x2, y2)) := e in
  negb (Bool.eqb (Qlt_bool y y1) (Qlt_bool y y2))
  && Qlt_bool x (x1 + (y - y1) * (x2 - x1) / (y2 - y1)).

Definition point_on_boundary (ring : list (Q * Q)) (x y : Q) : bool :=
  existsb (on_edge x y) (polygon_edges ring).

Definition point_in_or_on_polygon_model (ring : list (Q * Q)) (x y : Q)
  : bool :=
  point_on_boundary ring x y
  || Nat.odd (length (List.filter (crosses_ray x y) (polygon_edges ring))).

(** *** Vocabulary of the matcher's properties *)

(** The polygon of storm [id]: the vertices of its rows, in row order. *)
Definition polygon_vertices (t : list Vertex) (id : string) : list (Q * Q) :=
  map (fun v => (vertex_x_metres v, vertex_y_metres v))
    (List.filter (fun v => bool_decide (vertex_secondary_id_string v = id)) t).

(** Vertex [v] lies in the axis-aligned box of half-width [radius] around
    the event. *)
Definition in_box (radius event_x event_y : Q) (v : Vertex) : bool :=
  Qle_bool (Qabs (event_x - vertex_x_metres v)) radius
  && Qle_bool (Qabs (event_y - vertex_y_metres v)) radius.

(** Storm [id] has a vertex in the polygon-attempt box around the event. *)
Definition attempted (t : list Vertex) (radius event_x event_y : Q)
  (id : string) : Prop :=
  exists v, v ∈ t /\ vertex_secondary_id_string v = id
            /\ in_box radius event_x event_y v = true.

(** *** Facts about the matcher *)

Lemma length_np_where_from {A} (p : A -> bool) (t : list A) (i : nat) :
  length (np_where_from i (map p t)) = length (List.filter p t).
Proof.
  revert i. induction t as [|x t IH]; intros i; simpl; [done|].
  destruct (p x); simpl; by rewrite IH.
Qed.

Lemma length_np_where {A} (p : A -> bool) (t : list A) :
  length (np_where (map p t)) = length (List.filter p t).
Proof. apply length_np_where_from. Qed.

Lemma map_lookup {A B} (f : A -> B) (l : list A) (k : nat) :
  map f l !! k = f <$> l !! k.
Proof. revert k. induction l; intros [|k]; simpl; auto. Qed.

Lemma filter_nonempty {A} (p : A -> bool) (l : list A) (x : A) :
  x ∈ l -> p x = true -> length (List.filter p l) <> 0%nat.
Proof.
  intros Hin Hp Hlen. apply length_zero_iff_nil in Hlen.
  assert (In x (List.filter p l)) as Hx.
  { apply filter_In. split; [by apply list_elem_of_In|done]. }
  rewrite Hlen in Hx. destruct Hx.
Qed.

Lemma elem_of_map_filter {A B} (f : A -> B) (p : A -> bool) (l : list A)
  (y : B) :
  y ∈ map f (List.filter p l) <-> exists x, x ∈ l /\ f x = y /\ p x = true.
Proof.
  rewrite list_elem_of_In, in_map_iff. split.
  - intros (x & Hfx & Hin). apply filter_In in Hin as [Hin Hp].
    exists x. by rewrite list_elem_of_In.
  - intros (x & Hin & Hfx & Hp). exists x. split; [done|].
    apply filter_In. by rewrite <- list_elem_of_In.
Qed.

Section MatcherFacts.
Variable point_in_or_on_polygon : list (Q * Q) -> Q -> Q -> bool.

(** The index bookkeeping of the source selects exactly the rows of the
    storm, in row order. *)
Lemma storm_polygon_vertices (t : list Vertex) (id : string) :
  id ∈ map vertex_secondary_id_string t ->
  storm_polygon t (np_unique (map vertex_secondary_id_string t))
    (np_unique_inverse (map vertex_secondary_id_string t)) id
  = polygon_vertices t id.
Proof.
  intros Hid. unfold storm_polygon, polygon_vertices, np_unique_inverse.
  rewrite !map_map.
  set (uniq := np_unique (map vertex_secondary_id_string t)).
  set (p := fun v : Vertex =>
              Nat.eqb (index (vertex_secondary_id_string v) uniq)
                (index id uniq)).
  change (map (fun x => Nat.eqb (index (vertex_secondary_id_string x) uniq)
                          (index id uniq)) t) with (map p t).
  rewrite !np_take_where.
  assert (List.filter p t
          = List.filter
              (fun v => bool_decide (vertex_secondary_id_string v = id)) t)
    as ->.
  { apply filter_ext_in. intros v Hv. unfold p.
    assert (vertex_secondary_id_string v ∈ uniq) as Hvu.
    { apply elem_of_np_unique, list_elem_of_In, in_map, Hv. }
    assert (id ∈ uniq) as Hiu by by apply elem_of_np_unique.
    destruct (decide (vertex_secondary_id_string v = id)) as [Heq|Hne].
    - rewrite Heq, Nat.eqb_refl. by rewrite bool_decide_eq_true_2.
    - rewrite bool_decide_eq_false_2 by done.
      apply Nat.eqb_neq. intros Heq. apply Hne.
      by eapply index_inj. }
  apply (zip_with_map_same pair).
Qed.

Lemma attempt_candidates (t : list Vertex) (radius ex ey : Q) :
  np_take (map vertex_secondary_id_string t)
    (np_where
       (zip_with (fun dx dy => Qle_bool dx radius && Qle_bool dy radius)
          (map (fun x => Qabs (ex - x)) (map vertex_x_metres t))
          (map (fun y => Qabs (ey - y)) (map vertex_y_metres t))))
  = map vertex_secondary_id_string (List.filter (in_box radius ex ey) t).
Proof.
  rewrite !map_map, zip_with_map_same. apply np_take_where.
Qed.

Lemma length_box_indices (t : list Vertex) (radius ex ey : Q) :
  length
    (np_where
       (zip_with (fun dx dy => Qle_bool dx radius && Qle_bool dy radius)
          (map (fun x => Qabs (ex - x)) (map vertex_x_metres t))
          (map (fun y => Qabs (ey - y)) (map vertex_y_metres t))))
  = length (List.filter (in_box radius ex ey) t).
Proof.
  rewrite !map_map, zip_with_map_same. apply length_np_where.
Qed.

Lemma elem_of_candidates (t : list Vertex) (radius ex ey : Q) (id : string) :
  id ∈ np_unique
         (map vertex_secondary_id_string
            (List.filter (in_box radius ex ey) t))
  <-> attempted t radius ex ey id.
Proof. rewrite elem_of_np_unique. apply elem_of_map_filter. Qed.

Lemma attempted_in_table (t : list Vertex) (radius ex ey : Q) (id : string) :
  attempted t radius ex ey id -> id ∈ map vertex_secondary_id_string t.
Proof.
  intros (v & Hv & <- & _). apply list_elem_of_In, in_map.
  by apply list_elem_of_In.
Qed.

(** The containment pass: the scan over the sorted candidates returns the
    least attempted storm whose polygon holds the event. *)
Lemma containment_pass (t : list Vertex) (max_link radius ex ey : Q)
  (id0 : string) :
  attempted t radius ex ey id0 ->
  point_in_or_on_polygon (polygon_vertices t id0) ex ey = true ->
  exists id_min,
    nearest_storm_one_event point_in_or_on_polygon t
      (np_unique (map vertex_secondary_id_string t))
      (np_unique_inverse (map vertex_secondary_id_string t))
      max_link radius ex ey = (Some id_min, Zero)
    /\ attempted t radius ex ey id_min
    /\ point_in_or_on_polygon (polygon_vertices t id_min) ex ey = true
    /\ forall id, attempted t radius ex ey id ->
         point_in_or_on_polygon (polygon_vertices t id) ex ey = true ->
         np_le id_min id.
Proof.
  intros Hatt Hpip. unfold nearest_storm_one_event.
  rewrite length_box_indices, attempt_candidates.
  destruct Hatt as (v0 & Hv0 & Hid0 & Hbox0).
  destruct (decide _) as [Hlen|_].
  { exfalso. by eapply filter_nonempty. }
  set (cands := np_unique (map _ (List.filter _ t))).
  set (scan := fun id => point_in_or_on_polygon (storm_polygon _ _ _ id) ex ey).
  assert (forall id, id ∈ cands ->
            scan id = point_in_or_on_polygon (polygon_vertices t id) ex ey)
    as Hscan.
  { intros id Hid. unfold scan. rewrite storm_polygon_vertices; [done|].
    unfold cands in Hid. apply elem_of_candidates in Hid.
    by eapply attempted_in_table. }
  assert (id0 ∈ cands) as Hid0c.
  { apply elem_of_candidates. by exists v0. }
  destruct (List.find scan cands) as [id_min|] eqn:Hfind.
  - apply find_sorted_least in Hfind as (Hin & Hp & Hleast);
      [|apply np_unique_sorted].
    exists id_min. split; [done|]. split; [by apply elem_of_candidates|].
    split; [by rewrite <- Hscan|].
    intros id Hatt' Hpip'. apply elem_of_candidates in Hatt'.
    apply Hleast; [done|]. by rewrite Hscan.
  - exfalso. rewrite find_none_all_false in Hfind.
    specialize (Hfind id0 Hid0c). rewrite Hscan in Hfind by done. congruence.
Qed.

End MatcherFacts.

Section MatcherBatch.
Variable point_in_or_on_polygon : list (Q * Q) -> Q -> Q -> bool.

(** The entry of event [k] in both returned arrays is the outcome of its
    own loop iteration. *)
Lemma find_nearest_storms_lookup (t : list Vertex) (xs ys : list Q)
  (max_link attempt : Q) (k : nat) (ex ey : Q) :
  length xs = length ys -> xs !! k = Some ex -> ys !! k = Some ey ->
  exists ids dists,
    _find_nearest_storms_one_time point_in_or_on_polygon t xs ys max_link
      attempt = Some (ids, dists)
    /\ ids !! k
       = Some (fst (nearest_storm_one_event point_in_or_on_polygon t
                      (np_unique (map vertex_secondary_id_string t))
                      (np_unique_inverse (map vertex_secondary_id_string t))
                      max_link (py_max attempt (2 * max_link)) ex ey))
    /\ dists !! k
       = Some (snd (nearest_storm_one_event point_in_or_on_polygon t
                      (np_unique (map vertex_secondary_id_string t))
                      (np_unique_inverse (map vertex_secondary_id_string t))
                      max_link (py_max attempt (2 * max_link)) ex ey)).
Proof.
  intros Hlen Hx Hy. unfold _find_nearest_storms_one_time.
  destruct (decide _) as [Hlt|_]; [lia|].
  eexists _, _. split; [reflexivity|].
  rewrite !map_lookup, lookup_zip_with, Hx. simpl. by rewrite Hy.
Qed.

End MatcherBatch.

(** *** Claims about the matcher *)

(** A storm outline 200 km across and a 20 m outline around the origin. *)
Definition big_square (id : string) : list Vertex :=
  [ {| vertex_secondary_id_string := id;
       vertex_x_metres := -100000; vertex_y_metres := -100000 |};
    {| vertex_secondary_id_string := id;
       vertex_x_metres := 100000; vertex_y_metres := -100000 |};
    {| vertex_secondary_id_string := id;
       vertex_x_metres := 100000; vertex_y_metres := 100000 |};
    {| vertex_secondary_id_string := id;
       vertex_x_metres := -100000; vertex_y_metres := 100000 |} ].

Definition small_square (id : string) : list Vertex :=
  [ {| vertex_secondary_id_string := id;
       vertex_x_metres := -10; vertex_y_metres := -10 |};
    {| vertex_secondary_id_string := id;
       vertex_x_metres := 10; vertex_y_metres := -10 |};
    {| vertex_secondary_id_string := id;
       vertex_x_metres := 10; vertex_y_metres := 10 |};
    {| vertex_secondary_id_string := id;
       vertex_x_metres := -10; vertex_y_metres := 10 |} ].

(** C1, as stated, fails: the event (0, 0) lies strictly inside the only
    storm polygon (in it and not on its boundary), the maximum linkage
    distance is 1 m > 0, yet every vertex is farther than the
    polygon-attempt distance (30 km) along x, so the event is left with a
    null secondary ID and a NaN distance. *)
Lemma contained_event_unlinked_when_vertices_far :
  point_in_or_on_polygon_model (polygon_vertices (big_square "A") "A") 0 0
  = true
  /\ point_on_boundary (polygon_vertices (big_square "A") "A") 0 0 = false
  /\ _find_nearest_storms_one_time point_in_or_on_polygon_model
       (big_square "A") [0%Q] [0%Q] 1
       DEFAULT_MAX_POLYGON_ATTEMPT_DISTANCE_METRES
     = Some ([None], [NaN]).
Proof. vm_compute. auto. Qed.

(** C1, amended: if an event lies in (or on) the polygon of a storm that
    has at least one vertex within the polygon-attempt distance
    max(attempt, 2 * max_link_distance) of the event along both axes, then
    [_find_nearest_storms_one_time] gives that event a non-null nearest
    secondary ID and linkage distance exactly 0, whatever the value of
    max_link_distance. *)
Theorem contained_event_links_at_zero
  (point_in_or_on_polygon : list (Q * Q) -> Q -> Q -> bool)
  (t : list Vertex) (xs ys : list Q) (max_link attempt : Q)
  (k : nat) (ex ey : Q) (id : string) :
  length xs = length ys -> xs !! k = Some ex -> ys !! k = Some ey ->
  attempted t (py_max attempt (2 * max_link)) ex ey id ->
  point_in_or_on_polygon (polygon_vertices t id) ex ey = true ->
  exists ids dists nearest,
    _find_nearest_storms_one_time point_in_or_on_polygon t xs ys max_link
      attempt = Some (ids, dists)
    /\ ids !! k = Some (Some nearest)
    /\ dists !! k = Some Zero.
Proof.
  intros Hlen Hx Hy Hatt Hpip.
  destruct (find_nearest_storms_lookup point_in_or_on_polygon t xs ys
              max_link attempt k ex ey Hlen Hx Hy)
    as (ids & dists & Hrun & Hid & Hdist).
  destruct (containment_pass point_in_or_on_polygon t max_link _ ex ey id
              Hatt Hpip) as (id_min & Hev & _).
  rewrite Hev in Hid, Hdist. by exists ids, dists, id_min.
Qed.

Lemma contained_event_links_at_zero_witness :
  exists ids dists nearest,
    _find_nearest_storms_one_time point_in_or_on_polygon_model
      (small_square "B") [0%Q] [0%Q] 1
      DEFAULT_MAX_POLYGON_ATTEMPT_DISTANCE_METRES = Some (ids, dists)
    /\ ids !! 0%nat = Some (Some nearest)
    /\ dists !! 0%nat = Some Zero.
Proof.
  apply (contained_event_links_at_zero point_in_or_on_polygon_model
           (small_square "B") [0%Q] [0%Q] 1
           DEFAULT_MAX_POLYGON_ATTEMPT_DISTANCE_METRES 0 0 0 "B").
  - reflexivity.
  - reflexivity.
  - reflexivity.
  - exists {| vertex_secondary_id_string := "B";
              vertex_x_metres := -10; vertex_y_metres := -10 |}.
    split; [apply list_elem_of_In; simpl; auto|].
    split; reflexivity.
  - vm_compute. reflexivity.
Defined.





(** ** Storm objects and the lineage walk *)

(** One row of the storm-object table made by
    [_project_storms_latlng_to_xy]: one storm cell at one time step.  An
    empty string in a previous/next column means "no such neighbour". *)
Record StormObject := {
  primary_id_string : string;
  secondary_id_string : string;
  valid_time_unix_sec : Z;
  first_prev_secondary_id_string : string;
  second_prev_secondary_id_string : string;
  first_next_secondary_id_string : string;
  second_next_secondary_id_string : string;
  centroid_x_metres : Q;
  centroid_y_metres : Q;
  vertices_x_metres : list Q;
  vertices_y_metres : list Q
}.

(** [temporal_tracking.ANY_CHANGE_STRING], [MERGER_STRING] and
    [SPLIT_STRING]. *)
Inductive change_type := ANY_CHANGE | MERGER | SPLIT.

Definition LARGE_INTEGER : Z := 10000000000.

(** Signature of [temporal_tracking.find_predecessors]: table, target
    row, [num_seconds_back], [max_num_sec_id_changes], [change_type_string]
    and [return_all_on_path], to the array of row indices. *)
Definition predecessor_walk : Type :=
  list StormObject -> nat -> Z -> nat -> change_type -> bool -> list nat.

(** Modelled from the spec: [temporal_tracking.find_predecessors] on a
    table none of whose rows records a predecessor.  The walk from a row
    with zero predecessors finds nothing and reports the start row only
    when [return_all_on_path] is requested. *)
Definition find_predecessors_no_links : predecessor_walk :=
  fun _ target_row _ _ _ return_all_on_path =>
    if return_all_on_path then [target_row] else [].

(** Modelled from the spec: [temporal_tracking.find_predecessors] on a
    table in which no storm object records a predecessor secondary ID, so
    that every storm cell is one unbranched segment: the walk goes back
    through the earlier storm objects with the secondary ID of the start
    row, and reports the start row when [return_all_on_path] is
    requested. *)
Definition find_predecessors_one_segment : predecessor_walk :=
  fun table target_row _ _ _ return_all_on_path =>
    match table !! target_row with
    | None => []
    | Some target =>
        np_where
          (imap
             (fun k s =>
                bool_decide (secondary_id_string s
                             = secondary_id_string target)
                && ((valid_time_unix_sec s <? valid_time_unix_sec target)%Z
                    || (return_all_on_path && (k =? target_row)%nat)))
             table)
    end.

Section Predecessors.

(** [temporal_tracking.find_predecessors], a collaborator outside this
    module, taken as a parameter. *)
Variable find_predecessors : predecessor_walk.

(** [_find_predecessors]: the simple and the merging predecessor rows of
    [target_row], each as the set behind the returned array. *)
Definition _find_predecessors (storm_to_events_table : list StormObject)
  (target_row : nat) : gset nat * gset nat :=
  let predecessor_rows_one_change :=
    find_predecessors storm_to_events_table target_row LARGE_INTEGER 1
      ANY_CHANGE true in
  let predecessor_rows_zero_mergers :=
    find_predecessors storm_to_events_table target_row LARGE_INTEGER 0
      MERGER true in
  let simple_predecessor_rows : gset nat :=
    list_to_set predecessor_rows_one_change
    ∩ list_to_set predecessor_rows_zero_mergers in
  let predecessor_rows_one_merger :=
    find_predecessors storm_to_events_table target_row LARGE_INTEGER 1
      MERGER true in
  let merging_predecessor_rows : gset nat :=
    (list_to_set predecessor_rows_one_merger
     ∩ list_to_set predecessor_rows_one_change)
    ∖ simple_predecessor_rows in
  (simple_predecessor_rows, merging_predecessor_rows).

End Predecessors.

(** C3: for every storm-object table and every target row, the
    simple-predecessor rows and the merging-predecessor rows returned by
    [_find_predecessors] have no row index in common. *)
Theorem simple_and_merging_predecessors_disjoint
  (find_predecessors : predecessor_walk) (table : list StormObject)
  (target_row : nat) :
  fst (_find_predecessors find_predecessors table target_row)
  ∩ snd (_find_predecessors find_predecessors table target_row) = ∅.
Proof. unfold _find_predecessors. simpl. set_solver. Qed.

(** ** Reversal of event-to-storm linkages *)

(** One row of an event-to-storm table made by [_find_nearest_storms].
    [event_attributes] holds the columns specific to the event type. *)
Record EventRow (P : Type) := {
  unix_time_sec : Z;
  latitude_deg : Q;
  longitude_deg : Q;
  nearest_secondary_id_string : option string;
  nearest_storm_time_unix_sec : Z;
  linkage_distance_metres : linkage_distance;
  event_attributes : P
}.
Arguments unix_time_sec {P} _.
Arguments latitude_deg {P} _.
Arguments longitude_deg {P} _.
Arguments nearest_secondary_id_string {P} _.
Arguments nearest_storm_time_unix_sec {P} _.
Arguments linkage_distance_metres {P} _.
Arguments event_attributes {P} _.

(** Columns of a wind observation (see [REQUIRED_WIND_COLUMNS]). *)
Record WindAttributes := {
  station_id : string;
  u_wind_m_s01 : Q;
  v_wind_m_s01 : Q
}.

(** Columns of a tornado report or track segment. *)
Record TornadoAttributes := {
  tornado_id_string : string;
  f_or_ef_rating : string;
  tornado_assigned_flag : bool
}.

(** One linked event in a storm object's lists.  The source keeps
    parallel length-K lists (event attributes copied from the event row,
    [linkage_distances_metres], [relative_event_times_sec],
    [main_object_flags]) and appends to all of them together; entry [k] of
    every list is kept here as one record. *)
Record LinkedEvent (P : Type) := {
  linked_event : EventRow P;
  relative_event_time_sec : Z;
  main_object_flag : bool
}.
Arguments linked_event {P} _.
Arguments relative_event_time_sec {P} _.
Arguments main_object_flag {P} _.

(** One row of a storm-to-events table. *)
Record StormToEvents (P : Type) := {
  storm_object : StormObject;
  linked_events : list (LinkedEvent P);
  merging_predecessor_flag : bool
}.
Arguments storm_object {P} _.
Arguments linked_events {P} _.
Arguments merging_predecessor_flag {P} _.

(** A [for] loop whose body may raise. *)
Fixpoint for_each {S A} (body : S -> A -> option S) (items : list A) (s : S)
  : option S :=
  match items with
  | [] => Some s
  | x :: rest =>
      match body s x with
      | Some s' => for_each body rest s'
      | None => None
      end
  end.

Section Reversal.
Context {P : Type}.
Variable find_predecessors : predecessor_walk.

(** [this_main_object_row]: among the rows of the linked storm cell, the
    first whose valid time is nearest to the recorded nearest-storm time.
    [None] is the ValueError of [numpy.argmin] on an empty array. *)
Definition main_object_row (storms : list StormObject) (event : EventRow P)
  (this_secondary_id_string : string) : option nat :=
  let this_storm_cell_rows :=
    np_where
      (map (fun s =>
              bool_decide (secondary_id_string s = this_secondary_id_string))
         storms) in
  let these_time_diffs_sec :=
    map (fun t => (nearest_storm_time_unix_sec event - t)%Z)
      (np_take (map valid_time_unix_sec storms) this_storm_cell_rows) in
  match np_argmin Z.ltb (map Z.abs these_time_diffs_sec) with
  | Some this_subrow => this_storm_cell_rows !! this_subrow
  | None => None
  end.

(** [table[MERGING_PRED_FLAG_COLUMN].values[rows] = True]; IndexError
    ([None]) when a row index is out of range. *)
Definition set_merging_flags (table : list (StormToEvents P))
  (rows : gset nat) : option (list (StormToEvents P)) :=
  if decide (set_Forall (fun j => j < length table)%nat rows) then
    Some
      (imap
         (fun i row =>
            if decide (i ∈ rows) then
              {| storm_object := storm_object row;
                 linked_events := linked_events row;
                 merging_predecessor_flag := true |}
            else row)
         table)
  else None.

(** Body of the loop over the simple predecessors [j] of the main object
    of [event]. *)
Definition append_event (event : EventRow P) (this_main_object_row : nat)
  (table : list (StormToEvents P)) (j : nat)
  : option (list (StormToEvents P)) :=
  match table !! j with
  | None => None
  | Some row =>
      let this_flag :=
        bool_decide
          (valid_time_unix_sec (storm_object row) > unix_time_sec event)%Z in
      if this_flag then Some table
      else
        let this_relative_time_sec :=
          (unix_time_sec event - valid_time_unix_sec (storm_object row))%Z in
        Some
          (<[j :=
               {| storm_object := storm_object row;
                  linked_events :=
                    linked_events row
                    ++ [ {| linked_event := event;
                            relative_event_time_sec :=
                              this_relative_time_sec;
                            main_object_flag :=
                              bool_decide (j = this_main_object_row) |} ];
                  merging_predecessor_flag :=
                    merging_predecessor_flag row |}]> table)
  end.

(** Body of the loop over the events [k]. *)
Definition link_one_event (table : list (StormToEvents P))
  (event : EventRow P) : option (list (StormToEvents P)) :=
  match nearest_secondary_id_string event with
  | None => Some table
  | Some this_secondary_id_string =>
      match
        main_object_row (map storm_object table) event
          this_secondary_id_string
      with
      | None => None
      | Some this_main_object_row =>
          let '(these_simple_pred_rows, these_merging_pred_rows) :=
            _find_predecessors find_predecessors (map storm_object table)
              this_main_object_row in
          match set_merging_flags table these_merging_pred_rows with
          | None => None
          | Some table =>
              for_each (append_event event this_main_object_row)
                (elements these_simple_pred_rows) table
          end
      end
  end.

(** The loop shared by [_reverse_wind_linkages] and
    [_reverse_tornado_linkages], which differ only in the event columns
    they copy. *)
Definition reverse_linkages (storm_object_table : list StormObject)
  (event_to_storm_table : list (EventRow P))
  : option (list (StormToEvents P)) :=
  let storm_to_events_table :=
    map (fun s => {| storm_object := s; linked_events := [];
                     merging_predecessor_flag := false |})
      storm_object_table in
  for_each link_one_event event_to_storm_table storm_to_events_table.

End Reversal.

Definition _reverse_wind_linkages (find_predecessors : predecessor_walk)
  (storm_object_table : list StormObject)
  (wind_to_storm_table : list (EventRow WindAttributes))
  : option (list (StormToEvents WindAttributes)) :=
  reverse_linkages find_predecessors storm_object_table wind_to_storm_table.

Definition _reverse_tornado_linkages (find_predecessors : predecessor_walk)
  (storm_object_table : list StormObject)
  (tornado_to_storm_table : list (EventRow TornadoAttributes))
  : option (list (StormToEvents TornadoAttributes)) :=
  reverse_linkages find_predecessors storm_object_table
    tornado_to_storm_table.

(** *** Vocabulary of the reversal's properties *)

Section ReversalSpec.
Context {P : Type}.
Variable find_predecessors : predecessor_walk.

(** The main object chosen for an event, if the event is linked. *)
Definition main_object_of (storms : list StormObject) (event : EventRow P)
  : option nat :=
  match nearest_secondary_id_string event with
  | Some id => main_object_row storms event id
  | None => None
  end.

(** What one event contributes to the list of the storm object in row [j]
    with valid time [valid_time]: one entry when the event is linked, [j]
    is a simple-predecessor row of its main object and the storm object is
    not later than the event; nothing otherwise. *)
Definition entries_for_event (storms : list StormObject)
  (event : EventRow P) (j : nat) (valid_time : Z) : list (LinkedEvent P) :=
  match main_object_of storms event with
  | Some main =>
      if decide (j ∈ fst (_find_predecessors find_predecessors storms main)
                 /\ (valid_time <= unix_time_sec event)%Z)
      then [ {| linked_event := event;
                relative_event_time_sec :=
                  (unix_time_sec event - valid_time)%Z;
                main_object_flag := bool_decide (j = main) |} ]
      else []
  | None => []
  end.

(** Every linked event names a secondary ID present in the storm table. *)
Definition linked_to_known_storms (storms : list StormObject)
  (events : list (EventRow P)) : Prop :=
  forall event id, event ∈ events ->
    nearest_secondary_id_string event = Some id ->
    exists s, s ∈ storms /\ secondary_id_string s = id.

(** The walk returns rows of the table. *)
Definition predecessors_in_range (storms : list StormObject) : Prop :=
  forall target j, (target < length storms)%nat ->
    j ∈ fst (_find_predecessors find_predecessors storms target)
        ∪ snd (_find_predecessors find_predecessors storms target) ->
    (j < length storms)%nat.

(** Table [t1] is table [t] with [added j s] appended to the list of each
    row [j] holding storm object [s]. *)
Definition extends (added : nat -> StormObject -> list (LinkedEvent P))
  (t t1 : list (StormToEvents P)) : Prop :=
  length t1 = length t
  /\ forall j row, t !! j = Some row ->
       exists row1, t1 !! j = Some row1
         /\ storm_object row1 = storm_object row
         /\ linked_events row1
            = linked_events row ++ added j (storm_object row).

(** [temporal_tracking.find_predecessors] asked for all rows on the path
    reports the row it starts from. *)
Definition walk_returns_start_row (storms : list StormObject) : Prop :=
  forall target num_seconds_back max_num_sec_id_changes change_type_string,
    (target < length storms)%nat ->
    target ∈ find_predecessors storms target num_seconds_back
               max_num_sec_id_changes change_type_string true.

(** The main object of every linked event holds the event, flagged as
    main object, exactly when its valid time is not after the event. *)
Definition main_object_served (storms : list StormObject)
  (events : list (EventRow P)) (table : list (StormToEvents P)) : Prop :=
  forall event main,
    event ∈ events -> main_object_of storms event = Some main ->
    exists row,
      table !! main = Some row
      /\ ((valid_time_unix_sec (storm_object row) <= unix_time_sec event)%Z
          <-> {| linked_event := event;
                 relative_event_time_sec :=
                   (unix_time_sec event
                    - valid_time_unix_sec (storm_object row))%Z;
                 main_object_flag := true |} ∈ linked_events row).

End ReversalSpec.

(** *** Facts about the idioms used by the reversal *)

Lemma elem_of_np_where_from {A} (p : A -> bool) (l : list A) (i j : nat) :
  j ∈ np_where_from i (map p l)
  <-> exists k x, j = (i + k)%nat /\ l !! k = Some x /\ p x = true.
Proof.
  revert i. induction l as [|y l IH]; intros i; simpl.
  - split; [by intros ?%elem_of_nil|]. by intros (k & x & _ & ? & _).
  - assert (j ∈ np_where_from (S i) (map p l)
            <-> exists k x, j = (i + S k)%nat /\ l !! k = Some x
                            /\ p x = true) as IH'.
    { rewrite IH. split; intros (k & x & -> & Hk & Hp); exists k, x;
        (split; [lia|done]). }
    destruct (p y) eqn:Hpy.
    + rewrite elem_of_cons, IH'. split.
      * intros [->|(k & x & -> & Hk & Hp)].
        -- exists 0%nat, y. split; [lia|done].
        -- by exists (S k), x.
      * intros ([|k] & x & -> & Hk & Hp).
        -- left. lia.
        -- right. by exists k, x.
    + rewrite IH'. split.
      * intros (k & x & -> & Hk & Hp). by exists (S k), x.
      * intros ([|k] & x & -> & Hk & Hp).
        -- simpl in Hk. congruence.
        -- by exists k, x.
Qed.

Lemma elem_of_np_where {A} (p : A -> bool) (l : list A) (j : nat) :
  j ∈ np_where (map p l) <-> exists x, l !! j = Some x /\ p x = true.
Proof.
  unfold np_where. rewrite elem_of_np_where_from. split.
  - intros (k & x & -> & Hk & Hp). by exists x.
  - intros (x & Hj & Hp). by exists j, x.
Qed.

Lemma argmin_from_bound {A} (lt : A -> A -> bool) (l : list A) (best : A)
  (best_i i : nat) :
  (best_i < i)%nat -> (argmin_from lt best best_i i l < i + length l)%nat.
Proof.
  revert best best_i i. induction l as [|x l IH]; intros best best_i i Hlt;
    simpl; [lia|].
  destruct (lt x best).
  - specialize (IH x i (S i)). lia.
  - specialize (IH best best_i (S i)). lia.
Qed.

Lemma np_argmin_bound {A} (lt : A -> A -> bool) (a : list A) (r : nat) :
  np_argmin lt a = Some r -> (r < length a)%nat.
Proof.
  destruct a as [|x a]; simpl; [done|]. intros [= <-].
  pose proof (argmin_from_bound lt a x 0 1). lia.
Qed.

Lemma np_argmin_nonempty {A} (lt : A -> A -> bool) (a : list A) :
  a <> [] -> exists r, np_argmin lt a = Some r.
Proof. destruct a; [done|]. intros _. by eexists. Qed.

(** *** Facts about the reversal *)

Section ReversalFacts.
Context {P : Type}.
Variable find_predecessors : predecessor_walk.

Lemma main_object_row_Some (storms : list StormObject) (event : EventRow P)
  (id : string) :
  (exists s, s ∈ storms /\ secondary_id_string s = id) ->
  exists main,
    main_object_row storms event id = Some main
    /\ (main < length storms)%nat.
Proof.
  intros (s & Hs & Hid). unfold main_object_row.
  set (p := fun s => bool_decide (secondary_id_string s = id)).
  rewrite np_take_where.
  destruct (np_argmin_nonempty Z.ltb
              (map Z.abs
                 (map (fun t => (nearest_storm_time_unix_sec event - t)%Z)
                    (map valid_time_unix_sec (List.filter p storms)))))
    as [r Hr].
  { intros Hnil. apply (f_equal length) in Hnil.
    rewrite !length_map in Hnil. simpl in Hnil.
    eapply (filter_nonempty p); [exact Hs| |exact Hnil].
    by apply bool_decide_eq_true_2. }
  rewrite Hr. apply np_argmin_bound in Hr.
  rewrite !length_map, <- length_np_where in Hr.
  destruct (lookup_lt_is_Some_2 _ _ Hr) as [main Hmain].
  exists main. split; [done|].
  apply list_elem_of_lookup_2, elem_of_np_where in Hmain as (x & Hx & _).
  by apply lookup_lt_Some in Hx.
Qed.

Lemma extends_storms (added : nat -> StormObject -> list (LinkedEvent P))
  (t t1 : list (StormToEvents P)) :
  extends added t t1 -> map storm_object t1 = map storm_object t.
Proof.
  intros [Hlen Hrows]. apply list_eq. intros j. rewrite !map_lookup.
  destruct (t !! j) as [row|] eqn:Hrow.
  - destruct (Hrows j row Hrow) as (row1 & -> & Hs & _). simpl. by rewrite Hs.
  - apply lookup_ge_None in Hrow. rewrite <- Hlen in Hrow.
    apply lookup_ge_None in Hrow. by rewrite Hrow.
Qed.

Lemma extends_nil (t : list (StormToEvents P)) : extends (fun _ _ => []) t t.
Proof.
  split; [done|]. intros j row Hrow. exists row. by rewrite app_nil_r.
Qed.

Lemma extends_ext (f g : nat -> StormObject -> list (LinkedEvent P))
  (t t1 : list (StormToEvents P)) :
  (forall j row, t !! j = Some row ->
     f j (storm_object row) = g j (storm_object row)) ->
  extends f t t1 -> extends g t t1.
Proof.
  intros Hfg [Hlen Hrows]. split; [done|]. intros j row Hrow.
  destruct (Hrows j row Hrow) as (row1 & H1 & H2 & H3).
  exists row1. by rewrite <- Hfg.
Qed.

Lemma extends_trans (f g : nat -> StormObject -> list (LinkedEvent P))
  (t t1 t2 : list (StormToEvents P)) :
  extends f t t1 -> extends g t1 t2 ->
  extends (fun j s => f j s ++ g j s) t t2.
Proof.
  intros [Hlen1 Hrows1] [Hlen2 Hrows2]. split; [congruence|].
  intros j row Hrow.
  destruct (Hrows1 j row Hrow) as (row1 & Hr1 & Hs1 & Hl1).
  destruct (Hrows2 j row1 Hr1) as (row2 & Hr2 & Hs2 & Hl2).
  exists row2. split; [done|]. split; [congruence|].
  by rewrite Hl2, Hl1, Hs1, app_assoc.
Qed.

Lemma set_merging_flags_extends (t : list (StormToEvents P))
  (rows : gset nat) :
  (forall j, j ∈ rows -> (j < length t)%nat) ->
  exists t1, set_merging_flags t rows = Some t1
             /\ extends (fun _ _ => []) t t1.
Proof.
  intros Hrange. unfold set_merging_flags.
  destruct (decide _) as [_|Hbad]; [|by destruct Hbad].
  eexists. split; [reflexivity|]. split; [by rewrite length_imap|].
  intros j row Hrow. rewrite list_lookup_imap, Hrow. simpl.
  destruct (decide (j ∈ rows)); eexists; (split; [reflexivity|]);
    by rewrite app_nil_r.
Qed.

(** The entry appended for [event] to row [j] when its storm object is not
    later than the event. *)
Definition entry_if_not_later (event : EventRow P) (main : nat)
  (js : list nat) (j : nat) (s : StormObject) : list (LinkedEvent P) :=
  if decide (j ∈ js /\ (valid_time_unix_sec s <= unix_time_sec event)%Z)
  then [ {| linked_event := event;
            relative_event_time_sec :=
              (unix_time_sec event - valid_time_unix_sec s)%Z;
            main_object_flag := bool_decide (j = main) |} ]
  else [].

Lemma append_loop_extends (event : EventRow P) (main : nat) (js : list nat) :
  NoDup js ->
  forall t : list (StormToEvents P),
    (forall j, j ∈ js -> (j < length t)%nat) ->
    exists t1, for_each (append_event event main) js t = Some t1
               /\ extends (entry_if_not_later event main js) t t1.
Proof.
  induction 1 as [|j js Hnotin Hnodup IH]; intros t Hrange; simpl.
  - exists t. split; [done|].
    eapply extends_ext; [|apply extends_nil].
    intros i row _. unfold entry_if_not_later.
    destruct (decide _) as [[Hin _]|]; [by apply elem_of_nil in Hin|done].
  - unfold append_event at 1.
    destruct (lookup_lt_is_Some_2 t j) as [row Hrow];
      [apply Hrange; set_solver|].
    rewrite Hrow. case_bool_decide as Hlate.
    + destruct (IH t) as (t1 & Hrun & Hext);
        [intros; apply Hrange; set_solver|].
      exists t1. split; [done|].
      eapply extends_ext; [|exact Hext].
      intros i rowi Hrowi. unfold entry_if_not_later.
      destruct (decide (i = j)) as [->|Hne].
      * assert (rowi = row) as -> by congruence.
        destruct (decide _) as [[Hin _]|_]; [done|].
        destruct (decide _) as [[_ Hle]|_]; [lia|done].
      * destruct (decide (i ∈ js /\ _)) as [[Hin Hle]|Hno];
          destruct (decide (i ∈ j :: js /\ _)) as [[Hin' Hle']|Hno'];
          try done.
        -- exfalso. apply Hno'. split; [set_solver|done].
        -- exfalso. apply Hno. split; [set_solver|done].
    + set (row' := {| storm_object := storm_object row;
                      linked_events := _;
                      merging_predecessor_flag := _ |}).
      destruct (IH (<[j := row']> t)) as (t1 & Hrun & Hext).
      { intros i Hi. rewrite length_insert. apply Hrange. set_solver. }
      exists t1. split; [done|].
      assert (extends
                (fun i s =>
                   if decide (i = j)
                   then [ {| linked_event := event;
                             relative_event_time_sec :=
                               (unix_time_sec event
                                - valid_time_unix_sec s)%Z;
                             main_object_flag := bool_decide (i = main) |} ]
                   else [])
                t (<[j := row']> t)) as Hfirst.
      { split; [by rewrite length_insert|]. intros i rowi Hrowi.
        destruct (decide (i = j)) as [->|Hne].
        - assert (rowi = row) as -> by congruence.
          exists row'. split; [|done].
          apply list_lookup_insert_eq. by eapply lookup_lt_Some.
        - exists rowi. rewrite list_lookup_insert_ne by done.
          by rewrite app_nil_r. }
      eapply extends_ext; [|exact (extends_trans _ _ _ _ _ Hfirst Hext)].
      intros i rowi Hrowi. simpl. unfold entry_if_not_later.
      destruct (decide (i = j)) as [->|Hne].
      * assert (rowi = row) as -> by congruence.
        destruct (decide (j ∈ js /\ _)) as [[Hin _]|_]; [done|].
        destruct (decide (j ∈ j :: js /\ _)) as [_|Hno]; [done|].
        exfalso. apply Hno. split; [set_solver|lia].
      * destruct (decide (i ∈ js /\ _)) as [[Hin Hle]|Hno];
          destruct (decide (i ∈ j :: js /\ _)) as [[Hin' Hle']|Hno'];
          try done.
        -- exfalso. apply Hno'. split; [set_solver|done].
        -- exfalso. apply Hno. split; [set_solver|done].
Qed.

End ReversalFacts.

Section ReversalLoop.
Context {P : Type}.
Variable find_predecessors : predecessor_walk.

Lemma link_one_event_extends (storms : list StormObject)
  (t : list (StormToEvents P)) (event : EventRow P) :
  map storm_object t = storms ->
  (forall id, nearest_secondary_id_string event = Some id ->
     exists s, s ∈ storms /\ secondary_id_string s = id) ->
  predecessors_in_range find_predecessors storms ->
  exists t1,
    link_one_event find_predecessors t event = Some t1
    /\ extends
         (fun j s =>
            entries_for_event find_predecessors storms event j
              (valid_time_unix_sec s))
         t t1.
Proof.
  intros Hstorms Hknown Hrange.
  assert (length t = length storms) as Hlen.
  { by rewrite <- Hstorms, length_map. }
  unfold link_one_event, entries_for_event, main_object_of.
  destruct (nearest_secondary_id_string event) as [id|].
  2:{ exists t. split; [done|]. apply extends_nil. }
  rewrite Hstorms.
  destruct (main_object_row_Some storms event id (Hknown id eq_refl))
    as (main & -> & Hmain).
  destruct (_find_predecessors find_predecessors storms main)
    as [simple merging] eqn:Hpred.
  assert (forall j, j ∈ simple ∪ merging -> (j < length storms)%nat)
    as Hrows.
  { intros j Hj. apply (Hrange main j Hmain). by rewrite Hpred. }
  destruct (set_merging_flags_extends t merging) as (t0 & -> & Hext0).
  { intros j Hj. rewrite Hlen. apply Hrows. set_solver. }
  destruct (append_loop_extends event main (elements simple)
              (NoDup_elements simple) t0) as (t1 & Hrun & Hext1).
  { intros j Hj. destruct Hext0 as [-> _]. rewrite Hlen. apply Hrows.
    apply elem_of_elements in Hj. set_solver. }
  exists t1. split; [done|].
  eapply extends_ext; [|exact (extends_trans _ _ _ _ _ Hext0 Hext1)].
  intros j row _. simpl. unfold entry_if_not_later.
  destruct (decide (j ∈ elements simple /\ _)) as [[Hin Hle]|Hno];
    destruct (decide (j ∈ simple /\ _)) as [[Hin' Hle']|Hno']; try done.
  - exfalso. apply Hno'. split; [by apply elem_of_elements|done].
  - exfalso. apply Hno. split; [by apply elem_of_elements|done].
Qed.

Lemma reverse_loop_extends (storms : list StormObject)
  (events : list (EventRow P)) :
  linked_to_known_storms storms events ->
  predecessors_in_range find_predecessors storms ->
  forall t : list (StormToEvents P),
    map storm_object t = storms ->
    exists t1,
      for_each (link_one_event find_predecessors) events t = Some t1
      /\ extends
           (fun j s =>
              flat_map
                (fun event =>
                   entries_for_event find_predecessors storms event j
                     (valid_time_unix_sec s))
                events)
           t t1.
Proof.
  intros Hknown Hrange.
  induction events as [|event events IH]; intros t Hstorms; simpl.
  - exists t. split; [done|]. apply extends_nil.
  - destruct (link_one_event_extends storms t event Hstorms)
      as (t0 & -> & Hext0); [|done|].
    { intros id Hid. apply (Hknown event id); [set_solver|done]. }
    destruct (IH (fun e id He => Hknown e id (list_elem_of_further _ _ _ He))
                t0) as (t1 & Hrun & Hext1).
    { rewrite <- Hstorms. by eapply extends_storms. }
    exists t1. split; [done|].
    exact (extends_trans _ _ _ _ _ Hext0 Hext1).
Qed.

(** The reversed table holds, for each storm object, exactly the linked
    events contributed through the simple predecessors of their main
    objects, in event order, all with a non-negative relative time and
    with the main-object flag marking the main object of the event. *)
Definition reversed_as_specified (storms : list StormObject)
  (events : list (EventRow P)) (table : list (StormToEvents P)) : Prop :=
  map storm_object table = storms
  /\ forall j row, table !! j = Some row ->
       linked_events row
       = flat_map
           (fun event =>
              entries_for_event find_predecessors storms event j
                (valid_time_unix_sec (storm_object row)))
           events
       /\ Forall (fun entry => (0 <= relative_event_time_sec entry)%Z)
            (linked_events row)
       /\ Forall
            (fun entry =>
               main_object_flag entry = true
               <-> main_object_of storms (linked_event entry) = Some j)
            (linked_events row).

Lemma reverse_linkages_specified (storms : list StormObject)
  (events : list (EventRow P)) :
  predecessors_in_range find_predecessors storms ->
  linked_to_known_storms storms events ->
  exists table,
    reverse_linkages find_predecessors storms events = Some table
    /\ reversed_as_specified storms events table.
Proof.
  intros Hrange Hknown. unfold reverse_linkages.
  set (init := map _ storms).
  assert (map storm_object init = storms) as Hinit.
  { unfold init. rewrite map_map. simpl. apply map_id. }
  destruct (reverse_loop_extends storms events Hknown Hrange init Hinit)
    as (table & Hrun & Hext).
  exists table. split; [done|]. split.
  { transitivity (map storm_object init); [by eapply extends_storms|done]. }
  intros j row Hrow.
  assert (linked_events row
          = flat_map
              (fun event =>
                 entries_for_event find_predecessors storms event j
                   (valid_time_unix_sec (storm_object row)))
              events) as Hlist.
  { destruct Hext as [Hlen Hrows].
    destruct (lookup_lt_is_Some_2 init j) as [row0 Hrow0].
    { rewrite <- Hlen. by eapply lookup_lt_Some. }
    destruct (Hrows j row0 Hrow0) as (row1 & Hrow1 & Hs & Hl).
    assert (row1 = row) as -> by congruence.
    rewrite Hl, Hs.
    unfold init in Hrow0. rewrite map_lookup in Hrow0.
    destruct (storms !! j); [|done]. by injection Hrow0 as <-. }
  split; [done|]. rewrite Hlist.
  split; apply Forall_flat_map, Forall_forall; intros event _;
    unfold entries_for_event;
    destruct (main_object_of storms event) as [main|] eqn:Hmain;
    try done;
    destruct (decide _) as [[Hin Hle]|_]; try done;
    apply Forall_singleton; simpl.
  - lia.
  - rewrite Hmain, bool_decide_eq_true. split; congruence.
Qed.

(** When the walk reports its start row, the main object of a linked
    event receives the event unless it is later than the event. *)
Lemma reverse_linkages_main_object (storms : list StormObject)
  (events : list (EventRow P)) (table : list (StormToEvents P)) :
  walk_returns_start_row find_predecessors storms ->
  linked_to_known_storms storms events ->
  reversed_as_specified storms events table ->
  main_object_served storms events table.
Proof.
  intros Hstart Hknown [Hstorms Hrows] event main Hevent Hmain.
  assert (main < length storms)%nat as Hbound.
  { unfold main_object_of in Hmain.
    destruct (nearest_secondary_id_string event) as [id|] eqn:Hid; [|done].
    destruct (main_object_row_Some storms event id (Hknown event id Hevent Hid))
      as (main' & Hmain' & Hlt).
    congruence. }
  destruct (lookup_lt_is_Some_2 table main) as [row Hrow].
  { by rewrite <- (length_map storm_object), Hstorms. }
  exists row. split; [done|].
  destruct (Hrows main row Hrow) as (-> & _ & _).
  assert (main ∈ fst (_find_predecessors find_predecessors storms main))
    as Hself.
  { unfold _find_predecessors. simpl.
    pose proof (Hstart main LARGE_INTEGER 1%nat ANY_CHANGE Hbound).
    pose proof (Hstart main LARGE_INTEGER 0%nat MERGER Hbound).
    set_solver. }
  rewrite list_elem_of_In, in_flat_map. split.
  - intros Hle. exists event. split; [by apply list_elem_of_In|].
    unfold entries_for_event. rewrite Hmain.
    destruct (decide _) as [_|Hno]; [|by destruct Hno].
    rewrite bool_decide_eq_true_2 by done. by left.
  - intros (event' & _ & Hentry). unfold entries_for_event in Hentry.
    destruct (main_object_of storms event') as [main'|]; [|done].
    destruct (decide _) as [[_ Hle]|_]; [|done].
    destruct Hentry as [Hentry|[]]. by injection Hentry as -> _.
Qed.

End ReversalLoop.

(** *** Claim about the reversal *)

(** Two snapshots of storm cell "A" and one event of each type linked to
    it. *)
Definition two_snapshots : list StormObject :=
  [ {| primary_id_string := "0"; secondary_id_string := "A";
       valid_time_unix_sec := 0;
       first_prev_secondary_id_string := "";
       second_prev_secondary_id_string := "";
       first_next_secondary_id_string := "";
       second_next_secondary_id_string := "";
       centroid_x_metres := 0; centroid_y_metres := 0;
       vertices_x_metres := [-10; 10; 10; -10]%Q;
       vertices_y_metres := [-10; -10; 10; 10]%Q |};
    {| primary_id_string := "0"; secondary_id_string := "A";
       valid_time_unix_sec := 300;
       first_prev_secondary_id_string := "";
       second_prev_secondary_id_string := "";
       first_next_secondary_id_string := "";
       second_next_secondary_id_string := "";
       centroid_x_metres := 100; centroid_y_metres := 0;
       vertices_x_metres := [90; 110; 110; 90]%Q;
       vertices_y_metres := [-10; -10; 10; 10]%Q |} ].

Definition one_wind_observation : list (EventRow WindAttributes) :=
  [ {| unix_time_sec := 100; latitude_deg := 35; longitude_deg := 263;
       nearest_secondary_id_string := Some "A";
       nearest_storm_time_unix_sec := 100;
       linkage_distance_metres := Zero;
       event_attributes :=
         {| station_id := "KOUN"; u_wind_m_s01 := 20; v_wind_m_s01 := 5 |}
    |} ].

Definition one_tornado_segment : list (EventRow TornadoAttributes) :=
  [ {| unix_time_sec := 100; latitude_deg := 35; longitude_deg := 263;
       nearest_secondary_id_string := Some "A";
       nearest_storm_time_unix_sec := 100;
       linkage_distance_metres := Zero;
       event_attributes :=
         {| tornado_id_string := "T1"; f_or_ef_rating := "EF2";
            tornado_assigned_flag := true |}
    |} ].

(** Cell "A" seen at times 0 and 150, around an event of time 100. *)
Definition snapshots_around_event : list StormObject :=
  [ {| primary_id_string := "0"; secondary_id_string := "A";
       valid_time_unix_sec := 0;
       first_prev_secondary_id_string := "";
       second_prev_secondary_id_string := "";
       first_next_secondary_id_string := "";
       second_next_secondary_id_string := "";
       centroid_x_metres := 0; centroid_y_metres := 0;
       vertices_x_metres := [-10; 10; 10; -10]%Q;
       vertices_y_metres := [-10; -10; 10; 10]%Q |};
    {| primary_id_string := "0"; secondary_id_string := "A";
       valid_time_unix_sec := 150;
       first_prev_secondary_id_string := "";
       second_prev_secondary_id_string := "";
       first_next_secondary_id_string := "";
       second_next_secondary_id_string := "";
       centroid_x_metres := 50; centroid_y_metres := 0;
       vertices_x_metres := [40; 60; 60; 40]%Q;
       vertices_y_metres := [-10; -10; 10; 10]%Q |} ].

(** C5, as stated, fails: the event of time 100 is linked to cell "A" at
    the nearest-storm time 100; its main storm object is the snapshot of
    time 150, the nearest in time, which is a member of its own
    simple-predecessor set; being later than the event it is skipped like
    any other member, so the event is appended only to the snapshot of
    time 0, with the main-object flag False, and to no main object. *)
Lemma main_object_after_event_gets_nothing :
  map (main_object_of snapshots_around_event) one_wind_observation
  = [Some 1%nat]
  /\ bool_decide
       (1%nat ∈ fst (_find_predecessors find_predecessors_one_segment
                       snapshots_around_event 1)) = true
  /\ option_map (map (fun row =>
                        map (fun entry => (relative_event_time_sec entry,
                                           main_object_flag entry))
                          (linked_events row)))
       (_reverse_wind_linkages find_predecessors_one_segment
          snapshots_around_event one_wind_observation)
     = Some [[(100%Z, false)]; []]
  /\ option_map (map (fun row =>
                        map (fun entry => (relative_event_time_sec entry,
                                           main_object_flag entry))
                          (linked_events row)))
       (_reverse_tornado_linkages find_predecessors_one_segment
          snapshots_around_event one_tornado_segment)
     = Some [[(100%Z, false)]; []].
Proof. vm_compute. auto. Qed.

Lemma no_links_in_range (storms : list StormObject) :
  predecessors_in_range find_predecessors_no_links storms.
Proof.
  intros target j Htarget Hj. unfold _find_predecessors in Hj. simpl in Hj.
  assert (j = target) as -> by set_solver. done.
Qed.

Lemma no_links_returns_start_row (storms : list StormObject) :
  walk_returns_start_row find_predecessors_no_links storms.
Proof. intros target ? ? ? _. apply list_elem_of_here. Qed.

(** C5, amended: in [_reverse_wind_linkages] and
    [_reverse_tornado_linkages] a linked event is appended to the list of
    every row in the simple-predecessor set of its main storm object (the
    set returned by [_find_predecessors]) whose valid time is not after
    the event's time, and to no other row; the rows of that set that are
    later than the event receive nothing, the main object included.  When
    [temporal_tracking.find_predecessors] reports the row it starts from,
    the main object is in that set, and it holds the event, with
    main_object True, exactly when its valid time is not after the event's
    time.  Every relative event time stored is non-negative, and the
    main-object flag of an entry is True exactly on the main object of its
    event.  Both functions return such a table whenever every linked event
    names a secondary ID of the storm table and the walk returns rows of
    the table. *)
Theorem reversed_linkages_follow_simple_predecessors
  (find_predecessors : predecessor_walk) (storms : list StormObject)
  (winds : list (EventRow WindAttributes))
  (tornadoes : list (EventRow TornadoAttributes)) :
  predecessors_in_range find_predecessors storms ->
  walk_returns_start_row find_predecessors storms ->
  linked_to_known_storms storms winds ->
  linked_to_known_storms storms tornadoes ->
  (exists storm_to_winds_table,
     _reverse_wind_linkages find_predecessors storms winds
     = Some storm_to_winds_table
     /\ reversed_as_specified find_predecessors storms winds
          storm_to_winds_table
     /\ main_object_served storms winds storm_to_winds_table)
  /\ (exists storm_to_tornadoes_table,
        _reverse_tornado_linkages find_predecessors storms tornadoes
        = Some storm_to_tornadoes_table
        /\ reversed_as_specified find_predecessors storms tornadoes
             storm_to_tornadoes_table
        /\ main_object_served storms tornadoes storm_to_tornadoes_table).
Proof.
  intros Hrange Hstart Hwinds Htornadoes. split.
  - destruct (reverse_linkages_specified find_predecessors storms winds
                Hrange Hwinds) as (table & Hrun & Hspec).
    exists table. split; [done|]. split; [done|].
    by eapply reverse_linkages_main_object.
  - destruct (reverse_linkages_specified find_predecessors storms tornadoes
                Hrange Htornadoes) as (table & Hrun & Hspec).
    exists table. split; [done|]. split; [done|].
    by eapply reverse_linkages_main_object.
Qed.

Lemma reversed_linkages_follow_simple_predecessors_witness :
  (exists storm_to_winds_table,
     _reverse_wind_linkages find_predecessors_no_links two_snapshots
       one_wind_observation = Some storm_to_winds_table
     /\ reversed_as_specified find_predecessors_no_links two_snapshots
          one_wind_observation storm_to_winds_table
     /\ main_object_served two_snapshots one_wind_observation
          storm_to_winds_table)
  /\ (exists storm_to_tornadoes_table,
        _reverse_tornado_linkages find_predecessors_no_links two_snapshots
          one_tornado_segment = Some storm_to_tornadoes_table
        /\ reversed_as_specified find_predecessors_no_links two_snapshots
             one_tornado_segment storm_to_tornadoes_table
        /\ main_object_served two_snapshots one_tornado_segment
             storm_to_tornadoes_table).
Proof.
  apply (reversed_linkages_follow_simple_predecessors
           find_predecessors_no_links two_snapshots one_wind_observation
           one_tornado_segment).
  - apply no_links_in_range.
  - apply no_links_returns_start_row.
  - intros event id Hevent Hid. unfold one_wind_observation in Hevent.
    apply list_elem_of_singleton in Hevent as ->. injection Hid as <-.
    eexists. split; [apply list_elem_of_here|reflexivity].
  - intros event id Hevent Hid. unfold one_tornado_segment in Hevent.
    apply list_elem_of_singleton in Hevent as ->. injection Hid as <-.
    eexists. split; [apply list_elem_of_here|reflexivity].
Defined.

(** The wind observation at time 100 goes to the snapshot of time 0 (its
    main object) with relative time 100, and not to the later snapshot. *)
Example reverse_wind_linkages_two_snapshots :
  option_map (map (fun row =>
                     map (fun entry => (relative_event_time_sec entry,
                                        main_object_flag entry))
                       (linked_events row)))
    (_reverse_wind_linkages find_predecessors_no_links two_snapshots
       one_wind_observation)
  = Some [[(100%Z, true)]; []].
Proof. vm_compute. reflexivity. Qed.

(** ** Cross-period reconciliation of tornado linkages *)

(** The rational whose root a distance is; [None] for NaN (which includes
    the root of a negative number). *)
Definition squared_metres (d : linkage_distance) : option Q :=
  match d with
  | NaN => None
  | Zero => Some 0%Q
  | Root sq => if Qle_bool 0 sq then Some sq else None
  end.

(** [d1 <= d2] on floats: false as soon as one side is NaN. *)
Definition distance_le (d1 d2 : linkage_distance) : bool :=
  match squared_metres d1, squared_metres d2 with
  | Some a, Some b => Qle_bool a b
  | _, _ => false
  end.

(** [d1 < d2] on floats. *)
Definition distance_lt (d1 d2 : linkage_distance) : bool :=
  match squared_metres d1, squared_metres d2 with
  | Some a, Some b => Qlt_bool a b
  | _, _ => false
  end.

(** The ValueError of [_remove_redundant_tornado_linkages], with the three
    values formatted into its message. *)
Record ValueError := {
  error_tornado_id_string : string;
  error_early_start_unix_sec : Z;
  error_late_start_unix_sec : Z
}.

Definition tornado_id_of (row : EventRow TornadoAttributes) : string :=
  tornado_id_string (event_attributes row).

Fixpoint drop_rows_from {A} (i : nat) (table : list A) (rows : list nat)
  : list A :=
  match table with
  | [] => []
  | row :: rest =>
      if decide (i ∈ rows) then drop_rows_from (S i) rest rows
      else row :: drop_rows_from (S i) rest rows
  end.

(** [table.drop(table.index[rows], axis=0, inplace=True)] on a table
    whose index labels are unique: the rows at positions [rows] go. *)
Definition drop_rows {A} (table : list A) (rows : list nat) : list A :=
  drop_rows_from 0 table rows.

(** The row of [table] picked by [numpy.argmin] of the event times of
    [these_rows], as [these_rows[this_subrow]]. *)
Definition start_row (table : list (EventRow TornadoAttributes))
  (these_rows : list nat) : option (EventRow TornadoAttributes) :=
  match
    np_argmin Z.ltb (np_take (map unix_time_sec table) these_rows)
  with
  | Some this_subrow =>
      match these_rows !! this_subrow with
      | Some this_row => table !! this_row
      | None => None
      end
  | None => None
  end.

(** A [for] loop whose body may raise an error that the claim is about. *)
Fixpoint for_each_raising {S A E} (body : S -> A -> E + S) (items : list A)
  (s : S) : E + S :=
  match items with
  | [] => inr s
  | x :: rest =>
      match body s x with
      | inr s' => for_each_raising body rest s'
      | inl e => inl e
      end
  end.

(** Body of the loop over [unique_tornado_id_strings]. *)
Definition remove_redundant_one_tornado
  (tables : list (EventRow TornadoAttributes)
            * list (EventRow TornadoAttributes))
  (this_tornado_id_string : string)
  : ValueError + (list (EventRow TornadoAttributes)
                  * list (EventRow TornadoAttributes)) :=
  let '(early_tornado_to_storm_table, late_tornado_to_storm_table) :=
    tables in
  let these_early_rows :=
    np_where
      (map (fun row =>
              bool_decide (tornado_id_of row = this_tornado_id_string))
         early_tornado_to_storm_table) in
  if decide (length these_early_rows = 0%nat) then inr tables else
  let these_late_rows :=
    np_where
      (map (fun row =>
              bool_decide (tornado_id_of row = this_tornado_id_string))
         late_tornado_to_storm_table) in
  if decide (length these_late_rows = 0%nat) then inr tables else
  match start_row early_tornado_to_storm_table these_early_rows,
        start_row late_tornado_to_storm_table these_late_rows with
  | Some this_early_row, Some this_late_row =>
      let this_early_start_unix_sec := unix_time_sec this_early_row in
      let this_late_start_unix_sec := unix_time_sec this_late_row in
      if decide (this_early_start_unix_sec <> this_late_start_unix_sec) then
        inl {| error_tornado_id_string := this_tornado_id_string;
               error_early_start_unix_sec := this_early_start_unix_sec;
               error_late_start_unix_sec := this_late_start_unix_sec |}
      else
        match nearest_secondary_id_string this_early_row with
        | None =>
            inr (drop_rows early_tornado_to_storm_table these_early_rows,
                 late_tornado_to_storm_table)
        | Some _ =>
            match nearest_secondary_id_string this_late_row with
            | None =>
                inr (early_tornado_to_storm_table,
                     drop_rows late_tornado_to_storm_table these_late_rows)
            | Some _ =>
                if distance_le (linkage_distance_metres this_early_row)
                     (linkage_distance_metres this_late_row)
                then
                  inr (early_tornado_to_storm_table,
                       drop_rows late_tornado_to_storm_table
                         these_late_rows)
                else
                  inr (drop_rows early_tornado_to_storm_table
                         these_early_rows,
                       late_tornado_to_storm_table)
            end
        end
  | _, _ => inr tables (* not reached: both row sets are non-empty *)
  end.

(** [_remove_redundant_tornado_linkages]: the ValueError, or the two
    tables after the drops. *)
Definition _remove_redundant_tornado_linkages
  (early_tornado_to_storm_table late_tornado_to_storm_table
     : list (EventRow TornadoAttributes))
  : ValueError + (list (EventRow TornadoAttributes)
                  * list (EventRow TornadoAttributes)) :=
  let unique_tornado_id_strings :=
    np_unique
      (map tornado_id_of early_tornado_to_storm_table
       ++ map tornado_id_of late_tornado_to_storm_table) in
  for_each_raising remove_redundant_one_tornado unique_tornado_id_strings
    (early_tornado_to_storm_table, late_tornado_to_storm_table).

(** *** Vocabulary of the reconciliation's properties *)

(** The rows of one tornado in a table. *)
Definition rows_of (id : string) (table : list (EventRow TornadoAttributes))
  : list (EventRow TornadoAttributes) :=
  List.filter (fun row => bool_decide (tornado_id_of row = id)) table.

(** The table without the rows of one tornado. *)
Definition without (id : string) (table : list (EventRow TornadoAttributes))
  : list (EventRow TornadoAttributes) :=
  List.filter (fun row => negb (bool_decide (tornado_id_of row = id))) table.

(** The first row with the earliest event time: the start of the
    tornado as the period recorded it. *)
Definition earliest (rows : list (EventRow TornadoAttributes))
  : option (EventRow TornadoAttributes) :=
  match np_argmin Z.ltb (map unix_time_sec rows) with
  | Some this_subrow => rows !! this_subrow
  | None => None
  end.

(** What the loop does for one tornado ID. *)
Inductive verdict :=
| Skip
| Mismatch (early_start late_start : Z)
| DropEarly
| DropLate.

Definition verdict_of (early late : list (EventRow TornadoAttributes))
  (id : string) : verdict :=
  match earliest (rows_of id early), earliest (rows_of id late) with
  | Some e, Some l =>
      if decide (unix_time_sec e <> unix_time_sec l) then
        Mismatch (unix_time_sec e) (unix_time_sec l)
      else
        match nearest_secondary_id_string e, nearest_secondary_id_string l
        with
        | None, _ => DropEarly
        | Some _, None => DropLate
        | Some _, Some _ =>
            if distance_le (linkage_distance_metres e)
                 (linkage_distance_metres l)
            then DropLate else DropEarly
        end
  | _, _ => Skip
  end.

Definition is_mismatch (v : verdict) : bool :=
  match v with Mismatch _ _ => true | _ => false end.

Definition is_drop_early (v : verdict) : bool :=
  match v with DropEarly => true | _ => false end.

Definition is_drop_late (v : verdict) : bool :=
  match v with DropLate => true | _ => false end.

(** Every tornado present in both periods has the same recorded start
    time in both. *)
Definition consistent_start_times
  (early late : list (EventRow TornadoAttributes)) : Prop :=
  forall id e l,
    earliest (rows_of id early) = Some e ->
    earliest (rows_of id late) = Some l ->
    unix_time_sec e = unix_time_sec l.

(** *** Facts about the reconciliation *)

Lemma drop_rows_from_where {A} (p : A -> bool) (table pre : list A) :
  drop_rows_from (length pre) table (np_where (map p (pre ++ table)))
  = List.filter (fun row => negb (p row)) table.
Proof.
  revert pre. induction table as [|row rest IH]; intros pre; simpl; [done|].
  specialize (IH (pre ++ [row])).
  rewrite <- app_assoc, length_app in IH. simpl in IH.
  replace (length pre + 1)%nat with (S (length pre)) in IH by lia.
  assert (length pre ∈ np_where (map p (pre ++ row :: rest))
          <-> p row = true) as Hin.
  { rewrite elem_of_np_where, list_lookup_middle by done. split.
    - by intros (x & [= <-] & Hp).
    - intros Hp. by exists row. }
  destruct (decide _) as [Hyes|Hno].
  - apply Hin in Hyes. by rewrite Hyes, IH.
  - destruct (p row) eqn:Hp; [by destruct Hno; apply Hin|].
    simpl. by rewrite IH.
Qed.

(** Dropping the rows found by [numpy.where] keeps the other rows. *)
Lemma drop_rows_where {A} (p : A -> bool) (table : list A) :
  drop_rows table (np_where (map p table))
  = List.filter (fun row => negb (p row)) table.
Proof. exact (drop_rows_from_where p table []). Qed.

Lemma np_where_from_lookup_filter {A} (p : A -> bool) (l : list A)
  (k sub i : nat) :
  np_where_from k (map p l) !! sub = Some i ->
  exists i', i = (k + i')%nat /\ l !! i' = List.filter p l !! sub.
Proof.
  revert k sub. induction l as [|x l IH]; intros k sub; simpl; [done|].
  destruct (p x) eqn:Hp.
  - destruct sub as [|sub]; simpl.
    + intros [= <-]. exists 0%nat. split; [lia|done].
    + intros Hsub. destruct (IH _ _ Hsub) as (i' & -> & Hi').
      exists (S i'). split; [lia|done].
  - intros Hsub. destruct (IH _ _ Hsub) as (i' & -> & Hi').
    exists (S i'). split; [lia|done].
Qed.

Lemma np_where_lookup_filter {A} (p : A -> bool) (l : list A) (sub i : nat) :
  np_where (map p l) !! sub = Some i -> l !! i = List.filter p l !! sub.
Proof.
  intros Hsub. by destruct (np_where_from_lookup_filter p l 0 sub i Hsub)
    as (i' & -> & Hi').
Qed.

Lemma start_row_earliest (table : list (EventRow TornadoAttributes))
  (p : EventRow TornadoAttributes -> bool) :
  start_row table (np_where (map p table)) = earliest (List.filter p table).
Proof.
  unfold start_row, earliest. rewrite np_take_where.
  destruct (np_argmin _ _) as [sub|] eqn:Hsub; [|done].
  apply np_argmin_bound in Hsub.
  rewrite length_map, <- length_np_where in Hsub.
  destruct (lookup_lt_is_Some_2 _ _ Hsub) as [i Hi]. rewrite Hi.
  by apply np_where_lookup_filter.
Qed.

Lemma earliest_is_Some (rows : list (EventRow TornadoAttributes)) :
  rows <> [] -> exists row, earliest rows = Some row.
Proof.
  intros Hne. unfold earliest.
  destruct (np_argmin_nonempty Z.ltb (map unix_time_sec rows)) as [r Hr].
  { by destruct rows. }
  rewrite Hr. apply np_argmin_bound in Hr. rewrite length_map in Hr.
  by apply lookup_lt_is_Some_2.
Qed.

Lemma earliest_elem_of (rows : list (EventRow TornadoAttributes))
  (row : EventRow TornadoAttributes) :
  earliest rows = Some row -> row ∈ rows.
Proof.
  unfold earliest. destruct (np_argmin _ _); [|done].
  apply list_elem_of_lookup_2.
Qed.

(** The loop body acts on the verdict alone. *)
Lemma remove_redundant_one_tornado_verdict
  (early late : list (EventRow TornadoAttributes)) (id : string) :
  remove_redundant_one_tornado (early, late) id
  = match verdict_of early late id with
    | Skip => inr (early, late)
    | Mismatch e l =>
        inl {| error_tornado_id_string := id;
               error_early_start_unix_sec := e;
               error_late_start_unix_sec := l |}
    | DropEarly => inr (without id early, late)
    | DropLate => inr (early, without id late)
    end.
Proof.
  unfold remove_redundant_one_tornado, verdict_of, rows_of, without.
  rewrite !length_np_where, !start_row_earliest, !drop_rows_where.
  set (p := fun row => bool_decide (tornado_id_of row = id)).
  destruct (decide (length (List.filter p early) = 0%nat)) as [He|He].
  { apply length_zero_iff_nil in He. by rewrite He. }
  destruct (decide (length (List.filter p late) = 0%nat)) as [Hl|Hl].
  { apply length_zero_iff_nil in Hl. rewrite Hl. simpl.
    by destruct (earliest (List.filter p early)). }
  destruct (earliest (List.filter p early)) as [e|]; [|done].
  destruct (earliest (List.filter p late)) as [l|]; [|done].
  destruct (decide _); [done|].
  destruct (nearest_secondary_id_string e); [|done].
  destruct (nearest_secondary_id_string l); [|done].
  by destruct (distance_le _ _).
Qed.

Lemma rows_of_without_same (id : string)
  (table : list (EventRow TornadoAttributes)) :
  rows_of id (without id table) = [].
Proof.
  unfold rows_of, without. induction table as [|row table IH]; simpl; [done|].
  case_bool_decide as Hid; simpl; [done|]. by rewrite bool_decide_eq_false_2.
Qed.

Lemma rows_of_without_other (id a : string)
  (table : list (EventRow TornadoAttributes)) :
  id <> a -> rows_of id (without a table) = rows_of id table.
Proof.
  intros Hne. unfold rows_of, without.
  induction table as [|row table IH]; simpl; [done|].
  case_bool_decide as Ha; simpl.
  - rewrite bool_decide_eq_false_2 by congruence. done.
  - by rewrite IH.
Qed.

Lemma verdict_without_early_other
  (early late : list (EventRow TornadoAttributes)) (id a : string) :
  id <> a -> verdict_of (without a early) late id = verdict_of early late id.
Proof. intros Hne. unfold verdict_of. by rewrite rows_of_without_other. Qed.

Lemma verdict_without_late_other
  (early late : list (EventRow TornadoAttributes)) (id a : string) :
  id <> a -> verdict_of early (without a late) id = verdict_of early late id.
Proof. intros Hne. unfold verdict_of. by rewrite rows_of_without_other. Qed.

Lemma verdict_without_early_same
  (early late : list (EventRow TornadoAttributes)) (a : string) :
  verdict_of (without a early) late a = Skip.
Proof. unfold verdict_of. by rewrite rows_of_without_same. Qed.

Lemma verdict_without_late_same
  (early late : list (EventRow TornadoAttributes)) (a : string) :
  verdict_of early (without a late) a = Skip.
Proof.
  unfold verdict_of. rewrite rows_of_without_same. simpl.
  by destruct (earliest (rows_of a early)).
Qed.

(** A mismatch anywhere in the list of IDs makes the loop raise. *)
Lemma loop_raises (ids : list string) (id : string) :
  id ∈ ids ->
  forall early late,
    is_mismatch (verdict_of early late id) = true ->
    exists err,
      for_each_raising remove_redundant_one_tornado ids (early, late)
      = inl err.
Proof.
  induction ids as [|a ids IH]; [by intros ?%elem_of_nil|].
  intros Hin early late Hmis. cbn [for_each_raising].
  rewrite remove_redundant_one_tornado_verdict.
  destruct (decide (id = a)) as [->|Hne].
  { destruct (verdict_of early late a); try done. by eexists. }
  assert (id ∈ ids) as Hin' by set_solver.
  destruct (verdict_of early late a) eqn:Ha.
  - by apply IH.
  - by eexists.
  - apply IH; [done|]. by rewrite verdict_without_early_other.
  - apply IH; [done|]. by rewrite verdict_without_late_other.
Qed.

(** Row filters describing the returned tables. *)
Definition kept_early (early late : list (EventRow TornadoAttributes))
  (ids : list string) (row : EventRow TornadoAttributes) : bool :=
  negb (bool_decide (tornado_id_of row ∈ ids)
        && is_drop_early (verdict_of early late (tornado_id_of row))).

Definition kept_late (early late : list (EventRow TornadoAttributes))
  (ids : list string) (row : EventRow TornadoAttributes) : bool :=
  negb (bool_decide (tornado_id_of row ∈ ids)
        && is_drop_late (verdict_of early late (tornado_id_of row))).

Lemma filter_filter_ext {A} (f g h : A -> bool) (l : list A) :
  (forall x, x ∈ l -> h x = g x && f x) ->
  List.filter f (List.filter g l) = List.filter h l.
Proof.
  intros Hext. induction l as [|x l IH]; simpl; [done|].
  rewrite (Hext x) by set_solver.
  destruct (g x); simpl.
  - destruct (f x); rewrite IH; try done; intros; apply Hext; set_solver.
  - apply IH. intros. apply Hext. set_solver.
Qed.

Lemma filter_ext_elem_of {A} (f g : A -> bool) (l : list A) :
  (forall x, x ∈ l -> f x = g x) -> List.filter f l = List.filter g l.
Proof.
  intros Hext. apply filter_ext_in. intros x Hx. apply Hext.
  by apply list_elem_of_In.
Qed.

Lemma filter_all {A} (f : A -> bool) (l : list A) :
  (forall x, x ∈ l -> f x = true) -> List.filter f l = l.
Proof.
  intros Hall. induction l as [|x l IH]; simpl; [done|].
  rewrite Hall by set_solver. f_equal. apply IH. intros. apply Hall.
  set_solver.
Qed.

Lemma elem_of_tail_ids (id a : string) (ids : list string) :
  id <> a -> bool_decide (id ∈ a :: ids) = bool_decide (id ∈ ids).
Proof. intros Hne. apply bool_decide_ext. set_solver. Qed.

(** Without a mismatch the loop returns both tables, each filtered by the
    verdicts computed on the tables it started from. *)
Lemma loop_returns (ids : list string) :
  forall early late,
    (forall id, id ∈ ids -> is_mismatch (verdict_of early late id) = false) ->
    for_each_raising remove_redundant_one_tornado ids (early, late)
    = inr (List.filter (kept_early early late ids) early,
           List.filter (kept_late early late ids) late).
Proof.
  induction ids as [|a ids IH]; intros early late Hok.
  { simpl. unfold kept_early, kept_late.
    rewrite !filter_all; [done| |]; intros row _;
      rewrite bool_decide_eq_false_2; try done; by intros ?%elem_of_nil. }
  cbn [for_each_raising]. rewrite remove_redundant_one_tornado_verdict.
  pose proof (Hok a (list_elem_of_here _ _)) as Ha.
  destruct (verdict_of early late a) eqn:Hva; [| done | |].
  - rewrite IH by (intros; apply Hok; set_solver).
    f_equal. f_equal; apply filter_ext_elem_of; intros row _;
      unfold kept_early, kept_late;
      (destruct (decide (tornado_id_of row = a)) as [->|Hne];
       [rewrite Hva; simpl; by rewrite !andb_false_r
       |by rewrite elem_of_tail_ids]).
  - rewrite IH.
    2:{ intros id Hid. destruct (decide (id = a)) as [->|Hne].
        - by rewrite verdict_without_early_same.
        - rewrite verdict_without_early_other by done.
          apply Hok. set_solver. }
    f_equal. f_equal.
    + apply filter_filter_ext. intros row _. unfold kept_early.
      destruct (decide (tornado_id_of row = a)) as [->|Hne].
      * rewrite (bool_decide_eq_true_2 (a = a)) by done.
        rewrite (bool_decide_eq_true_2 (a ∈ a :: ids)) by set_solver.
        by rewrite Hva.
      * rewrite (bool_decide_eq_false_2 (tornado_id_of row = a)) by done.
        rewrite verdict_without_early_other by done.
        by rewrite elem_of_tail_ids.
    + apply filter_ext_elem_of. intros row _. unfold kept_late.
      destruct (decide (tornado_id_of row = a)) as [->|Hne].
      * rewrite verdict_without_early_same, Hva. simpl.
        by rewrite !andb_false_r.
      * rewrite verdict_without_early_other by done.
        by rewrite elem_of_tail_ids.
  - rewrite IH.
    2:{ intros id Hid. destruct (decide (id = a)) as [->|Hne].
        - by rewrite verdict_without_late_same.
        - rewrite verdict_without_late_other by done.
          apply Hok. set_solver. }
    f_equal. f_equal.
    + apply filter_ext_elem_of. intros row _. unfold kept_early.
      destruct (decide (tornado_id_of row = a)) as [->|Hne].
      * rewrite verdict_without_late_same, Hva. simpl.
        by rewrite !andb_false_r.
      * rewrite verdict_without_late_other by done.
        by rewrite elem_of_tail_ids.
    + apply filter_filter_ext. intros row _. unfold kept_late.
      destruct (decide (tornado_id_of row = a)) as [->|Hne].
      * rewrite (bool_decide_eq_true_2 (a = a)) by done.
        rewrite (bool_decide_eq_true_2 (a ∈ a :: ids)) by set_solver.
        by rewrite Hva.
      * rewrite (bool_decide_eq_false_2 (tornado_id_of row = a)) by done.
        rewrite verdict_without_late_other by done.
        by rewrite elem_of_tail_ids.
Qed.

Lemma rows_of_filter_kept (id : string) (k : EventRow TornadoAttributes -> bool)
  (table : list (EventRow TornadoAttributes)) :
  (forall row, tornado_id_of row = id -> k row = true) ->
  rows_of id (List.filter k table) = rows_of id table.
Proof.
  intros Hk. unfold rows_of. apply filter_filter_ext. intros row _.
  case_bool_decide as Hid; [|by rewrite andb_false_r].
  by rewrite Hk.
Qed.

Lemma rows_of_filter_dropped (id : string)
  (k : EventRow TornadoAttributes -> bool)
  (table : list (EventRow TornadoAttributes)) :
  (forall row, tornado_id_of row = id -> k row = false) ->
  rows_of id (List.filter k table) = [].
Proof.
  intros Hk. unfold rows_of.
  induction table as [|row table IH]; simpl; [done|].
  destruct (k row) eqn:Hkrow; simpl; [|done].
  case_bool_decide as Hid; [|done]. rewrite Hk in Hkrow by done. done.
Qed.

Lemma rows_of_filter_nil (id : string)
  (k : EventRow TornadoAttributes -> bool)
  (table : list (EventRow TornadoAttributes)) :
  rows_of id table = [] -> rows_of id (List.filter k table) = [].
Proof.
  unfold rows_of. induction table as [|row table IH]; simpl; [done|].
  case_bool_decide as Hid; [done|]. intros Hnil.
  destruct (k row); simpl; [|by apply IH].
  rewrite bool_decide_eq_false_2 by done. by apply IH.
Qed.

Lemma rows_of_elem_of (id : string) (row : EventRow TornadoAttributes)
  (table : list (EventRow TornadoAttributes)) :
  row ∈ rows_of id table <-> row ∈ table /\ tornado_id_of row = id.
Proof.
  unfold rows_of. rewrite !list_elem_of_In, filter_In.
  by rewrite bool_decide_eq_true.
Qed.

Lemma earliest_in_unique_ids (early late : list (EventRow TornadoAttributes))
  (id : string) (e : EventRow TornadoAttributes) :
  earliest (rows_of id early) = Some e ->
  id ∈ np_unique (map tornado_id_of early ++ map tornado_id_of late).
Proof.
  intros He. apply earliest_elem_of, rows_of_elem_of in He as [He <-].
  apply elem_of_np_unique, elem_of_app. left.
  apply list_elem_of_In, in_map. by apply list_elem_of_In.
Qed.

Lemma mismatch_start_times (early late : list (EventRow TornadoAttributes))
  (id : string) :
  is_mismatch (verdict_of early late id) = true
  <-> exists e l,
        earliest (rows_of id early) = Some e
        /\ earliest (rows_of id late) = Some l
        /\ unix_time_sec e <> unix_time_sec l.
Proof.
  unfold verdict_of. split.
  - destruct (earliest (rows_of id early)) as [e|]; [|done].
    destruct (earliest (rows_of id late)) as [l|]; [|done].
    destruct (decide _) as [Hne|]; [by exists e, l|].
    destruct (nearest_secondary_id_string e),
      (nearest_secondary_id_string l); try done.
    by destruct (distance_le _ _).
  - intros (e & l & -> & -> & Hne). by destruct (decide _).
Qed.

Lemma consistent_no_mismatch (early late : list (EventRow TornadoAttributes))
  (id : string) :
  consistent_start_times early late ->
  is_mismatch (verdict_of early late id) = false.
Proof.
  intros Hcons. apply not_true_is_false. intros Hmis.
  apply mismatch_start_times in Hmis as (e & l & He & Hl & Hne).
  apply Hne. by eapply Hcons.
Qed.

Lemma distance_lt_not_le (a b : linkage_distance) :
  distance_lt b a = true -> distance_le a b = false.
Proof.
  unfold distance_lt, distance_le, Qlt_bool.
  destruct (squared_metres a), (squared_metres b); try done.
  by intros ->%negb_true_iff.
Qed.

Lemma argmin_from_min (full : list Z) (l : list Z) :
  forall best best_i i,
    full !! best_i = Some best -> drop i full = l -> (best_i < i)%nat ->
    exists v, full !! argmin_from Z.ltb best best_i i l = Some v
              /\ (v <= best)%Z /\ Forall (fun x => (v <= x)%Z) l.
Proof.
  induction l as [|x l IH]; intros best best_i i Hbest Hdrop Hlt; simpl.
  - exists best. split; [done|]. split; [lia|constructor].
  - assert (full !! i = Some x) as Hi.
    { pose proof (lookup_drop full i 0) as Hl. rewrite Hdrop in Hl.
      simpl in Hl. by rewrite Nat.add_0_r in Hl. }
    assert (drop (S i) full = l) as Hdrop'.
    { replace (S i) with (i + 1)%nat by lia.
      by rewrite <- drop_drop, Hdrop. }
    destruct (Z.ltb_spec x best) as [Hx|Hx].
    + destruct (IH x i (S i) Hi Hdrop') as (v & Hv & Hle & Hall); [lia|].
      exists v. split; [done|]. split; [lia|]. by constructor.
    + destruct (IH best best_i (S i) Hbest Hdrop') as (v & Hv & Hle & Hall);
        [lia|].
      exists v. split; [done|]. split; [done|]. constructor; [lia|done].
Qed.

(** The start of a tornado is a row with the least event time. *)
Lemma earliest_least_time (rows : list (EventRow TornadoAttributes))
  (row : EventRow TornadoAttributes) :
  earliest rows = Some row ->
  forall other, other ∈ rows -> (unix_time_sec row <= unix_time_sec other)%Z.
Proof.
  unfold earliest.
  destruct (map unix_time_sec rows) as [|t times] eqn:Htimes; [done|].
  simpl. intros Hrow other Hother.
  destruct (argmin_from_min (t :: times) times t 0 1)
    as (v & Hv & Hle & Hall); [done|done|lia|].
  rewrite <- Htimes, map_lookup, Hrow in Hv. injection Hv as <-.
  assert (unix_time_sec other ∈ t :: times) as Hin.
  { rewrite <- Htimes. apply list_elem_of_In, in_map.
    by apply list_elem_of_In. }
  apply elem_of_cons in Hin as [->|Hin]; [done|].
  by eapply Forall_forall in Hall.
Qed.

Lemma drop_late_rows (early late : list (EventRow TornadoAttributes))
  (ids : list string) (id : string) :
  id ∈ ids -> verdict_of early late id = DropLate ->
  rows_of id (List.filter (kept_early early late ids) early)
  = rows_of id early
  /\ rows_of id (List.filter (kept_late early late ids) late) = [].
Proof.
  intros Hid Hv. split.
  - apply rows_of_filter_kept. intros row <-. unfold kept_early.
    by rewrite Hv, andb_false_r.
  - apply rows_of_filter_dropped. intros row <-. unfold kept_late.
    by rewrite Hv, bool_decide_eq_true_2.
Qed.

Lemma drop_early_rows (early late : list (EventRow TornadoAttributes))
  (ids : list string) (id : string) :
  id ∈ ids -> verdict_of early late id = DropEarly ->
  rows_of id (List.filter (kept_early early late ids) early) = []
  /\ rows_of id (List.filter (kept_late early late ids) late)
     = rows_of id late.
Proof.
  intros Hid Hv. split.
  - apply rows_of_filter_dropped. intros row <-. unfold kept_early.
    by rewrite Hv, bool_decide_eq_true_2.
  - apply rows_of_filter_kept. intros row <-. unfold kept_late.
    by rewrite Hv, andb_false_r.
Qed.

(** Whenever the function returns, it returns the filtered tables. *)
Lemma remove_redundant_returned
  (early late early' late' : list (EventRow TornadoAttributes)) :
  _remove_redundant_tornado_linkages early late = inr (early', late') ->
  let ids := np_unique (map tornado_id_of early ++ map tornado_id_of late) in
  (forall id, id ∈ ids -> is_mismatch (verdict_of early late id) = false)
  /\ early' = List.filter (kept_early early late ids) early
  /\ late' = List.filter (kept_late early late ids) late.
Proof.
  intros Hrun ids. unfold _remove_redundant_tornado_linkages in Hrun.
  fold ids in Hrun.
  assert (forall id, id ∈ ids ->
            is_mismatch (verdict_of early late id) = false) as Hok.
  { intros id Hid. apply not_true_is_false. intros Hmis.
    destruct (loop_raises ids id Hid early late Hmis) as [err Herr].
    congruence. }
  split; [done|]. rewrite loop_returns in Hrun by done.
  by injection Hrun as <- <-.
Qed.

(** After a return no tornado has rows in both tables. *)
Lemma remove_redundant_separates
  (early late early' late' : list (EventRow TornadoAttributes)) (id : string) :
  _remove_redundant_tornado_linkages early late = inr (early', late') ->
  verdict_of early' late' id = Skip.
Proof.
  intros Hrun. apply remove_redundant_returned in Hrun as (Hok & -> & ->).
  set (ids := np_unique _) in *.
  assert (rows_of id (List.filter (kept_early early late ids) early) = []
          \/ rows_of id (List.filter (kept_late early late ids) late) = [])
    as Hempty.
  { destruct (earliest (rows_of id early)) as [e|] eqn:He.
    2:{ left. apply rows_of_filter_nil.
        destruct (rows_of id early) as [|r rs] eqn:Hrows; [done|].
        by destruct (earliest_is_Some (r :: rs)) as [? ?]; [|congruence]. }
    destruct (earliest (rows_of id late)) as [l|] eqn:Hl.
    2:{ right. apply rows_of_filter_nil.
        destruct (rows_of id late) as [|r rs] eqn:Hrows; [done|].
        by destruct (earliest_is_Some (r :: rs)) as [? ?]; [|congruence]. }
    assert (id ∈ ids) as Hid by by eapply earliest_in_unique_ids.
    specialize (Hok id Hid).
    destruct (verdict_of early late id) eqn:Hv.
    - unfold verdict_of in Hv. rewrite He, Hl in Hv.
      destruct (decide _); [done|].
      destruct (nearest_secondary_id_string e),
        (nearest_secondary_id_string l); try done.
      by destruct (distance_le _ _).
    - done.
    - left. by apply drop_early_rows.
    - right. by apply drop_late_rows. }
  unfold verdict_of. destruct Hempty as [-> | ->]; [done|].
  by destruct (earliest _).
Qed.

(** *** Claims about the reconciliation *)

Definition linked_row (id : string) (time : Z) (storm : option string)
  (d : linkage_distance) : EventRow TornadoAttributes :=
  {| unix_time_sec := time; latitude_deg := 35; longitude_deg := 263;
     nearest_secondary_id_string := storm;
     nearest_storm_time_unix_sec := time;
     linkage_distance_metres := d;
     event_attributes :=
       {| tornado_id_string := id; f_or_ef_rating := "EF1";
          tornado_assigned_flag := true |} |}.

(** Tornado "T1" crosses the period boundary and is 20 m from storm "A" in
    the early period and 30 m from storm "B" in the late one; "T2" occurs
    only in the late period. *)
Definition early_period : list (EventRow TornadoAttributes) :=
  [ linked_row "T1" 100 (Some "A") (Root 400);
    linked_row "T1" 160 (Some "A") Zero ].

Definition late_period : list (EventRow TornadoAttributes) :=
  [ linked_row "T2" 500 None NaN;
    linked_row "T1" 100 (Some "B") (Root 900);
    linked_row "T1" 160 (Some "B") (Root 100) ].

(** The same early period against a late period that records "T1" as
    starting at 130. *)
Definition late_period_shifted : list (EventRow TornadoAttributes) :=
  [ linked_row "T1" 130 (Some "B") (Root 900) ].

Lemma periods_consistent : consistent_start_times early_period late_period.
Proof.
  intros id e l He Hl.
  pose proof (earliest_elem_of _ _ He) as Hine.
  apply rows_of_elem_of in Hine as [Hine Hide].
  assert (id = "T1") as ->.
  { unfold early_period in Hine.
    repeat (apply elem_of_cons in Hine as [Heq|Hine]);
      [by subst e..|by apply elem_of_nil in Hine]. }
  vm_compute in He. vm_compute in Hl.
  injection He as <-. injection Hl as <-. reflexivity.
Qed.

(** C6: when no tornado has two different start times, the function
    returns, and for every tornado ID present in both tables (judged, as
    the code does, on the tornado's earliest row in each table): if both
    periods are linked, the tornado's rows stay only in the period with
    the smaller linkage distance and all its rows leave the other, the
    early period being kept when the distances are equal; if exactly one
    period is linked, the rows of the unlinked period are dropped. *)
Theorem redundant_linkages_keep_nearer_period
  (early late : list (EventRow TornadoAttributes)) :
  consistent_start_times early late ->
  exists early' late',
    _remove_redundant_tornado_linkages early late = inr (early', late')
    /\ forall id e l,
         earliest (rows_of id early) = Some e ->
         earliest (rows_of id late) = Some l ->
         (is_Some (nearest_secondary_id_string e) ->
          is_Some (nearest_secondary_id_string l) ->
          distance_le (linkage_distance_metres e)
            (linkage_distance_metres l) = true ->
          rows_of id early' = rows_of id early /\ rows_of id late' = [])
         /\ (is_Some (nearest_secondary_id_string e) ->
             is_Some (nearest_secondary_id_string l) ->
             distance_lt (linkage_distance_metres l)
               (linkage_distance_metres e) = true ->
             rows_of id early' = [] /\ rows_of id late' = rows_of id late)
         /\ (is_Some (nearest_secondary_id_string e) ->
             nearest_secondary_id_string l = None ->
             rows_of id early' = rows_of id early /\ rows_of id late' = [])
         /\ (nearest_secondary_id_string e = None ->
             is_Some (nearest_secondary_id_string l) ->
             rows_of id early' = [] /\ rows_of id late' = rows_of id late).
Proof.
  intros Hcons. unfold _remove_redundant_tornado_linkages.
  set (ids := np_unique _).
  rewrite loop_returns by (intros; by apply consistent_no_mismatch).
  eexists _, _. split; [reflexivity|].
  intros id e l He Hl.
  assert (id ∈ ids) as Hid by by eapply earliest_in_unique_ids.
  assert (unix_time_sec e = unix_time_sec l) as Htime by by eapply Hcons.
  assert (verdict_of early late id
          = match nearest_secondary_id_string e,
                  nearest_secondary_id_string l with
            | None, _ => DropEarly
            | Some _, None => DropLate
            | Some _, Some _ =>
                if distance_le (linkage_distance_metres e)
                     (linkage_distance_metres l)
                then DropLate else DropEarly
            end) as Hv.
  { unfold verdict_of. rewrite He, Hl. by destruct (decide _). }
  split; [|split; [|split]].
  - intros [? He'] [? Hl'] Hle. rewrite He', Hl', Hle in Hv.
    by apply drop_late_rows.
  - intros [? He'] [? Hl'] Hlt. apply distance_lt_not_le in Hlt.
    rewrite He', Hl', Hlt in Hv. by apply drop_early_rows.
  - intros [? He'] Hl'. rewrite He', Hl' in Hv. by apply drop_late_rows.
  - intros He' _. rewrite He' in Hv. by apply drop_early_rows.
Qed.

Lemma redundant_linkages_keep_nearer_period_witness :
  exists early' late',
    _remove_redundant_tornado_linkages early_period late_period
    = inr (early', late')
    /\ forall id e l,
         earliest (rows_of id early_period) = Some e ->
         earliest (rows_of id late_period) = Some l ->
         (is_Some (nearest_secondary_id_string e) ->
          is_Some (nearest_secondary_id_string l) ->
          distance_le (linkage_distance_metres e)
            (linkage_distance_metres l) = true ->
          rows_of id early' = rows_of id early_period
          /\ rows_of id late' = [])
         /\ (is_Some (nearest_secondary_id_string e) ->
             is_Some (nearest_secondary_id_string l) ->
             distance_lt (linkage_distance_metres l)
               (linkage_distance_metres e) = true ->
             rows_of id early' = []
             /\ rows_of id late' = rows_of id late_period)
         /\ (is_Some (nearest_secondary_id_string e) ->
             nearest_secondary_id_string l = None ->
             rows_of id early' = rows_of id early_period
             /\ rows_of id late' = [])
         /\ (nearest_secondary_id_string e = None ->
             is_Some (nearest_secondary_id_string l) ->
             rows_of id early' = []
             /\ rows_of id late' = rows_of id late_period).
Proof.
  apply (redundant_linkages_keep_nearer_period early_period late_period).
  exact periods_consistent.
Defined.

(** On the two periods above, "T1" stays in the early period only. *)
Example remove_redundant_two_periods :
  _remove_redundant_tornado_linkages early_period late_period
  = inr (early_period, [ linked_row "T2" 500 None NaN ]).
Proof. vm_compute. reflexivity. Qed.

(** C7: [_remove_redundant_tornado_linkages] is idempotent: applied to the
    pair of tables it returned, it returns that same pair. *)
Theorem remove_redundant_idempotent
  (early late early' late' : list (EventRow TornadoAttributes)) :
  _remove_redundant_tornado_linkages early late = inr (early', late') ->
  _remove_redundant_tornado_linkages early' late' = inr (early', late').
Proof.
  intros Hrun. unfold _remove_redundant_tornado_linkages.
  assert (forall id, verdict_of early' late' id = Skip) as Hskip.
  { intros id. by eapply remove_redundant_separates. }
  rewrite loop_returns by (intros; by rewrite Hskip).
  unfold kept_early, kept_late.
  rewrite !filter_all; [done| |]; intros row _;
    by rewrite Hskip, andb_false_r.
Qed.

Lemma remove_redundant_idempotent_witness :
  _remove_redundant_tornado_linkages early_period
    [ linked_row "T2" 500 None NaN ]
  = inr (early_period, [ linked_row "T2" 500 None NaN ]).
Proof.
  apply (remove_redundant_idempotent early_period late_period).
  vm_compute. reflexivity.
Defined.

(** The start time a table records for a tornado: the least event time
    among its rows. *)
Definition start_time (table : list (EventRow TornadoAttributes))
  (id : string) : option Z :=
  unix_time_sec <$> earliest (rows_of id table).

(** C8: [_remove_redundant_tornado_linkages] raises its ValueError if and
    only if some tornado ID appears in both the early and the late table
    with different recorded start times (earliest event times); on tables
    without such a mismatch it returns. *)
Theorem remove_redundant_raises_iff_start_times_differ
  (early late : list (EventRow TornadoAttributes)) :
  ((exists err, _remove_redundant_tornado_linkages early late = inl err)
   <-> exists id early_start late_start,
         start_time early id = Some early_start
         /\ start_time late id = Some late_start
         /\ early_start <> late_start)
  /\ ((exists tables,
         _remove_redundant_tornado_linkages early late = inr tables)
      <-> ~ exists id early_start late_start,
              start_time early id = Some early_start
              /\ start_time late id = Some late_start
              /\ early_start <> late_start).
Proof.
  assert ((exists id early_start late_start,
             start_time early id = Some early_start
             /\ start_time late id = Some late_start
             /\ early_start <> late_start)
          <-> exists id, is_mismatch (verdict_of early late id) = true)
    as Hmis.
  { unfold start_time. split.
    - intros (id & te & tl & He & Hl & Hne). exists id.
      apply mismatch_start_times.
      destruct (earliest (rows_of id early)) as [e|]; [|done].
      destruct (earliest (rows_of id late)) as [l|]; [|done].
      injection He as <-. injection Hl as <-. by exists e, l.
    - intros (id & Hid).
      apply mismatch_start_times in Hid as (e & l & He & Hl & Hne).
      exists id, (unix_time_sec e), (unix_time_sec l).
      by rewrite He, Hl. }
  assert ((exists id, is_mismatch (verdict_of early late id) = true)
          -> exists err,
               _remove_redundant_tornado_linkages early late = inl err)
    as Hraise.
  { intros (id & Hid). apply (loop_raises _ id); [|done].
    apply mismatch_start_times in Hid as (e & l & He & Hl & Hne).
    by eapply earliest_in_unique_ids. }
  assert ((~ exists id, is_mismatch (verdict_of early late id) = true)
          -> exists tables,
               _remove_redundant_tornado_linkages early late = inr tables)
    as Hreturn.
  { intros Hno. unfold _remove_redundant_tornado_linkages.
    rewrite loop_returns; [by eexists|].
    intros id _. apply not_true_is_false. intros Hid. apply Hno.
    by exists id. }
  rewrite Hmis. split; split.
  - intros [err Herr].
    destruct (_remove_redundant_tornado_linkages early late)
      as [err'|[early' late']] eqn:Hrun; [|done].
    set (ids := np_unique (map tornado_id_of early
                           ++ map tornado_id_of late)).
    destruct (decide (Exists
                (fun id => is_mismatch (verdict_of early late id) = true)
                ids)) as [Hex|Hno].
    + apply Exists_exists in Hex as (id & _ & Hid). by exists id.
    + unfold _remove_redundant_tornado_linkages in Hrun. fold ids in Hrun.
      rewrite loop_returns in Hrun; [done|].
      intros id Hid. apply not_true_is_false. intros Hm. apply Hno.
      apply Exists_exists. by exists id.
  - exact Hraise.
  - intros [tables Hrun] Hex. destruct (Hraise Hex) as [err Herr].
    congruence.
  - exact Hreturn.
Qed.

(** With the shifted late period the start times of "T1" differ (100
    against 130) and the function raises. *)
Example remove_redundant_raises_on_shifted_period :
  _remove_redundant_tornado_linkages early_period late_period_shifted
  = inl {| error_tornado_id_string := "T1";
           error_early_start_unix_sec := 100;
           error_late_start_unix_sec := 130 |}.
Proof. vm_compute. reflexivity. Qed.

(** ** Persistence of linkage results *)

(** A Python value held by a table cell. *)
Inductive pyvalue :=
| PyNone
| PyBool (b : bool)
| PyInt (z : Z)
| PyFloat (q : Q)
| PyStr (s : string)
| PyArray (items : list Q)
| PyStrList (items : list string).

(** A pandas table as the persistence code sees it: the length of its
    index and its named columns. *)
Record DataFrame := {
  index_length : nat;
  columns : list (string * list pyvalue)
}.

(** An object written by [pickle.dump] and returned by [pickle.load]. *)
Inductive pyobject :=
| ObjNone
| ObjTable (table : DataFrame)
| ObjDict (dict : gmap string Q).

(** The Pickle files on disk: path to the sequence of objects dumped. *)
Abbreviation file_system := (gmap string (list pyobject)).

Definition MAX_TIME_BEFORE_START_KEY : string :=
  "max_time_before_storm_start_sec".
Definition MAX_TIME_AFTER_END_KEY : string := "max_time_after_storm_end_sec".
Definition STORM_INTERP_TIME_KEY : string := "storm_interp_time_interval_sec".
Definition BBOX_PADDING_KEY : string := "bounding_box_padding_metres".
Definition MAX_LINK_DISTANCE_KEY : string := "max_link_distance_metres".

Definition DEFAULT_MAX_TIME_BEFORE_STORM_SEC : Q := 300.
Definition DEFAULT_MAX_TIME_AFTER_STORM_SEC : Q := 300.
Definition DEFAULT_BBOX_PADDING_METRES : Q := 100000.
Definition DEFAULT_MAX_WIND_DISTANCE_METRES : Q := 30000.
Definition DEFAULT_MAX_TORNADO_DISTANCE_METRES : Q := 30000.

Definition LINKAGE_DISTANCES_COLUMN : string := "linkage_distances_metres".
Definition RELATIVE_EVENT_TIMES_COLUMN : string := "relative_event_times_sec".
Definition EVENT_LATITUDES_COLUMN : string := "event_latitudes_deg".
Definition EVENT_LONGITUDES_COLUMN : string := "event_longitudes_deg".
Definition MAIN_OBJECT_FLAGS_COLUMN : string := "main_object_flags".
Definition MERGING_PRED_FLAG_COLUMN : string := "merging_predecessor_flag".
Definition FUJITA_RATINGS_COLUMN : string := "f_or_ef_scale_ratings".
Definition TORNADO_IDS_COLUMN : string := "tornado_id_strings".
Definition WIND_STATION_IDS_COLUMN : string := "wind_station_ids".
Definition U_WINDS_COLUMN : string := "u_winds_m_s01".
Definition V_WINDS_COLUMN : string := "v_winds_m_s01".

Definition THESE_COLUMNS : list string :=
  [ LINKAGE_DISTANCES_COLUMN; RELATIVE_EVENT_TIMES_COLUMN;
    EVENT_LATITUDES_COLUMN; EVENT_LONGITUDES_COLUMN;
    MAIN_OBJECT_FLAGS_COLUMN; MERGING_PRED_FLAG_COLUMN ].

Definition WIND_LINKAGE_COLUMNS : list string :=
  THESE_COLUMNS ++ [ WIND_STATION_IDS_COLUMN; U_WINDS_COLUMN; V_WINDS_COLUMN ].

Definition TORNADO_LINKAGE_COLUMNS : list string :=
  THESE_COLUMNS ++ [ FUJITA_RATINGS_COLUMN; TORNADO_IDS_COLUMN ].

(** [_check_input_args] as far as the numbers go: the metadata dict of a
    run, or [None] for the error of a rejected argument.  The two time
    limits and the interpolation interval are integers. *)
Definition _check_input_args
  (max_time_before_storm_start_sec max_time_after_storm_end_sec : Z)
  (bounding_box_padding_metres : Q) (storm_interp_time_interval_sec : Z)
  (max_link_distance_metres : Q) : option (gmap string Q) :=
  if decide (max_time_before_storm_start_sec < 0)%Z then None
  else if decide (max_time_after_storm_end_sec < 0)%Z then None
  else if decide (storm_interp_time_interval_sec <= 0)%Z then None
  else if negb (Qle_bool 0 max_link_distance_metres) then None
  else if negb (Qle_bool max_link_distance_metres
                  bounding_box_padding_metres) then None
  else
    Some
      (<[MAX_TIME_BEFORE_START_KEY :=
           inject_Z max_time_before_storm_start_sec]>
       (<[MAX_TIME_AFTER_END_KEY := inject_Z max_time_after_storm_end_sec]>
        (<[STORM_INTERP_TIME_KEY := inject_Z storm_interp_time_interval_sec]>
         (<[BBOX_PADDING_KEY := bounding_box_padding_metres]>
          (<[MAX_LINK_DISTANCE_KEY := max_link_distance_metres]> ∅))))).

(** Modelled from the spec: [error_checking.assert_columns_in_dataframe]
    of [gg_utils/error_checking.py], which is not among the sources; the
    "wrong column set" error of a malformed table.  [true] when the check
    passes. *)
Definition columns_in_dataframe (table : DataFrame)
  (required : list string) : bool :=
  forallb (fun name => bool_decide (name ∈ map fst (columns table))) required.

Section Persistence.

(** [REQUIRED_STORM_COLUMNS]: a list of column names defined in
    [storm_tracking_utils], outside this module. *)
Variable REQUIRED_STORM_COLUMNS : list string.

Definition REQUIRED_WIND_LINKAGE_COLUMNS : list string :=
  REQUIRED_STORM_COLUMNS ++ WIND_LINKAGE_COLUMNS.

Definition REQUIRED_TORNADO_LINKAGE_COLUMNS : list string :=
  REQUIRED_STORM_COLUMNS ++ TORNADO_LINKAGE_COLUMNS.

(** [write_linkage_file]: the file system after the three dumps, or
    [None] when the table has neither column set. *)
Definition write_linkage_file (files : file_system)
  (pickle_file_name : string) (storm_to_events_table : DataFrame)
  (metadata_dict : gmap string Q) (tornado_to_storm_table : option DataFrame)
  : option file_system :=
  if columns_in_dataframe storm_to_events_table REQUIRED_WIND_LINKAGE_COLUMNS
     || columns_in_dataframe storm_to_events_table
          REQUIRED_TORNADO_LINKAGE_COLUMNS
  then
    Some
      (<[pickle_file_name :=
           [ ObjTable storm_to_events_table;
             ObjDict metadata_dict;
             match tornado_to_storm_table with
             | Some table => ObjTable table
             | None => ObjNone
             end ]]> files)
  else None.

(** [read_linkage_file]: the three returned values, or [None] when a step
    raises (no such file, no table at the head of the file, neither column
    set). *)
Definition read_linkage_file (files : file_system)
  (pickle_file_name : string)
  : option (DataFrame * gmap string Q * pyobject) :=
  match files !! pickle_file_name with
  | Some (ObjTable storm_to_events_table :: rest) =>
      let storm_to_events_table :=
        if decide (MERGING_PRED_FLAG_COLUMN
                   ∈ map fst (columns storm_to_events_table))
        then storm_to_events_table
        else
          let num_storm_objects := index_length storm_to_events_table in
          {| index_length := num_storm_objects;
             columns :=
               columns storm_to_events_table
               ++ [ (MERGING_PRED_FLAG_COLUMN,
                     replicate num_storm_objects (PyBool false)) ] |} in
      let '(metadata_dict, tornado_to_storm_table) :=
        match rest with
        | metadata_dict :: tornado_to_storm_table :: _ =>
            (metadata_dict, tornado_to_storm_table)
        | _ => (ObjNone, ObjNone) (* except EOFError *)
        end in
      let check (tornado : bool) :=
        let max_link_distance_metres :=
          if tornado then DEFAULT_MAX_TORNADO_DISTANCE_METRES
          else DEFAULT_MAX_WIND_DISTANCE_METRES in
        let metadata_dict : gmap string Q :=
          <[MAX_TIME_BEFORE_START_KEY := DEFAULT_MAX_TIME_BEFORE_STORM_SEC]>
          (<[MAX_TIME_AFTER_END_KEY := DEFAULT_MAX_TIME_AFTER_STORM_SEC]>
           (<[STORM_INTERP_TIME_KEY := if tornado then 1%Q else 10%Q]>
            (<[BBOX_PADDING_KEY := DEFAULT_BBOX_PADDING_METRES]>
             (<[MAX_LINK_DISTANCE_KEY := max_link_distance_metres]> ∅)))) in
        Some (storm_to_events_table, metadata_dict, tornado_to_storm_table) in
      if columns_in_dataframe storm_to_events_table
           REQUIRED_WIND_LINKAGE_COLUMNS
      then check false
      else if columns_in_dataframe storm_to_events_table
                REQUIRED_TORNADO_LINKAGE_COLUMNS
      then check true
      else None
  | _ => None
  end.

End Persistence.

(** *** Claim about persistence *)

(** Storm columns under the names the docstrings of the module use. *)
Definition documented_storm_columns : list string :=
  [ "primary_id_string"; "secondary_id_string"; "valid_time_unix_sec";
    "cell_start_time_unix_sec"; "cell_end_time_unix_sec" ].

(** A storm-to-winds table with every required column and no rows. *)
Definition empty_storm_to_winds_table : DataFrame :=
  {| index_length := 0;
     columns :=
       map (fun name => (name, []))
         (REQUIRED_WIND_LINKAGE_COLUMNS documented_storm_columns) |}.

(** The metadata of a run with limits of 600 s, an interpolation interval
    of 10 s, a padding of 100 km and a maximum linkage distance of 20 km. *)
Definition metadata_20km : gmap string Q :=
  default ∅ (_check_input_args 600 600 100000 10 20000).

(** C9 fails on the code: a file written with the metadata of a run whose
    maximum linkage distance is 20 km reads back with the hard-coded
    defaults (30 km, 300 s), which [read_linkage_file] puts in place of
    the dict it has just loaded. *)
Theorem read_linkage_file_replaces_metadata :
  exists files default_metadata,
    _check_input_args 600 600 100000 10 20000 = Some metadata_20km
    /\ write_linkage_file documented_storm_columns ∅ "storm_to_winds.p"
         empty_storm_to_winds_table metadata_20km None = Some files
    /\ read_linkage_file documented_storm_columns files "storm_to_winds.p"
       = Some (empty_storm_to_winds_table, default_metadata, ObjNone)
    /\ default_metadata !! MAX_LINK_DISTANCE_KEY = Some 30000%Q
    /\ metadata_20km !! MAX_LINK_DISTANCE_KEY = Some 20000%Q
    /\ default_metadata <> metadata_20km.
Proof.
  eexists _, _. split; [reflexivity|]. split; [reflexivity|].
  split.
  { unfold read_linkage_file. rewrite lookup_insert_eq. reflexivity. }
  split; [reflexivity|]. split; [reflexivity|].
  intros Heq.
  apply (f_equal (fun m : gmap string Q => m !! MAX_LINK_DISTANCE_KEY))
    in Heq.
  vm_compute in Heq. discriminate.
Qed.

(** ** Temporal interpolation of storm outlines *)

(** [numpy.mean] of an array of rationals. *)
Definition np_mean (a : list Q) : Q :=
  (fold_right Qplus 0 a / inject_Z (Z.of_nat (length a)))%Q.

(** [numpy.min] and [numpy.max] of a non-empty array of integers. *)
Definition np_min_Z (first : Z) (rest : list Z) : Z :=
  fold_left Z.min rest first.
Definition np_max_Z (first : Z) (rest : list Z) : Z :=
  fold_left Z.max rest first.

(** [column[rows] = value]. *)
Definition set_rows {A} (rows : list nat) (value : A) (column : list A)
  : list A :=
  fold_right (fun i c => <[i := value]> c) column rows.

(** [table.iloc[rows]]; IndexError ([None]) for a row out of range. *)
Definition iloc {A} (table : list A) (rows : list nat) : option (list A) :=
  mapM (fun i => table !! i) rows.

(** [_find_secondary_start_end_times] for a table without the two
    columns: the new columns [secondary_cell_start_time_unix_sec] and
    [secondary_cell_end_time_unix_sec], row by row. *)
Definition _find_secondary_start_end_times
  (storm_object_table : list StormObject) : list (Z * Z) :=
  let secondary_id_strings :=
    map secondary_id_string storm_object_table in
  let unique_secondary_id_strings := np_unique secondary_id_strings in
  let orig_to_unique_indices := np_unique_inverse secondary_id_strings in
  let num_objects := length storm_object_table in
  let num_secondary_cells := length unique_secondary_id_strings in
  fold_left
    (fun start_end_columns j =>
       let these_object_indices :=
         np_where (map (fun u => Nat.eqb u j) orig_to_unique_indices) in
       match
         np_take (map valid_time_unix_sec storm_object_table)
           these_object_indices
       with
       | first :: rest =>
           let this_start_time_unix_sec := np_min_Z first rest in
           let this_end_time_unix_sec := np_max_Z first rest in
           set_rows these_object_indices
             (this_start_time_unix_sec, this_end_time_unix_sec)
             start_end_columns
       | [] => start_end_columns
       end)
    (seq 0 num_secondary_cells)
    (replicate num_objects ((-1)%Z, (-1)%Z)).

Fixpoint insert_by_time (row : StormObject) (sorted : list StormObject)
  : list StormObject :=
  match sorted with
  | [] => [row]
  | other :: rest =>
      if (valid_time_unix_sec row <=? valid_time_unix_sec other)%Z
      then row :: other :: rest
      else other :: insert_by_time row rest
  end.

(** [table.sort_values(valid_time, ascending=True)]; rows of equal time
    keep their order. *)
Definition sort_values (table : list StormObject) : list StormObject :=
  fold_right insert_by_time [] table.

(** Signature of [temporal_tracking.find_immediate_predecessors] and
    [find_immediate_successors]: table and target row to rows. *)
Definition neighbour_lookup : Type := list StormObject -> nat -> list nat.

(** Signature of [interp.interp_in_time] with the linear method and
    [extrapolate=True], for one row of the input matrix and one query
    time: values, their sorted times, the query time; [None] when it
    raises. *)
Definition time_interpolator : Type := list Q -> list Z -> Z -> option Q.

Section Interpolation.

(** Collaborators outside this module, taken as parameters. *)
Variable find_immediate_predecessors : neighbour_lookup.
Variable find_immediate_successors : neighbour_lookup.
Variable interp_in_time : time_interpolator.

(** Centroid and vertices that [_interp_one_storm_in_time] computes for
    the [i]th unique time. *)
Definition outline_at_time (storm_object_table_1cell : list StormObject)
  (orig_to_unique_indices : list nat) (i : nat)
  : (Q * Q) * (list Q * list Q) :=
  let these_orig_indices :=
    np_where (map (fun u => Nat.eqb u i) orig_to_unique_indices) in
  let these_objects :=
    np_take storm_object_table_1cell these_orig_indices in
  let x_centroid := np_mean (map centroid_x_metres these_objects) in
  let y_centroid := np_mean (map centroid_y_metres these_objects) in
  let x_vertices :=
    flat_map
      (fun s =>
         let this_x_offset_metres := (x_centroid - centroid_x_metres s)%Q in
         map (fun v => (this_x_offset_metres + v)%Q) (vertices_x_metres s))
      these_objects in
  let y_vertices :=
    flat_map
      (fun s =>
         let this_y_offset_metres := (y_centroid - centroid_y_metres s)%Q in
         map (fun v => (this_y_offset_metres + v)%Q) (vertices_y_metres s))
      these_objects in
  ((x_centroid, y_centroid), (x_vertices, y_vertices)).

(** [_interp_one_storm_in_time]: the vertex table of one interpolated
    outline, or [None] when a step raises. *)
Definition _interp_one_storm_in_time
  (storm_object_table_1cell : list StormObject)
  (secondary_id_string : string) (target_time_unix_sec : Z)
  : option (list Vertex) :=
  let times := map valid_time_unix_sec storm_object_table_1cell in
  let valid_times_unix_sec := np_unique times in
  let orig_to_unique_indices := np_unique_inverse times in
  let num_times := length valid_times_unix_sec in
  let outlines :=
    map (outline_at_time storm_object_table_1cell orig_to_unique_indices)
      (seq 0 num_times) in
  let x_centroids_metres := map (fun o => fst (fst o)) outlines in
  let y_centroids_metres := map (fun o => snd (fst o)) outlines in
  match interp_in_time x_centroids_metres valid_times_unix_sec
          target_time_unix_sec,
        interp_in_time y_centroids_metres valid_times_unix_sec
          target_time_unix_sec with
  | Some interp_x, Some interp_y =>
      let absolute_time_diffs_sec :=
        map (fun t => Z.abs (t - target_time_unix_sec)) valid_times_unix_sec
      in
      match np_argmin Z.ltb absolute_time_diffs_sec with
      | Some nearest_time_index =>
          match outlines !! nearest_time_index with
          | Some ((x_centroid, y_centroid), (x_vertices, y_vertices)) =>
              let new_x_vertices_metres :=
                map (fun v => (interp_x - x_centroid + v)%Q) x_vertices in
              let new_y_vertices_metres :=
                map (fun v => (interp_y - y_centroid + v)%Q) y_vertices in
              if decide (length new_x_vertices_metres
                         = length new_y_vertices_metres)
              then
                Some
                  (zip_with
                     (fun x y =>
                        {| vertex_secondary_id_string := secondary_id_string;
                           vertex_x_metres := x; vertex_y_metres := y |})
                     new_x_vertices_metres new_y_vertices_metres)
              else None
          | None => None
          end
      | None => None
      end
  | _, _ => None
  end.

(** [sorted_storm_object_table] of [_interp_storms_in_time]: the storm
    objects of cells alive near the target time, by valid time. *)
Definition sorted_storm_object_table (storm_object_table : list StormObject)
  (target_time_unix_sec max_time_before_start_sec max_time_after_end_sec : Z)
  : list StormObject :=
  let start_end_columns :=
    _find_secondary_start_end_times storm_object_table in
  let max_start_time_unix_sec :=
    (target_time_unix_sec + max_time_before_start_sec)%Z in
  let min_end_time_unix_sec :=
    (target_time_unix_sec - max_time_after_end_sec)%Z in
  sort_values
    (map fst
       (List.filter
          (fun row =>
             (fst (snd row) <=? max_start_time_unix_sec + 1800)%Z
             && (min_end_time_unix_sec - 1800 <=? snd (snd row))%Z)
          (zip storm_object_table start_end_columns))).

(** [these_rows] of the loop over storm cells: rows of the immediate
    predecessors, of the cell and of the immediate successors. *)
Definition gathered_rows (sorted_table : list StormObject)
  (this_secondary_id_string : string) : list nat :=
  let these_main_rows :=
    np_where
      (map (fun s =>
              bool_decide (secondary_id_string s = this_secondary_id_string))
         sorted_table) in
  match these_main_rows, last these_main_rows with
  | first_main_row :: _, Some last_main_row =>
      find_immediate_predecessors sorted_table first_main_row
      ++ these_main_rows
      ++ find_immediate_successors sorted_table last_main_row
  | _, _ => these_main_rows
  end.

(** Body of the loop over storm cells: the vertex table appended for cell
    [j] (empty where the source says [continue]), or [None] when
    interpolation raises. *)
Definition interp_one_cell (sorted_table : list StormObject)
  (target_time_unix_sec max_start_time_unix_sec min_end_time_unix_sec : Z)
  (this_secondary_id_string : string) : option (list Vertex) :=
  let these_main_rows :=
    np_where
      (map (fun s =>
              bool_decide (secondary_id_string s = this_secondary_id_string))
         sorted_table) in
  let these_rows := gathered_rows sorted_table this_secondary_id_string in
  if decide (length these_rows = 1%nat) then Some [] else
  match these_main_rows, last these_main_rows with
  | first_main_row :: _, Some last_main_row =>
      match sorted_table !! first_main_row, sorted_table !! last_main_row
      with
      | Some first_object, Some last_object =>
          if decide (valid_time_unix_sec first_object
                     > max_start_time_unix_sec)%Z
          then Some []
          else if decide (valid_time_unix_sec last_object
                          < min_end_time_unix_sec)%Z
          then Some []
          else
            match iloc sorted_table these_rows with
            | Some storm_object_table_1cell =>
                _interp_one_storm_in_time storm_object_table_1cell
                  this_secondary_id_string target_time_unix_sec
            | None => None
            end
      | _, _ => None
      end
  | _, _ => None
  end.

(** [_interp_storms_in_time]: the concatenated vertex tables, or [None]
    when interpolation raises for some cell. *)
Definition _interp_storms_in_time (storm_object_table : list StormObject)
  (target_time_unix_sec max_time_before_start_sec max_time_after_end_sec : Z)
  : option (list Vertex) :=
  let max_start_time_unix_sec :=
    (target_time_unix_sec + max_time_before_start_sec)%Z in
  let min_end_time_unix_sec :=
    (target_time_unix_sec - max_time_after_end_sec)%Z in
  let sorted_table :=
    sorted_storm_object_table storm_object_table target_time_unix_sec
      max_time_before_start_sec max_time_after_end_sec in
  let unique_secondary_id_strings :=
    np_unique (map secondary_id_string sorted_table) in
  match
    mapM
      (interp_one_cell sorted_table target_time_unix_sec
         max_start_time_unix_sec min_end_time_unix_sec)
      unique_secondary_id_strings
  with
  | Some list_of_vertex_tables => Some (concat list_of_vertex_tables)
  | None => None
  end.

End Interpolation.

(** Modelled from the spec: [interp.interp_in_time] of [gg_utils/interp.py]
    (not among the sources) with the linear method and extrapolation: the
    value at the query time of the line through the two knots around it,
    or through the two nearest knots at an end.  Fewer than two knots
    cannot be interpolated ([None]). *)
Fixpoint interp_in_time_linear (values : list Q) (times : list Z) (query : Z)
  {struct times} : option Q :=
  match times, values with
  | t0 :: ((t1 :: later) as times'), v0 :: ((v1 :: _) as values') =>
      let on_segment :=
        (v0 + (v1 - v0) * inject_Z (query - t0) / inject_Z (t1 - t0))%Q in
      match later with
      | [] => Some on_segment
      | _ :: _ =>
          if (query <=? t1)%Z then Some on_segment
          else interp_in_time_linear values' times' query
      end
  | _, _ => None
  end.

(** The row, among [rows], whose valid time comes last (or first). *)
Definition latest_row (table : list StormObject) (rows : list nat)
  : list nat :=
  match
    np_argmin Z.ltb (map Z.opp (np_take (map valid_time_unix_sec table) rows))
  with
  | Some k => option_list (rows !! k)
  | None => []
  end.

Definition earliest_row (table : list StormObject) (rows : list nat)
  : list nat :=
  match np_argmin Z.ltb (np_take (map valid_time_unix_sec table) rows) with
  | Some k => option_list (rows !! k)
  | None => []
  end.

(** Modelled from the spec: [temporal_tracking.find_immediate_predecessors]
    (not among the sources) returns only the directly linked rows: the
    previous time step of the same secondary ID or, at the start of the
    segment, the last time step of each recorded predecessor secondary ID;
    an empty result when there is none. *)
Definition find_immediate_predecessors_model : neighbour_lookup :=
  fun table target_row =>
    match table !! target_row with
    | None => []
    | Some target =>
        match
          latest_row table
            (np_where
               (map (fun s =>
                       bool_decide (secondary_id_string s
                                    = secondary_id_string target)
                       && (valid_time_unix_sec s
                           <? valid_time_unix_sec target)%Z)
                  table))
        with
        | [] =>
            flat_map
              (fun prev_id =>
                 if decide (prev_id = "") then []
                 else
                   latest_row table
                     (np_where
                        (map (fun s =>
                                bool_decide (secondary_id_string s = prev_id))
                           table)))
              [ first_prev_secondary_id_string target;
                second_prev_secondary_id_string target ]
        | rows => rows
        end
    end.

(** Modelled from the spec: [temporal_tracking.find_immediate_successors],
    the time-forward counterpart. *)
Definition find_immediate_successors_model : neighbour_lookup :=
  fun table target_row =>
    match table !! target_row with
    | None => []
    | Some target =>
        match
          earliest_row table
            (np_where
               (map (fun s =>
                       bool_decide (secondary_id_string s
                                    = secondary_id_string target)
                       && (valid_time_unix_sec target
                           <? valid_time_unix_sec s)%Z)
                  table))
        with
        | [] =>
            flat_map
              (fun next_id =>
                 if decide (next_id = "") then []
                 else
                   earliest_row table
                     (np_where
                        (map (fun s =>
                                bool_decide (secondary_id_string s = next_id))
                           table)))
              [ first_next_secondary_id_string target;
                second_next_secondary_id_string target ]
        | rows => rows
        end
    end.

(** *** Vocabulary of the interpolator's properties *)

(** The interpolator returns the recorded value at a recorded time. *)
Definition exact_at_knots (interp_in_time : time_interpolator) : Prop :=
  forall (values : list Q) (times : list Z) (i : nat) (t : Z) (v : Q),
    StronglySorted Z.lt times -> length values = length times ->
    (2 <= length times)%nat ->
    times !! i = Some t -> values !! i = Some v ->
    exists v', interp_in_time values times t = Some v' /\ (v' == v)%Q.

(** The outline a storm object records, as rows of a vertex table. *)
Definition original_outline (s : StormObject) : list Vertex :=
  zip_with
    (fun x y => {| vertex_secondary_id_string := secondary_id_string s;
                   vertex_x_metres := x; vertex_y_metres := y |})
    (vertices_x_metres s) (vertices_y_metres s).

(** Two vertex rows with the same ID and equal coordinates. *)
Definition same_vertex (v w : Vertex) : Prop :=
  vertex_secondary_id_string v = vertex_secondary_id_string w
  /\ (vertex_x_metres v == vertex_x_metres w)%Q
  /\ (vertex_y_metres v == vertex_y_metres w)%Q.

(** The rows of one storm in a vertex table. *)
Definition outline_of (id : string) (t : list Vertex) : list Vertex :=
  List.filter (fun v => bool_decide (vertex_secondary_id_string v = id)) t.

(** *** Facts about the idioms used by the interpolator *)

Lemma index_lt `{EqDecision A} (x : A) (l : list A) :
  x ∈ l -> (index x l < length l)%nat.
Proof. intros Hin. eapply lookup_lt_Some. by apply index_lookup. Qed.

Lemma filter_singleton_where {A} (p : A -> bool) (l : list A) (r : A) :
  List.filter p l = [r] ->
  exists m, np_where (map p l) = [m] /\ l !! m = Some r
            /\ forall q x, l !! q = Some x -> p x = true -> q = m.
Proof.
  intros Hfilter.
  pose proof (length_np_where p l) as Hlen. rewrite Hfilter in Hlen.
  destruct (np_where (map p l)) as [|m [|? ?]] eqn:Hwhere; try done.
  exists m. split; [done|]. split.
  - rewrite (np_where_lookup_filter p l 0 m); [by rewrite Hfilter|].
    by rewrite Hwhere.
  - intros q x Hq Hp.
    assert (q ∈ np_where (map p l)) as Hin.
    { apply elem_of_np_where. by exists x. }
    rewrite Hwhere in Hin. set_solver.
Qed.

Lemma set_rows_length {A} (rows : list nat) (v : A) (c : list A) :
  length (set_rows rows v c) = length c.
Proof.
  induction rows as [|i rows IH]; simpl; [done|]. by rewrite length_insert.
Qed.

Lemma set_rows_lookup_ne {A} (rows : list nat) (v : A) (c : list A) (p : nat) :
  p ∉ rows -> set_rows rows v c !! p = c !! p.
Proof.
  induction rows as [|i rows IH]; simpl; [done|]. intros Hp.
  rewrite list_lookup_insert_ne by set_solver. apply IH. set_solver.
Qed.

Lemma List_filter_Permutation {A} (p : A -> bool) (l l' : list A) :
  Permutation l l' -> Permutation (List.filter p l) (List.filter p l').
Proof.
  induction 1 as [|x l l' _ IH|x y l|l l' l'' _ IH1 _ IH2]; simpl.
  - done.
  - destruct (p x); [by constructor|done].
  - destruct (p x), (p y); try done. constructor.
  - by etransitivity.
Qed.

Lemma insert_by_time_Permutation (row : StormObject) (l : list StormObject) :
  Permutation (insert_by_time row l) (row :: l).
Proof.
  induction l as [|x l IH]; simpl; [done|].
  destruct (_ <=? _)%Z; [done|].
  rewrite IH. constructor.
Qed.

Lemma sort_values_Permutation (l : list StormObject) :
  Permutation (sort_values l) l.
Proof.
  induction l as [|x l IH]; simpl; [done|].
  rewrite insert_by_time_Permutation. by constructor.
Qed.

Lemma filter_nil_zip {A B} (p : A -> bool) (flag : A * B -> bool)
  (l : list A) (cols : list B) :
  List.filter p l = [] ->
  List.filter p (map fst (List.filter flag (zip l cols))) = [].
Proof.
  revert cols. induction l as [|x l IH]; intros [|c cols]; simpl; try done.
  destruct (p x) eqn:Hp; [done|]. intros Hnil.
  destruct (flag (x, c)); simpl; [rewrite Hp|]; by apply IH.
Qed.

(** A row that is alone in satisfying [p] and passes the filter on the
    added columns is still alone after it. *)
Lemma filter_singleton_zip {A B} (p : A -> bool) (flag : A * B -> bool)
  (l : list A) (cols : list B) (m : nat) (r : A) (c : B) :
  List.filter p l = [r] -> l !! m = Some r -> cols !! m = Some c ->
  flag (r, c) = true ->
  List.filter p (map fst (List.filter flag (zip l cols))) = [r].
Proof.
  intros Hone Hr Hc Hflag.
  assert (p r = true) as Hpr.
  { assert (In r (List.filter p l)) as Hin by (rewrite Hone; by left).
    by apply filter_In in Hin as [_ ?]. }
  revert cols m Hone Hr Hc.
  induction l as [|x l IH]; intros cols m Hone Hr Hc; [done|].
  destruct cols as [|c0 cols]; [by destruct m|].
  simpl in Hone. destruct (p x) eqn:Hpx.
  - injection Hone as -> Hnil. destruct m as [|m].
    + injection Hc as ->. simpl. rewrite Hflag. simpl. rewrite Hpr.
      f_equal. by apply filter_nil_zip.
    + exfalso. simpl in Hr.
      assert (In r (List.filter p l)) as Hin.
      { apply filter_In. split; [|done].
        apply list_elem_of_lookup_2 in Hr. by apply list_elem_of_In. }
      by rewrite Hnil in Hin.
  - destruct m as [|m]; [simpl in Hr; congruence|].
    simpl. destruct (flag (x, c0)); simpl; [rewrite Hpx|]; by eapply IH.
Qed.

(** *** Facts about the interpolator *)

Lemma filter_singleton_holds {A} (p : A -> bool) (l : list A) (r : A) :
  List.filter p l = [r] -> p r = true /\ r ∈ l.
Proof.
  intros Hone.
  assert (In r (List.filter p l)) as Hin by (rewrite Hone; by left).
  apply filter_In in Hin as [Hin Hp]. by rewrite list_elem_of_In.
Qed.

(** The rows of a cell selected through [orig_to_unique_indices]. *)
Lemma filter_by_unique_index `{NumpyOrd K} `{EqDecision K} {A}
  (key : A -> K) (table : list A) (k : K) :
  k ∈ map key table ->
  List.filter
    (fun s => Nat.eqb (index (key s) (np_unique (map key table)))
                (index k (np_unique (map key table))))
    table
  = List.filter (fun s => bool_decide (key s = k)) table.
Proof.
  intros Hk. apply filter_ext_in. intros s Hs.
  assert (key s ∈ np_unique (map key table)) as Hsu.
  { apply elem_of_np_unique, list_elem_of_In, in_map, Hs. }
  assert (k ∈ np_unique (map key table)) as Hku by by apply elem_of_np_unique.
  destruct (decide (key s = k)) as [Heq|Hne].
  - rewrite Heq, Nat.eqb_refl. by rewrite bool_decide_eq_true_2.
  - rewrite bool_decide_eq_false_2 by done.
    apply Nat.eqb_neq. intros Heq. apply Hne. by eapply index_inj.
Qed.

(** A cell with a single storm object starts and ends at its time. *)
Lemma start_end_unique_row (table : list StormObject) (id : string)
  (r : StormObject) (p : nat) :
  List.filter (fun s => bool_decide (secondary_id_string s = id)) table = [r] ->
  table !! p = Some r ->
  _find_secondary_start_end_times table !! p
  = Some (valid_time_unix_sec r, valid_time_unix_sec r).
Proof.
  intros Hone Hp. unfold _find_secondary_start_end_times, np_unique_inverse.
  set (uniq := np_unique (map secondary_id_string table)).
  destruct (filter_singleton_holds _ _ _ Hone) as [Hrid Hrin].
  apply bool_decide_eq_true_1 in Hrid.
  assert (id ∈ map secondary_id_string table) as Hid.
  { rewrite <- Hrid. apply list_elem_of_In, in_map. by apply list_elem_of_In. }
  assert (id ∈ uniq) as Hidu by by apply elem_of_np_unique.
  set (j0 := index id uniq).
  match goal with |- fold_left ?f _ _ !! _ = _ => set (body := f) end.
  assert (forall js cols, NoDup js -> (p < length cols)%nat ->
            fold_left body js cols !! p
            = if decide (j0 ∈ js)
              then Some (valid_time_unix_sec r, valid_time_unix_sec r)
              else cols !! p) as Hfold.
  { induction js as [|j js IH]; intros cols Hnodup Hlen; simpl.
    { destruct (decide (j0 ∈ [])) as [Hin|]; [|done].
      by apply elem_of_nil in Hin. }
    apply NoDup_cons in Hnodup as [Hj Hnodup].
    assert (body cols j !! p
            = (if decide (j = j0)
               then Some (valid_time_unix_sec r, valid_time_unix_sec r)
               else cols !! p)
            /\ length (body cols j) = length cols) as [Hstep Hlen'].
    { unfold body. rewrite !map_map.
      destruct (decide (j = j0)) as [->|Hne].
      - unfold j0, uniq. 
        destruct (filter_singleton_where
                    (fun s => Nat.eqb (index (secondary_id_string s) uniq)
                                (index id uniq)) table r)
          as (m & Hwhere & Hm & Huniq).
        { unfold uniq. by rewrite filter_by_unique_index. }
        assert (p = m) as <-.
        { apply (Huniq p r Hp). rewrite Hrid. apply Nat.eqb_refl. }
        fold uniq. rewrite Hwhere. unfold np_take. simpl.
        rewrite map_lookup, Hp. simpl. split.
        + by apply list_lookup_insert_eq.
        + by rewrite length_insert.
      - assert (p ∉ np_where
                      (map (fun s => Nat.eqb (index (secondary_id_string s)
                                                uniq) j) table)) as Hnot.
        { intros Hin. apply elem_of_np_where in Hin as (x & Hx & Heq).
          assert (x = r) as -> by congruence.
          apply Nat.eqb_eq in Heq. apply Hne. by rewrite <- Heq, Hrid. }
        destruct (np_take _ _); [done|].
        split; [by apply set_rows_lookup_ne|apply set_rows_length]. }
    rewrite IH by (done || lia). rewrite Hstep.
    destruct (decide (j = j0)) as [->|Hne].
    - destruct (decide (j0 ∈ js)); [done|].
      destruct (decide (j0 ∈ j0 :: js)) as [|Hno]; [done|].
      destruct Hno. set_solver.
    - destruct (decide (j0 ∈ js)) as [Hin|Hno];
        destruct (decide (j0 ∈ j :: js)) as [Hin'|Hno']; try done.
      + destruct Hno'. set_solver.
      + destruct Hno. set_solver. }
  rewrite Hfold.
  - destruct (decide (j0 ∈ seq 0 (length uniq))) as [|Hno]; [done|].
    destruct Hno. apply elem_of_seq. split; [lia|]. simpl. by apply index_lt.
  - apply NoDup_seq.
  - rewrite length_replicate. by eapply lookup_lt_Some.
Qed.

(** The single storm object of a cell is in the sorted table when the
    target time is its valid time, and is still the only one of its
    cell. *)
Lemma unique_row_sorted (table : list StormObject) (id : string)
  (r : StormObject) (before after : Z) :
  List.filter (fun s => bool_decide (secondary_id_string s = id)) table = [r] ->
  (0 <= before)%Z -> (0 <= after)%Z ->
  List.filter (fun s => bool_decide (secondary_id_string s = id))
    (sorted_storm_object_table table (valid_time_unix_sec r) before after)
  = [r].
Proof.
  intros Hone Hbefore Hafter. unfold sorted_storm_object_table.
  destruct (filter_singleton_where _ _ _ Hone) as (m & _ & Hm & _).
  set (kept := map fst _).
  assert (List.filter (fun s => bool_decide (secondary_id_string s = id)) kept
          = [r]) as Hkept.
  { unfold kept.
    eapply (filter_singleton_zip _ _ table _ m r); [done|done| |].
    - by apply start_end_unique_row with (id := id).
    - simpl. apply andb_true_iff. split; apply Z.leb_le; lia. }
  pose proof (List_filter_Permutation
                (fun s => bool_decide (secondary_id_string s = id)) _ _
                (sort_values_Permutation kept)) as Hperm.
  rewrite Hkept in Hperm. symmetry in Hperm.
  by apply Permutation_length_1_inv in Hperm.
Qed.

Lemma np_take_where_id {A} (p : A -> bool) (t : list A) :
  np_take t (np_where (map p t)) = List.filter p t.
Proof.
  pose proof (np_take_where (fun x : A => x) p t) as Htake.
  by rewrite !map_id in Htake.
Qed.

Lemma filter_none {A} (p : A -> bool) (l : list A) :
  Forall (fun x => p x = false) l -> List.filter p l = [].
Proof. induction 1 as [|x l Hx _ IH]; simpl; [done|]. by rewrite Hx. Qed.

Lemma two_distinct_members {A} (l : list A) (x y : A) :
  x ∈ l -> y ∈ l -> x <> y -> (2 <= length l)%nat.
Proof.
  destruct l as [|a [|b l]]; simpl; intros Hx Hy Hne; [| |lia].
  - by apply elem_of_nil in Hx.
  - apply list_elem_of_singleton in Hx, Hy. congruence.
Qed.

(** [numpy.argmin] finds a strict minimum where it is. *)
Lemma np_argmin_unique_min (l : list Z) (i0 : nat) (v : Z) :
  l !! i0 = Some v ->
  (forall j x, l !! j = Some x -> j <> i0 -> (v < x)%Z) ->
  np_argmin Z.ltb l = Some i0.
Proof.
  intros Hv Hmin. destruct l as [|b l]; [done|]. simpl. f_equal.
  destruct (argmin_from_min (b :: l) l b 0 1) as (v' & Hv' & Hle & Hall);
    [done|done|lia|].
  set (found := argmin_from Z.ltb b 0 1 l) in *.
  assert (v' <= v)%Z as Hle'.
  { destruct i0 as [|k]; simpl in Hv; [congruence|].
    apply list_elem_of_lookup_2 in Hv. by eapply Forall_forall in Hall. }
  destruct (decide (found = i0)) as [|Hne]; [done|].
  specialize (Hmin found v' Hv' Hne). lia.
Qed.

Lemma np_mean_singleton (c : Q) : (np_mean [c] == c)%Q.
Proof. unfold np_mean. simpl. field. Qed.

Lemma strictly_sorted_times (times : list Z) :
  StronglySorted Z.lt (np_unique times).
Proof. exact (np_unique_sorted times). Qed.

Lemma strictly_sorted_lookup_inj (l : list Z) (i j : nat) (t : Z) :
  StronglySorted Z.lt l -> l !! i = Some t -> l !! j = Some t -> i = j.
Proof.
  intros Hs. revert i j. induction Hs as [|a l Hs IH Ha]; intros i j Hi Hj.
  { by destruct i. }
  destruct i as [|i], j as [|j]; simpl in *; try done.
  - injection Hi as ->. apply list_elem_of_lookup_2 in Hj.
    eapply Forall_forall in Ha; [|exact Hj]. lia.
  - injection Hj as ->. apply list_elem_of_lookup_2 in Hi.
    eapply Forall_forall in Ha; [|exact Hi]. lia.
  - f_equal. by apply IH.
Qed.

Lemma zip_with_same_vertex (id : string) (xs xs' ys ys' : list Q) :
  Forall2 Qeq xs xs' -> Forall2 Qeq ys ys' ->
  Forall2 same_vertex
    (zip_with (fun x y => {| vertex_secondary_id_string := id;
                             vertex_x_metres := x; vertex_y_metres := y |})
       xs ys)
    (zip_with (fun x y => {| vertex_secondary_id_string := id;
                             vertex_x_metres := x; vertex_y_metres := y |})
       xs' ys').
Proof.
  intros Hx. revert ys ys'.
  induction Hx as [|x x' xs xs' Hxx _ IH]; intros ys ys' Hy; simpl;
    [constructor|].
  destruct Hy as [|y y' ys ys' Hyy Hy]; [constructor|].
  constructor; [done|]. by apply IH.
Qed.

Lemma translated_back (interp centroid c : Q) (vs : list Q) :
  (interp == centroid)%Q -> (centroid == c)%Q ->
  Forall2 Qeq
    (map (fun v => (interp - centroid + v)%Q)
       (map (fun v => (centroid - c + v)%Q) vs ++ []))
    vs.
Proof.
  intros Hi Hc. rewrite app_nil_r, map_map.
  induction vs as [|v vs IH]; simpl; constructor; [|done].
  rewrite Hi, Hc. ring.
Qed.

Section InterpolationFacts.
Variable interp_in_time : time_interpolator.
Hypothesis interp_exact : exact_at_knots interp_in_time.

(** Interpolating to a time at which the gathered rows hold exactly one
    storm object returns the outline of that object. *)
Lemma interp_one_storm_at_recorded_time
  (before_rows after_rows : list StormObject)
  (r : StormObject) (id : string) :
  Forall (fun s => valid_time_unix_sec s <> valid_time_unix_sec r)
    (before_rows ++ after_rows) ->
  before_rows ++ after_rows <> [] ->
  length (vertices_x_metres r) = length (vertices_y_metres r) ->
  exists block,
    _interp_one_storm_in_time interp_in_time (before_rows ++ r :: after_rows)
      id (valid_time_unix_sec r) = Some block
    /\ Forall2 same_vertex block
         (zip_with
            (fun x y => {| vertex_secondary_id_string := id;
                           vertex_x_metres := x; vertex_y_metres := y |})
            (vertices_x_metres r) (vertices_y_metres r)).
Proof.
  intros Hother Hnonempty Hlen.
  set (R := before_rows ++ r :: after_rows).
  set (T := valid_time_unix_sec r).
  unfold _interp_one_storm_in_time, np_unique_inverse.
  set (vts := np_unique (map valid_time_unix_sec R)).
  assert (T ∈ map valid_time_unix_sec R) as HTin.
  { apply list_elem_of_In, in_map, in_or_app. right. by left. }
  assert (T ∈ vts) as HT by by apply elem_of_np_unique.
  pose proof (strictly_sorted_times (map valid_time_unix_sec R)) as Hsorted.
  fold vts in Hsorted.
  set (i0 := index T vts).
  assert (vts !! i0 = Some T) as Hi0 by by apply index_lookup.
  assert (2 <= length vts)%nat as Htwo.
  { destruct (before_rows ++ after_rows) as [|s ?] eqn:Hrows; [done|].
    apply Forall_cons in Hother as [Hs _].
    apply (two_distinct_members vts (valid_time_unix_sec s) T);
      [|done|done].
    apply elem_of_np_unique, list_elem_of_In, in_map.
    assert (In s (before_rows ++ after_rows)) as Hin
      by (rewrite Hrows; by left).
    apply in_app_or in Hin as [Hin|Hin]; apply in_or_app;
      [by left|right; by right]. }
  assert (List.filter
            (fun s => Nat.eqb (index (valid_time_unix_sec s) vts) i0) R
          = [r]) as Hfilter.
  { unfold i0, vts. rewrite filter_by_unique_index by done.
    apply Forall_app in Hother as [Hbefore Hafter].
    unfold R. rewrite List.filter_app. simpl.
    rewrite bool_decide_eq_true_2 by done.
    rewrite !filter_none; [done| |].
    - eapply Forall_impl; [exact Hafter|]. intros s Hs.
      by apply bool_decide_eq_false_2.
    - eapply Forall_impl; [exact Hbefore|]. intros s Hs.
      by apply bool_decide_eq_false_2. }
  set (inverse := map (fun x => index x vts) (map valid_time_unix_sec R)).
  assert (outline_at_time R inverse i0
          = ((np_mean [centroid_x_metres r], np_mean [centroid_y_metres r]),
             (map (fun v => (np_mean [centroid_x_metres r]
                             - centroid_x_metres r + v)%Q)
                (vertices_x_metres r) ++ [],
              map (fun v => (np_mean [centroid_y_metres r]
                             - centroid_y_metres r + v)%Q)
                (vertices_y_metres r) ++ []))) as Houtline.
  { unfold outline_at_time, inverse. rewrite !map_map.
    by rewrite np_take_where_id, Hfilter. }
  set (outlines := map (outline_at_time R inverse) (seq 0 (length vts))).
  assert (i0 < length vts)%nat as Hi0lt by by eapply lookup_lt_Some.
  assert (outlines !! i0 = Some (outline_at_time R inverse i0)) as Hout.
  { unfold outlines. rewrite map_lookup, lookup_seq_lt by done. done. }
  destruct (interp_exact (map (fun o => fst (fst o)) outlines) vts i0 T
              (np_mean [centroid_x_metres r]))
    as (interp_x & -> & Hix);
    [done|unfold outlines; by rewrite !length_map, length_seq|done|done| |].
  { by rewrite map_lookup, Hout, Houtline. }
  destruct (interp_exact (map (fun o => snd (fst o)) outlines) vts i0 T
              (np_mean [centroid_y_metres r]))
    as (interp_y & -> & Hiy);
    [done|unfold outlines; by rewrite !length_map, length_seq|done|done| |].
  { by rewrite map_lookup, Hout, Houtline. }
  rewrite (np_argmin_unique_min _ i0 0).
  2:{ rewrite map_lookup, Hi0. simpl. f_equal. lia. }
  2:{ intros j x Hj Hne. rewrite map_lookup in Hj.
      destruct (vts !! j) as [t|] eqn:Ht; [|done]. injection Hj as <-.
      assert (t <> T).
      { intros ->. apply Hne. by eapply strictly_sorted_lookup_inj. }
      lia. }
  rewrite Hout, Houtline.
  destruct (decide _) as [_|Hbad].
  2:{ destruct Hbad. by rewrite !length_map, !length_app, !length_map, Hlen. }
  eexists. split; [reflexivity|].
  apply zip_with_same_vertex;
    apply translated_back; try done; apply np_mean_singleton.
Qed.

End InterpolationFacts.

Lemma iloc_valid {A} (Q : A -> Prop) (l : list A) (rows : list nat) :
  Forall (fun n => exists s, l !! n = Some s /\ Q s) rows ->
  exists R, iloc l rows = Some R /\ Forall Q R /\ length R = length rows.
Proof.
  unfold iloc. induction 1 as [|n rows (s & Hs & HQ) _ (R & HR & HQR & Hlen)].
  - by exists [].
  - exists (s :: R). simpl. rewrite Hs, HR. simpl.
    split; [done|]. split; [by constructor|by rewrite Hlen].
Qed.

Lemma iloc_app {A} (l : list A) (rows1 rows2 : list nat) (R1 R2 : list A) :
  iloc l rows1 = Some R1 -> iloc l rows2 = Some R2 ->
  iloc l (rows1 ++ rows2) = Some (R1 ++ R2).
Proof.
  unfold iloc. revert R1. induction rows1 as [|n rows1 IH]; intros R1; simpl.
  - by intros [= <-].
  - destruct (l !! n) as [s|]; simpl; [|done].
    destruct (mapM _ rows1) as [R|] eqn:HR; simpl; [|done].
    intros [= <-] H2. by rewrite (IH R eq_refl H2).
Qed.

Lemma np_unique_NoDup `{NumpyOrd A} (l : list A) : NoDup (np_unique l).
Proof.
  pose proof (np_unique_sorted l) as Hs.
  induction Hs as [|a s Hs IH Ha]; constructor; [|done].
  intros Hin. eapply Forall_forall in Ha; [|exact Hin].
  unfold np_lt in Ha. by rewrite np_compare_refl in Ha.
Qed.

Lemma zip_with_vertex_ids (id : string) (xs ys : list Q) :
  Forall (fun v => vertex_secondary_id_string v = id)
    (zip_with (fun x y => {| vertex_secondary_id_string := id;
                             vertex_x_metres := x; vertex_y_metres := y |})
       xs ys).
Proof.
  revert ys. induction xs as [|x xs IH]; intros [|y ys]; simpl;
    constructor; auto.
Qed.

Lemma outline_of_other (id : string) (block : list Vertex) (id' : string) :
  Forall (fun v => vertex_secondary_id_string v = id') block -> id' <> id ->
  outline_of id block = [].
Proof.
  intros Hall Hne. apply filter_none.
  eapply Forall_impl; [exact Hall|]. intros v <-.
  by apply bool_decide_eq_false_2.
Qed.

Lemma outline_of_own (id : string) (block : list Vertex) :
  Forall (fun v => vertex_secondary_id_string v = id) block ->
  outline_of id block = block.
Proof.
  intros Hall. apply filter_all. intros v Hv.
  eapply Forall_forall in Hall; [|exact Hv]. by apply bool_decide_eq_true_2.
Qed.

Lemma outline_of_app (id : string) (a b : list Vertex) :
  outline_of id (a ++ b) = outline_of id a ++ outline_of id b.
Proof. apply List.filter_app. Qed.

Lemma outline_of_concat_absent (ids : list string)
  (tables : list (list Vertex)) (id : string) :
  Forall2 (fun id' b => Forall (fun v => vertex_secondary_id_string v = id') b)
    ids tables ->
  id ∉ ids -> outline_of id (concat tables) = [].
Proof.
  induction 1 as [|id' b ids tables Hb _ IH]; intros Hid; simpl; [done|].
  rewrite outline_of_app.
  rewrite (outline_of_other id b id' Hb) by set_solver.
  rewrite IH by set_solver. done.
Qed.

(** The rows of cell [id] in the concatenation are the table appended for
    that cell. *)
Lemma outline_of_concat (ids : list string) (tables : list (list Vertex))
  (id : string) (block : list Vertex) (k : nat) :
  NoDup ids ->
  Forall2 (fun id' b => Forall (fun v => vertex_secondary_id_string v = id') b)
    ids tables ->
  ids !! k = Some id -> tables !! k = Some block ->
  outline_of id (concat tables) = block.
Proof.
  intros Hnodup Hall. revert k.
  induction Hall as [|id' b ids tables Hb Hall IH]; intros k Hid Hblock;
    [done|].
  apply NoDup_cons in Hnodup as [Hnotin Hnodup].
  simpl. rewrite outline_of_app.
  destruct k as [|k]; simpl in *.
  - injection Hid as ->. injection Hblock as ->.
    rewrite (outline_of_own id block Hb).
    rewrite (outline_of_concat_absent ids tables id Hall Hnotin).
    by rewrite app_nil_r.
  - assert (id' <> id).
    { intros ->. apply Hnotin. by eapply list_elem_of_lookup_2. }
    rewrite (outline_of_other id b id' Hb) by done. simpl. by eapply IH.
Qed.

Section InterpolationBatch.
Variable find_immediate_predecessors : neighbour_lookup.
Variable find_immediate_successors : neighbour_lookup.
Variable interp_in_time : time_interpolator.

Lemma interp_one_storm_ids (cell : list StormObject) (id : string)
  (target : Z) (block : list Vertex) :
  _interp_one_storm_in_time interp_in_time cell id target = Some block ->
  Forall (fun v => vertex_secondary_id_string v = id) block.
Proof.
  unfold _interp_one_storm_in_time.
  destruct (interp_in_time _ _ _); [|done].
  destruct (interp_in_time _ _ _); [|done].
  destruct (np_argmin _ _); [|done].
  destruct (_ !! _) as [[[? ?] [? ?]]|]; [|done].
  destruct (decide _); [|done].
  intros [= <-]. apply zip_with_vertex_ids.
Qed.

Lemma interp_one_cell_ids (sorted : list StormObject)
  (target max_start min_end : Z) (id : string) (block : list Vertex) :
  interp_one_cell find_immediate_predecessors find_immediate_successors
    interp_in_time sorted target max_start min_end id = Some block ->
  Forall (fun v => vertex_secondary_id_string v = id) block.
Proof.
  unfold interp_one_cell.
  destruct (decide _); [by intros [= <-]|].
  destruct (np_where _) as [|first rows]; [done|].
  destruct (last _); [|done].
  destruct (sorted !! first); [|done].
  destruct (sorted !! _); [|done].
  destruct (decide _); [by intros [= <-]|].
  destruct (decide _); [by intros [= <-]|].
  destruct (iloc _ _); [|done].
  apply interp_one_storm_ids.
Qed.

Hypothesis interp_exact : exact_at_knots interp_in_time.

(** The loop body for a cell with a single storm object and at least one
    gathered neighbour, none of them at the target time. *)
Lemma interp_one_cell_single_object (sorted : list StormObject)
  (r : StormObject) (m : nat) (max_start min_end : Z) :
  List.filter
    (fun s => bool_decide (secondary_id_string s = secondary_id_string r))
    sorted = [r] ->
  sorted !! m = Some r ->
  (valid_time_unix_sec r <= max_start)%Z ->
  (min_end <= valid_time_unix_sec r)%Z ->
  length (vertices_x_metres r) = length (vertices_y_metres r) ->
  find_immediate_predecessors sorted m ++ find_immediate_successors sorted m
  <> [] ->
  Forall
    (fun n => exists s, sorted !! n = Some s
                        /\ valid_time_unix_sec s <> valid_time_unix_sec r)
    (find_immediate_predecessors sorted m
     ++ find_immediate_successors sorted m) ->
  exists block,
    interp_one_cell find_immediate_predecessors find_immediate_successors
      interp_in_time sorted (valid_time_unix_sec r) max_start min_end
      (secondary_id_string r) = Some block
    /\ Forall2 same_vertex block (original_outline r).
Proof.
  intros Hone Hm Hstart Hend Hlen Hsome Hvalid.
  destruct (filter_singleton_where _ _ _ Hone) as (m' & Hwhere & _ & Huniq).
  assert (m = m') as <-.
  { apply (Huniq m r Hm). by apply bool_decide_eq_true_2. }
  unfold interp_one_cell, gathered_rows. rewrite Hwhere. simpl.
  set (preds := find_immediate_predecessors sorted m) in *.
  set (succs := find_immediate_successors sorted m) in *.
  destruct (decide _) as [Hone_row|_].
  { exfalso. rewrite length_app in Hone_row. simpl in Hone_row.
    apply Hsome. apply length_zero_iff_nil. rewrite length_app. lia. }
  rewrite Hm.
  destruct (decide _) as [|_]; [lia|].
  destruct (decide _) as [|_]; [lia|].
  apply Forall_app in Hvalid as [Hpreds Hsuccs].
  destruct (iloc_valid _ sorted preds Hpreds) as (A & HA & HAt & HAlen).
  destruct (iloc_valid _ sorted succs Hsuccs) as (B & HB & HBt & HBlen).
  assert (iloc sorted (m :: succs) = Some (r :: B)) as HmB.
  { apply (iloc_app sorted [m] succs [r] B); [|done].
    unfold iloc. simpl. by rewrite Hm. }
  rewrite (iloc_app sorted preds (m :: succs) A (r :: B) HA HmB).
  apply (interp_one_storm_at_recorded_time interp_in_time interp_exact A B r).
  - by apply Forall_app.
  - intros Hnil. apply Hsome. apply length_zero_iff_nil.
    apply (f_equal length) in Hnil. rewrite length_app in *. simpl in Hnil.
    lia.
  - done.
Qed.

End InterpolationBatch.

Lemma segment_left (t0 t1 : Z) (v0 v1 : Q) :
  (t0 < t1)%Z ->
  (v0 + (v1 - v0) * inject_Z (t0 - t0) / inject_Z (t1 - t0) == v0)%Q.
Proof.
  intros Hlt. rewrite Z.sub_diag.
  assert (~ inject_Z (t1 - t0) == 0)%Q
    by (unfold Qeq, inject_Z; simpl; lia).
  change (inject_Z 0) with 0%Q. by field.
Qed.

Lemma segment_right (t0 t1 : Z) (v0 v1 : Q) :
  (t0 < t1)%Z ->
  (v0 + (v1 - v0) * inject_Z (t1 - t0) / inject_Z (t1 - t0) == v1)%Q.
Proof.
  intros Hlt.
  assert (~ inject_Z (t1 - t0) == 0)%Q
    by (unfold Qeq, inject_Z; simpl; lia).
  by field.
Qed.

(** Linear interpolation returns the recorded value at a recorded time. *)
Lemma interp_in_time_linear_exact : exact_at_knots interp_in_time_linear.
Proof.
  intros values times. revert values.
  induction times as [|t0 times IH]; intros values i t v Hsorted Hlen Htwo
    Ht Hv; [by destruct i|].
  destruct times as [|t1 later]; [simpl in Htwo; lia|].
  destruct values as [|v0 [|v1 values]]; try done.
  apply StronglySorted_inv in Hsorted as [Hsorted Hfirst].
  assert (t0 < t1)%Z as H01 by (by apply Forall_cons in Hfirst as [? _]).
  assert (forall j, (2 <= j)%nat -> (t0 :: t1 :: later) !! j = Some t ->
                    (t1 < t)%Z) as Hbeyond.
  { intros [|[|j]] Hj Hlook; [lia|lia|]. simpl in Hlook.
    apply StronglySorted_inv in Hsorted as [_ Hsecond].
    apply list_elem_of_lookup_2 in Hlook.
    by eapply Forall_forall in Hsecond. }
  cbn [interp_in_time_linear].
  destruct i as [|[|i]]; simpl in Ht, Hv.
  - injection Ht as <-. injection Hv as <-.
    destruct later; [|rewrite (proj2 (Z.leb_le t0 t1)) by lia];
      (eexists; split; [reflexivity|by apply segment_left]).
  - injection Ht as <-. injection Hv as <-.
    destruct later; [|rewrite Z.leb_refl];
      (eexists; split; [reflexivity|by apply segment_right]).
  - destruct later as [|t2 later]; [by destruct i|].
    assert (t1 < t)%Z as Hlt by (apply (Hbeyond (S (S i))); [lia|done]).
    rewrite (proj2 (Z.leb_gt t t1)) by lia.
    apply (IH (v1 :: values) (S i)); try done.
    + simpl in *. lia.
    + simpl. lia.
Qed.

(** *** Claim about the interpolator *)

Definition snapshot (id : string) (time : Z) (prev next : string)
  (centre : Q) : StormObject :=
  {| primary_id_string := "0"; secondary_id_string := id;
     valid_time_unix_sec := time;
     first_prev_secondary_id_string := prev;
     second_prev_secondary_id_string := "";
     first_next_secondary_id_string := next;
     second_next_secondary_id_string := "";
     centroid_x_metres := centre; centroid_y_metres := 0;
     vertices_x_metres := [centre - 10; centre + 10; centre + 10;
                           centre - 10]%Q;
     vertices_y_metres := [-10; -10; 10; 10]%Q |}.

(** Cell "B" has a single storm object, at time 600, and no neighbour. *)
Definition lone_cell : list StormObject := [ snapshot "B" 600 "" "" 200 ].

(** Cell "A" (times 0 and 300) continues as cell "B", which has a single
    storm object at time 600. *)
Definition cell_after_predecessor : list StormObject :=
  [ snapshot "A" 0 "" "" 0; snapshot "A" 300 "" "B" 100;
    snapshot "B" 600 "A" "" 200 ].

(** C4, as stated, fails: cell "B" has exactly one recorded valid time and
    storms are interpolated to that exact time, but only its own row is
    gathered, the loop skips the cell, and the output vertex table is
    empty: the cell does not contribute its single-time shape. *)
Lemma single_time_cell_without_neighbours_skipped :
  List.filter (fun s => bool_decide (secondary_id_string s = "B")) lone_cell
  = [ snapshot "B" 600 "" "" 200 ]
  /\ original_outline (snapshot "B" 600 "" "" 200) <> []
  /\ _interp_storms_in_time find_immediate_predecessors_model
       find_immediate_successors_model interp_in_time_linear lone_cell
       600 300 300 = Some [].
Proof.
  split; [reflexivity|]. split; [discriminate|]. vm_compute. reflexivity.
Qed.

(** C4, amended: for a storm cell with exactly one storm object (one
    recorded valid time) for which at least one immediate predecessor or
    successor row is gathered, none of them at that same valid time,
    interpolating storms to that exact time, with non-negative
    extrapolation limits and an interpolator that is exact at recorded
    times, yields that cell's original polygon vertices unchanged in the
    output vertex table of [_interp_storms_in_time], provided the
    interpolation of no other cell raises.  (A cell for which only its own
    single row is gathered is skipped.) *)
Theorem single_time_cell_keeps_outline
  (find_immediate_predecessors find_immediate_successors : neighbour_lookup)
  (interp_in_time : time_interpolator)
  (table : list StormObject) (r : StormObject) (m : nat) (before after : Z) :
  let sorted :=
    sorted_storm_object_table table (valid_time_unix_sec r) before after in
  exact_at_knots interp_in_time ->
  List.filter
    (fun s => bool_decide (secondary_id_string s = secondary_id_string r))
    table = [r] ->
  (0 <= before)%Z -> (0 <= after)%Z ->
  length (vertices_x_metres r) = length (vertices_y_metres r) ->
  sorted !! m = Some r ->
  find_immediate_predecessors sorted m ++ find_immediate_successors sorted m
  <> [] ->
  Forall
    (fun n => exists s, sorted !! n = Some s
                        /\ valid_time_unix_sec s <> valid_time_unix_sec r)
    (find_immediate_predecessors sorted m
     ++ find_immediate_successors sorted m) ->
  (forall id, id ∈ map secondary_id_string sorted ->
     id <> secondary_id_string r ->
     is_Some
       (interp_one_cell find_immediate_predecessors
          find_immediate_successors interp_in_time sorted
          (valid_time_unix_sec r) (valid_time_unix_sec r + before)
          (valid_time_unix_sec r - after) id)) ->
  exists out,
    _interp_storms_in_time find_immediate_predecessors
      find_immediate_successors interp_in_time table
      (valid_time_unix_sec r) before after = Some out
    /\ Forall2 same_vertex (outline_of (secondary_id_string r) out)
         (original_outline r).
Proof.
  intros sorted Hexact Hone Hbefore Hafter Hlen Hm Hsome Hvalid Hothers.
  pose proof (unique_row_sorted table _ r before after Hone Hbefore Hafter)
    as Hsorted_one.
  fold sorted in Hsorted_one.
  destruct (interp_one_cell_single_object find_immediate_predecessors
              find_immediate_successors interp_in_time Hexact sorted r m
              (valid_time_unix_sec r + before) (valid_time_unix_sec r - after))
    as (block & Hblock & Hsame); try done; try lia.
  unfold _interp_storms_in_time. fold sorted.
  set (ids := np_unique (map secondary_id_string sorted)).
  set (step := interp_one_cell _ _ _ sorted _ _ _) in *.
  assert (is_Some (mapM step ids)) as [tables Htables].
  { apply mapM_is_Some, Forall_forall. intros id Hid.
    unfold ids in Hid. rewrite elem_of_np_unique in Hid.
    destruct (decide (id = secondary_id_string r)) as [->|Hne].
    - exists block. exact Hblock.
    - by apply Hothers. }
  rewrite Htables. exists (concat tables). split; [done|].
  apply mapM_Some in Htables.
  assert (secondary_id_string r ∈ ids) as Hin.
  { apply elem_of_np_unique, list_elem_of_In, in_map.
    apply list_elem_of_In. by eapply list_elem_of_lookup_2. }
  apply list_elem_of_lookup_1 in Hin as [k Hk].
  destruct (Forall2_lookup_l _ _ _ _ _ Htables Hk) as (block' & Hk' & Hstep).
  assert (block' = block) as -> by congruence.
  rewrite (outline_of_concat ids tables _ block k); try done.
  - apply np_unique_NoDup.
  - eapply Forall2_impl; [exact Htables|]. intros id b Hb.
    simpl in Hb. unfold step in Hb.
    exact (interp_one_cell_ids _ _ _ _ _ _ _ _ _ Hb).
Qed.

Lemma single_time_cell_keeps_outline_witness :
  exists out,
    _interp_storms_in_time find_immediate_predecessors_model
      find_immediate_successors_model interp_in_time_linear
      cell_after_predecessor 600 300 300 = Some out
    /\ Forall2 same_vertex (outline_of "B" out)
         (original_outline (snapshot "B" 600 "A" "" 200)).
Proof.
  apply (single_time_cell_keeps_outline find_immediate_predecessors_model
           find_immediate_successors_model interp_in_time_linear
           cell_after_predecessor (snapshot "B" 600 "A" "" 200) 2 300 300).
  - exact interp_in_time_linear_exact.
  - reflexivity.
  - lia.
  - lia.
  - reflexivity.
  - vm_compute. reflexivity.
  - vm_compute. discriminate.
  - assert (find_immediate_predecessors_model
              (sorted_storm_object_table cell_after_predecessor
                 (valid_time_unix_sec (snapshot "B" 600 "A" "" 200)) 300 300)
              2
            ++ find_immediate_successors_model
                 (sorted_storm_object_table cell_after_predecessor
                    (valid_time_unix_sec (snapshot "B" 600 "A" "" 200))
                    300 300)
                 2
            = [1%nat]) as -> by (vm_compute; reflexivity).
    constructor; [|constructor].
    eexists. split; [vm_compute; reflexivity|]. simpl. lia.
  - intros id Hin Hne.
    assert (map secondary_id_string
              (sorted_storm_object_table cell_after_predecessor
                 (valid_time_unix_sec (snapshot "B" 600 "A" "" 200)) 300 300)
            = ["A"; "A"; "B"]) as Hids by (vm_compute; reflexivity).
    rewrite Hids in Hin.
    repeat (apply elem_of_cons in Hin as [->|Hin]);
      [| |done|by apply elem_of_nil in Hin];
      vm_compute; eexists; reflexivity.
Defined.

(** On that table the rows of "B" in the output are its recorded
    vertices. *)
Example interp_storms_cell_after_predecessor :
  option_map (fun out => map (fun v => (Qred (vertex_x_metres v),
                                         Qred (vertex_y_metres v)))
                           (outline_of "B" out))
    (_interp_storms_in_time find_immediate_predecessors_model
       find_immediate_successors_model interp_in_time_linear
       cell_after_predecessor 600 300 300)
  = Some [(190, -10); (210, -10); (210, 10); (190, 10)]%Q.
Proof. vm_compute. reflexivity. Qed.

(** ** The matcher in float64 arithmetic *)

(** The event and vertex coordinates are [numpy.float64] arrays, and the
    differences, squares, sums, roots and comparisons of
    [_find_nearest_storms_one_time] are float64 operations.  This module
    is the function with those operations: IEEE 754 binary64 as given by
    [SpecFloat] at precision 53 and maximal exponent 1024, every
    operation rounding to nearest, ties to even.  It is the model for the
    statements that speak of the distances themselves. *)
Module Binary64.

Definition float64 : Type := SpecFloat.spec_float.

Definition nan : float64 := SpecFloat.S754_nan.

(** The literal [0.]. *)
Definition zero : float64 := SpecFloat.S754_zero false.

(** The float64 nearest to [m * 2 ^ e]. *)
Definition of_Z (m e : Z) : float64 :=
  SpecFloat.binary_normalize 53 1024 m e false.

Definition add : float64 -> float64 -> float64 := SpecFloat.SFadd 53 1024.
Definition sub : float64 -> float64 -> float64 := SpecFloat.SFsub 53 1024.
Definition mul : float64 -> float64 -> float64 := SpecFloat.SFmul 53 1024.
Definition sqrt : float64 -> float64 := SpecFloat.SFsqrt 53 1024.
Definition abs : float64 -> float64 := SpecFloat.SFabs.

(** [x <= y] and [x < y], both False when an operand is NaN. *)
Definition leb : float64 -> float64 -> bool := SpecFloat.SFleb.
Definition ltb : float64 -> float64 -> bool := SpecFloat.SFltb.

Definition is_nan (x : float64) : bool :=
  match x with
  | SpecFloat.S754_nan => true
  | _ => false
  end.

(** The rational that a finite float64 stands for (0 for the others). *)
Definition to_Q (x : float64) : Q :=
  match x with
  | SpecFloat.S754_finite s m e =>
      ((if s then -1 else 1) * inject_Z (Z.pos m) * Qpower 2 e)%Q
  | _ => 0%Q
  end.

(** The comparison behind [numpy.argmin] and [numpy.min]: a smaller value
    wins, and so does a NaN over a number. *)
Definition np_less (x best : float64) : bool :=
  ltb x best || (is_nan x && negb (is_nan best)).

(** [numpy.min(a)] on a non-empty float64 array. *)
Fixpoint np_min (first : float64) (rest : list float64) : float64 :=
  match rest with
  | [] => first
  | x :: r => np_min (if np_less x first then x else first) r
  end.

(** Python's [max([a, b])]: the first of the largest values. *)
Definition py_max (a b : float64) : float64 := if ltb a b then b else a.

Definition DEFAULT_MAX_POLYGON_ATTEMPT_DISTANCE_METRES : float64 :=
  of_Z 30000 0.

(** One row of the interpolated-vertex table. *)
Record Vertex := {
  vertex_secondary_id_string : string;
  vertex_x_metres : float64;
  vertex_y_metres : float64
}.

Section NearestStorms.

(** [polygons.point_in_or_on_polygon] applied to the polygon built by
    [polygons.vertex_arrays_to_polygon_object] from exterior vertices: a
    collaborator outside this module, taken as a parameter. *)
Variable point_in_or_on_polygon :
  list (float64 * float64) -> float64 -> float64 -> bool.

(** Exterior vertices of the storm [this_secondary_id_string], selected
    through [orig_to_unique_indices]. *)
Definition storm_polygon (interp_vertex_table : list Vertex)
  (unique_secondary_id_strings : list string)
  (orig_to_unique_indices : list nat) (this_secondary_id_string : string)
  : list (float64 * float64) :=
  let this_storm_indices :=
    np_where
      (map (fun u =>
              Nat.eqb u (index this_secondary_id_string
                           unique_secondary_id_strings))
         orig_to_unique_indices) in
  zip (np_take (map vertex_x_metres interp_vertex_table) this_storm_indices)
      (np_take (map vertex_y_metres interp_vertex_table) this_storm_indices).

(** Body of the loop over events [k] in [_find_nearest_storms_one_time]:
    the pair ([nearest_secondary_id_strings[k]],
    [linkage_distances_metres[k]]) left behind by one iteration.
    [d ** 2] on a float64 array is the rounded product [d * d]. *)
Definition nearest_storm_one_event (interp_vertex_table : list Vertex)
  (unique_secondary_id_strings : list string)
  (orig_to_unique_indices : list nat)
  (max_link_distance_metres max_polygon_attempt_distance_metres : float64)
  (event_x event_y : float64) : option string * float64 :=
  let these_x_diffs_metres :=
    map (fun x => abs (sub event_x x))
      (map vertex_x_metres interp_vertex_table) in
  let these_y_diffs_metres :=
    map (fun y => abs (sub event_y y))
      (map vertex_y_metres interp_vertex_table) in
  let these_vertex_indices :=
    np_where
      (zip_with
         (fun dx dy =>
            leb dx max_polygon_attempt_distance_metres
            && leb dy max_polygon_attempt_distance_metres)
         these_x_diffs_metres these_y_diffs_metres) in
  if decide (length these_vertex_indices = 0%nat) then (None, nan) else
  (* Try placing event inside storm. *)
  let these_secondary_id_strings :=
    np_unique
      (np_take (map vertex_secondary_id_string interp_vertex_table)
         these_vertex_indices) in
  match
    List.find
      (fun this_secondary_id_string =>
         point_in_or_on_polygon
           (storm_polygon interp_vertex_table unique_secondary_id_strings
              orig_to_unique_indices this_secondary_id_string)
           event_x event_y)
      these_secondary_id_strings
  with
  | Some this_secondary_id_string => (Some this_secondary_id_string, zero)
  | None =>
      (* Try placing event near storm. *)
      let these_vertex_indices :=
        np_where
          (zip_with
             (fun dx dy =>
                leb dx max_link_distance_metres
                && leb dy max_link_distance_metres)
             these_x_diffs_metres these_y_diffs_metres) in
      if decide (length these_vertex_indices = 0%nat) then (None, nan) else
      let these_distances_metres :=
        zip_with (fun dx dy => sqrt (add (mul dx dx) (mul dy dy)))
          (np_take these_x_diffs_metres these_vertex_indices)
          (np_take these_y_diffs_metres these_vertex_indices) in
      if negb (existsb (fun d => leb d max_link_distance_metres)
                 these_distances_metres)
      then (None, nan)
      else
        match these_distances_metres,
              np_argmin np_less these_distances_metres with
        | first :: rest, Some this_subindex =>
            match
              np_take (map vertex_secondary_id_string interp_vertex_table)
                (np_take these_vertex_indices [this_subindex])
            with
            | nearest :: _ =>
                if point_in_or_on_polygon
                     (storm_polygon interp_vertex_table
                        unique_secondary_id_strings orig_to_unique_indices
                        nearest)
                     event_x event_y
                then (Some nearest, zero)
                else (Some nearest, np_min first rest)
            | [] => (None, nan)
            end
        | _, _ => (None, nan)
        end
  end.

(** [_find_nearest_storms_one_time]: the two returned arrays, or [None]
    for the IndexError raised when there are fewer y- than
    x-coordinates. *)
Definition _find_nearest_storms_one_time (interp_vertex_table : list Vertex)
  (event_x_coords_metres event_y_coords_metres : list float64)
  (max_link_distance_metres max_polygon_attempt_distance_metres : float64)
  : option (list (option string) * list float64) :=
  let max_polygon_attempt_distance_metres :=
    py_max max_polygon_attempt_distance_metres
      (mul (of_Z 2 0) max_link_distance_metres) in
  let secondary_id_strings :=
    map vertex_secondary_id_string interp_vertex_table in
  let unique_secondary_id_strings := np_unique secondary_id_strings in
  let orig_to_unique_indices := np_unique_inverse secondary_id_strings in
  if decide (length event_y_coords_metres < length event_x_coords_metres)%nat
  then None
  else
    let results :=
      zip_with
        (nearest_storm_one_event interp_vertex_table
           unique_secondary_id_strings orig_to_unique_indices
           max_link_distance_metres max_polygon_attempt_distance_metres)
        event_x_coords_metres event_y_coords_metres in
    Some (map fst results, map snd results).

End NearestStorms.

(** Modelled from the spec: [polygons.point_in_or_on_polygon], as the
    test of [point_in_or_on_polygon_model] on the numbers that the
    coordinates stand for. *)
Definition point_in_or_on_polygon_model (ring : list (float64 * float64))
  (x y : float64) : bool :=
  point_in_or_on_polygon_model
    (map (fun p => (to_Q (fst p), to_Q (snd p))) ring) (to_Q x) (to_Q y).

(** *** Vocabulary of the matcher's properties *)

(** The polygon of storm [id]: the vertices of its rows, in row order. *)
Definition polygon_vertices (t : list Vertex) (id : string)
  : list (float64 * float64) :=
  map (fun v => (vertex_x_metres v, vertex_y_metres v))
    (List.filter (fun v => bool_decide (vertex_secondary_id_string v = id)) t).

(** Vertex [v] lies in the axis-aligned box of half-width [radius] around
    the event, by the differences and comparisons the code computes. *)
Definition in_box (radius event_x event_y : float64) (v : Vertex) : bool :=
  leb (abs (sub event_x (vertex_x_metres v))) radius
  && leb (abs (sub event_y (vertex_y_metres v))) radius.

(** The distance from the event to vertex [v] as the code computes it:
    [numpy.sqrt(dx ** 2 + dy ** 2)] on the absolute differences. *)
Definition computed_distance (event_x event_y : float64) (v : Vertex)
  : float64 :=
  let dx := abs (sub event_x (vertex_x_metres v)) in
  let dy := abs (sub event_y (vertex_y_metres v)) in
  sqrt (add (mul dx dx) (mul dy dy)).

(** The squared Euclidean distance from the event to vertex [v], of the
    numbers that the coordinates stand for. *)
Definition squared_euclidean_distance (event_x event_y : float64)
  (v : Vertex) : Q :=
  ((to_Q event_x - to_Q (vertex_x_metres v))
   * (to_Q event_x - to_Q (vertex_x_metres v))
   + (to_Q event_y - to_Q (vertex_y_metres v))
     * (to_Q event_y - to_Q (vertex_y_metres v)))%Q.

End Binary64.

(** *** Facts about float64 *)

Module Binary64Facts.
Import Binary64.

(** A position in the order of the comparisons: NaN first, then the
    numbers in increasing order, both zeros together. *)
Definition key (x : float64) : Z * Z * Z :=
  match x with
  | SpecFloat.S754_nan => (-3, 0, 0)%Z
  | SpecFloat.S754_infinity true => (-2, 0, 0)%Z
  | SpecFloat.S754_finite true m e => (-1, - e, - Z.pos m)%Z
  | SpecFloat.S754_zero _ => (0, 0, 0)%Z
  | SpecFloat.S754_finite false m e => (1, e, Z.pos m)%Z
  | SpecFloat.S754_infinity false => (2, 0, 0)%Z
  end.

Definition lex_lt (a b : Z * Z * Z) : Prop :=
  (a.1.1 < b.1.1
   \/ (a.1.1 = b.1.1
       /\ (a.1.2 < b.1.2 \/ (a.1.2 = b.1.2 /\ a.2 < b.2))))%Z.

Lemma lex_lt_irrefl (a : Z * Z * Z) : ~ lex_lt a a.
Proof. unfold lex_lt. lia. Qed.

Lemma lex_lt_trans (a b c : Z * Z * Z) :
  lex_lt a b -> lex_lt b c -> lex_lt a c.
Proof. unfold lex_lt. lia. Qed.

Lemma lex_lt_total (a b : Z * Z * Z) :
  ~ lex_lt a b -> ~ lex_lt b a -> a = b.
Proof.
  destruct a as [[a1 a2] a3], b as [[b1 b2] b3]. unfold lex_lt. simpl.
  intros Hab Hba. assert (a1 = b1 /\ a2 = b2 /\ a3 = b3) as (-> & -> & ->)
    by lia. done.
Qed.

Lemma compare_key (x y : float64) :
  match SpecFloat.SFcompare x y with
  | None => is_nan x = true \/ is_nan y = true
  | Some c =>
      is_nan x = false /\ is_nan y = false
      /\ match c with
         | Lt => lex_lt (key x) (key y)
         | Eq => key x = key y
         | Gt => lex_lt (key y) (key x)
         end
  end.
Proof.
  destruct x as [[]|[]| |[] mx ex], y as [[]|[]| |[] my ey]; simpl;
    unfold lex_lt; simpl; try (by auto); try (split_and!; [done|done|lia]).
  - split; [done|]. split; [done|].
    destruct (Z.compare_spec ex ey) as [->| |]; simpl; [|lia|lia].
    change (Pos.compare_cont Eq mx my) with (Pos.compare mx my).
    destruct (Pos.compare_spec mx my) as [->| |]; simpl;
      [done|lia|lia].
  - split; [done|]. split; [done|].
    destruct (Z.compare_spec ex ey) as [->| |]; simpl; [|lia|lia].
    change (Pos.compare_cont Eq mx my) with (Pos.compare mx my).
    destruct (Pos.compare_spec mx my) as [->| |]; simpl;
      [done|lia|lia].
Qed.

Lemma key_nan (x : float64) : is_nan x = true <-> key x = (-3, 0, 0)%Z.
Proof. destruct x as [[]|[]| |[] m e]; simpl; split; try done. Qed.

Lemma nan_least (x y : float64) :
  is_nan x = true -> is_nan y = false -> lex_lt (key x) (key y).
Proof.
  destruct x as [[]|[]| |[] mx ex]; try done.
  destruct y as [[]|[]| |[] my ey]; try done; intros _ _;
    unfold lex_lt; simpl; lia.
Qed.

Lemma not_below_nan (x y : float64) :
  is_nan y = true -> ~ lex_lt (key x) (key y).
Proof.
  intros Hy%key_nan. rewrite Hy.
  destruct x as [[]|[]| |[] mx ex]; unfold lex_lt; simpl; lia.
Qed.

Lemma np_less_key (x y : float64) :
  np_less x y = true <-> lex_lt (key x) (key y).
Proof.
  unfold np_less, ltb, SpecFloat.SFltb.
  pose proof (compare_key x y) as Hc.
  destruct (SpecFloat.SFcompare x y) as [c|]; simpl.
  - destruct Hc as (Hx & Hy & Hc). rewrite Hx. simpl.
    destruct c; simpl; rewrite ?orb_false_r.
    + rewrite Hc. split; [done|]. intros H. by apply lex_lt_irrefl in H.
    + done.
    + split; [done|]. intros H. exfalso.
      eapply lex_lt_irrefl, lex_lt_trans; eauto.
  - destruct (is_nan y) eqn:Hy; simpl.
    + rewrite andb_false_r. split; [done|]. intros H.
      by eapply not_below_nan in H.
    + destruct Hc as [Hx|Hy']; [|congruence]. rewrite Hx. simpl.
      split; [intros _; by apply nan_least|done].
Qed.

Lemma leb_key (x y : float64) :
  leb x y = true
  <-> is_nan x = false /\ is_nan y = false /\ ~ lex_lt (key y) (key x).
Proof.
  unfold leb, SpecFloat.SFleb.
  pose proof (compare_key x y) as Hc.
  destruct (SpecFloat.SFcompare x y) as [c|]; simpl.
  - destruct Hc as (Hx & Hy & Hc). destruct c.
    + rewrite Hc. split; [|done]. intros _. split; [done|]. split; [done|].
      apply lex_lt_irrefl.
    + split; [|done]. intros _. split; [done|]. split; [done|]. intros H.
      eapply lex_lt_irrefl, lex_lt_trans; eauto.
    + split; [done|]. intros (_ & _ & H). done.
  - split; [done|]. intros (Hx & Hy & _). destruct Hc; congruence.
Qed.

(** Non-negative numbers and infinity: what a distance can be. *)
Definition nonneg (x : float64) : Prop :=
  match x with
  | SpecFloat.S754_zero false | SpecFloat.S754_infinity false
  | SpecFloat.S754_finite false _ _ => True
  | _ => False
  end.

Lemma nonneg_not_nan (x : float64) : nonneg x -> is_nan x = false.
Proof. by destruct x as [[]|[]| |[] m e]. Qed.

Lemma shr_1_nonneg (mrs : SpecFloat.shr_record) :
  (0 <= SpecFloat.shr_m mrs)%Z ->
  (0 <= SpecFloat.shr_m (SpecFloat.shr_1 mrs))%Z.
Proof. destruct mrs as [[|[p|p|]|p] r s]; simpl; lia. Qed.

Lemma iter_shr_1_nonneg (p : positive) :
  forall mrs, (0 <= SpecFloat.shr_m mrs)%Z ->
    (0 <= SpecFloat.shr_m (SpecFloat.iter_pos SpecFloat.shr_1 p mrs))%Z.
Proof.
  induction p as [p IH|p IH|]; simpl; intros mrs Hm.
  - by apply IH, IH, shr_1_nonneg.
  - by apply IH, IH.
  - by apply shr_1_nonneg.
Qed.

Lemma shr_fexp_nonneg (prec emax m e : Z) (l : SpecFloat.location) :
  (0 <= m)%Z ->
  (0 <= SpecFloat.shr_m (SpecFloat.shr_fexp prec emax m e l).1)%Z.
Proof.
  intros Hm. unfold SpecFloat.shr_fexp, SpecFloat.shr.
  assert (0 <= SpecFloat.shr_m (SpecFloat.shr_record_of_loc m l))%Z as Hr.
  { by destruct l as [|[]]. }
  destruct (_ - e)%Z; simpl; [done| |done].
  by apply iter_shr_1_nonneg.
Qed.

Lemma binary_round_aux_nonneg (prec emax mx ex : Z)
  (lx : SpecFloat.location) :
  (0 <= mx)%Z -> nonneg (SpecFloat.binary_round_aux prec emax false mx ex lx).
Proof.
  intros Hm. unfold SpecFloat.binary_round_aux.
  pose proof (shr_fexp_nonneg prec emax mx ex lx Hm) as H1.
  destruct (SpecFloat.shr_fexp prec emax mx ex lx) as [mrs' e'].
  simpl in H1.
  set (rounded := SpecFloat.round_nearest_even _ _).
  assert (0 <= rounded)%Z as Hrounded.
  { unfold rounded, SpecFloat.round_nearest_even.
    destruct (SpecFloat.loc_of_shr_record mrs') as [|[]]; try lia.
    destruct (Z.even _); lia. }
  pose proof (shr_fexp_nonneg prec emax rounded e' SpecFloat.loc_Exact
                Hrounded) as H2.
  destruct (SpecFloat.shr_fexp prec emax rounded e' SpecFloat.loc_Exact)
    as [mrs'' e''].
  simpl in H2. destruct (SpecFloat.shr_m mrs''); [done| |lia].
  by destruct (_ <=? _)%Z.
Qed.

Lemma abs_nonneg (x : float64) : is_nan x = false -> nonneg (abs x).
Proof. by destruct x as [[]|[]| |[] m e]. Qed.

Lemma abs_nan (x : float64) : is_nan (abs x) = is_nan x.
Proof. by destruct x as [[]|[]| |[] m e]. Qed.

Lemma square_nonneg (x : float64) : nonneg x -> nonneg (mul x x).
Proof.
  destruct x as [[]|[]| |[] m e]; try done. intros _.
  by apply binary_round_aux_nonneg.
Qed.

Lemma add_nonneg (x y : float64) : nonneg x -> nonneg y -> nonneg (add x y).
Proof.
  destruct x as [[]|[]| |[] mx ex]; try done;
    destruct y as [[]|[]| |[] my ey]; try done.
  intros _ _. unfold add, SpecFloat.SFadd. simpl.
  unfold SpecFloat.binary_round.
  destruct (SpecFloat.shl_align _ _ _) as [mz ez].
  by apply binary_round_aux_nonneg.
Qed.

Lemma sqrt_nonneg (x : float64) : nonneg x -> nonneg (sqrt x).
Proof.
  destruct x as [[]|[]| |[] m e]; try done. intros _.
  unfold sqrt, SpecFloat.SFsqrt, SpecFloat.SFsqrt_core_binary.
  set (m' := match _ with Z.pos _ => _ | Z0 => _ | Z.neg _ => _ end).
  assert (0 <= m')%Z as Hm'.
  { unfold m'. destruct (_ - _)%Z; try lia. by apply Z.shiftl_nonneg. }
  pose proof (Z.sqrtrem_spec m' Hm') as Hspec.
  destruct (Z.sqrtrem m') as [q r].
  apply binary_round_aux_nonneg. lia.
Qed.

(** A vertex in a box around the event has a distance that is a number
    (or infinity), not NaN. *)
Lemma computed_distance_nonneg (radius ex ey : float64) (v : Vertex) :
  in_box radius ex ey v = true -> nonneg (computed_distance ex ey v).
Proof.
  unfold in_box, computed_distance. intros Hbox.
  apply andb_true_iff in Hbox as [Hx Hy].
  apply leb_key in Hx as (Hx & _). apply leb_key in Hy as (Hy & _).
  rewrite abs_nan in Hx, Hy.
  by apply sqrt_nonneg, add_nonneg; apply square_nonneg, abs_nonneg.
Qed.


(** [numpy.argmin] points at the value that [numpy.min] returns. *)
Lemma f64_argmin_from_np_min (full l : list float64) :
  forall best best_i i,
    full !! best_i = Some best -> drop i full = l ->
    full !! argmin_from np_less best best_i i l = Some (np_min best l).
Proof.
  induction l as [|x l IH]; intros best best_i i Hbest Hdrop; simpl; [done|].
  assert (full !! i = Some x) as Hi.
  { pose proof (lookup_drop full i 0) as Hl. rewrite Hdrop in Hl.
    simpl in Hl. by rewrite Nat.add_0_r in Hl. }
  assert (drop (S i) full = l) as Hdrop'.
  { replace (S i) with (i + 1)%nat by lia. by rewrite <- drop_drop, Hdrop. }
  destruct (np_less x best); by apply IH.
Qed.

Lemma f64_np_argmin_np_min (first : float64) (rest : list float64)
  (sub : nat) :
  np_argmin np_less (first :: rest) = Some sub ->
  (first :: rest) !! sub = Some (np_min first rest).
Proof.
  simpl. intros [= <-].
  by apply (f64_argmin_from_np_min (first :: rest) rest).
Qed.

(** No value of the array wins over the one [numpy.min] returns. *)
Lemma f64_np_min_least (rest : list float64) (first : float64) :
  ~ lex_lt (key first) (key (np_min first rest))
  /\ Forall (fun x => ~ lex_lt (key x) (key (np_min first rest))) rest.
Proof.
  revert first. induction rest as [|x rest IH]; intros first; simpl.
  - split; [apply lex_lt_irrefl|constructor].
  - destruct (np_less x first) eqn:Hless.
    + apply np_less_key in Hless. destruct (IH x) as [Hx Hrest].
      split; [|by constructor].
      unfold lex_lt in *. lia.
    + apply not_true_iff_false in Hless. rewrite np_less_key in Hless.
      destruct (IH first) as [Hf Hrest]. split; [done|].
      constructor; [|done]. unfold lex_lt in *. lia.
Qed.

Section MatcherFacts64.
Variable point_in_or_on_polygon :
  list (float64 * float64) -> float64 -> float64 -> bool.

Lemma f64_storm_polygon_vertices (t : list Vertex) (id : string) :
  id ∈ map vertex_secondary_id_string t ->
  storm_polygon t (np_unique (map vertex_secondary_id_string t))
    (np_unique_inverse (map vertex_secondary_id_string t)) id
  = polygon_vertices t id.
Proof.
  intros Hid. unfold storm_polygon, polygon_vertices, np_unique_inverse.
  rewrite !map_map.
  set (uniq := np_unique (map vertex_secondary_id_string t)).
  set (p := fun v : Vertex =>
              Nat.eqb (index (vertex_secondary_id_string v) uniq)
                (index id uniq)).
  change (map (fun x => Nat.eqb (index (vertex_secondary_id_string x) uniq)
                          (index id uniq)) t) with (map p t).
  rewrite !np_take_where.
  assert (List.filter p t
          = List.filter
              (fun v => bool_decide (vertex_secondary_id_string v = id)) t)
    as ->.
  { apply filter_ext_in. intros v Hv. unfold p.
    assert (vertex_secondary_id_string v ∈ uniq) as Hvu.
    { apply elem_of_np_unique, list_elem_of_In, in_map, Hv. }
    assert (id ∈ uniq) as Hiu by by apply elem_of_np_unique.
    destruct (decide (vertex_secondary_id_string v = id)) as [Heq|Hne].
    - rewrite Heq, Nat.eqb_refl. by rewrite bool_decide_eq_true_2.
    - rewrite bool_decide_eq_false_2 by done.
      apply Nat.eqb_neq. intros Heq. apply Hne.
      by eapply index_inj. }
  apply (zip_with_map_same pair).
Qed.

Lemma f64_attempt_candidates (t : list Vertex) (radius ex ey : float64) :
  np_take (map vertex_secondary_id_string t)
    (np_where
       (zip_with (fun dx dy => leb dx radius && leb dy radius)
          (map (fun x => abs (sub ex x)) (map vertex_x_metres t))
          (map (fun y => abs (sub ey y)) (map vertex_y_metres t))))
  = map vertex_secondary_id_string (List.filter (in_box radius ex ey) t).
Proof.
  rewrite !map_map, zip_with_map_same. apply np_take_where.
Qed.

Lemma f64_length_box_indices (t : list Vertex) (radius ex ey : float64) :
  length
    (np_where
       (zip_with (fun dx dy => leb dx radius && leb dy radius)
          (map (fun x => abs (sub ex x)) (map vertex_x_metres t))
          (map (fun y => abs (sub ey y)) (map vertex_y_metres t))))
  = length (List.filter (in_box radius ex ey) t).
Proof.
  rewrite !map_map, zip_with_map_same. apply length_np_where.
Qed.

(** The three outcomes of one iteration of the loop over events: not
    linked; linked at distance 0 to a storm whose polygon holds the event;
    linked to the storm of a vertex of the link box with the least
    computed distance, which is within the limit. *)
Lemma f64_nearest_storm_one_event_cases (t : list Vertex)
  (max_link radius ex ey : float64) :
  let outcome :=
    nearest_storm_one_event point_in_or_on_polygon t
      (np_unique (map vertex_secondary_id_string t))
      (np_unique_inverse (map vertex_secondary_id_string t))
      max_link radius ex ey in
  outcome = (None, nan)
  \/ (exists id,
        outcome = (Some id, zero)
        /\ id ∈ map vertex_secondary_id_string t
        /\ point_in_or_on_polygon (polygon_vertices t id) ex ey = true)
  \/ (exists v,
        outcome = (Some (vertex_secondary_id_string v),
                   computed_distance ex ey v)
        /\ v ∈ t
        /\ in_box max_link ex ey v = true
        /\ leb (computed_distance ex ey v) max_link = true
        /\ point_in_or_on_polygon
             (polygon_vertices t (vertex_secondary_id_string v)) ex ey
           = false
        /\ forall v', v' ∈ t -> in_box max_link ex ey v' = true ->
             np_less (computed_distance ex ey v') (computed_distance ex ey v)
             = false).
Proof.
  intros outcome. unfold outcome, nearest_storm_one_event.
  rewrite !f64_length_box_indices, f64_attempt_candidates.
  destruct (decide _) as [|_]; [by left|].
  set (cands := np_unique (map _ (List.filter _ t))).
  destruct (List.find _ cands) as [id|] eqn:Hfind.
  { right. left. exists id. split; [done|].
    apply find_sorted_least in Hfind as (Hin & Hp & _);
      [|apply np_unique_sorted].
    assert (id ∈ map vertex_secondary_id_string t) as Hid.
    { unfold cands in Hin. apply elem_of_np_unique, elem_of_map_filter in Hin
        as (v & Hv & <- & _).
      apply list_elem_of_In, in_map. by apply list_elem_of_In. }
    rewrite f64_storm_polygon_vertices in Hp by done. done. }
  destruct (decide _) as [|_]; [by left|].
  rewrite !map_map, !zip_with_map_same.
  change (map (fun v => leb (abs (sub ex (vertex_x_metres v))) max_link
                        && leb (abs (sub ey (vertex_y_metres v))) max_link)
            t) with (map (in_box max_link ex ey) t).
  rewrite !np_take_where, zip_with_map_same.
  change (map _ (List.filter (in_box max_link ex ey) t))
    with (map (computed_distance ex ey)
            (List.filter (in_box max_link ex ey) t)).
  set (near := List.filter (in_box max_link ex ey) t).
  destruct (existsb _ _) eqn:Hany; simpl; [|by left].
  destruct (map (computed_distance ex ey) near) as [|first rest] eqn:Hds;
    [by left|].
  cbv beta iota.
  set (sub := argmin_from np_less first 0 1 rest).
  assert (np_argmin np_less (first :: rest) = Some sub) as Hsub by done.
  pose proof (f64_np_argmin_np_min first rest sub Hsub) as Hmin.
  pose proof (np_argmin_bound _ _ _ Hsub) as Hbound.
  rewrite <- Hds in Hmin, Hbound. rewrite length_map in Hbound.
  rewrite map_lookup in Hmin.
  destruct (near !! sub) as [v|] eqn:Hv; [|done].
  injection Hmin as Hmin.
  assert (exists i, np_where (map (in_box max_link ex ey) t) !! sub = Some i
                    /\ t !! i = Some v) as (i & Hi & Hti).
  { destruct (lookup_lt_is_Some_2
                (np_where (map (in_box max_link ex ey) t)) sub) as [i Hi].
    { by rewrite length_np_where. }
    exists i. split; [done|].
    by rewrite (np_where_lookup_filter _ _ _ _ Hi). }
  unfold np_take at 2. simpl. rewrite Hi. simpl.
  unfold np_take. simpl. rewrite map_lookup, Hti. simpl.
  assert (v ∈ t /\ in_box max_link ex ey v = true) as [Hvt Hvbox].
  { apply list_elem_of_lookup_2, list_elem_of_In, filter_In in Hv
      as [Hin Hbox]. by rewrite list_elem_of_In. }
  assert (vertex_secondary_id_string v ∈ map vertex_secondary_id_string t)
    as Hid.
  { apply list_elem_of_In, in_map. by apply list_elem_of_In. }
  rewrite f64_storm_polygon_vertices by done.
  destruct (point_in_or_on_polygon _ ex ey) eqn:Hpip.
  { right. left. by exists (vertex_secondary_id_string v). }
  right. right. exists v. rewrite <- Hmin.
  assert (forall s, s ∈ first :: rest ->
                    ~ lex_lt (key s) (key (computed_distance ex ey v)))
    as Hleast.
  { intros s Hs. rewrite Hmin.
    destruct (f64_np_min_least rest first) as [Hfirst Hrest].
    apply elem_of_cons in Hs as [->|Hs]; [done|].
    by eapply Forall_forall in Hrest. }
  split; [done|]. split; [done|]. split; [done|]. split.
  { apply existsb_exists in Hany as (s & Hs & Hle).
    apply list_elem_of_In, Hleast in Hs.
    apply leb_key in Hle as (_ & Hmax & Hle). apply leb_key.
    split; [by eapply nonneg_not_nan, computed_distance_nonneg|].
    split; [done|]. unfold lex_lt in *. lia. }
  split; [done|]. intros v' Hv' Hbox'.
  apply not_true_iff_false. rewrite np_less_key. apply Hleast.
  rewrite <- Hds. apply list_elem_of_In, in_map, filter_In.
  by rewrite <- list_elem_of_In.
Qed.

(** The entry of event [k] in both returned arrays is the outcome of its
    own loop iteration. *)
Lemma f64_find_nearest_storms_lookup (t : list Vertex)
  (xs ys : list float64) (max_link attempt : float64) (k : nat)
  (ex ey : float64) :
  length xs = length ys -> xs !! k = Some ex -> ys !! k = Some ey ->
  exists ids dists,
    _find_nearest_storms_one_time point_in_or_on_polygon t xs ys max_link
      attempt = Some (ids, dists)
    /\ ids !! k
       = Some (fst (nearest_storm_one_event point_in_or_on_polygon t
                      (np_unique (map vertex_secondary_id_string t))
                      (np_unique_inverse (map vertex_secondary_id_string t))
                      max_link
                      (py_max attempt (mul (of_Z 2 0) max_link)) ex ey))
    /\ dists !! k
       = Some (snd (nearest_storm_one_event point_in_or_on_polygon t
                      (np_unique (map vertex_secondary_id_string t))
                      (np_unique_inverse (map vertex_secondary_id_string t))
                      max_link
                      (py_max attempt (mul (of_Z 2 0) max_link)) ex ey)).
Proof.
  intros Hlen Hx Hy. unfold _find_nearest_storms_one_time.
  destruct (decide _) as [Hlt|_]; [lia|].
  eexists _, _. split; [reflexivity|].
  rewrite !map_lookup, lookup_zip_with, Hx. simpl. by rewrite Hy.
Qed.

(** What the function returns for event [k], read off the loop iteration
    of that event. *)
Lemma f64_find_nearest_storms_entry (t : list Vertex)
  (xs ys : list float64) (max_link attempt : float64)
  (ids : list (option string)) (dists : list float64)
  (k : nat) (ex ey : float64) (id : option string) (d : float64) :
  _find_nearest_storms_one_time point_in_or_on_polygon t xs ys max_link
    attempt = Some (ids, dists) ->
  xs !! k = Some ex -> ys !! k = Some ey ->
  ids !! k = Some id -> dists !! k = Some d ->
  (id, d)
  = nearest_storm_one_event point_in_or_on_polygon t
      (np_unique (map vertex_secondary_id_string t))
      (np_unique_inverse (map vertex_secondary_id_string t))
      max_link (py_max attempt (mul (of_Z 2 0) max_link)) ex ey.
Proof.
  unfold _find_nearest_storms_one_time.
  destruct (decide _) as [|Hlen]; [done|]. intros [= <- <-] Hx Hy.
  rewrite !map_lookup, lookup_zip_with, Hx. simpl. rewrite Hy. simpl.
  intros [= <-] [= <-]. by destruct (nearest_storm_one_event _ _ _ _ _ _ _ _).
Qed.

End MatcherFacts64.

End Binary64Facts.

(** *** Claim about events out of reach *)

(** The 20 m outline around the origin, in float64. *)
Definition small_square64 (id : string) : list Binary64.Vertex :=
  [ {| Binary64.vertex_secondary_id_string := id;
       Binary64.vertex_x_metres := Binary64.of_Z (-10) 0;
       Binary64.vertex_y_metres := Binary64.of_Z (-10) 0 |};
    {| Binary64.vertex_secondary_id_string := id;
       Binary64.vertex_x_metres := Binary64.of_Z 10 0;
       Binary64.vertex_y_metres := Binary64.of_Z (-10) 0 |};
    {| Binary64.vertex_secondary_id_string := id;
       Binary64.vertex_x_metres := Binary64.of_Z 10 0;
       Binary64.vertex_y_metres := Binary64.of_Z 10 0 |};
    {| Binary64.vertex_secondary_id_string := id;
       Binary64.vertex_x_metres := Binary64.of_Z (-10) 0;
       Binary64.vertex_y_metres := Binary64.of_Z 10 0 |} ].

(** A triangular outline whose nearest vertex is at x = 30000 and
    y = 2^-20, a hair farther than 30 km from the origin. *)
Definition grazing_triangle : list Binary64.Vertex :=
  [ {| Binary64.vertex_secondary_id_string := "A";
       Binary64.vertex_x_metres := Binary64.of_Z 30000 0;
       Binary64.vertex_y_metres := Binary64.of_Z 1 (-20) |};
    {| Binary64.vertex_secondary_id_string := "A";
       Binary64.vertex_x_metres := Binary64.of_Z 40000 0;
       Binary64.vertex_y_metres := Binary64.zero |};
    {| Binary64.vertex_secondary_id_string := "A";
       Binary64.vertex_x_metres := Binary64.of_Z 40000 0;
       Binary64.vertex_y_metres := Binary64.of_Z 10000 0 |} ].

(** C2, as stated, fails: the event (0, 0) is in or on no storm polygon
    and its Euclidean distance to every vertex exceeds the maximum linkage
    distance of 30000 m, yet the event is linked to storm "A" at distance
    30000.0: for the nearest vertex the sum 30000^2 + 2^-40 rounds to
    30000^2, whose root passes the test [<= max_link_distance_metres]. *)
Lemma far_event_linked_when_distance_rounds :
  Binary64.point_in_or_on_polygon_model
    (Binary64.polygon_vertices grazing_triangle "A")
    Binary64.zero Binary64.zero = false
  /\ (Binary64.to_Q (Binary64.of_Z 30000 0) == 30000)%Q
  /\ Forall
       (fun v =>
          (30000 * 30000
           < Binary64.squared_euclidean_distance Binary64.zero Binary64.zero
               v)%Q)
       grazing_triangle
  /\ Binary64._find_nearest_storms_one_time
       Binary64.point_in_or_on_polygon_model grazing_triangle
       [Binary64.zero] [Binary64.zero] (Binary64.of_Z 30000 0)
       Binary64.DEFAULT_MAX_POLYGON_ATTEMPT_DISTANCE_METRES
     = Some ([Some "A"], [Binary64.of_Z 30000 0]).
Proof.
  split; [vm_compute; reflexivity|]. split; [vm_compute; reflexivity|].
  split; [|vm_compute; reflexivity].
  repeat constructor; vm_compute; reflexivity.
Qed.

(** C2, amended: an event that is in or on no storm polygon of the table,
    and whose distance to every vertex of the table as the code computes
    it, [numpy.sqrt(dx ** 2 + dy ** 2)] in float64, is not
    [<= max_link_distance_metres], is left unlinked by
    [_find_nearest_storms_one_time]: its nearest secondary ID is None and
    its linkage distance is NaN. *)
Theorem far_event_stays_unlinked
  (point_in_or_on_polygon :
     list (Binary64.float64 * Binary64.float64) ->
     Binary64.float64 -> Binary64.float64 -> bool)
  (t : list Binary64.Vertex) (xs ys : list Binary64.float64)
  (max_link attempt : Binary64.float64) (k : nat)
  (ex ey : Binary64.float64) :
  length xs = length ys -> xs !! k = Some ex -> ys !! k = Some ey ->
  (forall id, id ∈ map Binary64.vertex_secondary_id_string t ->
     point_in_or_on_polygon (Binary64.polygon_vertices t id) ex ey = false) ->
  (forall v, v ∈ t ->
     Binary64.leb (Binary64.computed_distance ex ey v) max_link = false) ->
  exists ids dists,
    Binary64._find_nearest_storms_one_time point_in_or_on_polygon t xs ys
      max_link attempt = Some (ids, dists)
    /\ ids !! k = Some None
    /\ dists !! k = Some Binary64.nan.
Proof.
  intros Hlen Hx Hy Hout Hfar.
  destruct (Binary64Facts.f64_find_nearest_storms_lookup
              point_in_or_on_polygon t xs ys max_link attempt k ex ey
              Hlen Hx Hy)
    as (ids & dists & Hrun & Hid & Hdist).
  exists ids, dists. split; [done|].
  destruct (Binary64Facts.f64_nearest_storm_one_event_cases
              point_in_or_on_polygon t max_link
              (Binary64.py_max attempt
                 (Binary64.mul (Binary64.of_Z 2 0) max_link)) ex ey)
    as [Hc|[(id & Hc & Hin & Hpip)|(v & Hc & Hvt & _ & Hle & _)]].
  - rewrite Hc in Hid, Hdist. done.
  - rewrite Hout in Hpip by done. done.
  - rewrite Hfar in Hle by done. done.
Qed.

Lemma far_event_stays_unlinked_witness :
  exists ids dists,
    Binary64._find_nearest_storms_one_time
      Binary64.point_in_or_on_polygon_model (small_square64 "B")
      [Binary64.of_Z 50 0] [Binary64.zero] (Binary64.of_Z 1 0)
      Binary64.DEFAULT_MAX_POLYGON_ATTEMPT_DISTANCE_METRES
    = Some (ids, dists)
    /\ ids !! 0%nat = Some None
    /\ dists !! 0%nat = Some Binary64.nan.
Proof.
  apply (far_event_stays_unlinked Binary64.point_in_or_on_polygon_model
           (small_square64 "B") [Binary64.of_Z 50 0] [Binary64.zero]
           (Binary64.of_Z 1 0)
           Binary64.DEFAULT_MAX_POLYGON_ATTEMPT_DISTANCE_METRES 0
           (Binary64.of_Z 50 0) Binary64.zero).
  - reflexivity.
  - reflexivity.
  - reflexivity.
  - apply Forall_forall.
    repeat (apply Forall_cons_2; [vm_compute; reflexivity|]).
    apply Forall_nil_2.
  - apply Forall_forall.
    repeat (apply Forall_cons_2; [vm_compute; reflexivity|]).
    apply Forall_nil_2.
Defined.
(** * Further properties of the module *)

From Stdlib Require Import Qround.

(** ** More about the nearest-storm matcher *)

(** Squared distance from the event to a vertex, as the matcher computes
    it from the absolute coordinate differences. *)
Definition squared_abs_diffs (event_x event_y : Q) (v : Vertex) : Q :=
  (Qabs (event_x - vertex_x_metres v) * Qabs (event_x - vertex_x_metres v)
   + Qabs (event_y - vertex_y_metres v) * Qabs (event_y - vertex_y_metres v))%Q.

Lemma Qlt_bool_true (a b : Q) : Qlt_bool a b = true <-> (a < b)%Q.
Proof.
  unfold Qlt_bool. rewrite negb_true_iff. split.
  - intros Hle. apply Qnot_le_lt. intros Hba.
    apply Qle_bool_iff in Hba. congruence.
  - intros Hlt. apply not_true_is_false. rewrite Qle_bool_iff. lra.
Qed.

Lemma Qlt_bool_false (a b : Q) : Qlt_bool a b = false <-> (b <= a)%Q.
Proof.
  unfold Qlt_bool. rewrite negb_false_iff. apply Qle_bool_iff.
Qed.

(** [numpy.min] is a lower bound of the array. *)
Lemma np_min_le (rest : list Q) (first : Q) :
  (np_min first rest <= first)%Q
  /\ Forall (fun x => (np_min first rest <= x)%Q) rest.
Proof.
  revert first. induction rest as [|x rest IH]; intros first; simpl.
  - split; [lra|constructor].
  - destruct (Qlt_bool x first) eqn:Hlt.
    + apply Qlt_bool_true in Hlt. destruct (IH x) as [Hx Hrest].
      split; [lra|]. by constructor.
    + apply Qlt_bool_false in Hlt. destruct (IH first) as [Hf Hrest].
      split; [done|]. constructor; [lra|done].
Qed.

(** [numpy.argmin] points at the value that [numpy.min] returns. *)
Lemma argmin_from_np_min (full l : list Q) :
  forall best best_i i,
    full !! best_i = Some best -> drop i full = l ->
    full !! argmin_from Qlt_bool best best_i i l = Some (np_min best l).
Proof.
  induction l as [|x l IH]; intros best best_i i Hbest Hdrop; simpl; [done|].
  assert (full !! i = Some x) as Hi.
  { pose proof (lookup_drop full i 0) as Hl. rewrite Hdrop in Hl.
    simpl in Hl. by rewrite Nat.add_0_r in Hl. }
  assert (drop (S i) full = l) as Hdrop'.
  { replace (S i) with (i + 1)%nat by lia. by rewrite <- drop_drop, Hdrop. }
  destruct (Qlt_bool x best); by apply IH.
Qed.

Lemma np_argmin_np_min (first : Q) (rest : list Q) (sub : nat) :
  np_argmin Qlt_bool (first :: rest) = Some sub ->
  (first :: rest) !! sub = Some (np_min first rest).
Proof.
  simpl. intros [= <-]. by apply (argmin_from_np_min (first :: rest) rest).
Qed.

Lemma sqrt_le_mono (a b limit : Q) :
  (a <= b)%Q -> sqrt_le b limit = true -> sqrt_le a limit = true.
Proof.
  unfold sqrt_le. rewrite !andb_true_iff, !Qle_bool_iff. intros ? [? ?].
  split; lra.
Qed.

Section MatcherOutcomes.
Variable point_in_or_on_polygon : list (Q * Q) -> Q -> Q -> bool.

(** The three outcomes of one iteration of the loop over events: not
    linked; linked at distance 0 to a storm whose polygon holds the event;
    linked to the storm of a nearest vertex within the limit. *)
Lemma nearest_storm_one_event_cases (t : list Vertex)
  (max_link radius ex ey : Q) :
  let outcome :=
    nearest_storm_one_event point_in_or_on_polygon t
      (np_unique (map vertex_secondary_id_string t))
      (np_unique_inverse (map vertex_secondary_id_string t))
      max_link radius ex ey in
  outcome = (None, NaN)
  \/ (exists id,
        outcome = (Some id, Zero)
        /\ id ∈ map vertex_secondary_id_string t
        /\ point_in_or_on_polygon (polygon_vertices t id) ex ey = true)
  \/ (exists v,
        outcome = (Some (vertex_secondary_id_string v),
                   Root (squared_abs_diffs ex ey v))
        /\ v ∈ t
        /\ in_box max_link ex ey v = true
        /\ sqrt_le (squared_abs_diffs ex ey v) max_link = true
        /\ point_in_or_on_polygon
             (polygon_vertices t (vertex_secondary_id_string v)) ex ey
           = false
        /\ forall v', v' ∈ t -> in_box max_link ex ey v' = true ->
             (squared_abs_diffs ex ey v <= squared_abs_diffs ex ey v')%Q).
Proof.
  intros outcome. unfold outcome, nearest_storm_one_event.
  rewrite !length_box_indices, attempt_candidates.
  destruct (decide _) as [|_]; [by left|].
  set (cands := np_unique (map _ (List.filter _ t))).
  destruct (List.find _ cands) as [id|] eqn:Hfind.
  { right. left. exists id. split; [done|].
    apply find_sorted_least in Hfind as (Hin & Hp & _);
      [|apply np_unique_sorted].
    apply elem_of_candidates, attempted_in_table in Hin.
    rewrite storm_polygon_vertices in Hp by done. done. }
  destruct (decide _) as [|_]; [by left|].
  rewrite !map_map, !zip_with_map_same.
  change (map (fun v => Qle_bool (Qabs (ex - vertex_x_metres v)) max_link
                        && Qle_bool (Qabs (ey - vertex_y_metres v)) max_link)
            t) with (map (in_box max_link ex ey) t).
  rewrite !np_take_where, zip_with_map_same.
  change (map _ (List.filter (in_box max_link ex ey) t))
    with (map (squared_abs_diffs ex ey)
            (List.filter (in_box max_link ex ey) t)).
  set (near := List.filter (in_box max_link ex ey) t).
  destruct (existsb _ _) eqn:Hany; simpl; [|by left].
  destruct (map (squared_abs_diffs ex ey) near) as [|first rest] eqn:Hsqs;
    [by left|].
  cbv beta iota.
  set (sub := argmin_from Qlt_bool first 0 1 rest).
  assert (np_argmin Qlt_bool (first :: rest) = Some sub) as Hsub by done.
  pose proof (np_argmin_np_min first rest sub Hsub) as Hmin.
  pose proof (np_argmin_bound _ _ _ Hsub) as Hbound.
  rewrite <- Hsqs in Hmin, Hbound. rewrite length_map in Hbound.
  rewrite map_lookup in Hmin.
  destruct (near !! sub) as [v|] eqn:Hv; [|done].
  injection Hmin as Hmin.
  assert (exists i, np_where (map (in_box max_link ex ey) t) !! sub = Some i
                    /\ t !! i = Some v) as (i & Hi & Hti).
  { destruct (lookup_lt_is_Some_2
                (np_where (map (in_box max_link ex ey) t)) sub) as [i Hi].
    { by rewrite length_np_where. }
    exists i. split; [done|].
    by rewrite (np_where_lookup_filter _ _ _ _ Hi). }
  unfold np_take at 2. simpl. rewrite Hi. simpl.
  unfold np_take. simpl. rewrite map_lookup, Hti. simpl.
  assert (v ∈ t /\ in_box max_link ex ey v = true) as [Hvt Hvbox].
  { apply list_elem_of_lookup_2, list_elem_of_In, filter_In in Hv
      as [Hin Hbox]. by rewrite list_elem_of_In. }
  assert (vertex_secondary_id_string v ∈ map vertex_secondary_id_string t)
    as Hid.
  { apply list_elem_of_In, in_map. by apply list_elem_of_In. }
  rewrite storm_polygon_vertices by done.
  destruct (point_in_or_on_polygon _ ex ey) eqn:Hpip.
  { right. left. by exists (vertex_secondary_id_string v). }
  right. right. exists v. rewrite <- Hmin.
  assert (forall s, s ∈ first :: rest ->
                    (squared_abs_diffs ex ey v <= s)%Q) as Hleast.
  { intros s Hs. rewrite Hmin.
    destruct (np_min_le rest first) as [Hfirst Hrest].
    apply elem_of_cons in Hs as [->|Hs]; [done|].
    by eapply Forall_forall in Hrest. }
  split; [done|]. split; [done|]. split; [done|]. split.
  { apply existsb_exists in Hany as (s & Hs & Hle).
    eapply sqrt_le_mono; [|exact Hle]. apply Hleast.
    by apply list_elem_of_In. }
  split; [done|]. intros v' Hv' Hbox'. apply Hleast.
  rewrite <- Hsqs. apply list_elem_of_In, in_map, filter_In.
  by rewrite <- list_elem_of_In.
Qed.

(** Each entry of the returned arrays comes from the loop iteration of
    its event. *)
Lemma find_nearest_storms_inv (t : list Vertex) (xs ys : list Q)
  (max_link attempt : Q) (ids : list (option string))
  (dists : list linkage_distance) :
  _find_nearest_storms_one_time point_in_or_on_polygon t xs ys max_link
    attempt = Some (ids, dists) ->
  length ids = length xs /\ length dists = length xs
  /\ forall k id d, ids !! k = Some id -> dists !! k = Some d ->
       exists ex ey,
         xs !! k = Some ex /\ ys !! k = Some ey
         /\ (id, d)
            = nearest_storm_one_event point_in_or_on_polygon t
                (np_unique (map vertex_secondary_id_string t))
                (np_unique_inverse (map vertex_secondary_id_string t))
                max_link (py_max attempt (2 * max_link)) ex ey.
Proof.
  unfold _find_nearest_storms_one_time.
  destruct (decide _) as [|Hlen]; [done|]. intros [= <- <-].
  rewrite !length_map, length_zip_with.
  split; [lia|]. split; [lia|].
  intros k id d Hid Hd.
  rewrite map_lookup, lookup_zip_with in Hid.
  rewrite map_lookup, lookup_zip_with in Hd.
  destruct (xs !! k) as [ex|]; [|done]. simpl in Hid, Hd.
  destruct (ys !! k) as [ey|]; [|done]. simpl in Hid, Hd.
  exists ex, ey. split; [done|]. split; [done|].
  injection Hid as <-. injection Hd as <-.
  by destruct (nearest_storm_one_event _ _ _ _ _ _ _ _).
Qed.

End MatcherOutcomes.

(** What [_find_nearest_storms_one_time] returns for event [k], read off
    the loop iteration of that event. *)
Lemma find_nearest_storms_entry
  (point_in_or_on_polygon : list (Q * Q) -> Q -> Q -> bool)
  (t : list Vertex) (xs ys : list Q) (max_link attempt : Q)
  (ids : list (option string)) (dists : list linkage_distance)
  (k : nat) (ex ey : Q) (id : option string) (d : linkage_distance) :
  _find_nearest_storms_one_time point_in_or_on_polygon t xs ys max_link
    attempt = Some (ids, dists) ->
  xs !! k = Some ex -> ys !! k = Some ey ->
  ids !! k = Some id -> dists !! k = Some d ->
  (id, d)
  = nearest_storm_one_event point_in_or_on_polygon t
      (np_unique (map vertex_secondary_id_string t))
      (np_unique_inverse (map vertex_secondary_id_string t))
      max_link (py_max attempt (2 * max_link)) ex ey.
Proof.
  intros Hrun Hx Hy Hid Hd.
  destruct (find_nearest_storms_inv _ _ _ _ _ _ _ _ Hrun) as (_ & _ & Hinv).
  destruct (Hinv k id d Hid Hd) as (ex' & ey' & Hx' & Hy' & Hout).
  congruence.
Qed.

(** X1. The two arrays returned by [_find_nearest_storms_one_time] have one
    entry per event, and they agree on which events are unlinked: the
    nearest secondary ID of event [k] is None exactly when its linkage
    distance is NaN. *)
Theorem nearest_id_none_iff_distance_nan
  (point_in_or_on_polygon : list (Q * Q) -> Q -> Q -> bool)
  (t : list Vertex) (xs ys : list Q) (max_link attempt : Q)
  (ids : list (option string)) (dists : list linkage_distance) :
  _find_nearest_storms_one_time point_in_or_on_polygon t xs ys max_link
    attempt = Some (ids, dists) ->
  length ids = length xs /\ length dists = length xs
  /\ forall k, ids !! k = Some None <-> dists !! k = Some NaN.
Proof.
  intros Hrun.
  destruct (find_nearest_storms_inv _ _ _ _ _ _ _ _ Hrun)
    as (Hlen_ids & Hlen_dists & Hinv).
  split; [done|]. split; [done|]. intros k.
  destruct (ids !! k) as [id|] eqn:Hid.
  - destruct (lookup_lt_is_Some_2 dists k) as [d Hd].
    { apply lookup_lt_Some in Hid. lia. }
    rewrite Hd. destruct (Hinv k id d Hid Hd) as (ex & ey & _ & _ & Hout).
    destruct (nearest_storm_one_event_cases point_in_or_on_polygon t max_link
                (py_max attempt (2 * max_link)) ex ey)
      as [Hc|[(id' & Hc & _)|(v & Hc & _)]];
      rewrite Hc in Hout; injection Hout as -> ->; split; congruence.
  - apply lookup_ge_None in Hid.
    assert (dists !! k = None) as ->; [|split; congruence].
    apply lookup_ge_None. lia.
Qed.

Lemma nearest_id_none_iff_distance_nan_witness :
  length [None; Some "B"] = length [50%Q; 12%Q]
  /\ length [NaN; Root 4] = length [50%Q; 12%Q]
  /\ forall k, [None; Some "B"] !! k = Some None
               <-> [NaN; Root 4] !! k = Some NaN.
Proof.
  apply (nearest_id_none_iff_distance_nan point_in_or_on_polygon_model
           (small_square "B") [50%Q; 12%Q] [0%Q; 10%Q] 5
           DEFAULT_MAX_POLYGON_ATTEMPT_DISTANCE_METRES).
  vm_compute. reflexivity.
Defined.

(** X2. An event that [_find_nearest_storms_one_time] links to a storm
    whose polygon does not hold it is linked through a vertex of that
    storm in the link box (|dx| and |dy| at most max_link_distance): the
    recorded distance is the distance to that vertex as the code computes
    it in float64, it is [<= max_link_distance_metres], and no vertex of
    the link box has a smaller computed distance. *)
Theorem distance_link_is_nearest_vertex
  (point_in_or_on_polygon :
     list (Binary64.float64 * Binary64.float64) ->
     Binary64.float64 -> Binary64.float64 -> bool)
  (t : list Binary64.Vertex) (xs ys : list Binary64.float64)
  (max_link attempt : Binary64.float64)
  (ids : list (option string)) (dists : list Binary64.float64)
  (k : nat) (ex ey : Binary64.float64) (id : string)
  (d : Binary64.float64) :
  Binary64._find_nearest_storms_one_time point_in_or_on_polygon t xs ys
    max_link attempt = Some (ids, dists) ->
  xs !! k = Some ex -> ys !! k = Some ey ->
  ids !! k = Some (Some id) -> dists !! k = Some d ->
  point_in_or_on_polygon (Binary64.polygon_vertices t id) ex ey = false ->
  exists v,
    v ∈ t /\ Binary64.vertex_secondary_id_string v = id
    /\ Binary64.in_box max_link ex ey v = true
    /\ d = Binary64.computed_distance ex ey v
    /\ Binary64.leb d max_link = true
    /\ forall v', v' ∈ t -> Binary64.in_box max_link ex ey v' = true ->
         Binary64.ltb (Binary64.computed_distance ex ey v') d = false.
Proof.
  intros Hrun Hx Hy Hid Hd Hout.
  pose proof (Binary64Facts.f64_find_nearest_storms_entry _ _ _ _ _ _ _ _ _
                _ _ _ _ Hrun Hx Hy Hid Hd) as Hentry.
  destruct (Binary64Facts.f64_nearest_storm_one_event_cases
              point_in_or_on_polygon t max_link
              (Binary64.py_max attempt
                 (Binary64.mul (Binary64.of_Z 2 0) max_link)) ex ey)
    as [Hc|[(id' & Hc & _ & Hpip)|(v & Hc & Hvt & Hbox & Hle & _ & Hleast)]];
    rewrite Hc in Hentry; try discriminate.
  - injection Hentry as -> ->. congruence.
  - injection Hentry as -> ->. exists v. split_and!; try done.
    intros v' Hv' Hbox'. specialize (Hleast v' Hv' Hbox').
    unfold Binary64.np_less in Hleast.
    by apply orb_false_iff in Hleast as [Hlt _].
Qed.

Lemma distance_link_is_nearest_vertex_witness :
  exists v,
    v ∈ small_square64 "B" /\ Binary64.vertex_secondary_id_string v = "B"
    /\ Binary64.in_box (Binary64.of_Z 5 0) (Binary64.of_Z 12 0)
         (Binary64.of_Z 10 0) v = true
    /\ Binary64.of_Z 2 0
       = Binary64.computed_distance (Binary64.of_Z 12 0)
           (Binary64.of_Z 10 0) v
    /\ Binary64.leb (Binary64.of_Z 2 0) (Binary64.of_Z 5 0) = true
    /\ forall v', v' ∈ small_square64 "B" ->
         Binary64.in_box (Binary64.of_Z 5 0) (Binary64.of_Z 12 0)
           (Binary64.of_Z 10 0) v' = true ->
         Binary64.ltb
           (Binary64.computed_distance (Binary64.of_Z 12 0)
              (Binary64.of_Z 10 0) v')
           (Binary64.of_Z 2 0) = false.
Proof.
  apply (distance_link_is_nearest_vertex
           Binary64.point_in_or_on_polygon_model (small_square64 "B")
           [Binary64.of_Z 50 0; Binary64.of_Z 12 0]
           [Binary64.zero; Binary64.of_Z 10 0] (Binary64.of_Z 5 0)
           Binary64.DEFAULT_MAX_POLYGON_ATTEMPT_DISTANCE_METRES
           [None; Some "B"] [Binary64.nan; Binary64.of_Z 2 0] 1
           (Binary64.of_Z 12 0) (Binary64.of_Z 10 0) "B"
           (Binary64.of_Z 2 0)).
  - vm_compute. reflexivity.
  - reflexivity.
  - reflexivity.
  - reflexivity.
  - reflexivity.
  - vm_compute. reflexivity.
Defined.

(** X3. [_find_nearest_storms_one_time] links an event only to a storm
    that has a vertex in the table, and whenever the event is in or on the
    polygon of the linked storm the linkage distance recorded is 0. *)
Theorem linked_storm_in_table_zero_when_inside
  (point_in_or_on_polygon :
     list (Binary64.float64 * Binary64.float64) ->
     Binary64.float64 -> Binary64.float64 -> bool)
  (t : list Binary64.Vertex) (xs ys : list Binary64.float64)
  (max_link attempt : Binary64.float64)
  (ids : list (option string)) (dists : list Binary64.float64)
  (k : nat) (ex ey : Binary64.float64) (id : string) :
  Binary64._find_nearest_storms_one_time point_in_or_on_polygon t xs ys
    max_link attempt = Some (ids, dists) ->
  xs !! k = Some ex -> ys !! k = Some ey ->
  ids !! k = Some (Some id) ->
  id ∈ map Binary64.vertex_secondary_id_string t
  /\ (point_in_or_on_polygon (Binary64.polygon_vertices t id) ex ey = true ->
      dists !! k = Some Binary64.zero).
Proof.
  intros Hrun Hx Hy Hid.
  destruct (dists !! k) as [d|] eqn:Hd.
  2:{ exfalso. revert Hrun. unfold Binary64._find_nearest_storms_one_time.
      destruct (decide _); [done|]. intros [= <- <-].
      rewrite map_lookup in Hid. rewrite map_lookup in Hd.
      destruct (zip_with _ xs ys !! k); done. }
  pose proof (Binary64Facts.f64_find_nearest_storms_entry _ _ _ _ _ _ _ _ _
                _ _ _ _ Hrun Hx Hy Hid Hd) as Hentry.
  destruct (Binary64Facts.f64_nearest_storm_one_event_cases
              point_in_or_on_polygon t max_link
              (Binary64.py_max attempt
                 (Binary64.mul (Binary64.of_Z 2 0) max_link)) ex ey)
    as [Hc|[(id' & Hc & Hin & Hpip)|(v & Hc & Hvt & _ & _ & Hpip & _)]];
    rewrite Hc in Hentry; try discriminate.
  - injection Hentry as -> ->. done.
  - injection Hentry as -> ->. split.
    + apply list_elem_of_In, in_map. by apply list_elem_of_In.
    + rewrite Hpip. done.
Qed.

Lemma linked_storm_in_table_zero_when_inside_witness :
  "B" ∈ map Binary64.vertex_secondary_id_string (small_square64 "B")
  /\ (Binary64.point_in_or_on_polygon_model
        (Binary64.polygon_vertices (small_square64 "B") "B")
        Binary64.zero Binary64.zero = true ->
      [Binary64.zero; Binary64.of_Z 2 0] !! 0%nat = Some Binary64.zero).
Proof.
  apply (linked_storm_in_table_zero_when_inside
           Binary64.point_in_or_on_polygon_model (small_square64 "B")
           [Binary64.zero; Binary64.of_Z 12 0]
           [Binary64.zero; Binary64.of_Z 10 0] (Binary64.of_Z 5 0)
           Binary64.DEFAULT_MAX_POLYGON_ATTEMPT_DISTANCE_METRES
           [Some "B"; Some "B"] [Binary64.zero; Binary64.of_Z 2 0] 0
           Binary64.zero Binary64.zero "B").
  - vm_compute. reflexivity.
  - reflexivity.
  - reflexivity.
  - reflexivity.
Defined.

(** The converse fails: a distance of 0 is also recorded for an event
    outside the polygon of its storm when the squares of the differences
    underflow.  The only vertex is 2^-600 m east of the event. *)
Example zero_distance_outside_polygon :
  Binary64.point_in_or_on_polygon_model
    [(Binary64.of_Z 1 (-600), Binary64.zero)] Binary64.zero Binary64.zero
  = false
  /\ Binary64._find_nearest_storms_one_time
       Binary64.point_in_or_on_polygon_model
       [ {| Binary64.vertex_secondary_id_string := "A";
            Binary64.vertex_x_metres := Binary64.of_Z 1 (-600);
            Binary64.vertex_y_metres := Binary64.zero |} ]
       [Binary64.zero] [Binary64.zero] (Binary64.of_Z 1 0)
       Binary64.DEFAULT_MAX_POLYGON_ATTEMPT_DISTANCE_METRES
     = Some ([Some "A"], [Binary64.zero]).
Proof. split; vm_compute; reflexivity. Qed.

(** X4. With an empty table of storm vertices,
    [_find_nearest_storms_one_time] leaves every event unlinked: it returns
    None for every nearest secondary ID and NaN for every linkage distance,
    whatever the two distance limits are. *)
Theorem no_storms_no_links
  (point_in_or_on_polygon : list (Q * Q) -> Q -> Q -> bool)
  (xs ys : list Q) (max_link attempt : Q) :
  length xs <= length ys ->
  _find_nearest_storms_one_time point_in_or_on_polygon [] xs ys max_link
    attempt
  = Some (replicate (length xs) None, replicate (length xs) NaN).
Proof.
  intros Hlen. unfold _find_nearest_storms_one_time.
  destruct (decide _) as [|_]; [lia|]. f_equal.
  revert ys Hlen. induction xs as [|x xs IH]; intros [|y ys] Hlen;
    simpl in *; try done; try lia.
  specialize (IH ys ltac:(lia)). injection IH as IH1 IH2.
  by rewrite IH1, IH2.
Qed.

Lemma no_storms_no_links_witness :
  _find_nearest_storms_one_time point_in_or_on_polygon_model [] [0%Q; 12%Q]
    [0%Q; 10%Q; 7%Q] 5 DEFAULT_MAX_POLYGON_ATTEMPT_DISTANCE_METRES
  = Some (replicate 2 None, replicate 2 NaN).
Proof.
  apply (no_storms_no_links point_in_or_on_polygon_model [0%Q; 12%Q]
           [0%Q; 10%Q; 7%Q] 5 DEFAULT_MAX_POLYGON_ATTEMPT_DISTANCE_METRES).
  simpl. lia.
Defined.

(** ** More about the reconciliation of two periods *)

(** A verdict other than [Skip] needs rows of the tornado in both tables. *)
Lemma verdict_needs_both_periods
  (early late : list (EventRow TornadoAttributes)) (id : string) :
  verdict_of early late id <> Skip ->
  rows_of id early <> [] /\ rows_of id late <> []
  /\ id ∈ np_unique (map tornado_id_of early ++ map tornado_id_of late).
Proof.
  unfold verdict_of. intros Hv.
  destruct (earliest (rows_of id early)) as [e|] eqn:He; [|done].
  destruct (earliest (rows_of id late)) as [l|] eqn:Hl; [|done].
  split; [by intros Hnil; rewrite Hnil in He|].
  split; [by intros Hnil; rewrite Hnil in Hl|].
  by eapply earliest_in_unique_ids.
Qed.

(** X5. When [_remove_redundant_tornado_linkages] returns, it has treated
    the rows of each tornado as a block: either both returned tables hold
    exactly the rows of that tornado that they held before, or the tornado
    had rows in both tables and its rows were removed from exactly one of
    them and all kept in the other.  So no tornado loses its rows in both
    periods, and a tornado seen in one period only keeps all its rows. *)
Theorem redundant_rows_dropped_from_one_period
  (early late early' late' : list (EventRow TornadoAttributes))
  (id : string) :
  _remove_redundant_tornado_linkages early late = inr (early', late') ->
  (rows_of id early' = rows_of id early /\ rows_of id late' = rows_of id late)
  \/ (rows_of id early <> [] /\ rows_of id late <> []
      /\ rows_of id early' = rows_of id early /\ rows_of id late' = [])
  \/ (rows_of id early <> [] /\ rows_of id late <> []
      /\ rows_of id early' = [] /\ rows_of id late' = rows_of id late).
Proof.
  intros Hrun. apply remove_redundant_returned in Hrun as (Hok & -> & ->).
  set (ids := np_unique _) in *.
  destruct (verdict_of early late id) eqn:Hv.
  - left. split; apply rows_of_filter_kept; intros row <-;
      unfold kept_early, kept_late; by rewrite Hv, andb_false_r.
  - left. split; apply rows_of_filter_kept; intros row <-;
      unfold kept_early, kept_late; by rewrite Hv, andb_false_r.
  - destruct (verdict_needs_both_periods early late id) as (He & Hl & Hid);
      [by rewrite Hv|].
    right. right. split; [done|]. split; [done|]. by apply drop_early_rows.
  - destruct (verdict_needs_both_periods early late id) as (He & Hl & Hid);
      [by rewrite Hv|].
    right. left. split; [done|]. split; [done|]. by apply drop_late_rows.
Qed.

Lemma redundant_rows_dropped_from_one_period_witness :
  (rows_of "T1" early_period = rows_of "T1" early_period
   /\ rows_of "T1" [ linked_row "T2" 500 None NaN ]
      = rows_of "T1" late_period)
  \/ (rows_of "T1" early_period <> [] /\ rows_of "T1" late_period <> []
      /\ rows_of "T1" early_period = rows_of "T1" early_period
      /\ rows_of "T1" [ linked_row "T2" 500 None NaN ] = [])
  \/ (rows_of "T1" early_period <> [] /\ rows_of "T1" late_period <> []
      /\ rows_of "T1" early_period = []
      /\ rows_of "T1" [ linked_row "T2" 500 None NaN ]
         = rows_of "T1" late_period).
Proof.
  apply (redundant_rows_dropped_from_one_period early_period late_period).
  vm_compute. reflexivity.
Defined.

Lemma List_filter_sublist {A} (p : A -> bool) (l : list A) :
  List.filter p l `sublist_of` l.
Proof.
  induction l as [|x l IH]; simpl; [constructor|].
  destruct (p x); by constructor.
Qed.

(** X6. The tables returned by [_remove_redundant_tornado_linkages] are
    the given tables with some rows deleted: the function adds no row,
    changes no row and keeps the remaining rows in their order. *)
Theorem remove_redundant_returns_subtables
  (early late early' late' : list (EventRow TornadoAttributes)) :
  _remove_redundant_tornado_linkages early late = inr (early', late') ->
  early' `sublist_of` early /\ late' `sublist_of` late.
Proof.
  intros Hrun. apply remove_redundant_returned in Hrun as (_ & -> & ->).
  split; apply List_filter_sublist.
Qed.

Lemma remove_redundant_returns_subtables_witness :
  early_period `sublist_of` early_period
  /\ [ linked_row "T2" 500 None NaN ] `sublist_of` late_period.
Proof.
  apply (remove_redundant_returns_subtables early_period late_period).
  vm_compute. reflexivity.
Defined.

(** The loop stops at the first tornado ID with a mismatch and reports the
    two start times of that tornado. *)
Lemma loop_error (ids : list string) :
  forall early late err,
    for_each_raising remove_redundant_one_tornado ids (early, late)
    = inl err ->
    exists pre post,
      ids = pre ++ error_tornado_id_string err :: post
      /\ (forall id, id ∈ pre ->
            is_mismatch (verdict_of early late id) = false)
      /\ verdict_of early late (error_tornado_id_string err)
         = Mismatch (error_early_start_unix_sec err)
             (error_late_start_unix_sec err).
Proof.
  induction ids as [|a ids IH]; intros early late err; [done|].
  cbn [for_each_raising]. rewrite remove_redundant_one_tornado_verdict.
  destruct (verdict_of early late a) eqn:Ha.
  - intros (pre & post & -> & Hpre & Herr)%IH.
    exists (a :: pre), post. split; [done|]. split; [|done].
    intros id [->|Hid]%elem_of_cons; [by rewrite Ha|by apply Hpre].
  - intros [= <-]. exists [], ids. simpl. split; [done|].
    split; [|done]. by intros id ?%elem_of_nil.
  - intros (pre & post & -> & Hpre & Herr)%IH.
    assert (error_tornado_id_string err <> a) as Hne.
    { intros Heq. by rewrite Heq, verdict_without_early_same in Herr. }
    rewrite verdict_without_early_other in Herr by done.
    exists (a :: pre), post. split; [done|]. split; [|done].
    intros id [->|Hid]%elem_of_cons; [by rewrite Ha|].
    destruct (decide (id = a)) as [->|Hida]; [by rewrite Ha|].
    rewrite <- (verdict_without_early_other early late id a) by done.
    by apply Hpre.
  - intros (pre & post & -> & Hpre & Herr)%IH.
    assert (error_tornado_id_string err <> a) as Hne.
    { intros Heq. by rewrite Heq, verdict_without_late_same in Herr. }
    rewrite verdict_without_late_other in Herr by done.
    exists (a :: pre), post. split; [done|]. split; [|done].
    intros id [->|Hid]%elem_of_cons; [by rewrite Ha|].
    destruct (decide (id = a)) as [->|Hida]; [by rewrite Ha|].
    rewrite <- (verdict_without_late_other early late id a) by done.
    by apply Hpre.
Qed.

Lemma sorted_app_cons_lt `{NumpyOrd A} (pre post : list A) (x y : A) :
  StronglySorted np_lt (pre ++ x :: post) -> y ∈ post -> np_lt x y.
Proof.
  induction pre as [|p pre IH]; simpl; intros Hsorted Hy.
  - apply StronglySorted_inv in Hsorted as [_ Hall].
    by eapply Forall_forall in Hall.
  - apply StronglySorted_inv in Hsorted as [Hsorted _]. by apply IH.
Qed.

(** X7. The ValueError of [_remove_redundant_tornado_linkages] names a
    tornado that both tables contain with different start times and
    carries exactly these two start times; among all tornadoes whose start
    times differ it names the one whose ID sorts first. *)
Theorem remove_redundant_error_reports_first_mismatch
  (early late : list (EventRow TornadoAttributes)) (err : ValueError) :
  _remove_redundant_tornado_linkages early late = inl err ->
  start_time early (error_tornado_id_string err)
  = Some (error_early_start_unix_sec err)
  /\ start_time late (error_tornado_id_string err)
     = Some (error_late_start_unix_sec err)
  /\ error_early_start_unix_sec err <> error_late_start_unix_sec err
  /\ forall id early_start late_start,
       start_time early id = Some early_start ->
       start_time late id = Some late_start ->
       early_start <> late_start ->
       String.compare (error_tornado_id_string err) id <> Gt.
Proof.
  unfold _remove_redundant_tornado_linkages. set (ids := np_unique _).
  intros (pre & post & Hids & Hpre & Herr)%loop_error.
  assert (exists e l,
            earliest (rows_of (error_tornado_id_string err) early) = Some e
            /\ earliest (rows_of (error_tornado_id_string err) late) = Some l
            /\ unix_time_sec e <> unix_time_sec l
            /\ error_early_start_unix_sec err = unix_time_sec e
            /\ error_late_start_unix_sec err = unix_time_sec l)
    as (e & l & He & Hl & Hne & Hes & Hls).
  { unfold verdict_of in Herr.
    destruct (earliest (rows_of _ early)) as [e|]; [|done].
    destruct (earliest (rows_of _ late)) as [l|]; [|done].
    exists e, l. destruct (decide _) as [Hne|].
    - injection Herr as <- <-. done.
    - destruct (nearest_secondary_id_string e),
        (nearest_secondary_id_string l); try done.
      by destruct (distance_le _ _). }
  unfold start_time. rewrite He, Hl, Hes, Hls.
  split; [done|]. split; [done|]. split; [done|].
  intros id es ls Hes' Hls' Hne'.
  assert (is_mismatch (verdict_of early late id) = true) as Hmis.
  { apply mismatch_start_times.
    destruct (earliest (rows_of id early)) as [e'|]; [|done].
    destruct (earliest (rows_of id late)) as [l'|]; [|done].
    injection Hes' as <-. injection Hls' as <-. by exists e', l'. }
  assert (id ∈ ids) as Hid.
  { apply mismatch_start_times in Hmis as (e' & _ & He' & _).
    by eapply earliest_in_unique_ids. }
  rewrite Hids in Hid. apply elem_of_app in Hid as [Hid|Hid].
  { rewrite Hpre in Hmis by done. done. }
  apply elem_of_cons in Hid as [->|Hid].
  { pose proof (np_compare_refl (error_tornado_id_string err)) as Hrefl.
    simpl in Hrefl. by rewrite Hrefl. }
  pose proof (np_unique_sorted
                (map tornado_id_of early ++ map tornado_id_of late))
    as Hsorted.
  fold ids in Hsorted. rewrite Hids in Hsorted.
  pose proof (sorted_app_cons_lt _ _ _ _ Hsorted Hid) as Hlt.
  unfold np_lt in Hlt. simpl in Hlt. by rewrite Hlt.
Qed.

Lemma remove_redundant_error_reports_first_mismatch_witness :
  start_time early_period "T1" = Some 100%Z
  /\ start_time late_period_shifted "T1" = Some 130%Z
  /\ 100%Z <> 130%Z
  /\ forall id early_start late_start,
       start_time early_period id = Some early_start ->
       start_time late_period_shifted id = Some late_start ->
       early_start <> late_start ->
       String.compare "T1" id <> Gt.
Proof.
  apply (remove_redundant_error_reports_first_mismatch early_period
           late_period_shifted
           {| error_tornado_id_string := "T1";
              error_early_start_unix_sec := 100;
              error_late_start_unix_sec := 130 |}).
  vm_compute. reflexivity.
Defined.

(** ** More about the persistence of linkage results *)

Lemma columns_in_dataframe_app (table : DataFrame) (a b : list string) :
  columns_in_dataframe table (a ++ b)
  = columns_in_dataframe table a && columns_in_dataframe table b.
Proof. unfold columns_in_dataframe. apply forallb_app. Qed.

Lemma columns_in_dataframe_elem_of (table : DataFrame)
  (required : list string) (name : string) :
  columns_in_dataframe table required = true -> name ∈ required ->
  name ∈ map fst (columns table).
Proof.
  unfold columns_in_dataframe. rewrite forallb_forall. intros Hall Hin.
  apply list_elem_of_In, Hall in Hin. by apply bool_decide_eq_true in Hin.
Qed.

Section PersistenceFacts.
Variable REQUIRED_STORM_COLUMNS : list string.

(** A table that passes the column check of either event type has the
    merging-predecessor flag. *)
Lemma checked_table_has_merging_flag (table : DataFrame) :
  columns_in_dataframe table
    (REQUIRED_WIND_LINKAGE_COLUMNS REQUIRED_STORM_COLUMNS)
  || columns_in_dataframe table
       (REQUIRED_TORNADO_LINKAGE_COLUMNS REQUIRED_STORM_COLUMNS) = true ->
  MERGING_PRED_FLAG_COLUMN ∈ map fst (columns table).
Proof.
  unfold REQUIRED_WIND_LINKAGE_COLUMNS, REQUIRED_TORNADO_LINKAGE_COLUMNS,
    WIND_LINKAGE_COLUMNS, TORNADO_LINKAGE_COLUMNS.
  rewrite !columns_in_dataframe_app.
  intros [Hw|Ht]%orb_true_iff.
  - apply andb_true_iff in Hw as [_ [Hthese _]%andb_true_iff].
    apply (columns_in_dataframe_elem_of _ _ _ Hthese).
    unfold THESE_COLUMNS. set_solver.
  - apply andb_true_iff in Ht as [_ [Hthese _]%andb_true_iff].
    apply (columns_in_dataframe_elem_of _ _ _ Hthese).
    unfold THESE_COLUMNS. set_solver.
Qed.

End PersistenceFacts.

(** X8. Round trip of the tables: after a successful [write_linkage_file],
    [read_linkage_file] on the same path succeeds and returns the
    storm-to-events table exactly as written and the tornado-to-storm
    table as written (None when none was given); reading any other path
    gives what it gave before the write. *)
Theorem read_after_write_returns_tables
  (REQUIRED_STORM_COLUMNS : list string) (files files' : file_system)
  (pickle_file_name : string) (storm_to_events_table : DataFrame)
  (metadata_dict : gmap string Q)
  (tornado_to_storm_table : option DataFrame) :
  write_linkage_file REQUIRED_STORM_COLUMNS files pickle_file_name
    storm_to_events_table metadata_dict tornado_to_storm_table
  = Some files' ->
  (exists read_metadata_dict,
     read_linkage_file REQUIRED_STORM_COLUMNS files' pickle_file_name
     = Some (storm_to_events_table, read_metadata_dict,
             match tornado_to_storm_table with
             | Some table => ObjTable table
             | None => ObjNone
             end))
  /\ forall other_file_name, other_file_name <> pickle_file_name ->
       read_linkage_file REQUIRED_STORM_COLUMNS files' other_file_name
       = read_linkage_file REQUIRED_STORM_COLUMNS files other_file_name.
Proof.
  unfold write_linkage_file.
  destruct (_ || _) eqn:Hcheck; [|done]. intros [= <-]. split.
  - pose proof (checked_table_has_merging_flag _ _ Hcheck) as Hflag.
    unfold read_linkage_file. rewrite lookup_insert_eq.
    destruct (decide _) as [_|Hno]; [|done].
    apply orb_true_iff in Hcheck.
    destruct (columns_in_dataframe storm_to_events_table
                (REQUIRED_WIND_LINKAGE_COLUMNS REQUIRED_STORM_COLUMNS));
      [by eexists|].
    destruct Hcheck as [Hc|Hc]; [done|]. rewrite Hc. by eexists.
  - intros other Hother. unfold read_linkage_file.
    by rewrite lookup_insert_ne.
Qed.

Lemma read_after_write_returns_tables_witness :
  (exists read_metadata_dict,
     read_linkage_file documented_storm_columns
       (<["storm_to_winds.p" :=
            [ ObjTable empty_storm_to_winds_table; ObjDict metadata_20km;
              ObjNone ]]> ∅) "storm_to_winds.p"
     = Some (empty_storm_to_winds_table, read_metadata_dict, ObjNone))
  /\ forall other_file_name, other_file_name <> "storm_to_winds.p" ->
       read_linkage_file documented_storm_columns
         (<["storm_to_winds.p" :=
              [ ObjTable empty_storm_to_winds_table; ObjDict metadata_20km;
                ObjNone ]]> ∅) other_file_name
       = read_linkage_file documented_storm_columns ∅ other_file_name.
Proof.
  apply (read_after_write_returns_tables documented_storm_columns ∅ _
           "storm_to_winds.p" empty_storm_to_winds_table metadata_20km None).
  reflexivity.
Defined.

(** A storm-to-winds table of two storm objects written before the
    merging-predecessor flag existed: every required column but that
    one. *)
Definition legacy_storm_to_winds_table : DataFrame :=
  {| index_length := 2;
     columns :=
       map (fun name => (name, [PyNone; PyNone]))
         (List.filter
            (fun name => negb (bool_decide (name = MERGING_PRED_FLAG_COLUMN)))
            (REQUIRED_WIND_LINKAGE_COLUMNS documented_storm_columns)) |}.

(** X9. A file written before the merging-predecessor flag existed can
    still be read: when the stored table lacks only that column of the
    wind-linkage columns, [read_linkage_file] succeeds and returns the
    stored table with the column added after the others, holding False for
    each storm object. *)
Theorem read_legacy_file_adds_false_flags
  (REQUIRED_STORM_COLUMNS : list string) (files : file_system)
  (pickle_file_name : string) (stored_table : DataFrame)
  (rest : list pyobject) :
  files !! pickle_file_name = Some (ObjTable stored_table :: rest) ->
  MERGING_PRED_FLAG_COLUMN ∉ map fst (columns stored_table) ->
  Forall
    (fun name => name = MERGING_PRED_FLAG_COLUMN
                 \/ name ∈ map fst (columns stored_table))
    (REQUIRED_WIND_LINKAGE_COLUMNS REQUIRED_STORM_COLUMNS) ->
  exists metadata_dict tornado_to_storm_table,
    read_linkage_file REQUIRED_STORM_COLUMNS files pickle_file_name
    = Some ({| index_length := index_length stored_table;
               columns :=
                 columns stored_table
                 ++ [ (MERGING_PRED_FLAG_COLUMN,
                       replicate (index_length stored_table)
                         (PyBool false)) ] |},
            metadata_dict, tornado_to_storm_table).
Proof.
  intros Hfile Hflag Hothers. unfold read_linkage_file. rewrite Hfile.
  destruct (decide _) as [|_]; [done|].
  set (table := {| index_length := _; columns := _ |}).
  assert (columns_in_dataframe table
            (REQUIRED_WIND_LINKAGE_COLUMNS REQUIRED_STORM_COLUMNS) = true)
    as ->.
  { unfold columns_in_dataframe. apply forallb_forall. intros name Hname.
    apply bool_decide_eq_true. simpl. rewrite map_app. simpl.
    eapply Forall_forall in Hothers; [|by apply list_elem_of_In].
    apply elem_of_app. destruct Hothers as [->|Hin]; [right|by left].
    apply list_elem_of_here. }
  destruct rest as [|metadata_dict [|tornado_to_storm_table rest]];
    by eexists _, _.
Qed.

Lemma read_legacy_file_adds_false_flags_witness :
  exists metadata_dict tornado_to_storm_table,
    read_linkage_file documented_storm_columns
      {[ "storm_to_winds_2011.p" :=
           [ ObjTable legacy_storm_to_winds_table ] ]}
      "storm_to_winds_2011.p"
    = Some ({| index_length := 2;
               columns :=
                 columns legacy_storm_to_winds_table
                 ++ [ (MERGING_PRED_FLAG_COLUMN,
                       replicate 2 (PyBool false)) ] |},
            metadata_dict, tornado_to_storm_table).
Proof.
  apply (read_legacy_file_adds_false_flags documented_storm_columns
           {[ "storm_to_winds_2011.p" :=
                [ ObjTable legacy_storm_to_winds_table ] ]}
           "storm_to_winds_2011.p" legacy_storm_to_winds_table []).
  - reflexivity.
  - apply (bool_decide_unpack _). vm_compute. reflexivity.
  - apply (bool_decide_unpack _). vm_compute. reflexivity.
Defined.

(** ** Lifetimes of secondary storm cells *)

Lemma set_rows_lookup_in {A} (rows : list nat) (v : A) (c : list A) (p : nat) :
  p ∈ rows -> (p < length c)%nat -> set_rows rows v c !! p = Some v.
Proof.
  induction rows as [|i rows IH]; simpl; [by intros ?%elem_of_nil|].
  intros Hp Hlen. destruct (decide (p = i)) as [->|Hne].
  - apply list_lookup_insert_eq. by rewrite set_rows_length.
  - rewrite list_lookup_insert_ne by done. apply IH; [set_solver|done].
Qed.

Lemma np_min_Z_least (rest : list Z) (first : Z) :
  (forall x, x ∈ first :: rest -> (np_min_Z first rest <= x)%Z)
  /\ np_min_Z first rest ∈ first :: rest.
Proof.
  unfold np_min_Z. revert first.
  induction rest as [|y rest IH]; intros first; simpl.
  - split; [|set_solver]. intros x ->%list_elem_of_singleton. lia.
  - destruct (IH (Z.min first y)) as [Hle Hin]. split.
    + intros x Hx. pose proof (Hle (Z.min first y) (list_elem_of_here _ _)).
      apply elem_of_cons in Hx as [->|Hx]; [lia|].
      apply elem_of_cons in Hx as [->|Hx]; [lia|].
      apply Hle. set_solver.
    + apply elem_of_cons in Hin as [Hin|Hin]; [|set_solver].
      rewrite Hin. destruct (Z.min_spec first y) as [[_ ->]|[_ ->]];
        set_solver.
Qed.

Lemma np_max_Z_greatest (rest : list Z) (first : Z) :
  (forall x, x ∈ first :: rest -> (x <= np_max_Z first rest)%Z)
  /\ np_max_Z first rest ∈ first :: rest.
Proof.
  unfold np_max_Z. revert first.
  induction rest as [|y rest IH]; intros first; simpl.
  - split; [|set_solver]. intros x ->%list_elem_of_singleton. lia.
  - destruct (IH (Z.max first y)) as [Hle Hin]. split.
    + intros x Hx. pose proof (Hle (Z.max first y) (list_elem_of_here _ _)).
      apply elem_of_cons in Hx as [->|Hx]; [lia|].
      apply elem_of_cons in Hx as [->|Hx]; [lia|].
      apply Hle. set_solver.
    + apply elem_of_cons in Hin as [Hin|Hin]; [|set_solver].
      rewrite Hin. destruct (Z.max_spec first y) as [[_ ->]|[_ ->]];
        set_solver.
Qed.

(** The pair written into the two new columns at row [p]: the least and
    the greatest valid time among the storm objects of the cell of that
    row. *)
Lemma start_end_lookup (table : list StormObject) (p : nat)
  (r : StormObject) :
  table !! p = Some r ->
  exists first rest,
    map valid_time_unix_sec
      (List.filter
         (fun s => bool_decide (secondary_id_string s = secondary_id_string r))
         table) = first :: rest
    /\ _find_secondary_start_end_times table !! p
       = Some (np_min_Z first rest, np_max_Z first rest).
Proof.
  intros Hp. set (id := secondary_id_string r).
  assert (r ∈ table) as Hrin by by eapply list_elem_of_lookup_2.
  destruct (map valid_time_unix_sec
              (List.filter (fun s => bool_decide (secondary_id_string s = id))
                 table)) as [|first rest] eqn:Htimes.
  { exfalso. apply map_eq_nil in Htimes.
    eapply (filter_nonempty _ table r); [done| |by rewrite Htimes].
    by apply bool_decide_eq_true_2. }
  exists first, rest. split; [done|].
  unfold _find_secondary_start_end_times, np_unique_inverse.
  set (uniq := np_unique (map secondary_id_string table)).
  assert (id ∈ map secondary_id_string table) as Hid.
  { apply list_elem_of_In, in_map. by apply list_elem_of_In. }
  assert (id ∈ uniq) as Hidu by by apply elem_of_np_unique.
  set (j0 := index id uniq).
  match goal with |- fold_left ?f _ _ !! _ = _ => set (body := f) end.
  assert (forall js cols, NoDup js -> (p < length cols)%nat ->
            fold_left body js cols !! p
            = if decide (j0 ∈ js)
              then Some (np_min_Z first rest, np_max_Z first rest)
              else cols !! p) as Hfold.
  { induction js as [|j js IH]; intros cols Hnodup Hlen; simpl.
    { destruct (decide (j0 ∈ [])) as [Hin|]; [|done].
      by apply elem_of_nil in Hin. }
    apply NoDup_cons in Hnodup as [Hj Hnodup].
    assert (body cols j !! p
            = (if decide (j = j0)
               then Some (np_min_Z first rest, np_max_Z first rest)
               else cols !! p)
            /\ length (body cols j) = length cols) as [Hstep Hlen'].
    { unfold body. rewrite !map_map.
      destruct (decide (j = j0)) as [->|Hne].
      - rewrite np_take_where. unfold j0, uniq.
        rewrite filter_by_unique_index by done. fold id. rewrite Htimes.
        split; [|apply set_rows_length].
        apply set_rows_lookup_in; [|done].
        apply elem_of_np_where. exists r. split; [done|].
        apply Nat.eqb_refl.
      - assert (p ∉ np_where
                      (map (fun s => Nat.eqb (index (secondary_id_string s)
                                                uniq) j) table)) as Hnot.
        { intros Hin. apply elem_of_np_where in Hin as (x & Hx & Heq).
          assert (x = r) as -> by congruence.
          apply Nat.eqb_eq in Heq. by apply Hne. }
        destruct (np_take _ _); [done|].
        split; [by apply set_rows_lookup_ne|apply set_rows_length]. }
    rewrite IH by (done || lia). rewrite Hstep.
    destruct (decide (j = j0)) as [->|Hne].
    - destruct (decide (j0 ∈ js)); [done|].
      destruct (decide (j0 ∈ j0 :: js)) as [|Hno]; [done|].
      destruct Hno. set_solver.
    - destruct (decide (j0 ∈ js)) as [Hin|Hno];
        destruct (decide (j0 ∈ j :: js)) as [Hin'|Hno']; try done.
      + destruct Hno'. set_solver.
      + destruct Hno. set_solver. }
  rewrite Hfold.
  - destruct (decide (j0 ∈ seq 0 (length uniq))) as [|Hno]; [done|].
    destruct Hno. apply elem_of_seq. split; [lia|]. simpl. by apply index_lt.
  - apply NoDup_seq.
  - rewrite length_replicate. by eapply lookup_lt_Some.
Qed.

(** X10. [_find_secondary_start_end_times] gives every storm object the
    lifetime of its secondary cell: the start time written in its row is
    the valid time of some storm object with the same secondary ID and is
    not after the valid time of any of them, and the end time is the valid
    time of one of them and not before any. *)
Theorem secondary_start_end_times_span_the_cell
  (storm_object_table : list StormObject) (p : nat) (r : StormObject) :
  storm_object_table !! p = Some r ->
  exists start_time_unix_sec end_time_unix_sec,
    _find_secondary_start_end_times storm_object_table !! p
    = Some (start_time_unix_sec, end_time_unix_sec)
    /\ (forall s, s ∈ storm_object_table ->
          secondary_id_string s = secondary_id_string r ->
          (start_time_unix_sec <= valid_time_unix_sec s
           <= end_time_unix_sec)%Z)
    /\ (exists s, s ∈ storm_object_table
                  /\ secondary_id_string s = secondary_id_string r
                  /\ valid_time_unix_sec s = start_time_unix_sec)
    /\ (exists s, s ∈ storm_object_table
                  /\ secondary_id_string s = secondary_id_string r
                  /\ valid_time_unix_sec s = end_time_unix_sec).
Proof.
  intros Hp.
  destruct (start_end_lookup _ _ _ Hp) as (first & rest & Htimes & Hrow).
  exists (np_min_Z first rest), (np_max_Z first rest). split; [done|].
  destruct (np_min_Z_least rest first) as [Hmin Hmin_in].
  destruct (np_max_Z_greatest rest first) as [Hmax Hmax_in].
  assert (forall t, t ∈ first :: rest <->
            exists s, s ∈ storm_object_table
                      /\ secondary_id_string s = secondary_id_string r
                      /\ valid_time_unix_sec s = t) as Hmem.
  { intros t. rewrite <- Htimes, list_elem_of_In, in_map_iff. split.
    - intros (s & Hs & Hin). apply filter_In in Hin as [Hin Hid].
      apply bool_decide_eq_true in Hid. exists s.
      by rewrite list_elem_of_In.
    - intros (s & Hin & Hid & Hs). exists s. split; [done|].
      apply filter_In. split; [by apply list_elem_of_In|].
      by apply bool_decide_eq_true. }
  split; [|split; by apply Hmem].
  intros s Hs Hid.
  assert (valid_time_unix_sec s ∈ first :: rest) as Hin.
  { apply Hmem. by exists s. }
  split; [by apply Hmin|by apply Hmax].
Qed.

Lemma secondary_start_end_times_span_the_cell_witness :
  exists start_time_unix_sec end_time_unix_sec,
    _find_secondary_start_end_times two_snapshots !! 1%nat
    = Some (start_time_unix_sec, end_time_unix_sec)
    /\ (forall s, s ∈ two_snapshots ->
          secondary_id_string s = "A" ->
          (start_time_unix_sec <= valid_time_unix_sec s
           <= end_time_unix_sec)%Z)
    /\ (exists s, s ∈ two_snapshots /\ secondary_id_string s = "A"
                  /\ valid_time_unix_sec s = start_time_unix_sec)
    /\ (exists s, s ∈ two_snapshots /\ secondary_id_string s = "A"
                  /\ valid_time_unix_sec s = end_time_unix_sec).
Proof.
  apply (secondary_start_end_times_span_the_cell two_snapshots 1
           {| primary_id_string := "0"; secondary_id_string := "A";
              valid_time_unix_sec := 300;
              first_prev_secondary_id_string := "";
              second_prev_secondary_id_string := "";
              first_next_secondary_id_string := "";
              second_next_secondary_id_string := "";
              centroid_x_metres := 100; centroid_y_metres := 0;
              vertices_x_metres := [90; 110; 110; 90]%Q;
              vertices_y_metres := [-10; -10; 10; 10]%Q |}).
  reflexivity.
Defined.

(** ** More about the temporal interpolation *)

Lemma elem_of_sorted_storm_object_table (table : list StormObject)
  (target before after : Z) (s : StormObject) :
  s ∈ sorted_storm_object_table table target before after -> s ∈ table.
Proof.
  unfold sorted_storm_object_table. intros Hs.
  apply list_elem_of_In in Hs.
  apply (Permutation_in _ (sort_values_Permutation _)) in Hs.
  apply in_map_iff in Hs as ([s' c] & <- & Hin).
  apply filter_In in Hin as [Hin _]. apply list_elem_of_In in Hin.
  by apply elem_of_zip_l in Hin.
Qed.

Section InterpolationWindow.
Variable find_immediate_predecessors : neighbour_lookup.
Variable find_immediate_successors : neighbour_lookup.
Variable interp_in_time : time_interpolator.

(** A cell for which the loop body appends vertices passed both lifetime
    guards. *)
Lemma interp_one_cell_window (sorted : list StormObject)
  (target max_start min_end : Z) (id : string) (block : list Vertex)
  (v : Vertex) :
  interp_one_cell find_immediate_predecessors find_immediate_successors
    interp_in_time sorted target max_start min_end id = Some block ->
  v ∈ block ->
  exists first_object last_object,
    first_object ∈ sorted /\ last_object ∈ sorted
    /\ secondary_id_string first_object = id
    /\ secondary_id_string last_object = id
    /\ (valid_time_unix_sec first_object <= max_start)%Z
    /\ (min_end <= valid_time_unix_sec last_object)%Z.
Proof.
  unfold interp_one_cell.
  destruct (decide _); [by intros [= <-] ?%elem_of_nil|].
  destruct (np_where _) as [|first_row rows] eqn:Hwhere; [done|].
  destruct (last _) as [last_row|] eqn:Hlast; [|done].
  assert (first_row ∈ np_where
            (map (fun s => bool_decide (secondary_id_string s = id)) sorted))
    as Hfirst by (rewrite Hwhere; set_solver).
  assert (last_row ∈ np_where
            (map (fun s => bool_decide (secondary_id_string s = id)) sorted))
    as Hlast_in.
  { rewrite Hwhere. apply last_Some in Hlast as [l' ->]. set_solver. }
  apply elem_of_np_where in Hfirst as (first_object & Hf & Hfid).
  apply elem_of_np_where in Hlast_in as (last_object & Hl & Hlid).
  rewrite Hf, Hl.
  destruct (decide _) as [|Hstart]; [by intros [= <-] ?%elem_of_nil|].
  destruct (decide _) as [|Hend]; [by intros [= <-] ?%elem_of_nil|].
  intros _ _. exists first_object, last_object.
  apply bool_decide_eq_true in Hfid, Hlid.
  split; [by eapply list_elem_of_lookup_2|].
  split; [by eapply list_elem_of_lookup_2|].
  split; [done|]. split; [done|]. lia.
Qed.

End InterpolationWindow.

(** X11. [_interp_storms_in_time] returns vertices only for storm cells
    that are alive around the target time: every secondary ID in the
    returned vertex table is the ID of a storm object of the input table
    valid no later than target time + max_time_before_start_sec, and of one
    valid no earlier than target time - max_time_after_end_sec. *)
Theorem interpolated_cells_alive_near_target
  (find_immediate_predecessors find_immediate_successors : neighbour_lookup)
  (interp_in_time : time_interpolator)
  (storm_object_table : list StormObject)
  (target_time_unix_sec max_time_before_start_sec max_time_after_end_sec : Z)
  (interp_vertex_table : list Vertex) (v : Vertex) :
  _interp_storms_in_time find_immediate_predecessors
    find_immediate_successors interp_in_time storm_object_table
    target_time_unix_sec max_time_before_start_sec max_time_after_end_sec
  = Some interp_vertex_table ->
  v ∈ interp_vertex_table ->
  exists first_object last_object,
    first_object ∈ storm_object_table /\ last_object ∈ storm_object_table
    /\ secondary_id_string first_object = vertex_secondary_id_string v
    /\ secondary_id_string last_object = vertex_secondary_id_string v
    /\ (valid_time_unix_sec first_object
        <= target_time_unix_sec + max_time_before_start_sec)%Z
    /\ (target_time_unix_sec - max_time_after_end_sec
        <= valid_time_unix_sec last_object)%Z.
Proof.
  unfold _interp_storms_in_time.
  set (sorted := sorted_storm_object_table _ _ _ _).
  destruct (mapM _ _) as [tables|] eqn:Hloop; [|done].
  intros [= <-] Hv. apply mapM_Some in Hloop.
  apply list_elem_of_In, in_concat in Hv as (block & Hblock & Hv).
  apply list_elem_of_In in Hv.
  apply list_elem_of_In, list_elem_of_lookup in Hblock as [k Hk].
  destruct (Forall2_lookup_r _ _ _ _ _ Hloop Hk) as (id & _ & Hcell).
  pose proof (interp_one_cell_ids _ _ _ _ _ _ _ _ _ Hcell) as Hids.
  eapply Forall_forall in Hids; [|exact Hv].
  destruct (interp_one_cell_window _ _ _ _ _ _ _ _ _ v Hcell Hv)
    as (first_object & last_object & Hf & Hl & Hfid & Hlid & Hstart & Hend).
  exists first_object, last_object.
  split; [by eapply elem_of_sorted_storm_object_table|].
  split; [by eapply elem_of_sorted_storm_object_table|].
  rewrite Hids. done.
Qed.

Lemma interpolated_cells_alive_near_target_witness :
  exists first_object last_object,
    first_object ∈ cell_after_predecessor
    /\ last_object ∈ cell_after_predecessor
    /\ secondary_id_string first_object = "A"
    /\ secondary_id_string last_object = "A"
    /\ (valid_time_unix_sec first_object <= 600 + 300)%Z
    /\ (600 - 300 <= valid_time_unix_sec last_object)%Z.
Proof.
  eapply (interpolated_cells_alive_near_target
            find_immediate_predecessors_model find_immediate_successors_model
            interp_in_time_linear cell_after_predecessor 600 300 300 _
            {| vertex_secondary_id_string := "A";
               vertex_x_metres := 57000 # 300;
               vertex_y_metres := -3000 # 300 |}).
  - vm_compute. reflexivity.
  - apply list_elem_of_here.
Defined.






(** ** More about the reversal of linkages *)

Section ReversalFlags.
Context {P : Type}.
Variable find_predecessors : predecessor_walk.

(** Table [t1] is table [t] with the same storm objects and with the
    merging-predecessor flag raised in the rows [j] for which [added j]
    holds (and kept where it was raised before). *)
Definition flags_updated (added : nat -> Prop)
  (t t1 : list (StormToEvents P)) : Prop :=
  length t1 = length t
  /\ forall j row1, t1 !! j = Some row1 ->
       exists row, t !! j = Some row
         /\ storm_object row1 = storm_object row
         /\ (merging_predecessor_flag row1 = true
             <-> merging_predecessor_flag row = true \/ added j).

Lemma flags_updated_refl (t : list (StormToEvents P)) :
  flags_updated (fun _ => False) t t.
Proof. split; [done|]. intros j row Hrow. exists row. tauto. Qed.

Lemma flags_updated_trans (f g : nat -> Prop)
  (t t1 t2 : list (StormToEvents P)) :
  flags_updated f t t1 -> flags_updated g t1 t2 ->
  flags_updated (fun j => f j \/ g j) t t2.
Proof.
  intros [Hlen1 Hrows1] [Hlen2 Hrows2]. split; [congruence|].
  intros j row2 Hrow2.
  destruct (Hrows2 j row2 Hrow2) as (row1 & Hrow1 & Hs2 & Hf2).
  destruct (Hrows1 j row1 Hrow1) as (row & Hrow & Hs1 & Hf1).
  exists row. split; [done|]. split; [congruence|]. tauto.
Qed.

Lemma flags_updated_ext (f g : nat -> Prop) (t t1 : list (StormToEvents P)) :
  (forall j, f j <-> g j) -> flags_updated f t t1 -> flags_updated g t t1.
Proof.
  intros Hfg [Hlen Hrows]. split; [done|]. intros j row1 Hrow1.
  destruct (Hrows j row1 Hrow1) as (row & Hrow & Hs & Hf).
  exists row. split; [done|]. split; [done|]. rewrite <- Hfg. done.
Qed.

Lemma flags_updated_storms (f : nat -> Prop) (t t1 : list (StormToEvents P)) :
  flags_updated f t t1 -> map storm_object t1 = map storm_object t.
Proof.
  intros [Hlen Hrows]. apply list_eq. intros j. rewrite !map_lookup.
  destruct (t1 !! j) as [row1|] eqn:Hrow1.
  - destruct (Hrows j row1 Hrow1) as (row & -> & Hs & _). simpl.
    by rewrite Hs.
  - apply lookup_ge_None in Hrow1. rewrite Hlen in Hrow1.
    apply lookup_ge_None in Hrow1. by rewrite Hrow1.
Qed.

Lemma set_merging_flags_updated (t t1 : list (StormToEvents P))
  (rows : gset nat) :
  set_merging_flags t rows = Some t1 ->
  flags_updated (fun j => j ∈ rows) t t1.
Proof.
  unfold set_merging_flags. destruct (decide _); [|done]. intros [= <-].
  split; [by rewrite length_imap|]. intros j row1.
  rewrite list_lookup_imap.
  destruct (t !! j) as [row|]; [|done]. simpl. intros [= <-].
  exists row. split; [done|].
  destruct (decide (j ∈ rows)); simpl; (split; [done|]); tauto.
Qed.

Lemma append_event_flags (event : EventRow P) (main j : nat)
  (t t1 : list (StormToEvents P)) :
  append_event event main t j = Some t1 ->
  flags_updated (fun _ => False) t t1.
Proof.
  unfold append_event. destruct (t !! j) as [row|] eqn:Hrow; [|done].
  case_bool_decide; intros [= <-]; [apply flags_updated_refl|].
  split; [by rewrite length_insert|]. intros k row1 Hrow1.
  destruct (decide (k = j)) as [->|Hne].
  - rewrite list_lookup_insert_eq in Hrow1 by by eapply lookup_lt_Some.
    injection Hrow1 as <-. exists row. simpl. tauto.
  - rewrite list_lookup_insert_ne in Hrow1 by done. exists row1. tauto.
Qed.

Lemma append_loop_flags (event : EventRow P) (main : nat) (js : list nat) :
  forall t t1 : list (StormToEvents P),
    for_each (append_event event main) js t = Some t1 ->
    flags_updated (fun _ => False) t t1.
Proof.
  induction js as [|j js IH]; intros t t1; simpl.
  - intros [= <-]. apply flags_updated_refl.
  - destruct (append_event event main t j) as [t0|] eqn:Hstep; [|done].
    intros Hrest. apply append_event_flags in Hstep. apply IH in Hrest.
    eapply flags_updated_ext;
      [|exact (flags_updated_trans _ _ _ _ _ Hstep Hrest)].
    simpl. tauto.
Qed.

(** One event raises the flag of the merging predecessors of its main
    object and of no other row. *)
Lemma link_one_event_flags (t t1 : list (StormToEvents P))
  (event : EventRow P) :
  link_one_event find_predecessors t event = Some t1 ->
  flags_updated
    (fun j => exists main,
       main_object_of (map storm_object t) event = Some main
       /\ j ∈ snd (_find_predecessors find_predecessors (map storm_object t)
                     main))
    t t1.
Proof.
  unfold link_one_event, main_object_of.
  destruct (nearest_secondary_id_string event) as [id|].
  2:{ intros [= <-]. eapply flags_updated_ext; [|apply flags_updated_refl].
      cbv beta. intros j. split; [done|]. by intros (? & ? & _). }
  destruct (main_object_row _ _ _) as [main|]; [|done].
  destruct (_find_predecessors _ _ _) as [simple merging] eqn:Hpred.
  destruct (set_merging_flags t merging) as [t0|] eqn:Hflags; [|done].
  intros Hloop. apply set_merging_flags_updated in Hflags.
  apply append_loop_flags in Hloop.
  eapply flags_updated_ext;
    [|exact (flags_updated_trans _ _ _ _ _ Hflags Hloop)].
  cbv beta. intros j. split.
  - intros [Hj|[]]. exists main. by rewrite Hpred.
  - intros (main' & [= <-] & Hj). left. by rewrite Hpred in Hj.
Qed.

Lemma reverse_loop_flags (storms : list StormObject)
  (events : list (EventRow P)) :
  forall t t1 : list (StormToEvents P),
    map storm_object t = storms ->
    for_each (link_one_event find_predecessors) events t = Some t1 ->
    flags_updated
      (fun j => exists event main,
         event ∈ events /\ main_object_of storms event = Some main
         /\ j ∈ snd (_find_predecessors find_predecessors storms main))
      t t1.
Proof.
  induction events as [|event events IH]; intros t t1 Hstorms; simpl.
  - intros [= <-]. eapply flags_updated_ext; [|apply flags_updated_refl].
    cbv beta. intros j. split; [done|]. by intros (? & ? & ?%elem_of_nil & _).
  - destruct (link_one_event find_predecessors t event) as [t0|] eqn:Hstep;
      [|done].
    intros Hrest. apply link_one_event_flags in Hstep.
    rewrite Hstorms in Hstep.
    apply IH in Hrest.
    2:{ rewrite <- Hstorms. by eapply flags_updated_storms. }
    eapply flags_updated_ext;
      [|exact (flags_updated_trans _ _ _ _ _ Hstep Hrest)].
    cbv beta. intros j. split.
    + intros [(main & Hmain & Hj)|(e & main & He & Hmain & Hj)].
      * exists event, main. split; [set_solver|done].
      * exists e, main. split; [set_solver|done].
    + intros (e & main & [->|He]%elem_of_cons & Hmain & Hj).
      * left. by exists main.
      * right. by exists e, main.
Qed.

(** The flag column of the reversed table. *)
Lemma reverse_linkages_flags (storms : list StormObject)
  (events : list (EventRow P)) (table : list (StormToEvents P)) :
  reverse_linkages find_predecessors storms events = Some table ->
  map storm_object table = storms
  /\ forall j row, table !! j = Some row ->
       (merging_predecessor_flag row = true
        <-> exists event main,
              event ∈ events /\ main_object_of storms event = Some main
              /\ j ∈ snd (_find_predecessors find_predecessors storms main)).
Proof.
  unfold reverse_linkages. set (init := map _ storms).
  assert (map storm_object init = storms) as Hinit.
  { unfold init. rewrite map_map. simpl. apply map_id. }
  intros Hrun. apply (reverse_loop_flags storms) in Hrun; [|done].
  split.
  { transitivity (map storm_object init);
      [by eapply flags_updated_storms|done]. }
  intros j row Hrow. destruct Hrun as [_ Hrows].
  destruct (Hrows j row Hrow) as (row0 & Hrow0 & _ & Hflag).
  rewrite Hflag. unfold init in Hrow0. rewrite map_lookup in Hrow0.
  destruct (storms !! j); [|done]. injection Hrow0 as <-. simpl.
  split; [by intros [|]|by right].
Qed.

(** An event that names a storm cell absent from the table stops the
    reversal. *)
Lemma reverse_loop_unknown_storm (storms : list StormObject)
  (events : list (EventRow P)) (event : EventRow P) (id : string) :
  event ∈ events -> nearest_secondary_id_string event = Some id ->
  id ∉ map secondary_id_string storms ->
  forall t : list (StormToEvents P),
    map storm_object t = storms ->
    for_each (link_one_event find_predecessors) events t = None.
Proof.
  intros Hin Hid Hunknown.
  induction events as [|e events IH]; intros t Hstorms;
    [by apply elem_of_nil in Hin|].
  simpl.
  destruct (link_one_event find_predecessors t e) as [t0|] eqn:Hstep;
    [|done].
  apply elem_of_cons in Hin as [<-|Hin].
  - exfalso. unfold link_one_event in Hstep. rewrite Hid, Hstorms in Hstep.
    unfold main_object_row in Hstep.
    assert (np_where
              (map (fun s => bool_decide (secondary_id_string s = id)) storms)
            = []) as Hnone.
    { apply length_zero_iff_nil. rewrite length_np_where.
      apply length_zero_iff_nil, filter_none, Forall_forall.
      intros s Hs. apply bool_decide_eq_false_2. intros <-.
      apply Hunknown, list_elem_of_In, in_map. by apply list_elem_of_In. }
    rewrite Hnone in Hstep. done.
  - apply IH; [done|]. rewrite <- Hstorms.
    apply link_one_event_flags in Hstep. by eapply flags_updated_storms.
Qed.

End ReversalFlags.

(** X13. In the tables returned by [_reverse_wind_linkages] and
    [_reverse_tornado_linkages] the storm objects are those given, in
    their order, and the merging-predecessor flag of a row is True exactly
    when the row is a merging predecessor (as [_find_predecessors] returns
    them) of the main storm object of some linked event. *)
Theorem merging_flag_marks_merging_predecessors
  (find_predecessors : predecessor_walk) (storms : list StormObject)
  (winds : list (EventRow WindAttributes))
  (tornadoes : list (EventRow TornadoAttributes))
  (storm_to_winds_table : list (StormToEvents WindAttributes))
  (storm_to_tornadoes_table : list (StormToEvents TornadoAttributes)) :
  _reverse_wind_linkages find_predecessors storms winds
  = Some storm_to_winds_table ->
  _reverse_tornado_linkages find_predecessors storms tornadoes
  = Some storm_to_tornadoes_table ->
  (map storm_object storm_to_winds_table = storms
   /\ forall j row, storm_to_winds_table !! j = Some row ->
        (merging_predecessor_flag row = true
         <-> exists event main,
               event ∈ winds /\ main_object_of storms event = Some main
               /\ j ∈ snd (_find_predecessors find_predecessors storms
                             main)))
  /\ (map storm_object storm_to_tornadoes_table = storms
      /\ forall j row, storm_to_tornadoes_table !! j = Some row ->
           (merging_predecessor_flag row = true
            <-> exists event main,
                  event ∈ tornadoes
                  /\ main_object_of storms event = Some main
                  /\ j ∈ snd (_find_predecessors find_predecessors storms
                                main))).
Proof.
  intros Hwinds Htornadoes. split; by apply reverse_linkages_flags.
Qed.

Lemma merging_flag_marks_merging_predecessors_witness :
  (map storm_object
     (default []
        (_reverse_wind_linkages find_predecessors_no_links two_snapshots
           one_wind_observation)) = two_snapshots
   /\ forall j row,
        default []
          (_reverse_wind_linkages find_predecessors_no_links two_snapshots
             one_wind_observation) !! j = Some row ->
        (merging_predecessor_flag row = true
         <-> exists event main,
               event ∈ one_wind_observation
               /\ main_object_of two_snapshots event = Some main
               /\ j ∈ snd (_find_predecessors find_predecessors_no_links
                             two_snapshots main)))
  /\ (map storm_object
        (default []
           (_reverse_tornado_linkages find_predecessors_no_links
              two_snapshots one_tornado_segment)) = two_snapshots
      /\ forall j row,
           default []
             (_reverse_tornado_linkages find_predecessors_no_links
                two_snapshots one_tornado_segment) !! j = Some row ->
           (merging_predecessor_flag row = true
            <-> exists event main,
                  event ∈ one_tornado_segment
                  /\ main_object_of two_snapshots event = Some main
                  /\ j ∈ snd (_find_predecessors find_predecessors_no_links
                                two_snapshots main))).
Proof.
  apply (merging_flag_marks_merging_predecessors find_predecessors_no_links
           two_snapshots one_wind_observation one_tornado_segment).
  - vm_compute. reflexivity.
  - vm_compute. reflexivity.
Defined.

(** X14. [_reverse_wind_linkages] and [_reverse_tornado_linkages] raise
    (the ValueError of [numpy.argmin] on an empty array) as soon as one
    event of the table is linked to a secondary ID that no storm object of
    the storm table carries. *)
Theorem reversal_raises_on_unknown_storm
  (find_predecessors : predecessor_walk) (storms : list StormObject)
  (winds : list (EventRow WindAttributes))
  (tornadoes : list (EventRow TornadoAttributes))
  (wind : EventRow WindAttributes) (tornado : EventRow TornadoAttributes)
  (wind_storm_id tornado_storm_id : string) :
  wind ∈ winds -> nearest_secondary_id_string wind = Some wind_storm_id ->
  wind_storm_id ∉ map secondary_id_string storms ->
  tornado ∈ tornadoes ->
  nearest_secondary_id_string tornado = Some tornado_storm_id ->
  tornado_storm_id ∉ map secondary_id_string storms ->
  _reverse_wind_linkages find_predecessors storms winds = None
  /\ _reverse_tornado_linkages find_predecessors storms tornadoes = None.
Proof.
  intros Hw Hwid Hwunknown Ht Htid Htunknown.
  unfold _reverse_wind_linkages, _reverse_tornado_linkages, reverse_linkages.
  split.
  - eapply reverse_loop_unknown_storm; [exact Hw|exact Hwid|done|].
    rewrite map_map. simpl. apply map_id.
  - eapply reverse_loop_unknown_storm; [exact Ht|exact Htid|done|].
    rewrite map_map. simpl. apply map_id.
Qed.

(** A wind observation and a tornado segment linked to a storm cell "Z". *)
Definition wind_linked_to_unknown_cell : EventRow WindAttributes :=
  {| unix_time_sec := 100; latitude_deg := 35; longitude_deg := 263;
     nearest_secondary_id_string := Some "Z";
     nearest_storm_time_unix_sec := 100;
     linkage_distance_metres := Zero;
     event_attributes :=
       {| station_id := "KOUN"; u_wind_m_s01 := 20; v_wind_m_s01 := 5 |} |}.

Definition tornado_linked_to_unknown_cell : EventRow TornadoAttributes :=
  linked_row "T1" 100 (Some "Z") Zero.

Lemma reversal_raises_on_unknown_storm_witness :
  _reverse_wind_linkages find_predecessors_no_links two_snapshots
    (one_wind_observation ++ [wind_linked_to_unknown_cell]) = None
  /\ _reverse_tornado_linkages find_predecessors_no_links two_snapshots
       (tornado_linked_to_unknown_cell :: one_tornado_segment) = None.
Proof.
  apply (reversal_raises_on_unknown_storm find_predecessors_no_links
           two_snapshots
           (one_wind_observation ++ [wind_linked_to_unknown_cell])
           (tornado_linked_to_unknown_cell :: one_tornado_segment)
           wind_linked_to_unknown_cell tornado_linked_to_unknown_cell
           "Z" "Z").
  - apply elem_of_app. right. apply list_elem_of_here.
  - reflexivity.
  - apply (bool_decide_unpack _). vm_compute. reflexivity.
  - apply list_elem_of_here.
  - reflexivity.
  - apply (bool_decide_unpack _). vm_compute. reflexivity.
Defined.

(** ** Bounding box of the storms and the events inside it *)

(** A float that may be infinite. *)
Inductive extended :=
| NegInf
| Finite (q : Q)
| PosInf.

Definition ext_lt (a b : extended) : bool :=
  match a, b with
  | NegInf, NegInf => false
  | NegInf, _ => true
  | Finite _, NegInf => false
  | Finite x, Finite y => Qlt_bool x y
  | Finite _, PosInf => true
  | PosInf, _ => false
  end.


(** Python's [min([a, b])] and [max([a, b])]: the first of the smallest
    (largest) values. *)
Definition ext_min (a b : extended) : extended := if ext_lt b a then b else a.
Definition ext_max (a b : extended) : extended := if ext_lt a b then b else a.

(** [a + q] for a finite [q]. *)
Definition ext_add (a : extended) (q : Q) : extended :=
  match a with
  | Finite x => Finite (x + q)
  | _ => a
  end.

(** [numpy.max(a)] on a non-empty array of rationals. *)
Fixpoint np_max (first : Q) (rest : list Q) : Q :=
  match rest with
  | [] => first
  | x :: r => np_max (if Qlt_bool first x then x else first) r
  end.

(** Body of the loop over storm objects in [_get_bounding_box_for_storms];
    [None] is the ValueError of [numpy.min] on an empty vertex array. *)
Definition bounding_box_one_storm
  (limits : (extended * extended) * (extended * extended))
  (storm_object : StormObject)
  : option ((extended * extended) * (extended * extended)) :=
  let '((x_min_metres, x_max_metres), (y_min_metres, y_max_metres)) :=
    limits in
  match vertices_x_metres storm_object, vertices_y_metres storm_object with
  | x :: xs, y :: ys =>
      Some
        ((ext_min x_min_metres (Finite (np_min x xs)),
          ext_max x_max_metres (Finite (np_max x xs))),
         (ext_min y_min_metres (Finite (np_min y ys)),
          ext_max y_max_metres (Finite (np_max y ys))))
  | _, _ => None
  end.

(** [_get_bounding_box_for_storms]: [x_limits_metres] and
    [y_limits_metres], each as the pair (min, max). *)
Definition _get_bounding_box_for_storms
  (storm_object_table : list StormObject) (padding_metres : Q)
  : option ((extended * extended) * (extended * extended)) :=
  match
    for_each bounding_box_one_storm storm_object_table
      ((PosInf, NegInf), (PosInf, NegInf))
  with
  | Some ((x_min_metres, x_max_metres), (y_min_metres, y_max_metres)) =>
      Some
        ((ext_add x_min_metres (- padding_metres),
          ext_add x_max_metres padding_metres),
         (ext_add y_min_metres (- padding_metres),
          ext_add y_max_metres padding_metres))
  | None => None
  end.

















Lemma bounding_box_loop_raises (storms : list StormObject) :
  forall limits,
    for_each bounding_box_one_storm storms limits = None
    <-> exists s, s ∈ storms
                  /\ (vertices_x_metres s = [] \/ vertices_y_metres s = []).
Proof.
  induction storms as [|s storms IH]; intros [[x_min x_max] [y_min y_max]];
    simpl.
  - split; [done|]. by intros (s & ?%elem_of_nil & _).
  - destruct (vertices_x_metres s) as [|x xs] eqn:Hxs.
    { split; [|done]. intros _. exists s. split; [set_solver|by left]. }
    destruct (vertices_y_metres s) as [|y ys] eqn:Hys.
    { split; [|done]. intros _. exists s. split; [set_solver|by right]. }
    rewrite IH. split.
    + intros (s' & Hs' & Hempty). exists s'. split; [set_solver|done].
    + intros (s' & [->|Hs']%elem_of_cons & Hempty).
      * rewrite Hxs, Hys in Hempty. by destruct Hempty.
      * by exists s'.
Qed.

(** X16. [_get_bounding_box_for_storms] raises (the ValueError of
    [numpy.min] on an empty array) exactly when some storm object of the
    table has no x-vertices or no y-vertices; for every other table,
    including the empty one, it returns limits. *)
Theorem bounding_box_raises_iff_empty_outline
  (storm_object_table : list StormObject) (padding_metres : Q) :
  _get_bounding_box_for_storms storm_object_table padding_metres = None
  <-> exists s, s ∈ storm_object_table
                /\ (vertices_x_metres s = [] \/ vertices_y_metres s = []).
Proof.
  rewrite <- (bounding_box_loop_raises storm_object_table
                ((PosInf, NegInf), (PosInf, NegInf))).
  unfold _get_bounding_box_for_storms.
  by destruct (for_each _ _ _) as [[[? ?] [? ?]]|].
Qed.

(** ** Sharing linkages between successive periods *)

(** One row of a storm-to-events table as
    [_share_linkages_with_predecessors] reads and writes it: the storm
    object, the two array columns the function treats by name, every other
    column that holds one array (or list) per storm object, and the
    merging-predecessor flag. *)
Record LinkageRow := {
  linkage_storm_object : StormObject;
  relative_event_times_sec : list Z;
  main_object_flags : list bool;
  other_event_columns : gmap string (list pyvalue);
  merging_pred_flag : bool
}.

(** A storm-to-events table: the names of its other array columns and its
    rows. *)
Record LinkageTable := {
  event_column_names : list string;
  linkage_rows : list LinkageRow
}.

(** [pandas.concat([early, late], axis=0, ignore_index=True)]. *)
Definition pandas_concat (early late : LinkageTable) : LinkageTable :=
  {| event_column_names :=
       event_column_names early
       ++ List.filter
            (fun name => negb (bool_decide (name ∈ event_column_names early)))
            (event_column_names late);
     linkage_rows := linkage_rows early ++ linkage_rows late |}.

(** The two module-level lists that the function aliases and mutates. *)
Record module_lists := {
  wind_linkage_columns : list string;
  tornado_linkage_columns : list string
}.

(** The lists as the module defines them when it is imported. *)
Definition lists_at_import : module_lists :=
  {| wind_linkage_columns := WIND_LINKAGE_COLUMNS;
     tornado_linkage_columns := TORNADO_LINKAGE_COLUMNS |}.

(** [l.remove(x)]: the list without the first [x]; [None] is the
    ValueError raised when [x] is not in the list. *)
Fixpoint py_list_remove (x : string) (l : list string) : option (list string) :=
  match l with
  | [] => None
  | y :: rest =>
      if decide (y = x) then Some rest
      else cons y <$> py_list_remove x rest
  end.

Inductive sharing_error :=
| NotInList (x : string)
| BadTable.

Section SharingWithPredecessors.

Variable find_predecessors : predecessor_walk.

(** The default [change_type_string] of
    [temporal_tracking.find_predecessors], defined outside this module. *)
Variable DEFAULT_CHANGE_TYPE : change_type.

(** Body of the loop over [columns_to_change] for predecessor row [j]:
    the row after the arrays of [this_column] are concatenated. *)
Definition share_one_column (row_i : LinkageRow)
  (these_event_indices : list nat) (these_relative_times_sec : list Z)
  (row_j : LinkageRow) (this_column : string) : option LinkageRow :=
  if decide (this_column = RELATIVE_EVENT_TIMES_COLUMN) then
    Some {| linkage_storm_object := linkage_storm_object row_j;
            relative_event_times_sec :=
              relative_event_times_sec row_j ++ these_relative_times_sec;
            main_object_flags := main_object_flags row_j;
            other_event_columns := other_event_columns row_j;
            merging_pred_flag := merging_pred_flag row_j |}
  else if decide (this_column = MAIN_OBJECT_FLAGS_COLUMN) then
    let these_main_object_flags :=
      replicate (length these_event_indices) false in
    Some {| linkage_storm_object := linkage_storm_object row_j;
            relative_event_times_sec := relative_event_times_sec row_j;
            main_object_flags :=
              main_object_flags row_j ++ these_main_object_flags;
            other_event_columns := other_event_columns row_j;
            merging_pred_flag := merging_pred_flag row_j |}
  else
    match other_event_columns row_j !! this_column,
          other_event_columns row_i !! this_column with
    | Some values_j, Some values_i =>
        match iloc values_i these_event_indices with
        | Some this_new_list =>
            Some {| linkage_storm_object := linkage_storm_object row_j;
                    relative_event_times_sec :=
                      relative_event_times_sec row_j;
                    main_object_flags := main_object_flags row_j;
                    other_event_columns :=
                      <[this_column := values_j ++ this_new_list]>
                        (other_event_columns row_j);
                    merging_pred_flag := merging_pred_flag row_j |}
        | None => None
        end
    | _, _ => None
    end.

(** Body of the loop over the simple predecessors [j] of row [i]. *)
Definition share_with_one_predecessor (columns_to_change : list string)
  (i : nat) (row_i : LinkageRow) (these_event_indices : list nat)
  (these_event_times_unix_sec : list Z) (table : list LinkageRow) (j : nat)
  : option (list LinkageRow) :=
  if decide (j = i) then Some table
  else
    match table !! j with
    | None => None
    | Some row_j =>
        let these_relative_times_sec :=
          map (fun t =>
                 (t - valid_time_unix_sec (linkage_storm_object row_j))%Z)
            these_event_times_unix_sec in
        match
          for_each
            (share_one_column row_i these_event_indices
               these_relative_times_sec)
            columns_to_change row_j
        with
        | Some new_row_j => Some (<[j := new_row_j]> table)
        | None => None
        end
    end.

(** [flags[these_rows] = numpy.logical_or(flags[these_rows], flags[i])]
    on the merging-predecessor flags. *)
Definition or_merging_flags (table : list LinkageRow) (these_rows : list nat)
  (flag_i : bool) : option (list LinkageRow) :=
  if forallb (fun r => r <? length table)%nat these_rows then
    Some
      (imap
         (fun r row =>
            if decide (r ∈ these_rows) then
              {| linkage_storm_object := linkage_storm_object row;
                 relative_event_times_sec := relative_event_times_sec row;
                 main_object_flags := main_object_flags row;
                 other_event_columns := other_event_columns row;
                 merging_pred_flag := merging_pred_flag row || flag_i |}
            else row)
         table)
  else None.

(** Body of the loop over the rows [i] of the late period. *)
Definition share_one_late_object (columns_to_change : list string)
  (table : list LinkageRow) (i : nat) : option (list LinkageRow) :=
  match table !! i with
  | None => None
  | Some row_i =>
      let these_main_object_flags := main_object_flags row_i in
      let these_event_indices := np_where these_main_object_flags in
      if decide (length these_event_indices = 0%nat) then Some table
      else
        let storms := map linkage_storm_object table in
        let these_rows :=
          find_predecessors storms i LARGE_INTEGER 0 DEFAULT_CHANGE_TYPE
            true in
        match or_merging_flags table these_rows (merging_pred_flag row_i)
        with
        | None => None
        | Some table =>
            let these_simple_pred_rows :=
              fst (_find_predecessors find_predecessors storms i) in
            match iloc (relative_event_times_sec row_i) these_event_indices
            with
            | None => None
            | Some these_relative_times =>
                let these_event_times_unix_sec :=
                  map (fun t =>
                         (valid_time_unix_sec (linkage_storm_object row_i)
                          + t)%Z)
                    these_relative_times in
                for_each
                  (share_with_one_predecessor columns_to_change i row_i
                     these_event_indices these_event_times_unix_sec)
                  (elements these_simple_pred_rows) table
            end
        end
  end.

(** [_share_linkages_with_predecessors]: the module-level lists after the
    call, and either the error raised or the two returned tables. *)
Definition _share_linkages_with_predecessors (lists : module_lists)
  (early_storm_to_events_table late_storm_to_events_table : LinkageTable)
  : module_lists * (sharing_error + (LinkageTable * LinkageTable)) :=
  let storm_to_events_table :=
    pandas_concat early_storm_to_events_table late_storm_to_events_table in
  let tornado :=
    bool_decide
      (TORNADO_IDS_COLUMN ∈ event_column_names storm_to_events_table) in
  let columns_to_change :=
    if tornado then tornado_linkage_columns lists
    else wind_linkage_columns lists in
  match py_list_remove MERGING_PRED_FLAG_COLUMN columns_to_change with
  | None => (lists, inl (NotInList MERGING_PRED_FLAG_COLUMN))
  | Some columns_to_change =>
      let lists :=
        if tornado then
          {| wind_linkage_columns := wind_linkage_columns lists;
             tornado_linkage_columns := columns_to_change |}
        else
          {| wind_linkage_columns := columns_to_change;
             tornado_linkage_columns := tornado_linkage_columns lists |} in
      let num_early_storm_objects :=
        length (linkage_rows early_storm_to_events_table) in
      let num_late_storm_objects :=
        length (linkage_rows late_storm_to_events_table) in
      match
        for_each (share_one_late_object columns_to_change)
          (seq num_early_storm_objects num_late_storm_objects)
          (linkage_rows storm_to_events_table)
      with
      | None => (lists, inl BadTable)
      | Some rows =>
          (lists,
           inr ({| event_column_names :=
                     event_column_names storm_to_events_table;
                   linkage_rows := take num_early_storm_objects rows |},
                {| event_column_names :=
                     event_column_names storm_to_events_table;
                   linkage_rows := drop num_early_storm_objects rows |}))
      end
  end.

End SharingWithPredecessors.

(** Whether a pair of tables is of the tornado kind, as the function
    decides it. *)
Definition tornado_tables (early late : LinkageTable) : bool :=
  bool_decide
    (TORNADO_IDS_COLUMN ∈ event_column_names (pandas_concat early late)).

(** The lists left behind by a call made with the lists as imported. *)
Lemma lists_after_first_share_call
  (find_predecessors : predecessor_walk) (DEFAULT_CHANGE_TYPE : change_type)
  (early late : LinkageTable) :
  fst (_share_linkages_with_predecessors find_predecessors
         DEFAULT_CHANGE_TYPE lists_at_import early late)
  = if tornado_tables early late then
      {| wind_linkage_columns := WIND_LINKAGE_COLUMNS;
         tornado_linkage_columns :=
           [ LINKAGE_DISTANCES_COLUMN; RELATIVE_EVENT_TIMES_COLUMN;
             EVENT_LATITUDES_COLUMN; EVENT_LONGITUDES_COLUMN;
             MAIN_OBJECT_FLAGS_COLUMN; FUJITA_RATINGS_COLUMN;
             TORNADO_IDS_COLUMN ] |}
    else
      {| wind_linkage_columns :=
           [ LINKAGE_DISTANCES_COLUMN; RELATIVE_EVENT_TIMES_COLUMN;
             EVENT_LATITUDES_COLUMN; EVENT_LONGITUDES_COLUMN;
             MAIN_OBJECT_FLAGS_COLUMN; WIND_STATION_IDS_COLUMN;
             U_WINDS_COLUMN; V_WINDS_COLUMN ];
         tornado_linkage_columns := TORNADO_LINKAGE_COLUMNS |}.
Proof.
  unfold _share_linkages_with_predecessors. fold (tornado_tables early late).
  destruct (tornado_tables early late);
    cbn [lists_at_import tornado_linkage_columns wind_linkage_columns].
  - change (py_list_remove MERGING_PRED_FLAG_COLUMN TORNADO_LINKAGE_COLUMNS)
      with (Some [ LINKAGE_DISTANCES_COLUMN; RELATIVE_EVENT_TIMES_COLUMN;
                   EVENT_LATITUDES_COLUMN; EVENT_LONGITUDES_COLUMN;
                   MAIN_OBJECT_FLAGS_COLUMN; FUJITA_RATINGS_COLUMN;
                   TORNADO_IDS_COLUMN ]).
    cbv beta iota zeta. by destruct (for_each _ _ _).
  - change (py_list_remove MERGING_PRED_FLAG_COLUMN WIND_LINKAGE_COLUMNS)
      with (Some [ LINKAGE_DISTANCES_COLUMN; RELATIVE_EVENT_TIMES_COLUMN;
                   EVENT_LATITUDES_COLUMN; EVENT_LONGITUDES_COLUMN;
                   MAIN_OBJECT_FLAGS_COLUMN; WIND_STATION_IDS_COLUMN;
                   U_WINDS_COLUMN; V_WINDS_COLUMN ]).
    cbv beta iota zeta. by destruct (for_each _ _ _).
Qed.

(** X17. [_share_linkages_with_predecessors] can run only once per event
    type in a Python session: it removes the merging-predecessor flag from
    the module-level list of linkage columns it aliases, so after a first
    call made with the lists as imported, every further call on tables of
    the same event type raises the ValueError of [list.remove] and leaves
    the lists as they are, whatever the tables hold. *)
Theorem second_share_call_raises
  (find_predecessors : predecessor_walk) (DEFAULT_CHANGE_TYPE : change_type)
  (early1 late1 early2 late2 : LinkageTable) :
  tornado_tables early1 late1 = tornado_tables early2 late2 ->
  let lists_after_first_call :=
    fst (_share_linkages_with_predecessors find_predecessors
           DEFAULT_CHANGE_TYPE lists_at_import early1 late1) in
  _share_linkages_with_predecessors find_predecessors DEFAULT_CHANGE_TYPE
    lists_after_first_call early2 late2
  = (lists_after_first_call, inl (NotInList MERGING_PRED_FLAG_COLUMN)).
Proof.
  intros Hsame. cbv zeta. rewrite lists_after_first_share_call, Hsame.
  unfold _share_linkages_with_predecessors.
  fold (tornado_tables early2 late2).
  destruct (tornado_tables early2 late2); reflexivity.
Qed.

(** A storm-to-winds row: the storm object and its linked wind
    observations, given by relative time, main-object flag and station. *)
Definition storm_to_winds_row (s : StormObject)
  (winds : list (Z * bool * string)) : LinkageRow :=
  {| linkage_storm_object := s;
     relative_event_times_sec := map (fun w => fst (fst w)) winds;
     main_object_flags := map (fun w => snd (fst w)) winds;
     other_event_columns :=
       {[ LINKAGE_DISTANCES_COLUMN := map (fun _ => PyFloat 0) winds;
          EVENT_LATITUDES_COLUMN := map (fun _ => PyFloat 35) winds;
          EVENT_LONGITUDES_COLUMN := map (fun _ => PyFloat 263) winds;
          WIND_STATION_IDS_COLUMN := map (fun w => PyStr (snd w)) winds;
          U_WINDS_COLUMN := map (fun _ => PyFloat 20) winds;
          V_WINDS_COLUMN := map (fun _ => PyFloat 5) winds ]};
     merging_pred_flag := false |}.

Definition storm_to_winds_table (rows : list LinkageRow) : LinkageTable :=
  {| event_column_names :=
       [ LINKAGE_DISTANCES_COLUMN; EVENT_LATITUDES_COLUMN;
         EVENT_LONGITUDES_COLUMN; WIND_STATION_IDS_COLUMN; U_WINDS_COLUMN;
         V_WINDS_COLUMN ];
     linkage_rows := rows |}.

(** Cell "A" at time 0, without linked events, ends the early period; the
    late period starts with cell "A" at time 300, the main object of a
    wind observation made at time 320. *)
Definition early_winds_table : LinkageTable :=
  storm_to_winds_table [ storm_to_winds_row (snapshot "A" 0 "" "" 0) [] ].

Definition late_winds_table : LinkageTable :=
  storm_to_winds_table
    [ storm_to_winds_row (snapshot "A" 300 "" "" 100)
        [ (20%Z, true, "KOUN") ] ].

Lemma second_share_call_raises_witness :
  let lists_after_first_call :=
    fst (_share_linkages_with_predecessors find_predecessors_one_segment
           ANY_CHANGE lists_at_import early_winds_table late_winds_table) in
  _share_linkages_with_predecessors find_predecessors_one_segment ANY_CHANGE
    lists_after_first_call late_winds_table late_winds_table
  = (lists_after_first_call, inl (NotInList MERGING_PRED_FLAG_COLUMN)).
Proof.
  apply (second_share_call_raises find_predecessors_one_segment ANY_CHANGE
           early_winds_table late_winds_table late_winds_table
           late_winds_table).
  reflexivity.
Defined.

(** On the two tables above the wind observation of the late storm object
    is shared with the early one, 320 s after it. *)
Example share_linkages_across_two_periods :
  match
    snd (_share_linkages_with_predecessors find_predecessors_one_segment
           ANY_CHANGE lists_at_import early_winds_table late_winds_table)
  with
  | inr (early, late) =>
      Some (map (fun row => (relative_event_times_sec row,
                             main_object_flags row,
                             other_event_columns row
                               !! WIND_STATION_IDS_COLUMN))
              (linkage_rows early ++ linkage_rows late))
  | inl _ => None
  end
  = Some [ ([320%Z], [false], Some [PyStr "KOUN"]);
           ([20%Z], [true], Some [PyStr "KOUN"]) ].
Proof. vm_compute. reflexivity. Qed.

Section SharingFacts.
Variable find_predecessors : predecessor_walk.
Variable DEFAULT_CHANGE_TYPE : change_type.

(** Rows [t0] are the concatenated tables before the call and
    [num_early_storm_objects] says where the late period starts.  An entry
    appended to row [j] stands for a main-object entry of a late row [i],
    of which [j] is a simple predecessor, at the same absolute time. *)
Definition shared_entry (num_early_storm_objects : nat)
  (t0 : list LinkageRow) (j : nat) (valid_time_j : Z)
  (relative_time_sec : Z) : Prop :=
  exists i row_i k relative_time_i,
    (num_early_storm_objects <= i)%nat /\ t0 !! i = Some row_i
    /\ main_object_flags row_i !! k = Some true
    /\ relative_event_times_sec row_i !! k = Some relative_time_i
    /\ j ∈ fst (_find_predecessors find_predecessors
                  (map linkage_storm_object t0) i)
    /\ j <> i
    /\ (valid_time_j + relative_time_sec
        = valid_time_unix_sec (linkage_storm_object row_i)
          + relative_time_i)%Z.

(** Rows [t] are rows [t0] with shared entries appended. *)
Definition shared_entries_appended (num_early_storm_objects : nat)
  (t0 t : list LinkageRow) : Prop :=
  length t = length t0
  /\ forall j row', t !! j = Some row' ->
       exists row extra,
         t0 !! j = Some row
         /\ linkage_storm_object row' = linkage_storm_object row
         /\ relative_event_times_sec row'
            = relative_event_times_sec row ++ extra
         /\ main_object_flags row'
            = main_object_flags row ++ replicate (length extra) false
         /\ Forall
              (shared_entry num_early_storm_objects t0 j
                 (valid_time_unix_sec (linkage_storm_object row)))
              extra.

Lemma shared_entries_appended_refl (n : nat) (t0 : list LinkageRow) :
  shared_entries_appended n t0 t0.
Proof.
  split; [done|]. intros j row Hrow. exists row, [].
  by rewrite !app_nil_r.
Qed.

Lemma shared_entries_appended_storms (n : nat) (t0 t : list LinkageRow) :
  shared_entries_appended n t0 t ->
  map linkage_storm_object t = map linkage_storm_object t0.
Proof.
  intros [Hlen Hrows]. apply list_eq. intros j. rewrite !map_lookup.
  destruct (t !! j) as [row'|] eqn:Hrow'.
  - destruct (Hrows j row' Hrow') as (row & extra & -> & Hs & _). simpl.
    by rewrite Hs.
  - apply lookup_ge_None in Hrow'. rewrite Hlen in Hrow'.
    apply lookup_ge_None in Hrow'. by rewrite Hrow'.
Qed.

Lemma or_merging_flags_shared (n : nat) (t0 t t1 : list LinkageRow)
  (rows : list nat) (flag : bool) :
  shared_entries_appended n t0 t -> or_merging_flags t rows flag = Some t1 ->
  shared_entries_appended n t0 t1.
Proof.
  intros [Hlen Hrows]. unfold or_merging_flags.
  destruct (forallb _ _); [|done]. intros [= <-].
  split; [by rewrite length_imap|]. intros j row1.
  rewrite list_lookup_imap.
  destruct (t !! j) as [row'|] eqn:Hrow'; [|done]. simpl. intros [= <-].
  destruct (Hrows j row' Hrow') as (row & extra & H1 & H2 & H3 & H4 & H5).
  exists row, extra. by destruct (decide (j ∈ rows)).
Qed.

(** The loop over the columns appends once per occurrence of each of the
    two named columns. *)
Lemma share_columns_appends (row_i : LinkageRow) (indices : list nat)
  (times : list Z) (columns : list string) :
  forall row_j new_row_j,
    for_each (share_one_column row_i indices times) columns row_j
    = Some new_row_j ->
    linkage_storm_object new_row_j = linkage_storm_object row_j
    /\ relative_event_times_sec new_row_j
       = relative_event_times_sec row_j
         ++ concat
              (replicate
                 (length (List.filter
                            (fun c => bool_decide
                                        (c = RELATIVE_EVENT_TIMES_COLUMN))
                            columns))
                 times)
    /\ main_object_flags new_row_j
       = main_object_flags row_j
         ++ concat
              (replicate
                 (length (List.filter
                            (fun c => bool_decide
                                        (c = MAIN_OBJECT_FLAGS_COLUMN))
                            columns))
                 (replicate (length indices) false)).
Proof.
  induction columns as [|c columns IH]; intros row_j new_row_j; simpl.
  - intros [= <-]. by rewrite !app_nil_r.
  - destruct (share_one_column row_i indices times row_j c) as [row|]
      eqn:Hstep; [|done].
    intros Hrest. destruct (IH _ _ Hrest) as (Hs & Hrel & Hflags).
    rewrite Hs, Hrel, Hflags. unfold share_one_column in Hstep.
    destruct (decide (c = RELATIVE_EVENT_TIMES_COLUMN)) as [->|Hrel_ne].
    { injection Hstep as <-. simpl. by rewrite <- app_assoc. }
    rewrite (bool_decide_eq_false_2 (c = RELATIVE_EVENT_TIMES_COLUMN))
      by done.
    destruct (decide (c = MAIN_OBJECT_FLAGS_COLUMN)) as [->|Hmain_ne].
    { injection Hstep as <-. simpl. by rewrite <- app_assoc. }
    rewrite (bool_decide_eq_false_2 (c = MAIN_OBJECT_FLAGS_COLUMN)) by done.
    destruct (other_event_columns row_j !! c); [|done].
    destruct (other_event_columns row_i !! c) as [values_i|]; [|done].
    destruct (iloc values_i indices); [|done].
    by injection Hstep as <-.
Qed.

Lemma iloc_lookup {A} (l : list A) (rows : list nat) (R : list A) :
  iloc l rows = Some R ->
  length R = length rows
  /\ forall p k, rows !! p = Some k -> R !! p = l !! k /\ is_Some (l !! k).
Proof.
  unfold iloc. intros HR. apply mapM_Some in HR.
  split; [symmetry; by eapply Forall2_length|].
  intros p k Hk. destruct (Forall2_lookup_l _ _ _ _ _ HR Hk) as (x & Hx & Hl).
  rewrite Hx, Hl. by split.
Qed.

Lemma np_where_flags (flags : list bool) (k : nat) :
  k ∈ np_where flags <-> flags !! k = Some true.
Proof.
  pose proof (elem_of_np_where (fun b : bool => b) flags k) as Hk.
  rewrite map_id in Hk. rewrite Hk. split.
  - by intros (x & -> & ->).
  - intros Hflag. by exists true.
Qed.

Lemma lookup_app_replicate_false (flags : list bool) (m k : nat) :
  (flags ++ replicate m false) !! k = Some true -> flags !! k = Some true.
Proof.
  intros Hk. destruct (decide (k < length flags)%nat) as [Hlt|Hge].
  - by rewrite lookup_app_l in Hk.
  - rewrite lookup_app_r in Hk by lia.
    apply lookup_replicate in Hk as [? _]. done.
Qed.

End SharingFacts.

Section SharingLoop.
Variable find_predecessors : predecessor_walk.
Variable DEFAULT_CHANGE_TYPE : change_type.
Variable num_early_storm_objects : nat.
Variable t0 : list LinkageRow.
Variable columns_to_change : list string.

Hypothesis parallel_arrays :
  Forall
    (fun row => length (relative_event_times_sec row)
                = length (main_object_flags row))
    t0.
Hypothesis one_relative_times_column :
  length (List.filter
            (fun c => bool_decide (c = RELATIVE_EVENT_TIMES_COLUMN))
            columns_to_change) = 1%nat.
Hypothesis one_main_flags_column :
  length (List.filter
            (fun c => bool_decide (c = MAIN_OBJECT_FLAGS_COLUMN))
            columns_to_change) = 1%nat.

(** Absolute times of main-object entries of row [i] of [t0]. *)
Definition main_event_times (i : nat) (times : list Z) : Prop :=
  forall time, time ∈ times ->
    exists row_i k relative_time_i,
      t0 !! i = Some row_i
      /\ main_object_flags row_i !! k = Some true
      /\ relative_event_times_sec row_i !! k = Some relative_time_i
      /\ time = (valid_time_unix_sec (linkage_storm_object row_i)
                 + relative_time_i)%Z.

Lemma share_with_one_predecessor_shared (t t1 : list LinkageRow)
  (i : nat) (row_i : LinkageRow) (indices : list nat) (times : list Z)
  (j : nat) :
  shared_entries_appended find_predecessors num_early_storm_objects t0 t ->
  (num_early_storm_objects <= i)%nat ->
  length times = length indices -> main_event_times i times ->
  j ∈ fst (_find_predecessors find_predecessors
             (map linkage_storm_object t0) i) ->
  share_with_one_predecessor columns_to_change i row_i indices times t j
  = Some t1 ->
  shared_entries_appended find_predecessors num_early_storm_objects t0 t1.
Proof.
  intros [Hlen Hrows] Hi Htimes Hmain Hj. unfold share_with_one_predecessor.
  destruct (decide (j = i)) as [->|Hne]; [by intros [= <-]|].
  destruct (t !! j) as [row_j|] eqn:Hrow_j; [|done].
  destruct (for_each _ _ _) as [new_row_j|] eqn:Hcolumns; [|done].
  intros [= <-].
  apply share_columns_appends in Hcolumns as (Hs & Hrel & Hflags).
  rewrite one_relative_times_column in Hrel.
  rewrite one_main_flags_column in Hflags.
  simpl in Hrel, Hflags. rewrite app_nil_r in Hrel, Hflags.
  split; [by rewrite length_insert|]. intros j' row' Hrow'.
  destruct (decide (j' = j)) as [->|Hne'].
  2:{ rewrite list_lookup_insert_ne in Hrow' by done. by apply Hrows. }
  rewrite list_lookup_insert_eq in Hrow' by by eapply lookup_lt_Some.
  injection Hrow' as <-.
  destruct (Hrows j row_j Hrow_j)
    as (row & extra & Hrow & Hs0 & Hrel0 & Hflags0 & Hextra).
  set (shifted :=
         map (fun t => (t - valid_time_unix_sec
                              (linkage_storm_object row_j))%Z) times) in *.
  exists row, (extra ++ shifted).
  split; [done|]. split; [congruence|].
  split; [by rewrite Hrel, Hrel0, app_assoc|]. split.
  { rewrite Hflags, Hflags0, <- app_assoc. f_equal.
    rewrite length_app, replicate_add. f_equal. f_equal.
    unfold shifted. by rewrite length_map. }
  apply Forall_app. split; [done|].
  apply Forall_forall. intros r Hr. unfold shifted in Hr.
  apply list_elem_of_In, in_map_iff in Hr as (time & <- & Htime).
  apply list_elem_of_In in Htime.
  destruct (Hmain time Htime) as (row_i0 & k & r_i & H1 & H2 & H3 & H4).
  exists i, row_i0, k, r_i.
  split; [done|]. split; [done|]. split; [done|]. split; [done|].
  split; [done|]. split; [done|]. rewrite Hs0 in *. lia.
Qed.

Lemma share_with_predecessors_shared (i : nat) (row_i : LinkageRow)
  (indices : list nat) (times : list Z) (js : list nat) :
  (num_early_storm_objects <= i)%nat ->
  length times = length indices -> main_event_times i times ->
  (forall j, j ∈ js ->
     j ∈ fst (_find_predecessors find_predecessors
                (map linkage_storm_object t0) i)) ->
  forall t t1,
    shared_entries_appended find_predecessors num_early_storm_objects t0 t ->
    for_each
      (share_with_one_predecessor columns_to_change i row_i indices times)
      js t = Some t1 ->
    shared_entries_appended find_predecessors num_early_storm_objects t0 t1.
Proof.
  intros Hi Htimes Hmain.
  induction js as [|j js IH]; intros Hjs t t1 Hshared; simpl.
  - by intros [= <-].
  - destruct (share_with_one_predecessor _ _ _ _ _ _ _) as [t'|] eqn:Hstep;
      [|done].
    apply IH; [intros; apply Hjs; set_solver|].
    eapply share_with_one_predecessor_shared; [exact Hshared|done..| |done].
    apply Hjs. set_solver.
Qed.

Lemma share_one_late_object_shared (t t1 : list LinkageRow) (i : nat) :
  (num_early_storm_objects <= i)%nat ->
  shared_entries_appended find_predecessors num_early_storm_objects t0 t ->
  share_one_late_object find_predecessors DEFAULT_CHANGE_TYPE
    columns_to_change t i = Some t1 ->
  shared_entries_appended find_predecessors num_early_storm_objects t0 t1.
Proof.
  intros Hi Hshared. unfold share_one_late_object.
  destruct (t !! i) as [row_i|] eqn:Hrow_i; [|done].
  destruct (decide _) as [|_]; [by intros [= <-]|].
  destruct (or_merging_flags _ _ _) as [t'|] eqn:Hflags; [|done].
  destruct (iloc _ _) as [relative_times|] eqn:Hiloc; [|done].
  pose proof (or_merging_flags_shared _ _ _ _ _ _ _ Hshared Hflags)
    as Hshared'.
  rewrite (shared_entries_appended_storms _ _ _ _ Hshared).
  apply iloc_lookup in Hiloc as [Hlength Hlookup].
  apply share_with_predecessors_shared; [done| | | |done].
  - by rewrite length_map.
  - intros time Htime.
    apply list_elem_of_In, in_map_iff in Htime as (r & <- & Hr).
    apply list_elem_of_In, list_elem_of_lookup in Hr as [p Hp].
    destruct (lookup_lt_is_Some_2 (np_where (main_object_flags row_i)) p)
      as [k Hk].
    { rewrite <- Hlength. by eapply lookup_lt_Some. }
    destruct (Hlookup p k Hk) as [Hsame _]. rewrite Hp in Hsame.
    apply list_elem_of_lookup_2, np_where_flags in Hk.
    destruct Hshared as [_ Hrows].
    destruct (Hrows i row_i Hrow_i)
      as (row & extra & Hrow & Hs & Hrel & Hmain & _).
    rewrite Hmain in Hk. apply lookup_app_replicate_false in Hk.
    assert (k < length (relative_event_times_sec row))%nat as Hlt.
    { eapply Forall_forall in parallel_arrays;
        [|by eapply list_elem_of_lookup_2].
      rewrite parallel_arrays. by eapply lookup_lt_Some. }
    rewrite Hrel, lookup_app_l in Hsame by done.
    exists row, k, r. rewrite Hs. done.
  - intros j Hj. by apply elem_of_elements in Hj.
Qed.

Lemma share_late_objects_shared (late_rows : list nat) :
  (forall i, i ∈ late_rows -> (num_early_storm_objects <= i)%nat) ->
  forall t t1,
    shared_entries_appended find_predecessors num_early_storm_objects t0 t ->
    for_each
      (share_one_late_object find_predecessors DEFAULT_CHANGE_TYPE
         columns_to_change)
      late_rows t = Some t1 ->
    shared_entries_appended find_predecessors num_early_storm_objects t0 t1.
Proof.
  induction late_rows as [|i late_rows IH]; intros Hlate t t1 Hshared; simpl.
  - by intros [= <-].
  - destruct (share_one_late_object _ _ _ _ _) as [t'|] eqn:Hstep; [|done].
    apply IH; [intros; apply Hlate; set_solver|].
    eapply share_one_late_object_shared; [|exact Hshared|exact Hstep].
    apply Hlate. set_solver.
Qed.

End SharingLoop.

(** X18. What a first call of [_share_linkages_with_predecessors] does to
    tables whose relative-time and main-flag arrays are parallel: every
    row of both returned tables keeps its storm object and its arrays of
    relative event times and main-object flags as a prefix; what is
    appended has main-object flag False, and each appended relative time
    belongs to a main-object entry of a late-period row of which the row
    is a simple predecessor (other than itself), re-expressed so that the
    absolute event time is unchanged.  No row is added, removed or moved
    between the two tables. *)
Theorem shared_linkages_are_appended
  (find_predecessors : predecessor_walk) (DEFAULT_CHANGE_TYPE : change_type)
  (early late early' late' : LinkageTable) (lists' : module_lists) :
  Forall
    (fun row => length (relative_event_times_sec row)
                = length (main_object_flags row))
    (linkage_rows early ++ linkage_rows late) ->
  _share_linkages_with_predecessors find_predecessors DEFAULT_CHANGE_TYPE
    lists_at_import early late = (lists', inr (early', late')) ->
  length (linkage_rows early') = length (linkage_rows early)
  /\ length (linkage_rows late') = length (linkage_rows late)
  /\ shared_entries_appended find_predecessors
       (length (linkage_rows early))
       (linkage_rows early ++ linkage_rows late)
       (linkage_rows early' ++ linkage_rows late').
Proof.
  intros Hparallel. unfold _share_linkages_with_predecessors.
  set (n := length (linkage_rows early)).
  set (m := length (linkage_rows late)).
  assert (forall columns rows,
            length (List.filter
                      (fun c => bool_decide (c = RELATIVE_EVENT_TIMES_COLUMN))
                      columns) = 1%nat ->
            length (List.filter
                      (fun c => bool_decide (c = MAIN_OBJECT_FLAGS_COLUMN))
                      columns) = 1%nat ->
            for_each
              (share_one_late_object find_predecessors DEFAULT_CHANGE_TYPE
                 columns)
              (seq n m) (linkage_rows early ++ linkage_rows late)
            = Some rows ->
            length (take n rows) = n /\ length (drop n rows) = m
            /\ shared_entries_appended find_predecessors n
                 (linkage_rows early ++ linkage_rows late)
                 (take n rows ++ drop n rows)) as Hloop.
  { intros columns rows Hrel Hmain Hrun.
    assert (shared_entries_appended find_predecessors n
              (linkage_rows early ++ linkage_rows late) rows) as Hshared.
    { eapply (share_late_objects_shared find_predecessors
                DEFAULT_CHANGE_TYPE n _ columns Hparallel Hrel Hmain
                (seq n m)); [|apply shared_entries_appended_refl|exact Hrun].
      intros i Hi. apply elem_of_seq in Hi. lia. }
    pose proof Hshared as [Hlen _]. rewrite length_app in Hlen.
    fold n m in Hlen.
    rewrite length_take, length_drop, take_drop.
    split; [lia|]. split; [lia|done]. }
  destruct (bool_decide _);
    cbn [lists_at_import tornado_linkage_columns wind_linkage_columns].
  - change (py_list_remove MERGING_PRED_FLAG_COLUMN TORNADO_LINKAGE_COLUMNS)
      with (Some [ LINKAGE_DISTANCES_COLUMN; RELATIVE_EVENT_TIMES_COLUMN;
                   EVENT_LATITUDES_COLUMN; EVENT_LONGITUDES_COLUMN;
                   MAIN_OBJECT_FLAGS_COLUMN; FUJITA_RATINGS_COLUMN;
                   TORNADO_IDS_COLUMN ]).
    cbv beta iota zeta. cbn [pandas_concat linkage_rows].
    destruct (for_each _ _ _) as [rows|] eqn:Hrun; [|done].
    intros [= _ <- <-]. cbn [linkage_rows].
    refine (Hloop _ rows _ _ Hrun); vm_compute; reflexivity.
  - change (py_list_remove MERGING_PRED_FLAG_COLUMN WIND_LINKAGE_COLUMNS)
      with (Some [ LINKAGE_DISTANCES_COLUMN; RELATIVE_EVENT_TIMES_COLUMN;
                   EVENT_LATITUDES_COLUMN; EVENT_LONGITUDES_COLUMN;
                   MAIN_OBJECT_FLAGS_COLUMN; WIND_STATION_IDS_COLUMN;
                   U_WINDS_COLUMN; V_WINDS_COLUMN ]).
    cbv beta iota zeta. cbn [pandas_concat linkage_rows].
    destruct (for_each _ _ _) as [rows|] eqn:Hrun; [|done].
    intros [= _ <- <-]. cbn [linkage_rows].
    refine (Hloop _ rows _ _ Hrun); vm_compute; reflexivity.
Qed.

Lemma shared_linkages_are_appended_witness :
  length
    (linkage_rows
       (storm_to_winds_table
          [ storm_to_winds_row (snapshot "A" 0 "" "" 0)
              [ (320%Z, false, "KOUN") ] ]))
  = length (linkage_rows early_winds_table)
  /\ length (linkage_rows late_winds_table)
     = length (linkage_rows late_winds_table)
  /\ shared_entries_appended find_predecessors_one_segment
       (length (linkage_rows early_winds_table))
       (linkage_rows early_winds_table ++ linkage_rows late_winds_table)
       (linkage_rows
          (storm_to_winds_table
             [ storm_to_winds_row (snapshot "A" 0 "" "" 0)
                 [ (320%Z, false, "KOUN") ] ])
        ++ linkage_rows late_winds_table).
Proof.
  apply (shared_linkages_are_appended find_predecessors_one_segment
           ANY_CHANGE early_winds_table late_winds_table
           (storm_to_winds_table
              [ storm_to_winds_row (snapshot "A" 0 "" "" 0)
                  [ (320%Z, false, "KOUN") ] ])
           late_winds_table
           (fst (_share_linkages_with_predecessors
                   find_predecessors_one_segment ANY_CHANGE lists_at_import
                   early_winds_table late_winds_table))).
  - repeat constructor.
  - vm_compute. reflexivity.
Defined.

(** ** Event types and linkage files *)

Definition WIND_EVENT_STRING : string := "wind".
Definition TORNADO_EVENT_STRING : string := "tornado".
Definition TORNADOGENESIS_EVENT_STRING : string := "tornadogenesis".

Definition VALID_EVENT_TYPE_STRINGS : list string :=
  [ WIND_EVENT_STRING; TORNADO_EVENT_STRING; TORNADOGENESIS_EVENT_STRING ].

(** [check_event_type]: [None] is its ValueError. *)
Definition check_event_type (event_type_string : string) : option unit :=
  if decide (event_type_string ∈ VALID_EVENT_TYPE_STRINGS) then Some tt
  else None.

Section LinkageFiles.

(** Collaborators outside this module: the conversions of
    [time_conversion] (the first one raises, [None], on a string that is
    not an SPC date; the time format is [TIME_FORMAT]) and
    [os.path.isfile]. *)
Variable spc_date_string_to_unix_sec : string -> option Z.
Variable time_to_spc_date_string : Z -> string.
Variable unix_sec_to_string : Z -> string.
Variable isfile : string -> bool.

(** [find_linkage_file]: the path, or [None] when it raises. *)
Definition find_linkage_file (top_directory_name event_type_string
                                spc_date_string : string)
  (unix_time_sec : option Z) (raise_error_if_missing : bool)
  : option string :=
  match check_event_type event_type_string with
  | None => None
  | Some _ =>
      let file_name_prefix :=
        if decide (event_type_string = WIND_EVENT_STRING)
        then "storm_to_winds"
        else if decide (event_type_string = TORNADOGENESIS_EVENT_STRING)
        then "storm_to_tornadogenesis"
        else "storm_to_tornadoes" in
      let linkage_file_name :=
        match unix_time_sec with
        | None =>
            match spc_date_string_to_unix_sec spc_date_string with
            | None => None
            | Some _ =>
                Some
                  (String.append top_directory_name
                     (String.append "/"
                        (String.append (substring 0 4 spc_date_string)
                           (String.append "/"
                              (String.append file_name_prefix
                                 (String.append "_"
                                    (String.append spc_date_string
                                       ".p")))))))
            end
        | Some unix_time_sec =>
            let spc_date_string := time_to_spc_date_string unix_time_sec in
            let valid_time_string := unix_sec_to_string unix_time_sec in
            Some
              (String.append top_directory_name
                 (String.append "/"
                    (String.append (substring 0 4 spc_date_string)
                       (String.append "/"
                          (String.append spc_date_string
                             (String.append "/"
                                (String.append file_name_prefix
                                   (String.append "_"
                                      (String.append valid_time_string
                                         ".p")))))))))
        end in
      match linkage_file_name with
      | None => None
      | Some linkage_file_name =>
          if raise_error_if_missing && negb (isfile linkage_file_name)
          then None
          else Some linkage_file_name
      end
  end.

End LinkageFiles.

Lemma string_append_inv_head (s a b : string) :
  String.append s a = String.append s b -> a = b.
Proof. induction s as [|c s IH]; simpl; [done|]. intros [= H]. by apply IH. Qed.

(** X19. Linkage files of different event types never coincide: for one
    directory, one SPC date and one valid time (or none), the paths that
    [find_linkage_file] returns for two different event types differ. *)
Theorem linkage_files_of_event_types_differ
  (spc_date_string_to_unix_sec : string -> option Z)
  (time_to_spc_date_string unix_sec_to_string : Z -> string)
  (isfile : string -> bool)
  (top_directory_name spc_date_string : string) (unix_time_sec : option Z)
  (event_type_1 event_type_2 : string) (raise_1 raise_2 : bool)
  (linkage_file_name_1 linkage_file_name_2 : string) :
  event_type_1 <> event_type_2 ->
  find_linkage_file spc_date_string_to_unix_sec time_to_spc_date_string
    unix_sec_to_string isfile top_directory_name event_type_1
    spc_date_string unix_time_sec raise_1 = Some linkage_file_name_1 ->
  find_linkage_file spc_date_string_to_unix_sec time_to_spc_date_string
    unix_sec_to_string isfile top_directory_name event_type_2
    spc_date_string unix_time_sec raise_2 = Some linkage_file_name_2 ->
  linkage_file_name_1 <> linkage_file_name_2.
Proof.
  intros Hne. unfold find_linkage_file, check_event_type.
  destruct (decide (event_type_1 ∈ _)) as [H1|]; [|done].
  destruct (decide (event_type_2 ∈ _)) as [H2|]; [|done].
  assert (forall e, e ∈ VALID_EVENT_TYPE_STRINGS ->
            e = WIND_EVENT_STRING \/ e = TORNADO_EVENT_STRING
            \/ e = TORNADOGENESIS_EVENT_STRING) as Hcases.
  { unfold VALID_EVENT_TYPE_STRINGS. set_solver. }
  destruct unix_time_sec as [time|].
  - destruct (_ && _); [done|]. destruct (_ && _); [done|].
    intros [= <-] [= <-] Heq.
    do 6 apply string_append_inv_head in Heq.
    destruct (Hcases _ H1) as [-> | [-> | ->]];
      destruct (Hcases _ H2) as [-> | [-> | ->]]; try done;
      simpl in Heq; discriminate.
  - destruct (spc_date_string_to_unix_sec _); [|done].
    destruct (_ && _); [done|]. destruct (_ && _); [done|].
    intros [= <-] [= <-] Heq.
    do 4 apply string_append_inv_head in Heq.
    destruct (Hcases _ H1) as [-> | [-> | ->]];
      destruct (Hcases _ H2) as [-> | [-> | ->]]; try done;
      simpl in Heq; discriminate.
Qed.

Lemma linkage_files_of_event_types_differ_witness :
  "/data/linkage/2011/storm_to_winds_20110401.p"
  <> "/data/linkage/2011/storm_to_tornadoes_20110401.p".
Proof.
  apply (linkage_files_of_event_types_differ
           (fun _ => Some 1301659200%Z) (fun _ => "20110401")
           (fun _ => "2011-04-01-120000") (fun _ => false)
           "/data/linkage" "20110401" None WIND_EVENT_STRING
           TORNADO_EVENT_STRING false false).
  - discriminate.
  - reflexivity.
  - reflexivity.
Defined.

(** ** Linking the occurrence of a tornado *)

(** [numpy.isnan] of a linkage distance. *)
Definition is_nan (d : linkage_distance) : bool :=
  match squared_metres d with
  | None => true
  | Some _ => false
  end.

(** [column.values[k] = value] on one row of the table; IndexError
    ([None]) when the row does not exist. *)
Definition set_row {A} (change : A -> A) (table : list A) (k : nat)
  : option (list A) :=
  match table !! k with
  | Some row => Some (<[k := change row]> table)
  | None => None
  end.

Definition with_linkage_distance (d : linkage_distance)
  (row : EventRow TornadoAttributes) : EventRow TornadoAttributes :=
  {| unix_time_sec := unix_time_sec row;
     latitude_deg := latitude_deg row;
     longitude_deg := longitude_deg row;
     nearest_secondary_id_string := nearest_secondary_id_string row;
     nearest_storm_time_unix_sec := nearest_storm_time_unix_sec row;
     linkage_distance_metres := d;
     event_attributes := event_attributes row |}.

Definition with_nearest_storm (id : string) (time : Z)
  (row : EventRow TornadoAttributes) : EventRow TornadoAttributes :=
  {| unix_time_sec := unix_time_sec row;
     latitude_deg := latitude_deg row;
     longitude_deg := longitude_deg row;
     nearest_secondary_id_string := Some id;
     nearest_storm_time_unix_sec := time;
     linkage_distance_metres := linkage_distance_metres row;
     event_attributes := event_attributes row |}.

Definition with_tornado_assigned
  (row : EventRow TornadoAttributes) : EventRow TornadoAttributes :=
  {| unix_time_sec := unix_time_sec row;
     latitude_deg := latitude_deg row;
     longitude_deg := longitude_deg row;
     nearest_secondary_id_string := nearest_secondary_id_string row;
     nearest_storm_time_unix_sec := nearest_storm_time_unix_sec row;
     linkage_distance_metres := linkage_distance_metres row;
     event_attributes :=
       {| tornado_id_string := tornado_id_string (event_attributes row);
          f_or_ef_rating := f_or_ef_rating (event_attributes row);
          tornado_assigned_flag := true |} |}.

Section TornadoOccurrence.

(** Collaborators outside this module: [numpy.argsort] and
    [temporal_tracking.find_successors] (same arguments as
    [find_predecessors], time-forward). *)
Variable argsort : list Z -> list nat.
Variable find_successors : predecessor_walk.

(** Body of the loop over the track segments [k] that get linked. *)
Definition link_one_segment (relevant_storm_object_table : list StormObject)
  (table : list (EventRow TornadoAttributes)) (k : nat)
  : option (list (EventRow TornadoAttributes)) :=
  match table !! k with
  | None => None
  | Some row =>
      let this_event_time_unix_sec := unix_time_sec row in
      match
        np_argmin Z.ltb
          (map (fun t => Z.abs (t - this_event_time_unix_sec))
             (map valid_time_unix_sec relevant_storm_object_table))
      with
      | None => None
      | Some this_storm_object_row =>
          match relevant_storm_object_table !! this_storm_object_row with
          | None => None
          | Some this_storm_object =>
              set_row
                (with_nearest_storm (secondary_id_string this_storm_object)
                   this_event_time_unix_sec)
                table k
          end
      end
  end.

(** [_finish_tornado_linkage]: the table with the new linkage values, or
    [None] when a step raises. *)
Definition _finish_tornado_linkage (storm_object_table : list StormObject)
  (tornado_to_storm_table : list (EventRow TornadoAttributes))
  (tornado_row : nat) (nearest_secondary_id_string : string)
  (nearest_storm_time_unix_sec : Z)
  (nearest_distance_metres : linkage_distance)
  : option (list (EventRow TornadoAttributes)) :=
  match tornado_to_storm_table !! tornado_row with
  | None => None
  | Some this_row =>
  let event_time_unix_sec := unix_time_sec this_row in
  let tornado_id_string := tornado_id_of this_row in
  let relevant_tornado_rows :=
    np_where
      (map (fun row =>
              bool_decide (tornado_id_of row = tornado_id_string)
              && is_nan (linkage_distance_metres row))
         tornado_to_storm_table) in
  let sort_indices :=
    argsort
      (np_take (map unix_time_sec tornado_to_storm_table)
         relevant_tornado_rows) in
  match iloc relevant_tornado_rows sort_indices with
  | None => None
  | Some relevant_tornado_rows =>
  let relevant_tornado_times_unix_sec :=
    np_take (map unix_time_sec tornado_to_storm_table)
      relevant_tornado_rows in
  let storm_cell_rows :=
    np_where
      (map (fun s =>
              bool_decide (secondary_id_string s
                           = nearest_secondary_id_string))
         storm_object_table) in
  let storm_cell_times_unix_sec :=
    np_take (map valid_time_unix_sec storm_object_table) storm_cell_rows in
  match
    np_argmin Z.ltb
      (map (fun t => Z.abs (t - nearest_storm_time_unix_sec))
         storm_cell_times_unix_sec)
  with
  | None => None
  | Some this_subrow =>
  match storm_cell_rows !! this_subrow with
  | None => None
  | Some main_storm_object_row =>
  let these_rows :=
    find_successors storm_object_table main_storm_object_row LARGE_INTEGER 0
      SPLIT true in
  match iloc storm_object_table these_rows with
  | None => None
  | Some relevant_storm_object_table =>
  match map valid_time_unix_sec relevant_storm_object_table with
  | [] => None
  | first_time :: other_times =>
  let first_good_time_unix_sec :=
    Z.min (np_min_Z first_time other_times) event_time_unix_sec in
  let last_good_time_unix_sec :=
    Z.max (np_max_Z first_time other_times) event_time_unix_sec in
  let early_subrows :=
    np_where
      (map (fun t => (t <=? first_good_time_unix_sec)%Z)
         relevant_tornado_times_unix_sec) in
  let first_subrow := default 0%nat (last early_subrows) in
  let late_subrows :=
    np_where
      (map (fun t => (last_good_time_unix_sec <=? t)%Z)
         relevant_tornado_times_unix_sec) in
  let last_subrow :=
    default (length relevant_tornado_rows - 1)%nat (head late_subrows) in
  let relevant_tornado_rows :=
    drop first_subrow (take (last_subrow + 1) relevant_tornado_rows) in
  match
    for_each (set_row (with_linkage_distance nearest_distance_metres))
      relevant_tornado_rows tornado_to_storm_table
  with
  | None => None
  | Some tornado_to_storm_table =>
  match
    for_each (link_one_segment relevant_storm_object_table)
      relevant_tornado_rows tornado_to_storm_table
  with
  | None => None
  | Some tornado_to_storm_table =>
      let these_rows :=
        np_where
          (map (fun row =>
                  bool_decide (tornado_id_of row = tornado_id_string))
             tornado_to_storm_table) in
      for_each (set_row with_tornado_assigned) these_rows
        tornado_to_storm_table
  end end end end end end end end.

End TornadoOccurrence.

(** A loop that rewrites one row per step with a change that may raise. *)
Definition update_row {A} (change : A -> option A) (table : list A) (k : nat)
  : option (list A) :=
  match table !! k with
  | Some row =>
      match change row with
      | Some new_row => Some (<[k := new_row]> table)
      | None => None
      end
  | None => None
  end.

Lemma for_each_ext {S A} (f g : S -> A -> option S) (items : list A) (s : S) :
  (forall s x, f s x = g s x) -> for_each f items s = for_each g items s.
Proof.
  intros Hfg. revert s. induction items as [|x items IH]; intros s; simpl;
    [done|].
  rewrite Hfg. destruct (g s x); [apply IH|done].
Qed.

(** After the loop every listed row has been changed, once in effect, and
    the other rows are as they were. *)
Lemma for_each_update_row {A} (change : A -> option A) (rows : list nat) :
  (forall x y, change x = Some y -> change y = Some y) ->
  forall t t',
    for_each (update_row change) rows t = Some t' ->
    length t' = length t
    /\ forall k row, t !! k = Some row ->
         exists row', t' !! k = Some row'
           /\ if decide (k ∈ rows) then change row = Some row'
              else row' = row.
Proof.
  intros Hidem. induction rows as [|k0 rows IH]; intros t t'; simpl.
  - intros [= <-]. split; [done|]. intros k row Hrow. exists row.
    split; [done|]. destruct (decide (k ∈ [])) as [Hin|]; [|done].
    by apply elem_of_nil in Hin.
  - unfold update_row at 1.
    destruct (t !! k0) as [r0|] eqn:Hr0; [|done].
    destruct (change r0) as [r0'|] eqn:Hchange; [|done].
    intros Hrest. destruct (IH _ _ Hrest) as [Hlen Hrows].
    rewrite length_insert in Hlen. split; [done|]. intros k row Hrow.
    destruct (decide (k = k0)) as [->|Hne].
    + assert (row = r0) as -> by congruence.
      destruct (Hrows k0 r0') as (row' & Hrow' & Hcase).
      { apply list_lookup_insert_eq. by eapply lookup_lt_Some. }
      exists row'. split; [done|].
      destruct (decide (k0 ∈ k0 :: rows)) as [_|Hno]; [|set_solver].
      destruct (decide (k0 ∈ rows)).
      * rewrite (Hidem _ _ Hchange) in Hcase. congruence.
      * congruence.
    + destruct (Hrows k row) as (row' & Hrow' & Hcase).
      { by rewrite list_lookup_insert_ne. }
      exists row'. split; [done|].
      destruct (decide (k ∈ rows)) as [Hin|Hno];
        destruct (decide (k ∈ k0 :: rows)) as [Hin'|Hno']; try done;
        set_solver.
Qed.

Lemma iloc_subset {A} (l : list A) (rows : list nat) (R : list A) :
  iloc l rows = Some R -> forall x, x ∈ R -> x ∈ l.
Proof.
  intros HR x Hx. apply list_elem_of_lookup in Hx as [p Hp].
  unfold iloc in HR. apply mapM_Some in HR.
  destruct (Forall2_lookup_r _ _ _ _ _ HR Hp) as (k & _ & Hk).
  by eapply list_elem_of_lookup_2.
Qed.

(** What [_finish_tornado_linkage] may do to one row: it leaves the event
    itself alone and the rows of other tornadoes untouched; it marks the
    rows of this tornado as assigned; and it either keeps the linkage of
    the row or, for a row of this tornado that was not yet linked, links
    it at the given distance, at its own time, to the storm cell of some
    storm object of the table. *)
Definition linkage_finished (storm_object_table : list StormObject)
  (tornado_id_string : string) (nearest_distance_metres : linkage_distance)
  (row row' : EventRow TornadoAttributes) : Prop :=
  unix_time_sec row' = unix_time_sec row
  /\ latitude_deg row' = latitude_deg row
  /\ longitude_deg row' = longitude_deg row
  /\ tornado_id_of row' = tornado_id_of row
  /\ f_or_ef_rating (event_attributes row')
     = f_or_ef_rating (event_attributes row)
  /\ (tornado_id_of row <> tornado_id_string -> row' = row)
  /\ (tornado_id_of row = tornado_id_string ->
      tornado_assigned_flag (event_attributes row') = true)
  /\ ((nearest_secondary_id_string row' = nearest_secondary_id_string row
       /\ nearest_storm_time_unix_sec row' = nearest_storm_time_unix_sec row
       /\ linkage_distance_metres row' = linkage_distance_metres row)
      \/ (tornado_id_of row = tornado_id_string
          /\ is_nan (linkage_distance_metres row) = true
          /\ linkage_distance_metres row' = nearest_distance_metres
          /\ nearest_storm_time_unix_sec row' = unix_time_sec row
          /\ exists s, s ∈ storm_object_table
                       /\ nearest_secondary_id_string row'
                          = Some (secondary_id_string s))).

Section TornadoOccurrenceFacts.
Variable argsort : list Z -> list nat.
Variable find_successors : predecessor_walk.

(** The change that [link_one_segment] makes to a row. *)
Definition nearest_in_time (relevant_storm_object_table : list StormObject)
  (row : EventRow TornadoAttributes)
  : option (EventRow TornadoAttributes) :=
  match
    np_argmin Z.ltb
      (map (fun t => Z.abs (t - unix_time_sec row))
         (map valid_time_unix_sec relevant_storm_object_table))
  with
  | None => None
  | Some this_storm_object_row =>
      match relevant_storm_object_table !! this_storm_object_row with
      | None => None
      | Some this_storm_object =>
          Some (with_nearest_storm (secondary_id_string this_storm_object)
                  (unix_time_sec row) row)
      end
  end.

Lemma link_one_segment_update (relevant : list StormObject)
  (table : list (EventRow TornadoAttributes)) (k : nat) :
  link_one_segment relevant table k
  = update_row (nearest_in_time relevant) table k.
Proof.
  unfold link_one_segment, update_row, nearest_in_time, set_row.
  destruct (table !! k) as [row|]; [|done].
  destruct (np_argmin _ _); [|done]. by destruct (relevant !! _).
Qed.

Lemma set_row_update {A} (change : A -> A) (table : list A) (k : nat) :
  set_row change table k = update_row (fun row => Some (change row)) table k.
Proof. unfold set_row, update_row. by destruct (table !! k). Qed.

Lemma nearest_in_time_idempotent (relevant : list StormObject)
  (x y : EventRow TornadoAttributes) :
  nearest_in_time relevant x = Some y -> nearest_in_time relevant y = Some y.
Proof.
  unfold nearest_in_time.
  destruct (np_argmin _ _) as [r|] eqn:Hr; [|done].
  destruct (relevant !! r) as [s|] eqn:Hs; [|done].
  intros [= <-]. simpl. by rewrite Hr, Hs.
Qed.

(** X20. Frame of [_finish_tornado_linkage]: when it returns, the table
    has the same rows in the same places; the time, position, tornado ID
    and rating of every row are unchanged; the rows of other tornadoes are
    untouched; every row of the tornado is marked as assigned; a row that
    was already linked (its distance was not NaN) keeps its nearest storm,
    nearest time and distance; and a row whose linkage changes is linked
    at the given distance, at its own event time, to the secondary ID of
    a storm object of the storm table. *)
Theorem finish_tornado_linkage_frame
  (storm_object_table : list StormObject)
  (tornado_to_storm_table new_table : list (EventRow TornadoAttributes))
  (tornado_row : nat) (this_row : EventRow TornadoAttributes)
  (nearest_id : string) (nearest_time_unix_sec : Z)
  (nearest_distance_metres : linkage_distance) :
  tornado_to_storm_table !! tornado_row = Some this_row ->
  _finish_tornado_linkage argsort find_successors storm_object_table
    tornado_to_storm_table tornado_row nearest_id
    nearest_time_unix_sec nearest_distance_metres = Some new_table ->
  length new_table = length tornado_to_storm_table
  /\ forall k row, tornado_to_storm_table !! k = Some row ->
       exists row',
         new_table !! k = Some row'
         /\ linkage_finished storm_object_table (tornado_id_of this_row)
              nearest_distance_metres row row'.
Proof.
  intros Hthis. unfold _finish_tornado_linkage. rewrite Hthis.
  set (tid := tornado_id_of this_row).
  set (unlinked :=
         np_where
           (map (fun row => bool_decide (tornado_id_of row = tid)
                            && is_nan (linkage_distance_metres row))
              tornado_to_storm_table)).
  destruct (iloc unlinked _) as [sorted_rows|] eqn:Hsorted; [|done].
  destruct (np_argmin _ _) as [this_subrow|]; [|done].
  destruct (_ !! this_subrow) as [main_row|]; [|done].
  destruct (iloc storm_object_table _) as [relevant|] eqn:Hrelevant; [|done].
  destruct (map valid_time_unix_sec relevant) as [|t0 ts]; [done|].
  set (rows := drop _ (take _ sorted_rows)).
  assert (forall k, k ∈ rows -> k ∈ unlinked) as Hrows.
  { intros k Hk. unfold rows in Hk.
    eapply elem_of_sublist in Hk; [|apply sublist_drop].
    eapply elem_of_sublist in Hk; [|apply sublist_take].
    by eapply iloc_subset. }
  destruct (for_each (set_row _) rows _) as [table1|] eqn:Hpass1; [|done].
  destruct (for_each (link_one_segment _) rows _) as [table2|] eqn:Hpass2;
    [|done].
  intros Hpass3.
  rewrite (for_each_ext _ _ _ _ (set_row_update _)) in Hpass1.
  rewrite (for_each_ext _ _ _ _ (set_row_update _)) in Hpass3.
  rewrite (for_each_ext _ _ _ _ (link_one_segment_update _)) in Hpass2.
  apply for_each_update_row in Hpass1 as [Hlen1 Hrows1];
    [|by intros x y [= <-]].
  apply for_each_update_row in Hpass2 as [Hlen2 Hrows2];
    [|apply nearest_in_time_idempotent].
  apply for_each_update_row in Hpass3 as [Hlen3 Hrows3];
    [|by intros x y [= <-]].
  split; [congruence|]. intros k row Hrow.
  destruct (Hrows1 k row Hrow) as (row1 & Hrow1 & Hcase1).
  destruct (Hrows2 k row1 Hrow1) as (row2 & Hrow2 & Hcase2).
  destruct (Hrows3 k row2 Hrow2) as (row' & Hrow' & Hcase3).
  exists row'. split; [done|].
  assert (tornado_id_of row2 = tornado_id_of row
          /\ unix_time_sec row2 = unix_time_sec row
          /\ latitude_deg row2 = latitude_deg row
          /\ longitude_deg row2 = longitude_deg row
          /\ event_attributes row2 = event_attributes row
          /\ (k ∉ rows -> row2 = row)
          /\ (k ∈ rows ->
              linkage_distance_metres row2 = nearest_distance_metres
              /\ nearest_storm_time_unix_sec row2 = unix_time_sec row
              /\ exists s, s ∈ relevant
                           /\ nearest_secondary_id_string row2
                              = Some (secondary_id_string s)))
    as (Hid2 & Htime2 & Hlat2 & Hlng2 & Hattr2 & Hout2 & Hin2).
  { destruct (decide (k ∈ rows)) as [Hin|Hout].
    - injection Hcase1 as <-. unfold nearest_in_time in Hcase2.
      destruct (np_argmin _ _) as [r|]; [|done].
      destruct (relevant !! r) as [s|] eqn:Hs; [|done].
      injection Hcase2 as <-. simpl.
      split_and!; try done. intros _. split_and!; try done.
      exists s. split; [by eapply list_elem_of_lookup_2|done].
    - subst row1 row2. split_and!; done. }
  assert (k ∈ np_where
                (map (fun row => bool_decide (tornado_id_of row = tid))
                   table2)
          <-> tornado_id_of row = tid) as Hmine.
  { rewrite elem_of_np_where. split.
    - intros (x & Hx & Hid). assert (x = row2) as -> by congruence.
      apply bool_decide_eq_true in Hid. congruence.
    - intros Hid. exists row2. split; [done|].
      apply bool_decide_eq_true. congruence. }
  assert (k ∈ rows ->
          tornado_id_of row = tid
          /\ is_nan (linkage_distance_metres row) = true) as Hunlinked.
  { intros Hin. apply Hrows, elem_of_np_where in Hin as (x & Hx & Hflags).
    assert (x = row) as -> by congruence.
    apply andb_true_iff in Hflags as [Hid Hnan].
    by apply bool_decide_eq_true in Hid. }
  assert (forall s, s ∈ relevant -> s ∈ storm_object_table) as Hstorms.
  { intros s Hs. by eapply iloc_subset. }
  unfold linkage_finished.
  destruct (decide (k ∈ np_where _)) as [Hassigned|Hother].
  - injection Hcase3 as <-. apply Hmine in Hassigned.
    unfold tornado_id_of in *. simpl. rewrite Hattr2.
    split_and!; try done.
    destruct (decide (k ∈ rows)) as [Hin|Hout].
    + right. destruct (Hunlinked Hin) as [_ Hnan].
      destruct (Hin2 Hin) as (Hd & Ht & s & Hs & Hsid).
      split_and!; try done. exists s. split; [by apply Hstorms|done].
    + left. by rewrite (Hout2 Hout).
  - subst row'. assert (tornado_id_of row <> tid) as Hne.
    { intros Hid. by apply Hother, Hmine. }
    assert (k ∉ rows) as Hout.
    { intros Hin. by destruct (Hunlinked Hin). }
    rewrite (Hout2 Hout). split_and!; try done. by left.
Qed.

End TornadoOccurrenceFacts.

Lemma np_take_lookup {A} (values : list A) (indices : list nat) :
  (forall k, k ∈ indices -> (k < length values)%nat) ->
  forall p, np_take values indices !! p = indices !! p ≫= (values !!.).
Proof.
  unfold np_take. induction indices as [|k indices IH]; intros Hrange p;
    [done|].
  simpl. destruct (lookup_lt_is_Some_2 values k) as [x Hx];
    [apply Hrange; set_solver|].
  rewrite Hx. destruct p as [|p]; simpl; [done|].
  apply IH. intros. apply Hrange. set_solver.
Qed.

Lemma strictly_sorted_lookup_lt (l : list Z) (a b : nat) (x y : Z) :
  StronglySorted Z.lt l -> (a < b)%nat ->
  l !! a = Some x -> l !! b = Some y -> (x < y)%Z.
Proof.
  intros Hs. revert a b. induction Hs as [|z l Hs IH Hz]; intros a b Hab;
    [done|].
  destruct b as [|b]; [lia|]. destruct a as [|a]; simpl.
  - intros [= <-] Hy. apply list_elem_of_lookup_2 in Hy.
    by eapply Forall_forall in Hz.
  - apply IH. lia.
Qed.

Section TornadoOccurrenceTrigger.
Variable argsort : list Z -> list nat.
Variable find_successors : predecessor_walk.

(** [numpy.argsort] puts the unlinked track segments of the tornado in
    the order of their times, which are all different. *)
Definition segments_sorted_by_time
  (tornado_to_storm_table : list (EventRow TornadoAttributes))
  (tornado_id_string : string) : Prop :=
  let unlinked :=
    np_where
      (map (fun row =>
              bool_decide (tornado_id_of row = tornado_id_string)
              && is_nan (linkage_distance_metres row))
         tornado_to_storm_table) in
  forall sorted_rows,
    iloc unlinked
      (argsort (np_take (map unix_time_sec tornado_to_storm_table) unlinked))
    = Some sorted_rows ->
    Permutation sorted_rows unlinked
    /\ StronglySorted Z.lt
         (np_take (map unix_time_sec tornado_to_storm_table) sorted_rows).

(** X21. The track segment for which [_finish_tornado_linkage] is called
    is itself linked by the call: if that segment was not linked before
    and the unlinked segments of its tornado have different times, which
    [numpy.argsort] puts in increasing order, then in the returned table
    the segment has the given linkage distance, its own event time as
    nearest-storm time, a nearest storm, and the assigned flag. *)
Theorem finish_tornado_linkage_links_the_segment
  (storm_object_table : list StormObject)
  (tornado_to_storm_table new_table : list (EventRow TornadoAttributes))
  (tornado_row : nat) (this_row : EventRow TornadoAttributes)
  (nearest_id : string) (nearest_time_unix_sec : Z)
  (nearest_distance_metres : linkage_distance) :
  tornado_to_storm_table !! tornado_row = Some this_row ->
  is_nan (linkage_distance_metres this_row) = true ->
  segments_sorted_by_time tornado_to_storm_table (tornado_id_of this_row) ->
  _finish_tornado_linkage argsort find_successors storm_object_table
    tornado_to_storm_table tornado_row nearest_id nearest_time_unix_sec
    nearest_distance_metres = Some new_table ->
  exists row',
    new_table !! tornado_row = Some row'
    /\ linkage_distance_metres row' = nearest_distance_metres
    /\ nearest_storm_time_unix_sec row' = unix_time_sec this_row
    /\ is_Some (nearest_secondary_id_string row')
    /\ tornado_assigned_flag (event_attributes row') = true.
Proof.
  intros Hthis Hnan Hsorted. unfold _finish_tornado_linkage. rewrite Hthis.
  unfold segments_sorted_by_time in Hsorted.
  set (tid := tornado_id_of this_row) in *.
  set (times := map unix_time_sec tornado_to_storm_table) in *.
  set (unlinked :=
         np_where
           (map (fun row => bool_decide (tornado_id_of row = tid)
                            && is_nan (linkage_distance_metres row))
              tornado_to_storm_table)) in *.
  destruct (iloc unlinked _) as [sorted_rows|] eqn:Hiloc; [|done].
  destruct (Hsorted sorted_rows eq_refl) as [Hperm Hstrict].
  destruct (np_argmin _ _) as [this_subrow|]; [|done].
  destruct (_ !! this_subrow) as [main_row|]; [|done].
  destruct (iloc storm_object_table _) as [relevant|]; [|done].
  destruct (map valid_time_unix_sec relevant) as [|t0 ts]; [done|].
  set (first_good := Z.min _ _). set (last_good := Z.max _ _).
  set (T := np_take times sorted_rows) in *.
  set (first_subrow := default 0%nat _).
  set (last_subrow := default _ _).
  set (rows := drop _ (take _ sorted_rows)).
  assert (tornado_row ∈ unlinked) as Hunlinked.
  { apply elem_of_np_where. exists this_row. split; [done|].
    rewrite Hnan, bool_decide_eq_true_2; done. }
  assert (forall k, k ∈ sorted_rows -> (k < length times)%nat) as Hrange.
  { intros k Hk. rewrite Hperm in Hk.
    apply elem_of_np_where in Hk as (x & Hx & _).
    unfold times. rewrite length_map. by eapply lookup_lt_Some. }
  assert (tornado_row ∈ sorted_rows) as Hin by by rewrite Hperm.
  apply list_elem_of_lookup in Hin as [p Hp].
  assert (T !! p = Some (unix_time_sec this_row)) as HTp.
  { unfold T. rewrite np_take_lookup, Hp by done. simpl.
    unfold times. by rewrite map_lookup, Hthis. }
  assert (first_good <= unix_time_sec this_row <= last_good)%Z as Hspan.
  { unfold first_good, last_good. lia. }
  assert (first_subrow <= p)%nat as Hfirst.
  { unfold first_subrow.
    destruct (last _) as [f|] eqn:Hlast; simpl; [|lia].
    apply last_Some in Hlast as [l' Hl'].
    assert (f ∈ np_where (map (fun t => (t <=? first_good)%Z) T)) as Hf.
    { rewrite Hl'. set_solver. }
    apply elem_of_np_where in Hf as (x & Hx & Hle). apply Z.leb_le in Hle.
    destruct (decide (p < f)%nat) as [Hlt|]; [|lia].
    pose proof (strictly_sorted_lookup_lt _ _ _ _ _ Hstrict Hlt HTp Hx).
    lia. }
  assert (p <= last_subrow)%nat as Hlast.
  { unfold last_subrow.
    destruct (head _) as [l|] eqn:Hhead; simpl.
    - assert (l ∈ np_where (map (fun t => (last_good <=? t)%Z) T)) as Hl.
      { apply head_Some in Hhead as [l' Hl']. rewrite Hl'. set_solver. }
      apply elem_of_np_where in Hl as (y & Hy & Hle). apply Z.leb_le in Hle.
      destruct (decide (l < p)%nat) as [Hlt|]; [|lia].
      pose proof (strictly_sorted_lookup_lt _ _ _ _ _ Hstrict Hlt Hy HTp).
      lia.
    - apply lookup_lt_Some in Hp. lia. }
  assert (tornado_row ∈ rows) as Hrows.
  { unfold rows. apply (list_elem_of_lookup_2 _ (p - first_subrow)).
    rewrite lookup_drop, lookup_take_Some. split; [|lia].
    by replace (first_subrow + (p - first_subrow))%nat with p by lia. }
  destruct (for_each (set_row _) rows _) as [table1|] eqn:Hpass1; [|done].
  destruct (for_each (link_one_segment _) rows _) as [table2|] eqn:Hpass2;
    [|done].
  intros Hpass3.
  rewrite (for_each_ext _ _ _ _ (set_row_update _)) in Hpass1.
  rewrite (for_each_ext _ _ _ _ (set_row_update _)) in Hpass3.
  rewrite (for_each_ext _ _ _ _ (link_one_segment_update _)) in Hpass2.
  apply for_each_update_row in Hpass1 as [_ Hrows1];
    [|by intros x y [= <-]].
  apply for_each_update_row in Hpass2 as [_ Hrows2];
    [|apply nearest_in_time_idempotent].
  apply for_each_update_row in Hpass3 as [_ Hrows3];
    [|by intros x y [= <-]].
  destruct (Hrows1 _ _ Hthis) as (row1 & Hrow1 & Hcase1).
  destruct (Hrows2 _ _ Hrow1) as (row2 & Hrow2 & Hcase2).
  destruct (Hrows3 _ _ Hrow2) as (row3 & Hrow3 & Hcase3).
  exists row3. split; [done|].
  destruct (decide (tornado_row ∈ rows)) as [_|]; [|done].
  injection Hcase1 as <-. unfold nearest_in_time in Hcase2.
  destruct (np_argmin _ _) as [r|]; [|done].
  destruct (relevant !! r) as [s|]; [|done].
  injection Hcase2 as <-.
  destruct (decide (_ ∈ np_where _)) as [_|Hother].
  - injection Hcase3 as <-. split_and!; done.
  - exfalso. apply Hother, elem_of_np_where.
    eexists. split; [exact Hrow2|]. by apply bool_decide_eq_true.
Qed.

End TornadoOccurrenceTrigger.

(** [numpy.argsort] as a stable insertion sort of the positions; numpy
    promises this order only where the keys differ. *)
Fixpoint insert_position (keys : list Z) (i : nat) (sorted : list nat)
  : list nat :=
  match sorted with
  | [] => [i]
  | j :: rest =>
      if (default 0 (keys !! i) <? default 0 (keys !! j))%Z
      then i :: j :: rest
      else j :: insert_position keys i rest
  end.

Definition np_argsort (keys : list Z) : list nat :=
  fold_left (fun sorted i => insert_position keys i sorted)
    (seq 0 (length keys)) [].

(** Modelled from the spec: [temporal_tracking.find_successors], the
    time-forward counterpart of [find_predecessors], on a table in which
    every storm cell is one unbranched segment. *)
Definition find_successors_one_segment : predecessor_walk :=
  fun table target_row _ _ _ return_all_on_path =>
    match table !! target_row with
    | None => []
    | Some target =>
        np_where
          (imap
             (fun k s =>
                bool_decide (secondary_id_string s
                             = secondary_id_string target)
                && ((valid_time_unix_sec target <? valid_time_unix_sec s)%Z
                    || (return_all_on_path && (k =? target_row)%nat)))
             table)
    end.

(** One track segment of a tornado, not linked to any storm. *)
Definition track_segment (id : string) (time : Z)
  : EventRow TornadoAttributes :=
  {| unix_time_sec := time; latitude_deg := 35; longitude_deg := 263;
     nearest_secondary_id_string := None;
     nearest_storm_time_unix_sec := -1;
     linkage_distance_metres := NaN;
     event_attributes :=
       {| tornado_id_string := id; f_or_ef_rating := "EF1";
          tornado_assigned_flag := false |} |}.

(** Tornado "T1" in three segments, recorded out of order, and tornado
    "T2". *)
Definition tornado_tracks : list (EventRow TornadoAttributes) :=
  [ track_segment "T1" 160; track_segment "T2" 500; track_segment "T1" 100;
    track_segment "T1" 220 ].

(** Linking the segment of "T1" at time 100 to cell "A" links all three
    segments of "T1", each at its own time, and leaves "T2" alone. *)
Example finish_tornado_linkage_tracks :
  option_map
    (map (fun row => (nearest_secondary_id_string row,
                      nearest_storm_time_unix_sec row,
                      is_nan (linkage_distance_metres row),
                      tornado_assigned_flag (event_attributes row))))
    (_finish_tornado_linkage np_argsort find_successors_one_segment
       two_snapshots tornado_tracks 2 "A" 100 (Root 400))
  = Some [ (Some "A", 160%Z, false, true); (None, (-1)%Z, true, false);
           (Some "A", 100%Z, false, true); (Some "A", 220%Z, false, true) ].
Proof. vm_compute. reflexivity. Qed.

Lemma finish_tornado_linkage_frame_witness :
  length
    (default []
       (_finish_tornado_linkage np_argsort find_successors_one_segment
          two_snapshots tornado_tracks 2 "A" 100 (Root 400)))
  = length tornado_tracks
  /\ forall k row, tornado_tracks !! k = Some row ->
       exists row',
         default []
           (_finish_tornado_linkage np_argsort find_successors_one_segment
              two_snapshots tornado_tracks 2 "A" 100 (Root 400)) !! k
         = Some row'
         /\ linkage_finished two_snapshots "T1" (Root 400) row row'.
Proof.
  apply (finish_tornado_linkage_frame np_argsort find_successors_one_segment
           two_snapshots tornado_tracks _ 2 (track_segment "T1" 100) "A" 100
           (Root 400)).
  - reflexivity.
  - vm_compute. reflexivity.
Defined.

Lemma finish_tornado_linkage_links_the_segment_witness :
  exists row',
    default []
      (_finish_tornado_linkage np_argsort find_successors_one_segment
         two_snapshots tornado_tracks 2 "A" 100 (Root 400)) !! 2%nat
    = Some row'
    /\ linkage_distance_metres row' = Root 400
    /\ nearest_storm_time_unix_sec row' = 100%Z
    /\ is_Some (nearest_secondary_id_string row')
    /\ tornado_assigned_flag (event_attributes row') = true.
Proof.
  apply (finish_tornado_linkage_links_the_segment np_argsort
           find_successors_one_segment two_snapshots tornado_tracks _ 2
           (track_segment "T1" 100) "A" 100 (Root 400)).
  - reflexivity.
  - reflexivity.
  - intros sorted_rows Hsorted. vm_compute in Hsorted.
    injection Hsorted as <-. split.
    + apply perm_swap.
    + vm_compute. repeat constructor.
  - vm_compute. reflexivity.
Defined.

(** ** Nearest storms for events at different times *)

(** [numpy.round(x).astype(int)]: the nearest integer, a tie going to the
    even one. *)
Definition np_round (x : Q) : Z :=
  let below := Qfloor x in
  let rest := (x - inject_Z below)%Q in
  if Qlt_bool rest (1 # 2) then below
  else if Qlt_bool (1 # 2) rest then (below + 1)%Z
  else if Z.even below then below else (below + 1)%Z.

(** [numpy.argmax(a)]: position of the first maximum; ValueError ([None])
    on an empty array. *)
Definition np_argmax (a : list Z) : option nat := np_argmin Z.gtb a.

Definition LARGE_DISTANCE_METRES : Q := 1000000000000.

(** An event not linked to any storm, as the event table starts out. *)
Definition with_no_linkage (row : EventRow TornadoAttributes)
  : EventRow TornadoAttributes :=
  {| unix_time_sec := unix_time_sec row;
     latitude_deg := latitude_deg row;
     longitude_deg := longitude_deg row;
     nearest_secondary_id_string := None;
     nearest_storm_time_unix_sec := -1;
     linkage_distance_metres := NaN;
     event_attributes := event_attributes row |}.

Definition with_tornado_unassigned (row : EventRow TornadoAttributes)
  : EventRow TornadoAttributes :=
  {| unix_time_sec := unix_time_sec row;
     latitude_deg := latitude_deg row;
     longitude_deg := longitude_deg row;
     nearest_secondary_id_string := nearest_secondary_id_string row;
     nearest_storm_time_unix_sec := nearest_storm_time_unix_sec row;
     linkage_distance_metres := linkage_distance_metres row;
     event_attributes :=
       {| tornado_id_string := tornado_id_string (event_attributes row);
          f_or_ef_rating := f_or_ef_rating (event_attributes row);
          tornado_assigned_flag := false |} |}.

Section NearestStormsOverTime.

(** Collaborators outside this module. *)
Variable point_in_or_on_polygon : list (Q * Q) -> Q -> Q -> bool.
Variable find_immediate_predecessors : neighbour_lookup.
Variable find_immediate_successors : neighbour_lookup.
Variable interp_in_time : time_interpolator.
Variable argsort : list Z -> list nat.
Variable find_successors : predecessor_walk.

(** [number_rounding.round_to_nearest]. *)
Variable round_to_nearest : Z -> Z -> Q.

(** The defaults of [max_num_sec_id_changes] and [change_type_string] in
    [temporal_tracking.find_successors]. *)
Variable DEFAULT_MAX_NUM_SEC_ID_CHANGES : nat.
Variable DEFAULT_CHANGE_TYPE : change_type.

(** The event table is given by its rows and by its columns
    [x_coord_metres] and [y_coord_metres]. *)
Variable event_x_coords_metres : list Q.
Variable event_y_coords_metres : list Q.

(** [_link_tornado_to_new_storm]. *)
Definition _link_tornado_to_new_storm (storm_object_table : list StormObject)
  (tornado_to_storm_table : list (EventRow TornadoAttributes))
  (tornado_row : nat)
  (max_time_before_storm_start_sec max_time_after_storm_end_sec : Z)
  : option (list (EventRow TornadoAttributes)) :=
  match tornado_to_storm_table !! tornado_row with
  | None => None
  | Some this_row =>
  let event_time_unix_sec := unix_time_sec this_row in
  let tornado_rows :=
    np_where
      (map (fun row =>
              bool_decide (tornado_id_of row = tornado_id_of this_row)
              && bool_decide (is_Some (nearest_secondary_id_string row)))
         tornado_to_storm_table) in
  match
    np_argmax (np_take (map unix_time_sec tornado_to_storm_table)
                 tornado_rows)
  with
  | None => None
  | Some this_subrow =>
  match tornado_rows !! this_subrow with
  | None => None
  | Some last_assigned_event_row =>
  match
    tornado_to_storm_table !! last_assigned_event_row
      ≫= nearest_secondary_id_string
  with
  | None => None
  | Some last_assigned_sec_id_string =>
  let last_assigned_cell_rows :=
    np_where
      (map (fun s =>
              bool_decide (secondary_id_string s
                           = last_assigned_sec_id_string))
         storm_object_table) in
  match
    np_argmax (np_take (map valid_time_unix_sec storm_object_table)
                 last_assigned_cell_rows)
  with
  | None => None
  | Some this_subrow =>
  match last_assigned_cell_rows !! this_subrow with
  | None => None
  | Some last_assigned_object_row =>
  let relevant_object_rows :=
    find_successors storm_object_table last_assigned_object_row
      LARGE_INTEGER DEFAULT_MAX_NUM_SEC_ID_CHANGES DEFAULT_CHANGE_TYPE true in
  match iloc (map secondary_id_string storm_object_table)
          relevant_object_rows with
  | None => None
  | Some these_id_strings =>
  let relevant_sec_id_strings := np_unique these_id_strings in
  match
    _interp_storms_in_time find_immediate_predecessors
      find_immediate_successors interp_in_time storm_object_table
      event_time_unix_sec max_time_before_storm_start_sec
      max_time_after_storm_end_sec
  with
  | None => None
  | Some interp_vertex_table =>
  let interp_vertex_table :=
    List.filter
      (fun v => bool_decide (vertex_secondary_id_string v
                             ∈ relevant_sec_id_strings))
      interp_vertex_table in
  match iloc event_x_coords_metres [tornado_row],
        iloc event_y_coords_metres [tornado_row] with
  | Some these_x_coords, Some these_y_coords =>
  match
    _find_nearest_storms_one_time point_in_or_on_polygon interp_vertex_table
      these_x_coords these_y_coords LARGE_DISTANCE_METRES
      DEFAULT_MAX_POLYGON_ATTEMPT_DISTANCE_METRES
  with
  | Some (Some nearest_id :: _, nearest_distance_metres :: _) =>
      _finish_tornado_linkage argsort find_successors storm_object_table
        tornado_to_storm_table tornado_row nearest_id event_time_unix_sec
        nearest_distance_metres
  | Some (None :: _, _) => Some tornado_to_storm_table
  | _ => None
  end
  | _, _ => None
  end end end end end end end end end.

(** Body of the loop over [j] for events other than tornado occurrence:
    the nearest storm and its time go into row [k]. *)
Definition record_nearest_storm (this_interp_time_unix_sec : Z)
  (table : list (EventRow TornadoAttributes))
  (entry : nat * option string)
  : option (list (EventRow TornadoAttributes)) :=
  match snd entry with
  | None => Some table
  | Some nearest_id =>
      set_row (with_nearest_storm nearest_id this_interp_time_unix_sec)
        table (fst entry)
  end.

(** Body of the loop over [j] for tornado occurrence. *)
Definition finish_linked_tornado (storm_object_table : list StormObject)
  (this_interp_time_unix_sec : Z)
  (table : list (EventRow TornadoAttributes))
  (entry : nat * (option string * linkage_distance))
  : option (list (EventRow TornadoAttributes)) :=
  match fst (snd entry) with
  | None => Some table
  | Some nearest_id =>
      _finish_tornado_linkage argsort find_successors storm_object_table
        table (fst entry) nearest_id this_interp_time_unix_sec
        (snd (snd entry))
  end.

(** Body of the first loop over the unique interpolation times. *)
Definition link_events_at_one_time (storm_object_table : list StormObject)
  (max_time_before_storm_start_sec max_time_after_storm_end_sec : Z)
  (max_link_distance_metres : Q) (tornado : bool)
  (unique_interp_times_unix_sec : list Z) (orig_to_unique_indices : list nat)
  (event_table : list (EventRow TornadoAttributes)) (i : nat)
  : option (list (EventRow TornadoAttributes)) :=
  let these_event_rows :=
    if tornado then
      np_where
        (zip_with andb
           (map (fun u => Nat.eqb u i) orig_to_unique_indices)
           (map (fun row =>
                   bool_decide (nearest_secondary_id_string row = None)
                   && negb (tornado_assigned_flag (event_attributes row)))
              event_table))
    else np_where (map (fun u => Nat.eqb u i) orig_to_unique_indices) in
  if decide (length these_event_rows = 0%nat) then Some event_table
  else
    match unique_interp_times_unix_sec !! i with
    | None => None
    | Some this_interp_time_unix_sec =>
    match
      _interp_storms_in_time find_immediate_predecessors
        find_immediate_successors interp_in_time storm_object_table
        this_interp_time_unix_sec max_time_before_storm_start_sec
        max_time_after_storm_end_sec
    with
    | None => None
    | Some this_interp_vertex_table =>
    match iloc event_x_coords_metres these_event_rows,
          iloc event_y_coords_metres these_event_rows with
    | Some these_x_coords, Some these_y_coords =>
    match
      _find_nearest_storms_one_time point_in_or_on_polygon
        this_interp_vertex_table these_x_coords these_y_coords
        max_link_distance_metres DEFAULT_MAX_POLYGON_ATTEMPT_DISTANCE_METRES
    with
    | None => None
    | Some (these_nearest_id_strings, these_link_distances_metres) =>
        if tornado then
          for_each
            (finish_linked_tornado storm_object_table
               this_interp_time_unix_sec)
            (zip these_event_rows
               (zip these_nearest_id_strings these_link_distances_metres))
            event_table
        else
          match
            for_each
              (fun table entry =>
                 set_row (with_linkage_distance (snd entry)) table
                   (fst entry))
              (zip these_event_rows these_link_distances_metres)
              event_table
          with
          | None => None
          | Some event_table =>
              for_each (record_nearest_storm this_interp_time_unix_sec)
                (zip these_event_rows these_nearest_id_strings) event_table
          end
    end
    | _, _ => None
    end end end.

(** Body of the second loop over the unique interpolation times, run for
    tornado occurrence only. *)
Definition link_tornadoes_to_new_storms
  (storm_object_table : list StormObject)
  (max_time_before_storm_start_sec max_time_after_storm_end_sec : Z)
  (orig_to_unique_indices : list nat)
  (event_table : list (EventRow TornadoAttributes)) (i : nat)
  : option (list (EventRow TornadoAttributes)) :=
  let these_event_rows :=
    np_where
      (zip_with andb
         (map (fun u => Nat.eqb u i) orig_to_unique_indices)
         (map (fun row =>
                 bool_decide (nearest_secondary_id_string row = None)
                 && tornado_assigned_flag (event_attributes row))
            event_table)) in
  for_each
    (fun table j =>
       _link_tornado_to_new_storm storm_object_table table j
         max_time_before_storm_start_sec max_time_after_storm_end_sec)
    these_event_rows event_table.

(** [_find_nearest_storms] on a table of tornado events (genesis points
    or track segments): the table with its three linkage columns, or
    [None] when a step raises. *)
Definition _find_nearest_storms (storm_object_table : list StormObject)
  (event_table : list (EventRow TornadoAttributes))
  (max_time_before_storm_start_sec max_time_after_storm_end_sec
     interp_time_interval_sec : Z)
  (max_link_distance_metres : Q) (event_type_string : string)
  : option (list (EventRow TornadoAttributes)) :=
  let tornado := bool_decide (event_type_string = TORNADO_EVENT_STRING) in
  let event_table := map with_no_linkage event_table in
  let event_table :=
    if tornado then map with_tornado_unassigned event_table
    else event_table in
  let interp_times_unix_sec :=
    map (fun row =>
           np_round (round_to_nearest (unix_time_sec row)
                       interp_time_interval_sec))
      event_table in
  let unique_interp_times_unix_sec := np_unique interp_times_unix_sec in
  let orig_to_unique_indices := np_unique_inverse interp_times_unix_sec in
  let num_unique_interp_times := length unique_interp_times_unix_sec in
  match
    for_each
      (link_events_at_one_time storm_object_table
         max_time_before_storm_start_sec max_time_after_storm_end_sec
         max_link_distance_metres tornado unique_interp_times_unix_sec
         orig_to_unique_indices)
      (seq 0 num_unique_interp_times) event_table
  with
  | None => None
  | Some event_table =>
      match
        if tornado then
          for_each
            (link_tornadoes_to_new_storms storm_object_table
               max_time_before_storm_start_sec max_time_after_storm_end_sec
               orig_to_unique_indices)
            (seq 0 num_unique_interp_times) event_table
        else Some event_table
      with
      | None => None
      | Some event_table =>
          (* numpy.min of the storm centroids' latitudes *)
          match storm_object_table with
          | [] => None
          | _ :: _ => Some event_table
          end
      end
  end.

End NearestStormsOverTime.

(** Modelled from the spec: [number_rounding.round_to_nearest], the
    nearest multiple of the rounding base. *)
Definition round_to_nearest_multiple (x base : Z) : Q :=
  inject_Z (base * np_round (inject_Z x / inject_Z base))%Z.

(** Two tornadogenesis events near time 100: "T1" inside the outline of
    cell "A" as interpolated to time 100, "T2" 450 m away from it. *)
Example find_nearest_storms_two_events :
  option_map
    (map (fun row => (nearest_secondary_id_string row,
                      nearest_storm_time_unix_sec row,
                      is_nan (linkage_distance_metres row))))
    (_find_nearest_storms point_in_or_on_polygon_model
       find_immediate_predecessors_model find_immediate_successors_model
       interp_in_time_linear np_argsort find_successors_one_segment
       round_to_nearest_multiple 0 ANY_CHANGE [30; 500]%Q [0; 0]%Q
       two_snapshots [ track_segment "T1" 98; track_segment "T2" 104 ]
       300 300 10 50 TORNADOGENESIS_EVENT_STRING)
  = Some [ (Some "A", 100%Z, false); (None, (-1)%Z, true) ].
Proof. vm_compute. reflexivity. Qed.

(** The same two events as track segments of tornadoes. *)
Example find_nearest_storms_two_segments :
  option_map
    (map (fun row => (nearest_secondary_id_string row,
                      nearest_storm_time_unix_sec row,
                      is_nan (linkage_distance_metres row),
                      tornado_assigned_flag (event_attributes row))))
    (_find_nearest_storms point_in_or_on_polygon_model
       find_immediate_predecessors_model find_immediate_successors_model
       interp_in_time_linear np_argsort find_successors_one_segment
       round_to_nearest_multiple 0 ANY_CHANGE [30; 500]%Q [0; 0]%Q
       two_snapshots [ track_segment "T1" 98; track_segment "T2" 104 ]
       300 300 10 50 TORNADO_EVENT_STRING)
  = Some [ (Some "A", 98%Z, false, true); (None, (-1)%Z, true, false) ].
Proof. vm_compute. reflexivity. Qed.

(** A loop that changes the row named by each entry, or skips the
    entry. *)
Definition keyed_update {A V} (change : V -> option (A -> A))
  (table : list A) (entry : nat * V) : option (list A) :=
  match change (snd entry) with
  | None => Some table
  | Some f => set_row f table (fst entry)
  end.

Lemma for_each_keyed_update {A V} (change : V -> option (A -> A))
  (entries : list (nat * V)) :
  NoDup (map fst entries) ->
  forall t t',
    for_each (keyed_update change) entries t = Some t' ->
    length t' = length t
    /\ (forall p k v, entries !! p = Some (k, v) ->
          t' !! k = default (fun row => row) (change v) <$> t !! k)
    /\ (forall k, k ∉ map fst entries -> t' !! k = t !! k).
Proof.
  induction entries as [|[k0 v0] entries IH]; intros Hnodup t t'; simpl.
  - intros [= <-]. split; [done|]. split; [done|]. done.
  - apply NoDup_cons in Hnodup as [Hk0 Hnodup].
    destruct (keyed_update change t (k0, v0)) as [t1|] eqn:Hstep; [|done].
    intros Hrest. destruct (IH Hnodup _ _ Hrest) as (Hlen & Hin & Hout).
    assert (length t1 = length t
            /\ t1 !! k0 = default (fun row => row) (change v0) <$> t !! k0
            /\ forall k, k <> k0 -> t1 !! k = t !! k) as (Hlen1 & Hk & Hne).
    { unfold keyed_update, set_row in Hstep. simpl in Hstep.
      destruct (change v0) as [f|]; simpl.
      - destruct (t !! k0) as [r0|] eqn:Hr0; [|done].
        injection Hstep as <-. rewrite length_insert.
        split; [done|]. split.
        + simpl. apply list_lookup_insert_eq. by eapply lookup_lt_Some.
        + intros k Hkne. by apply list_lookup_insert_ne.
      - injection Hstep as <-. split; [done|]. split; [|done].
        by destruct (t !! k0). }
    split; [congruence|]. split.
    + intros [|p] k v; simpl.
      * intros [= <- <-]. rewrite Hout by done. done.
      * intros Hp. rewrite (Hin p k v Hp), Hne; [done|].
        intros ->. apply Hk0, list_elem_of_In, in_map_iff.
        exists (k0, v). split; [done|].
        by eapply list_elem_of_In, list_elem_of_lookup_2.
    + intros k Hnotin. rewrite Hout by set_solver. apply Hne. set_solver.
Qed.

Lemma np_where_from_ge (flags : list bool) (i k : nat) :
  k ∈ np_where_from i flags -> (i <= k)%nat.
Proof.
  revert i. induction flags as [|b flags IH]; intros i; simpl;
    [by intros ?%elem_of_nil|].
  destruct b.
  - intros [->|Hk%IH]%elem_of_cons; lia.
  - intros Hk%IH. lia.
Qed.

Lemma NoDup_np_where (flags : list bool) : NoDup (np_where flags).
Proof.
  unfold np_where. generalize 0%nat.
  induction flags as [|b flags IH]; intros i; simpl; [constructor|].
  destruct b; [|apply IH]. constructor; [|apply IH].
  intros Hi%np_where_from_ge. lia.
Qed.

Section NearestStormsFacts.

Variable point_in_or_on_polygon : list (Q * Q) -> Q -> Q -> bool.
Variable find_immediate_predecessors : neighbour_lookup.
Variable find_immediate_successors : neighbour_lookup.
Variable interp_in_time : time_interpolator.
Variable argsort : list Z -> list nat.
Variable find_successors : predecessor_walk.
Variable round_to_nearest : Z -> Z -> Q.
Variable DEFAULT_MAX_NUM_SEC_ID_CHANGES : nat.
Variable DEFAULT_CHANGE_TYPE : change_type.
Variable event_x_coords_metres : list Q.
Variable event_y_coords_metres : list Q.

Variable storm_object_table : list StormObject.
Variable max_time_before_storm_start_sec : Z.
Variable max_time_after_storm_end_sec : Z.
Variable interp_time_interval_sec : Z.
Variable max_link_distance_metres : Q.

(** The interpolation time of an event: its time rounded to the nearest
    multiple of the interval. *)
Definition rounded_time (row : EventRow TornadoAttributes) : Z :=
  np_round (round_to_nearest (unix_time_sec row) interp_time_interval_sec).

(** Row [row'] is row [row] with the linkage columns that the one-time
    matcher gives for the point [(x, y)] among the storms interpolated to
    the rounded time of the event. *)
Definition linked_at_rounded_time (row row' : EventRow TornadoAttributes)
  (x y : Q) : Prop :=
  exists interp_vertex_table,
    _interp_storms_in_time find_immediate_predecessors
      find_immediate_successors interp_in_time storm_object_table
      (rounded_time row) max_time_before_storm_start_sec
      max_time_after_storm_end_sec = Some interp_vertex_table
    /\ (nearest_secondary_id_string row', linkage_distance_metres row')
       = nearest_storm_one_event point_in_or_on_polygon interp_vertex_table
           (np_unique (map vertex_secondary_id_string interp_vertex_table))
           (np_unique_inverse
              (map vertex_secondary_id_string interp_vertex_table))
           max_link_distance_metres
           (py_max DEFAULT_MAX_POLYGON_ATTEMPT_DISTANCE_METRES
              (2 * max_link_distance_metres)) x y
    /\ nearest_storm_time_unix_sec row'
       = match nearest_secondary_id_string row' with
         | Some _ => rounded_time row
         | None => (-1)%Z
         end
    /\ unix_time_sec row' = unix_time_sec row
    /\ latitude_deg row' = latitude_deg row
    /\ longitude_deg row' = longitude_deg row
    /\ event_attributes row' = event_attributes row.

Variable event_table : list (EventRow TornadoAttributes).

Let unique_times : list Z := np_unique (map rounded_time event_table).
Let orig_to_unique : list nat :=
  np_unique_inverse (map rounded_time event_table).

(** State of the table before the iteration for the unique time [i]:
    events of earlier unique times are linked, the others untouched. *)
Definition linked_before (i : nat)
  (table : list (EventRow TornadoAttributes)) : Prop :=
  length table = length event_table
  /\ forall k row, event_table !! k = Some row ->
       exists row', table !! k = Some row'
         /\ if decide (index (rounded_time row) unique_times < i)%nat then
              exists x y,
                event_x_coords_metres !! k = Some x
                /\ event_y_coords_metres !! k = Some y
                /\ linked_at_rounded_time row row' x y
            else row' = with_no_linkage row.

Lemma orig_to_unique_lookup (k : nat) (row : EventRow TornadoAttributes) :
  event_table !! k = Some row ->
  orig_to_unique !! k = Some (index (rounded_time row) unique_times).
Proof.
  intros Hrow. unfold orig_to_unique, np_unique_inverse.
  rewrite !list_lookup_fmap, Hrow. done.
Qed.

Lemma unique_times_lookup (k : nat) (row : EventRow TornadoAttributes) :
  event_table !! k = Some row ->
  unique_times !! index (rounded_time row) unique_times
  = Some (rounded_time row).
Proof.
  intros Hrow. apply index_lookup, elem_of_np_unique, list_elem_of_fmap.
  exists row. split; [done|]. by eapply list_elem_of_lookup_2.
Qed.

Lemma link_events_at_one_time_step (i : nat)
  (table table' : list (EventRow TornadoAttributes)) :
  linked_before i table ->
  link_events_at_one_time point_in_or_on_polygon find_immediate_predecessors
    find_immediate_successors interp_in_time argsort find_successors
    event_x_coords_metres event_y_coords_metres storm_object_table
    max_time_before_storm_start_sec max_time_after_storm_end_sec
    max_link_distance_metres false unique_times orig_to_unique table i
  = Some table' ->
  linked_before (S i) table'.
Proof.
  intros [Hlen Hrows]. unfold link_events_at_one_time.
  set (rows := np_where (map (fun u => Nat.eqb u i) orig_to_unique)).
  assert (forall k row, event_table !! k = Some row ->
            k ∈ rows <-> index (rounded_time row) unique_times = i)
    as Hmember.
  { intros k row Hrow. unfold rows. rewrite elem_of_np_where.
    rewrite (orig_to_unique_lookup _ _ Hrow). split.
    - intros (u & [= <-] & Hu). by apply Nat.eqb_eq.
    - intros <-. eexists. split; [done|]. by apply Nat.eqb_eq. }
  destruct (decide (length rows = 0%nat)) as [Hnone|Hsome].
  { intros [= <-]. split; [done|]. intros k row Hrow.
    destruct (Hrows k row Hrow) as (row' & Hrow' & Hcase).
    exists row'. split; [done|].
    assert (index (rounded_time row) unique_times <> i) as Hne.
    { intros Hi. apply (Hmember _ _ Hrow) in Hi.
      apply nil_length_inv in Hnone. rewrite Hnone in Hi.
      by apply elem_of_nil in Hi. }
    destruct (decide (_ < i)%nat), (decide (_ < S i)%nat); try done; lia. }
  destruct (unique_times !! i) as [this_time|] eqn:Htime; [|done].
  destruct (_interp_storms_in_time _ _ _ _ _ _ _) as [vertices|] eqn:Hinterp;
    [|done].
  destruct (iloc event_x_coords_metres rows) as [xs|] eqn:Hxs; [|done].
  destruct (iloc event_y_coords_metres rows) as [ys|] eqn:Hys; [|done].
  destruct (_find_nearest_storms_one_time _ _ _ _ _ _)
    as [[ids dists]|] eqn:Hmatch; [|done].
  destruct (for_each _ (zip rows dists) table) as [table1|] eqn:Hpass1;
    [|done].
  intros Hpass2.
  rewrite (for_each_ext _
             (keyed_update (fun d => Some (with_linkage_distance d))))
    in Hpass1 by done.
  rewrite (for_each_ext _
             (keyed_update
                (fun id => (fun id => with_nearest_storm id this_time)
                           <$> id)))
    in Hpass2.
  2:{ intros s [k [id|]]; done. }
  destruct (iloc_lookup _ _ _ Hxs) as [Hxlen Hxlook].
  destruct (iloc_lookup _ _ _ Hys) as [Hylen Hylook].
  destruct (find_nearest_storms_inv _ _ _ _ _ _ _ _ Hmatch)
    as (Hidlen & Hdlen & _).
  apply for_each_keyed_update in Hpass1 as (Hlen1 & Hin1 & Hout1).
  2:{ rewrite fst_zip by lia. apply NoDup_np_where. }
  apply for_each_keyed_update in Hpass2 as (Hlen2 & Hin2 & Hout2).
  2:{ rewrite fst_zip by lia. apply NoDup_np_where. }
  rewrite fst_zip in Hout1 by lia. rewrite fst_zip in Hout2 by lia.
  split; [congruence|]. intros k row Hrow.
  destruct (Hrows k row Hrow) as (row' & Hrow' & Hcase).
  destruct (decide (index (rounded_time row) unique_times = i)) as [Hi|Hne].
  - pose proof Hi as Hk. apply (Hmember _ _ Hrow) in Hk.
    apply list_elem_of_lookup in Hk as [p Hp].
    destruct (Hxlook p k Hp) as [Hx [x Hxk]].
    destruct (Hylook p k Hp) as [Hy [y Hyk]].
    destruct (lookup_lt_is_Some_2 ids p) as [id Hid].
    { apply lookup_lt_Some in Hp. lia. }
    destruct (lookup_lt_is_Some_2 dists p) as [d Hd].
    { apply lookup_lt_Some in Hp. lia. }
    assert (zip rows dists !! p = Some (k, d)) as Hzd.
    { apply lookup_zip_with_Some. by exists k, d. }
    assert (zip rows ids !! p = Some (k, id)) as Hzi.
    { apply lookup_zip_with_Some. by exists k, id. }
    rewrite (Hin2 _ _ _ Hzi), (Hin1 _ _ _ Hzd), Hrow'.
    destruct (decide (_ < i)%nat) as [Hlt|_]; [lia|]. subst row'.
    eexists. split; [done|].
    destruct (decide (_ < S i)%nat) as [_|Hge]; [|lia].
    exists x, y. split; [done|]. split; [done|].
    assert (this_time = rounded_time row) as ->.
    { pose proof (unique_times_lookup _ _ Hrow) as Hu.
      rewrite Hi in Hu. congruence. }
    exists vertices. split; [done|]. split.
    + rewrite Hxk in Hx. rewrite Hyk in Hy.
      rewrite <- (find_nearest_storms_entry _ _ _ _ _ _ _ _ _ _ _ _ _
                    Hmatch Hx Hy Hid Hd).
      by destruct id.
    + by destruct id.
  - assert (k ∉ rows) as Hk by (by rewrite (Hmember _ _ Hrow)).
    rewrite (Hout2 _ Hk), (Hout1 _ Hk). exists row'. split; [done|].
    destruct (decide (_ < i)%nat), (decide (_ < S i)%nat); try done; lia.
Qed.

Lemma link_events_loop (n : nat) :
  forall (a : nat) (table table' : list (EventRow TornadoAttributes)),
    linked_before a table ->
    for_each
      (link_events_at_one_time point_in_or_on_polygon
         find_immediate_predecessors find_immediate_successors interp_in_time
         argsort find_successors event_x_coords_metres event_y_coords_metres
         storm_object_table max_time_before_storm_start_sec
         max_time_after_storm_end_sec max_link_distance_metres false
         unique_times orig_to_unique)
      (seq a n) table
    = Some table' ->
    linked_before (a + n) table'.
Proof.
  induction n as [|n IH]; intros a table table' Hinv; simpl.
  - intros [= <-]. by rewrite Nat.add_0_r.
  - destruct (link_events_at_one_time _ _ _ _ _ _ _ _ _ _ _ _ _ _ _ _ _)
      as [table1|] eqn:Hstep; [|done].
    intros Hrest. replace (a + S n)%nat with (S a + n)%nat by lia.
    eapply IH; [|done]. by eapply link_events_at_one_time_step.
Qed.

Lemma interp_times_of_reset_table :
  map (fun row =>
         np_round (round_to_nearest (unix_time_sec row)
                     interp_time_interval_sec))
    (map with_no_linkage event_table)
  = map rounded_time event_table.
Proof. rewrite map_map. by apply map_ext. Qed.

(** X22. For an event type other than tornado occurrence, when
    [_find_nearest_storms] returns, the table has one row per event, and
    row [k] is the event [k] with its own time, place and attributes and
    with the three linkage columns of the one-time matcher: storm and
    distance are those found for the event's point among the storms
    interpolated to the event's time rounded to the interpolation
    interval, and the storm time is that rounded time, or -1 when no storm
    is linked. *)
Theorem events_linked_at_rounded_times (event_type_string : string)
  (table' : list (EventRow TornadoAttributes)) :
  event_type_string <> TORNADO_EVENT_STRING ->
  _find_nearest_storms point_in_or_on_polygon find_immediate_predecessors
    find_immediate_successors interp_in_time argsort find_successors
    round_to_nearest DEFAULT_MAX_NUM_SEC_ID_CHANGES DEFAULT_CHANGE_TYPE
    event_x_coords_metres event_y_coords_metres storm_object_table
    event_table max_time_before_storm_start_sec max_time_after_storm_end_sec
    interp_time_interval_sec max_link_distance_metres event_type_string
  = Some table' ->
  length table' = length event_table
  /\ forall k row, event_table !! k = Some row ->
       exists row' x y,
         table' !! k = Some row'
         /\ event_x_coords_metres !! k = Some x
         /\ event_y_coords_metres !! k = Some y
         /\ linked_at_rounded_time row row' x y.
Proof.
  intros Htype. unfold _find_nearest_storms.
  rewrite (bool_decide_eq_false_2 _ Htype). cbv zeta.
  rewrite interp_times_of_reset_table.
  destruct (for_each _ _ _) as [table1|] eqn:Hloop; [|done].
  destruct storm_object_table as [|s storms] eqn:Hstorms; [done|].
  intros [= <-]. rewrite <- Hstorms in Hloop.
  apply (link_events_loop _ 0) in Hloop as [Hlen Hrows].
  - split; [done|]. intros k row Hrow.
    destruct (Hrows k row Hrow) as (row' & Hrow' & Hcase).
    destruct (decide (_ < _)%nat) as [_|Hge].
    + destruct Hcase as (x & y & Hx & Hy & Hlinked). by exists row', x, y.
    + exfalso. apply Hge. simpl.
      apply lookup_lt_Some with (x := rounded_time row).
      by eapply unique_times_lookup.
  - split; [by rewrite length_map|]. intros k row Hrow.
    exists (with_no_linkage row). rewrite list_lookup_fmap, Hrow.
    split; [done|]. destruct (decide (_ < 0)%nat); [lia|done].
Qed.

End NearestStormsFacts.

Lemma events_linked_at_rounded_times_witness :
  length
    (default []
       (_find_nearest_storms point_in_or_on_polygon_model
          find_immediate_predecessors_model find_immediate_successors_model
          interp_in_time_linear np_argsort find_successors_one_segment
          round_to_nearest_multiple 0 ANY_CHANGE [30; 500]%Q [0; 0]%Q
          two_snapshots [ track_segment "T1" 98; track_segment "T2" 104 ]
          300 300 10 50 TORNADOGENESIS_EVENT_STRING))
  = length [ track_segment "T1" 98; track_segment "T2" 104 ]
  /\ forall k row,
       [ track_segment "T1" 98; track_segment "T2" 104 ] !! k = Some row ->
       exists row' x y,
         default []
           (_find_nearest_storms point_in_or_on_polygon_model
              find_immediate_predecessors_model
              find_immediate_successors_model interp_in_time_linear
              np_argsort find_successors_one_segment
              round_to_nearest_multiple 0 ANY_CHANGE [30; 500]%Q [0; 0]%Q
              two_snapshots
              [ track_segment "T1" 98; track_segment "T2" 104 ]
              300 300 10 50 TORNADOGENESIS_EVENT_STRING) !! k
         = Some row'
         /\ [30; 500]%Q !! k = Some x
         /\ [0; 0]%Q !! k = Some y
         /\ linked_at_rounded_time point_in_or_on_polygon_model
              find_immediate_predecessors_model
              find_immediate_successors_model interp_in_time_linear
              round_to_nearest_multiple two_snapshots 300 300 10 50
              row row' x y.
Proof.
  apply (events_linked_at_rounded_times point_in_or_on_polygon_model
           find_immediate_predecessors_model find_immediate_successors_model
           interp_in_time_linear np_argsort find_successors_one_segment
           round_to_nearest_multiple 0 ANY_CHANGE [30; 500]%Q [0; 0]%Q
           two_snapshots 300 300 10 50
           [ track_segment "T1" 98; track_segment "T2" 104 ]
           TORNADOGENESIS_EVENT_STRING).
  - apply (bool_decide_unpack _). vm_compute. reflexivity.
  - vm_compute. reflexivity.
Defined.

(** ** The events themselves are never changed *)

(** Two rows describe the same event: same time, place, tornado ID and
    rating. *)
Definition same_event (row row' : EventRow TornadoAttributes) : Prop :=
  unix_time_sec row' = unix_time_sec row
  /\ latitude_deg row' = latitude_deg row
  /\ longitude_deg row' = longitude_deg row
  /\ tornado_id_of row' = tornado_id_of row
  /\ f_or_ef_rating (event_attributes row')
     = f_or_ef_rating (event_attributes row).

#[local] Instance same_event_reflexive : Reflexive same_event.
Proof. intros row. unfold same_event. split_and!; done. Qed.

#[local] Instance same_event_transitive : Transitive same_event.
Proof.
  intros a b c (? & ? & ? & ? & ?) (? & ? & ? & ? & ?).
  unfold same_event. split_and!; congruence.
Qed.

Lemma update_row_same_events
  (change : EventRow TornadoAttributes -> option (EventRow TornadoAttributes))
  (table table' : list (EventRow TornadoAttributes)) (k : nat) :
  (forall x y, change x = Some y -> same_event x y) ->
  update_row change table k = Some table' ->
  Forall2 same_event table table'.
Proof.
  intros Hchange. unfold update_row.
  destruct (table !! k) as [row|] eqn:Hrow; [|done].
  destruct (change row) as [row'|] eqn:Hrow'; [|done]. intros [= <-].
  rewrite <- (list_insert_id table k row) at 1 by done.
  apply Forall2_insert; [reflexivity|by apply Hchange].
Qed.

Lemma set_row_same_events
  (change : EventRow TornadoAttributes -> EventRow TornadoAttributes)
  (table table' : list (EventRow TornadoAttributes)) (k : nat) :
  (forall x, same_event x (change x)) ->
  set_row change table k = Some table' ->
  Forall2 same_event table table'.
Proof.
  intros Hchange. rewrite set_row_update. apply update_row_same_events.
  intros x y [= <-]. apply Hchange.
Qed.

Lemma for_each_same_events {A}
  (body : list (EventRow TornadoAttributes) -> A
          -> option (list (EventRow TornadoAttributes)))
  (items : list A) :
  (forall s x s', body s x = Some s' -> Forall2 same_event s s') ->
  forall s s', for_each body items s = Some s' -> Forall2 same_event s s'.
Proof.
  intros Hbody. induction items as [|x items IH]; intros s s'; simpl.
  - intros [= <-]. reflexivity.
  - destruct (body s x) as [s1|] eqn:Hstep; [|done]. intros Hrest.
    etrans; [by eapply Hbody|by apply IH].
Qed.

Section SameEvents.

Variable point_in_or_on_polygon : list (Q * Q) -> Q -> Q -> bool.
Variable find_immediate_predecessors : neighbour_lookup.
Variable find_immediate_successors : neighbour_lookup.
Variable interp_in_time : time_interpolator.
Variable argsort : list Z -> list nat.
Variable find_successors : predecessor_walk.
Variable round_to_nearest : Z -> Z -> Q.
Variable DEFAULT_MAX_NUM_SEC_ID_CHANGES : nat.
Variable DEFAULT_CHANGE_TYPE : change_type.
Variable event_x_coords_metres : list Q.
Variable event_y_coords_metres : list Q.

Lemma finish_tornado_linkage_same_events
  (storm_object_table : list StormObject)
  (table table' : list (EventRow TornadoAttributes)) (tornado_row : nat)
  (nearest_id : string) (nearest_time_unix_sec : Z)
  (nearest_distance_metres : linkage_distance) :
  _finish_tornado_linkage argsort find_successors storm_object_table table
    tornado_row nearest_id nearest_time_unix_sec nearest_distance_metres
  = Some table' ->
  Forall2 same_event table table'.
Proof.
  unfold _finish_tornado_linkage.
  destruct (table !! tornado_row) as [this_row|]; [|done].
  destruct (iloc _ _) as [sorted_rows|]; [|done].
  destruct (np_argmin _ _) as [this_subrow|]; [|done].
  destruct (_ !! this_subrow) as [main_row|]; [|done].
  destruct (iloc storm_object_table _) as [relevant|]; [|done].
  destruct (map valid_time_unix_sec relevant) as [|t0 ts]; [done|].
  destruct (for_each (set_row _) _ _) as [table1|] eqn:Hpass1; [|done].
  destruct (for_each (link_one_segment _) _ _) as [table2|] eqn:Hpass2;
    [|done].
  intros Hpass3.
  apply for_each_same_events in Hpass1.
  2:{ intros s x s'. apply set_row_same_events. intros row.
      unfold same_event. split_and!; done. }
  apply for_each_same_events in Hpass2.
  2:{ intros s x s'. rewrite link_one_segment_update.
      apply update_row_same_events. intros row row'.
      unfold nearest_in_time. destruct (np_argmin _ _); [|done].
      destruct (relevant !! _); [|done]. intros [= <-].
      unfold same_event. split_and!; done. }
  apply for_each_same_events in Hpass3.
  2:{ intros s x s'. apply set_row_same_events. intros row.
      unfold same_event. split_and!; done. }
  etrans; [done|]. etrans; done.
Qed.

Lemma link_tornado_to_new_storm_same_events
  (storm_object_table : list StormObject)
  (table table' : list (EventRow TornadoAttributes)) (tornado_row : nat)
  (max_time_before_storm_start_sec max_time_after_storm_end_sec : Z) :
  _link_tornado_to_new_storm point_in_or_on_polygon
    find_immediate_predecessors find_immediate_successors interp_in_time
    argsort find_successors DEFAULT_MAX_NUM_SEC_ID_CHANGES DEFAULT_CHANGE_TYPE
    event_x_coords_metres event_y_coords_metres storm_object_table table
    tornado_row max_time_before_storm_start_sec max_time_after_storm_end_sec
  = Some table' ->
  Forall2 same_event table table'.
Proof.
  unfold _link_tornado_to_new_storm.
  destruct (table !! tornado_row) as [this_row|]; [|done].
  destruct (np_argmax _) as [subrow1|]; [|done].
  destruct (_ !! subrow1) as [last_event_row|]; [|done].
  destruct (_ ≫= nearest_secondary_id_string) as [last_id|]; [|done].
  destruct (np_argmax _) as [subrow2|]; [|done].
  destruct (_ !! subrow2) as [last_object_row|]; [|done].
  destruct (iloc (map secondary_id_string _) _) as [ids|]; [|done].
  destruct (_interp_storms_in_time _ _ _ _ _ _ _) as [vertices|]; [|done].
  destruct (iloc event_x_coords_metres _) as [xs|]; [|done].
  destruct (iloc event_y_coords_metres _) as [ys|]; [|done].
  destruct (_find_nearest_storms_one_time _ _ _ _ _ _)
    as [[[|[id|] ids'] [|d dists']]|]; try done.
  - apply finish_tornado_linkage_same_events.
  - intros [= <-]. reflexivity.
  - intros [= <-]. reflexivity.
Qed.

Lemma link_events_at_one_time_same_events
  (storm_object_table : list StormObject)
  (max_time_before_storm_start_sec max_time_after_storm_end_sec : Z)
  (max_link_distance_metres : Q) (tornado : bool)
  (unique_interp_times_unix_sec : list Z) (orig_to_unique_indices : list nat)
  (table : list (EventRow TornadoAttributes)) (i : nat)
  (table' : list (EventRow TornadoAttributes)) :
  link_events_at_one_time point_in_or_on_polygon find_immediate_predecessors
    find_immediate_successors interp_in_time argsort find_successors
    event_x_coords_metres event_y_coords_metres storm_object_table
    max_time_before_storm_start_sec max_time_after_storm_end_sec
    max_link_distance_metres tornado unique_interp_times_unix_sec
    orig_to_unique_indices table i
  = Some table' ->
  Forall2 same_event table table'.
Proof.
  unfold link_events_at_one_time.
  destruct (decide (length _ = 0%nat)); [intros [= <-]; reflexivity|].
  destruct (unique_interp_times_unix_sec !! i) as [this_time|]; [|done].
  destruct (_interp_storms_in_time _ _ _ _ _ _ _) as [vertices|]; [|done].
  destruct (iloc event_x_coords_metres _) as [xs|]; [|done].
  destruct (iloc event_y_coords_metres _) as [ys|]; [|done].
  destruct (_find_nearest_storms_one_time _ _ _ _ _ _)
    as [[ids dists]|]; [|done].
  destruct tornado.
  - apply for_each_same_events. intros s [k [[id|] d]] s'.
    + apply finish_tornado_linkage_same_events.
    + intros [= <-]. reflexivity.
  - destruct (for_each _ (zip _ dists) table) as [table1|] eqn:Hpass1;
      [|done].
    intros Hpass2.
    apply for_each_same_events in Hpass1.
    2:{ intros s x s'. apply set_row_same_events. intros row.
        unfold same_event. split_and!; done. }
    apply for_each_same_events in Hpass2.
    2:{ intros s [k [id|]] s'.
        - apply set_row_same_events. intros row.
          unfold same_event. split_and!; done.
        - intros [= <-]. reflexivity. }
    etrans; done.
Qed.

(** X23. Linking never changes the events themselves: whatever the event
    type, when [_find_nearest_storms] returns, its table has one row per
    input event, in the same order, with the time, latitude, longitude,
    tornado ID and rating of that event. *)
Theorem find_nearest_storms_keeps_the_events
  (storm_object_table : list StormObject)
  (event_table table' : list (EventRow TornadoAttributes))
  (max_time_before_storm_start_sec max_time_after_storm_end_sec
     interp_time_interval_sec : Z)
  (max_link_distance_metres : Q) (event_type_string : string) :
  _find_nearest_storms point_in_or_on_polygon find_immediate_predecessors
    find_immediate_successors interp_in_time argsort find_successors
    round_to_nearest DEFAULT_MAX_NUM_SEC_ID_CHANGES DEFAULT_CHANGE_TYPE
    event_x_coords_metres event_y_coords_metres storm_object_table
    event_table max_time_before_storm_start_sec max_time_after_storm_end_sec
    interp_time_interval_sec max_link_distance_metres event_type_string
  = Some table' ->
  Forall2 same_event event_table table'.
Proof.
  unfold _find_nearest_storms.
  set (tornado := bool_decide (event_type_string = TORNADO_EVENT_STRING)).
  set (table0 := if tornado then _ else _).
  assert (Forall2 same_event event_table table0) as Hreset.
  { unfold table0. destruct tornado.
    - rewrite map_map. apply Forall2_fmap_r, Forall_Forall2_diag, Forall_true.
      intros row. unfold same_event. split_and!; done.
    - apply Forall2_fmap_r, Forall_Forall2_diag, Forall_true.
      intros row. unfold same_event. split_and!; done. }
  destruct (for_each _ _ table0) as [table1|] eqn:Hloop1; [|done].
  apply for_each_same_events in Hloop1.
  2:{ intros s i s'. apply link_events_at_one_time_same_events. }
  destruct (if tornado then for_each _ _ _ else _) as [table2|] eqn:Hloop2;
    [|done].
  destruct storm_object_table as [|storm storms]; [done|]. intros [= <-].
  etrans; [done|]. etrans; [done|].
  destruct tornado.
  - apply for_each_same_events in Hloop2; [done|].
    intros s i s'. unfold link_tornadoes_to_new_storms.
    apply for_each_same_events. intros t j t'.
    apply link_tornado_to_new_storm_same_events.
  - injection Hloop2 as <-. reflexivity.
Qed.

End SameEvents.

Lemma find_nearest_storms_keeps_the_events_witness :
  Forall2 same_event [ track_segment "T1" 98; track_segment "T2" 104 ]
    (default []
       (_find_nearest_storms point_in_or_on_polygon_model
          find_immediate_predecessors_model find_immediate_successors_model
          interp_in_time_linear np_argsort find_successors_one_segment
          round_to_nearest_multiple 0 ANY_CHANGE [30; 500]%Q [0; 0]%Q
          two_snapshots [ track_segment "T1" 98; track_segment "T2" 104 ]
          300 300 10 50 TORNADO_EVENT_STRING)).
Proof.
  apply (find_nearest_storms_keeps_the_events point_in_or_on_polygon_model
           find_immediate_predecessors_model find_immediate_successors_model
           interp_in_time_linear np_argsort find_successors_one_segment
           round_to_nearest_multiple 0 ANY_CHANGE [30; 500]%Q [0; 0]%Q
           two_snapshots _ _ 300 300 10 50 TORNADO_EVENT_STRING).
  vm_compute. reflexivity.
Defined.

(** X24. With an empty storm table [_find_nearest_storms] never returns a
    table: whatever the events and the event type, the call raises (at the
    latest in [numpy.min] over the storm centroids), where the one-time
    matcher would have left every event unlinked. *)
Theorem find_nearest_storms_raises_without_storms
  (point_in_or_on_polygon : list (Q * Q) -> Q -> Q -> bool)
  (find_immediate_predecessors find_immediate_successors : neighbour_lookup)
  (interp_in_time : time_interpolator) (argsort : list Z -> list nat)
  (find_successors : predecessor_walk) (round_to_nearest : Z -> Z -> Q)
  (DEFAULT_MAX_NUM_SEC_ID_CHANGES : nat) (DEFAULT_CHANGE_TYPE : change_type)
  (event_x_coords_metres event_y_coords_metres : list Q)
  (event_table : list (EventRow TornadoAttributes))
  (max_time_before_storm_start_sec max_time_after_storm_end_sec
     interp_time_interval_sec : Z)
  (max_link_distance_metres : Q) (event_type_string : string) :
  _find_nearest_storms point_in_or_on_polygon find_immediate_predecessors
    find_immediate_successors interp_in_time argsort find_successors
    round_to_nearest DEFAULT_MAX_NUM_SEC_ID_CHANGES DEFAULT_CHANGE_TYPE
    event_x_coords_metres event_y_coords_metres [] event_table
    max_time_before_storm_start_sec max_time_after_storm_end_sec
    interp_time_interval_sec max_link_distance_metres event_type_string
  = None.
Proof.
  unfold _find_nearest_storms.
  destruct (for_each _ _ _) as [table1|]; [|done].
  by destruct (if bool_decide _ then for_each _ _ _ else _).
Qed.
